(** * SpectraDigitizer: a shallow embedding of the numeric core

    The TypeScript sources under [src/lib] (detect.ts, calibration.ts,
    curve.ts, blacklist.ts and the crop box of image.ts), the drag handlers
    of the two canvases and the tick picker of App.tsx are translated
    function by function.  A JavaScript [number] is an IEEE-754 binary64
    value; it is modelled

    - by Rocq's primitive [float] (the same binary64 arithmetic, operation
      for operation) wherever rounding or the special values decide the
      result: the luminance of a pixel, the calibration transform, the
      between-class variance of the Otsu scan, the cluster means, the rects
      that the canvases pass (whose fields are fractional) and the loops
      that step through them, the distances of the tick picker;
    - by [Z] where the source only ever holds integers (pixel indices,
      histogram counts, byte channels, rects with integer fields): integer
      arithmetic on doubles is exact below 2^53;
    - by [Q] where the source computes with small dyadic values (the
      midpoints of the curve tracer) or where a property is one of exact
      arithmetic and says so.

    The arithmetic that is shared between these readings is written once
    over the class [Number] and instantiated at [float], [Q] and [Z].
    [Binary64] and [Binary64Facts] hold what the proofs need of the doubles
    themselves: their order, the shape of a rounding, and the operations that
    are exact.

    Part I holds the definitions, Part II the lemmas and the theorems. *)

From Stdlib Require Import ZArith QArith Qround Qabs List Bool Lia Lqa.
From Stdlib Require Strings.String.
From Stdlib Require Import Permutation Sorted.
From Stdlib Require Import Floats Uint63.
Import ListNotations.

Set Warnings "-inexact-float".
Local Open Scope Z_scope.

(* ================================================================== *)
(** * Part I: the embedding                                            *)
(* ================================================================== *)

(** ** JavaScript numbers *)

Module Js.

(** The operations of [number] that the sources use.  [ofZ] injects an
    integer literal or an integer-valued quantity. *)
Class Number (N : Type) : Type := {
  ofZ : Z -> N;
  nadd : N -> N -> N;
  nsub : N -> N -> N;
  nmul : N -> N -> N;
  nltb : N -> N -> bool;
  nleb : N -> N -> bool;
  nmax : N -> N -> N;
  nmin : N -> N -> N
}.

(** Numbers with the [/] operator (not closed on the integers). *)
Class Division (N : Type) `{Number N} : Type := {
  ndiv : N -> N -> N
}.

(** An integer as a binary64 value (exact for |z| < 2^53). *)
Definition floatOfZ (z : Z) : float :=
  if z <? 0 then PrimFloat.opp (PrimFloat.of_uint63 (Uint63.of_Z (- z)))
  else PrimFloat.of_uint63 (Uint63.of_Z z).

(** [Math.max] and [Math.min] on doubles: NaN is contagious, and of two
    zeros [max] prefers [+0] and [min] prefers [-0]. *)
Definition floatMax (a b : float) : float :=
  if PrimFloat.is_nan a || PrimFloat.is_nan b then nan
  else if PrimFloat.ltb a b then b
  else if PrimFloat.ltb b a then a
  else if PrimFloat.is_zero a then PrimFloat.add a b
  else a.

Definition floatMin (a b : float) : float :=
  if PrimFloat.is_nan a || PrimFloat.is_nan b then nan
  else if PrimFloat.ltb a b then a
  else if PrimFloat.ltb b a then b
  else if PrimFloat.is_zero a
       then PrimFloat.opp (PrimFloat.add (PrimFloat.opp a) (PrimFloat.opp b))
  else a.

(** [number] as executed: binary64. *)
#[export] Instance Float64 : Number float := {|
  ofZ := floatOfZ;
  nadd := PrimFloat.add;
  nsub := PrimFloat.sub;
  nmul := PrimFloat.mul;
  nltb := PrimFloat.ltb;
  nleb := PrimFloat.leb;
  nmax := floatMax;
  nmin := floatMin
|}.

#[export] Instance Float64Div : Division float := {|
  ndiv := PrimFloat.div
|}.

Definition Qltb (a b : Q) : bool := negb (Qle_bool b a).

(** [number] without rounding: exact rational arithmetic. *)
#[export] Instance Exact : Number Q := {|
  ofZ := inject_Z;
  nadd := Qplus;
  nsub := Qminus;
  nmul := Qmult;
  nltb := Qltb;
  nleb := Qle_bool;
  nmax := fun a b => if Qle_bool a b then b else a;
  nmin := fun a b => if Qle_bool a b then a else b
|}.

#[export] Instance ExactDiv : Division Q := {|
  ndiv := Qdiv
|}.

(** Integer-valued numbers (pixel indices, sizes). *)
#[export] Instance Integer : Number Z := {|
  ofZ := fun z => z;
  nadd := Z.add;
  nsub := Z.sub;
  nmul := Z.mul;
  nltb := Z.ltb;
  nleb := Z.leb;
  nmax := Z.max;
  nmin := Z.min
|}.

(** The integer part of the magnitude of a finite double, modulo 2^63.
    [frshiftexp f = (m, e)] with [|f| = |m| * 2^(e - 2101)], [0.5 <= |m| < 1],
    and [normfr_mantissa m = |m| * 2^53]. *)
Definition truncMagnitude (f : float) : int :=
  let (m, e) := PrimFloat.frshiftexp f in
  let mant := PrimFloat.normfr_mantissa m in
  if (e <=? 2101)%uint63 then 0%uint63
  else if (e <=? 2154)%uint63 then (mant >> (2154 - e))%uint63
  else (mant << (e - 2154))%uint63.

(** ECMAScript [ToInt32], the conversion behind [v | 0]: NaN and the
    infinities give 0; otherwise truncate toward zero, reduce modulo 2^32
    and read the result as a signed 32-bit integer. *)
Definition toInt32 (f : float) : Z :=
  if PrimFloat.is_nan f || PrimFloat.is_infinity f then 0
  else
    let u := Uint63.to_Z (truncMagnitude f land 4294967295)%uint63 in
    let w := if PrimFloat.ltb f 0 then (4294967296 - u) mod 4294967296 else u in
    if w <? 2147483648 then w else w - 4294967296.

(** A function that either returns or throws [new Error(msg)]. *)
Inductive result (A : Type) : Type :=
| Ok (a : A)
| Throw (msg : String.string).
Arguments Ok {A} a.
Arguments Throw {A} msg.

(** The integers [lo, lo+1, ..., lo+n-1]: the values taken by the counter of
    [for (let i = lo; i < hi; i++)] when [n = hi - lo]. *)
Fixpoint countFrom (lo : Z) (n : nat) : list Z :=
  match n with
  | O => []
  | S k => lo :: countFrom (lo + 1) k
  end.

Definition range (lo hi : Z) : list Z := countFrom lo (Z.to_nat (hi - lo)).

End Js.
Import Js.

(** ** Binary64: the order and the rounding of the doubles *)

Module Binary64.

(** The place of a double in the order of the doubles, as a triple compared
    lexicographically: the class (from -infinity to +infinity), then the
    exponent and the mantissa, both negated below zero.  NaN has no place. *)
Definition orderKey (x : spec_float) : Z * Z * Z :=
  match x with
  | S754_nan => (0, 0, 0)
  | S754_infinity true => (-2, 0, 0)
  | S754_infinity false => (2, 0, 0)
  | S754_zero _ => (0, 0, 0)
  | S754_finite true m e => (-1, - e, - Zpos m)
  | S754_finite false m e => (1, e, Zpos m)
  end.

Definition keyLt (a b : Z * Z * Z) : Prop :=
  let '(a1, a2, a3) := a in
  let '(b1, b2, b3) := b in
  a1 < b1 \/ (a1 = b1 /\ (a2 < b2 \/ (a2 = b2 /\ a3 < b3))).

Definition isNaN (x : spec_float) : bool :=
  match x with S754_nan => true | _ => false end.

(** The place of a primitive double. *)
Definition key (x : float) : Z * Z * Z := orderKey (Prim2SF x).

(** The exponent of the 53-bit format at a magnitude ([fexp] of binary64). *)
Definition fexp64 (e : Z) : Z := Z.max (e - 53) (-1074).

(** Dropping the [n] low bits of a mantissa (nothing when [n <= 0]). *)
Definition shrBy (m e n : Z) : Z * Z :=
  if 0 <? n then (Z.shiftr m n, e + n) else (m, e).

(** The last step of a rounding: the double of a mantissa and an exponent. *)
Definition finish (sx : bool) (me : Z * Z) : spec_float :=
  match fst me with
  | Z0 => S754_zero sx
  | Zpos p => if snd me <=? 971 then S754_finite sx p (snd me) else S754_infinity sx
  | Zneg _ => S754_nan
  end.

(** A double that is neither NaN nor infinite. *)
Definition finiteSF (x : spec_float) : bool :=
  match x with S754_zero _ | S754_finite _ _ _ => true | _ => false end.

(** The rank of a non-negative double among the non-negative doubles. *)
Definition rank (x : spec_float) : Z :=
  match x with
  | S754_finite false m e => (e + 1075) * 2 ^ 53 + Zpos m
  | S754_infinity false => 2047 * 2 ^ 53
  | _ => 0
  end.

(** A double that is not below zero: a zero, or a positive finite double, or
    +infinity. *)
Definition nonnegSF (x : spec_float) : bool :=
  match x with
  | S754_zero _ | S754_infinity false | S754_finite false _ _ => true
  | _ => false
  end.

(** The rational number that a finite double stands for. *)
Definition exactQ (x : float) : option Q :=
  match Prim2SF x with
  | S754_zero _ => Some 0%Q
  | S754_finite s m e =>
      Some ((if s then - inject_Z (Zpos m) else inject_Z (Zpos m)) * (2 # 1) ^ e)%Q
  | _ => None
  end.

(** The mantissa after the first step of a rounding: [n] low bits are
    dropped and the rest is rounded to nearest, ties to even. *)
Definition cut (m : Z) (l : location) (n : Z) : Z :=
  let mrs := fst (shr (shr_record_of_loc m l) 0 n) in
  round_nearest_even (shr_m mrs) (loc_of_shr_record mrs).

(** The same double, [j] binades up. *)
Definition shiftE (j : Z) (x : spec_float) : spec_float :=
  match x with
  | S754_finite s m e => S754_finite s m (e + j)
  | _ => x
  end.

(** A zero, or a normal double whose exponent lies in [L, U]. *)
Definition ranged (L U : Z) (x : spec_float) : Prop :=
  match x with
  | S754_zero _ => True
  | S754_finite _ m e => L <= e <= U /\ Zdigits2 (Zpos m) = 53
  | _ => False
  end.

(** The product [wb * wf * (sb / wb - (sm - sb) / wf) ^ 2] as binary64
    evaluates it, from left to right. *)
Definition spreadSF (wb wf sb sm : spec_float) : spec_float :=
  let mB := SFdiv prec emax sb wb in
  let mF := SFdiv prec emax (SFsub prec emax sm sb) wf in
  let d := SFsub prec emax mB mF in
  SFmul prec emax (SFmul prec emax (SFmul prec emax wb wf) d) d.

End Binary64.

(** ** detect.ts *)

Module Detect.

(** [ImageData]: [data] holds 4 bytes (R, G, B, A) per pixel, row-major. *)
Record ImageData : Type := {
  data : list Z;
  width : Z;
  height : Z
}.

(** [data[idx]] as a number: the byte, or [undefined] (NaN once used in
    arithmetic) outside the array. *)
Definition channel (d : list Z) (idx : Z) : float :=
  if idx <? 0 then nan
  else match nth_error d (Z.to_nat idx) with
       | Some v => floatOfZ v
       | None => nan
       end.

(** The luminance expression of [grayAt] on three channel values. *)
Definition luminance (r g b : float) : float :=
  (r * 0.299 + g * 0.587 + b * 0.114)%float.

(** [grayAt(data, idx)] = [(r * 0.299 + g * 0.587 + b * 0.114) | 0]. *)
Definition grayAt (d : list Z) (idx : Z) : Z :=
  let r := channel d idx in
  let g := channel d (idx + 1) in
  let b := channel d (idx + 2) in
  toInt32 (luminance r g b).

(** The gray value of a pixel given by its three bytes. *)
Definition grayOfBytes (r g b : Z) : Z :=
  toInt32 (luminance (floatOfZ r) (floatOfZ g) (floatOfZ b)).

(** [Math.round] of the exact weighted luminance (299 R + 587 G + 114 B)/1000:
    the nearest integer, halves rounded up. *)
Definition roundedLuminance (r g b : Z) : Z :=
  (299 * r + 587 * g + 114 * b + 500) / 1000.

(** [Rect] of ../types, over the number type of its fields. *)
Record Rect (N : Type) : Type := { x : N; y : N; w : N; h : N }.
Arguments x {N} _.
Arguments y {N} _.
Arguments w {N} _.
Arguments h {N} _.

Section Clamp.
Context {N : Type} `{Number N}.

(** [clampRect(r, w, h)]. *)
Definition clampRect (r : Rect N) (W H : N) : Rect N :=
  let cx := nmax (ofZ 0) (nmin (nsub W (ofZ 1)) (x r)) in
  let cy := nmax (ofZ 0) (nmin (nsub H (ofZ 1)) (y r)) in
  let cw := nmax (ofZ 1) (nmin (nsub W cx) (w r)) in
  let ch := nmax (ofZ 1) (nmin (nsub H cy) (h r)) in
  {| x := cx; y := cy; w := cw; h := ch |}.

End Clamp.

(** *** Otsu threshold *)

(** The array [hist], indexed by gray level.  Only the bins 0..255 are ever
    read; a bin never written holds 0. *)
Definition Histogram : Type := Z -> Z.

Definition emptyHistogram : Histogram := fun _ => 0.

(** [hist[g]++]. *)
Definition increment (hist : Histogram) (g : Z) : Histogram :=
  fun t => if t =? g then hist t + 1 else hist t.

(** The byte offset of pixel (x, y): [(y * width + x) * 4]. *)
Definition pixelIndex (img : ImageData) (px py : Z) : Z :=
  (py * width img + px) * 4.

(** The double loop of [otsuThresholdFromRect] over the pixels of the rect
    (whose fields may be fractional: the bounds are taken with [| 0]):
    returns [hist] and [total]. *)
Definition countRect (img : ImageData) (rect : Rect float) : Histogram * Z :=
  let x0 := toInt32 (x rect) in
  let y0 := toInt32 (y rect) in
  let x1 := toInt32 (x rect + w rect)%float in
  let y1 := toInt32 (y rect + h rect)%float in
  fold_left
    (fun acc py =>
       fold_left
         (fun acc px =>
            let g := grayAt (data img) (pixelIndex img px py) in
            (increment (fst acc) g, snd acc + 1))
         (range x0 x1) acc)
    (range y0 y1) (emptyHistogram, 0).

Section Otsu.
Context {N : Type} `{Division N}.

(** The variables that live across the iterations of the threshold scan. *)
Record Scan : Type := {
  sumB : Z;
  wB : Z;
  varMax : N;
  threshold : Z
}.

(** The loop [for (let t = 0; t < 256; t++) { ... }] over the remaining
    values of [t], with its [continue] and [break]. *)
Fixpoint otsuLoop (hist : Histogram) (total sum : Z) (ts : list Z) (st : Scan) : Z :=
  match ts with
  | [] => threshold st
  | t :: rest =>
      let wB' := wB st + hist t in
      if wB' =? 0
      then otsuLoop hist total sum rest
             {| sumB := sumB st; wB := wB'; varMax := varMax st; threshold := threshold st |}
      else
        let wF := total - wB' in
        if wF =? 0 then threshold st
        else
          let sumB' := sumB st + t * hist t in
          let mB := ndiv (ofZ sumB') (ofZ wB') in
          let mF := ndiv (nsub (ofZ sum) (ofZ sumB')) (ofZ wF) in
          let varBetween :=
            nmul (nmul (nmul (ofZ wB') (ofZ wF)) (nsub mB mF)) (nsub mB mF) in
          if nltb (varMax st) varBetween
          then otsuLoop hist total sum rest
                 {| sumB := sumB'; wB := wB'; varMax := varBetween; threshold := t |}
          else otsuLoop hist total sum rest
                 {| sumB := sumB'; wB := wB'; varMax := varMax st; threshold := threshold st |}
  end.

(** [otsuThresholdFromRect] from the line [if (total <= 0) return 128] on. *)
Definition otsuFromHistogram (hist : Histogram) (total : Z) : Z :=
  if total <=? 0 then 128
  else
    let sum := fold_left (fun s t => s + t * hist t) (range 0 256) 0 in
    otsuLoop hist total sum (range 0 256)
      {| sumB := 0; wB := 0; varMax := ofZ (-1); threshold := 128 |}.

End Otsu.
Arguments Scan N : clear implicits.

(** The number of pixels a histogram accounts for. *)
Definition histogramTotal (hist : Histogram) : Z :=
  fold_left (fun s t => s + hist t) (range 0 256) 0.

(** [otsuThresholdFromRect(img, rect)], in the arithmetic of the code. *)
Definition otsuThresholdFromRect (img : ImageData) (rect : Rect float) : Z :=
  let (hist, total) := countRect img rect in
  otsuFromHistogram (N := float) hist total.

(** The object returned by [buildInkFn]. *)
Record InkFn : Type := { th : Z; isInk : Z -> Z -> bool }.

Definition buildInkFn (img : ImageData) (rectForThresh : Rect float) : InkFn :=
  let t := otsuThresholdFromRect img rectForThresh in
  {| th := t;
     isInk := fun px py => grayAt (data img) (pixelIndex img px py) <? t |}.

(** *** Axis location on a ROI with integer fields

    When the fields of the ROI are integers the counters of the two loops
    are the integers of [range], and the locators have the closed form
    below.  The loops as the source writes them, on any numbers, are in
    [Locate]; the two agree on integer fields. *)

(** The inner counting loop: [s] after [for (...) if (isInk(..)) s++]. *)
Definition countInk (test : Z -> bool) (indices : list Z) : Z :=
  fold_left (fun s i => if test i then s + 1 else s) indices 0.

(** The outer loop: the pair (best position, best count) after scanning
    [positions] with the strict comparison [s > best]. *)
Definition scanBest (count : Z -> Z) (positions : list Z) (start : Z * Z) : Z * Z :=
  fold_left
    (fun acc p =>
       let s := count p in
       if snd acc <? s then (p, s) else acc)
    positions start.

Definition findXAxisY (img : ImageData) (roi : Rect Z) (ink : Z -> Z -> bool) : Z :=
  let r := clampRect roi (width img) (height img) in
  fst (scanBest
         (fun py => countInk (fun px => ink px py) (range (x r) (x r + w r)))
         (range (y r) (y r + h r))
         (y r, -1)).

Definition findYAxisX (img : ImageData) (roi : Rect Z) (ink : Z -> Z -> bool) : Z :=
  let r := clampRect roi (width img) (height img) in
  fst (scanBest
         (fun px => countInk (fun py => ink px py) (range (y r) (y r + h r)))
         (range (x r) (x r + w r))
         (x r, -1)).

(** *** 1-D clustering *)

Section Cluster.
Context {N : Type} `{Division N}.

(** [Array.prototype.sort] with the comparator [(a, b) => a - b]: a stable
    sort; [b] goes before [a] only when [a - b > 0]. *)
Fixpoint insertSorted (a : N) (l : list N) : list N :=
  match l with
  | [] => [a]
  | b :: rest =>
      if nltb (ofZ 0) (nsub a b) then b :: insertSorted a rest
      else a :: l
  end.

Definition sortAscending (values : list N) : list N :=
  fold_right insertSorted [] values.

(** The loop of [cluster1D] from index [i] on: [prev] is [v[i-1]], and
    [sum], [cnt] describe the cluster being built.  (The variable [start]
    of the source is written but never read.) *)
Fixpoint clusterLoop (mergeDist : N) (rest : list N) (prev sum : N) (cnt : Z) : list N :=
  match rest with
  | [] => [ndiv sum (ofZ cnt)]
  | vi :: rest' =>
      if nleb (nsub vi prev) mergeDist
      then clusterLoop mergeDist rest' vi (nadd sum vi) (cnt + 1)
      else ndiv sum (ofZ cnt) :: clusterLoop mergeDist rest' vi vi 1
  end.

Definition cluster1D (values : list N) (mergeDist : N) : list N :=
  match sortAscending values with
  | [] => []
  | v0 :: rest => clusterLoop mergeDist rest v0 v0 1
  end.

(** The specification's wording: the sorted values are cut wherever the gap
    between two neighbours exceeds the merge distance ... *)
Fixpoint splitAtGaps (mergeDist : N) (sorted : list N) : list (list N) :=
  match sorted with
  | [] => []
  | a :: rest =>
      match splitAtGaps mergeDist rest with
      | g :: gs =>
          match rest with
          | b :: _ =>
              if nleb (nsub b a) mergeDist then (a :: g) :: gs
              else [a] :: g :: gs
          | [] => [[a]]
          end
      | [] => [[a]]
      end
  end.

(** ... and each cluster is replaced by its arithmetic mean (the sum taken
    from the first member on, divided by the number of members). *)
Definition mean (cluster : list N) : N :=
  match cluster with
  | [] => ndiv (ofZ 0) (ofZ 0)
  | a :: rest => ndiv (fold_left nadd rest a) (ofZ (Z.of_nat (length cluster)))
  end.

Definition clusterCenters (values : list N) (mergeDist : N) : list N :=
  map mean (splitAtGaps mergeDist (sortAscending values)).

(** Inside a cluster neighbours are at most the merge distance apart. *)
Fixpoint linked (d : N) (g : list N) : Prop :=
  match g with
  | a :: ((b :: _) as rest) => nleb (nsub b a) d = true /\ linked d rest
  | _ => True
  end.

(** Between two consecutive clusters the gap exceeds the merge distance. *)
Fixpoint separated (d : N) (gs : list (list N)) : Prop :=
  match gs with
  | g1 :: (((b :: _) :: _) as rest) =>
      nleb (nsub b (last g1 b)) d = false /\ separated d rest
  | _ => True
  end.

End Cluster.

(** *** Vocabulary of the properties *)

(** The ink count of a line of the ROI, as the specification words it: the
    number of positions of the line at which the predicate holds. *)
Definition inkCount (test : Z -> bool) (lo hi : Z) : Z :=
  Z.of_nat (length (filter test (range lo hi))).

(** The histogram of a region in which every pixel occurs [k] times. *)
Definition replicate (k : Z) (hist : Histogram) : Histogram := fun t => k * hist t.

(** Sums over the bins. *)
Fixpoint sumOf (f : Z -> Z) (ts : list Z) : Z :=
  match ts with
  | [] => 0
  | t :: rest => f t + sumOf f rest
  end.

(** The between-class variance of the scan, in exact arithmetic. *)
Definition betweenExact (wb wf sb sm : Z) : Q :=
  (inject_Z wb * inject_Z wf
   * (inject_Z sb / inject_Z wb - (inject_Z sm - inject_Z sb) / inject_Z wf)
   * (inject_Z sb / inject_Z wb - (inject_Z sm - inject_Z sb) / inject_Z wf))%Q.

(** How the running maximum of the replicated scan relates to that of the
    original one: both still hold the initial -1, or the replicated one is
    k^2 times the original, which is non-negative. *)
Definition maxRelated (k : Z) (v v' : Q) : Prop :=
  (v == -1 /\ v' == -1)%Q \/ (0 <= v /\ v' == inject_Z k * inject_Z k * v)%Q.

(** The same for the scan in binary64 when every count is multiplied by
    2^j: both maxima still hold the initial -1, or the replicated one is the
    original one [2 j] binades up, which is a zero or a positive normal
    double far from the ends of the exponent range. *)
Definition maxDoubled (j : Z) (v v' : float) : Prop :=
  (v = floatOfZ (-1) /\ v' = floatOfZ (-1)) \/
  (Prim2SF v' = Binary64.shiftE (j + j) (Prim2SF v) /\
   Binary64.ranged (-368) 176 (Prim2SF v) /\
   Binary64.nonnegSF (Prim2SF v) = true).

(** What the counting loop maintains: the bins are non-negative and
    [total] is their sum over 0..255. *)
Definition counted (acc : Histogram * Z) : Prop :=
  (forall t, 0 <= fst acc t) /\ snd acc = sumOf (fst acc) (range 0 256).

(** *** Sample inputs *)

Definition whiteSquare : ImageData :=
  {| data := repeat 255 16; width := 2; height := 2 |}.

Definition wholeSquare : Rect float :=
  {| x := 0%float; y := 0%float; w := 2%float; h := 2%float |}.

(** Gray levels 1, 4, 4, 4, 4, 7: one pixel at 1, four at 4, one at 7. *)
Definition threeLevels : Histogram :=
  fun t => if t =? 1 then 1 else if t =? 4 then 4 else if t =? 7 then 1 else 0.

(** A row of six pixels with those gray levels (green bytes 2, 7 and 12),
    and the same row with every pixel repeated three times. *)
Definition pixelsOf (greens : list Z) : list Z :=
  flat_map (fun g => [0; g; 0; 255]) greens.

Definition sixPixels : ImageData :=
  {| data := pixelsOf [2; 7; 7; 7; 7; 12]; width := 6; height := 1 |}.

Definition eighteenPixels : ImageData :=
  {| data := pixelsOf [2; 2; 2; 7; 7; 7; 7; 7; 7; 7; 7; 7; 7; 7; 7; 12; 12; 12];
     width := 18; height := 1 |}.

(** *** A scan of all byte triples *)

(** What is checked of one luminance value [f] against the exact weighted
    sum [e] = 299 R + 587 G + 114 B: [f] is a finite non-negative double whose
    integer part [v] is at most 255 and satisfies 1000 v <= e <= 1000 v + 1000. *)
Definition grayCheck (f : float) (e : int) : bool :=
  let v := truncMagnitude f in
  negb (PrimFloat.is_nan f || PrimFloat.is_infinity f)
  && negb (PrimFloat.ltb f 0)
  && (v land 4294967295 =? v)%uint63
  && (v <=? 255)%uint63
  && (1000 * v <=? e)%uint63
  && (e <=? 1000 * v + 1000)%uint63.

(** One channel's contribution to the luminance, as a double and as an
    exact integer (in thousandths). *)
Definition weighted (w : float) (k : int) (v : Z) : float * int :=
  ((floatOfZ v * w)%float, (k * Uint63.of_Z v)%uint63).

Definition addWeighted (a b : float * int) : float * int :=
  ((fst a + fst b)%float, (snd a + snd b)%uint63).

Definition grayCheckPair (a : float * int) : bool := grayCheck (fst a) (snd a).

(** Three nested scans; the value combined from the two outer levels is
    computed once per inner loop. *)
Definition forall3 {A : Type} (ra ga ba : list A) (add : A -> A -> A)
    (chk : A -> bool) : bool :=
  forallb (fun r =>
    forallb (fun g =>
      let rg := add r g in
      forallb (fun b => chk (add rg b)) ba) ga) ra.

Definition byteValues : list Z := countFrom 0 256.

End Detect.

(** ** detect.ts: the axis locator on any ROI *)

(** [findXAxisY] and [findYAxisX] receive the ROI as the user dragged it:
    its fields are doubles, and the loop counters start at the clamped,
    possibly fractional, corner.  The loops are modelled here over any
    [Number]; [Detect.findXAxisY] is their closed form on integer fields. *)
Module Locate.
Import Detect.

Section Loops.
Context {N : Type} `{Number N}.

(** The values that [i] takes in [for (let i = lo; i < hi; i++)], in the
    order of the iterations; [None] when the loop is still running after
    [fuel] tests of its condition. *)
Fixpoint counter (fuel : nat) (i hi : N) : option (list N) :=
  match fuel with
  | O => None
  | S k =>
      if nltb i hi
      then option_map (cons i) (counter k (nadd i (ofZ 1)) hi)
      else Some []
  end.

(** [s] after [for (...) if (isInk(..)) s++]. *)
Definition countInk (test : N -> bool) (positions : list N) : Z :=
  fold_left (fun s i => if test i then s + 1 else s) positions 0.

(** The pair (best position, best count) after the outer loop, with its
    strict comparison [s > best]. *)
Definition scanBest (count : N -> Z) (positions : list N) (start : N * Z) : N * Z :=
  fold_left
    (fun acc p =>
       let s := count p in
       if snd acc <? s then (p, s) else acc)
    positions start.

(** The inner loop runs once per iteration of the outer one, with the same
    bounds each time; it does not run at all when the outer loop is empty. *)
Definition locate (fuel : nat) (lo hi lo' hi' : N) (count : list N -> N -> Z) : option N :=
  match counter fuel lo hi with
  | None => None
  | Some [] => Some lo
  | Some outer =>
      match counter fuel lo' hi' with
      | None => None
      | Some inner => Some (fst (scanBest (count inner) outer (lo, -1)))
      end
  end.

Definition findXAxisY (fuel : nat) (img : ImageData) (roi : Rect N)
    (isInk : N -> N -> bool) : option N :=
  let r := clampRect roi (ofZ (width img)) (ofZ (height img)) in
  locate fuel (y r) (nadd (y r) (h r)) (x r) (nadd (x r) (w r))
    (fun cols py => countInk (fun px => isInk px py) cols).

Definition findYAxisX (fuel : nat) (img : ImageData) (roi : Rect N)
    (isInk : N -> N -> bool) : option N :=
  let r := clampRect roi (ofZ (width img)) (ofZ (height img)) in
  locate fuel (x r) (nadd (x r) (w r)) (y r) (nadd (y r) (h r))
    (fun rows px => countInk (fun py => isInk px py) rows).

End Loops.

(** [data[idx]] for a number [idx]: the byte when [idx] is an integer index
    inside the array, [undefined] (NaN in arithmetic) otherwise. *)
Definition channelAt (d : list Z) (idx : float) : float :=
  let k := Uint63.to_Z (truncMagnitude idx) in
  if (idx =? floatOfZ k)%float then channel d k else nan.

(** [grayAt(data, idx)] at a computed index. *)
Definition grayAtIndex (d : list Z) (idx : float) : Z :=
  toInt32 (luminance (channelAt d idx) (channelAt d (idx + 1)%float) (channelAt d (idx + 2)%float)).

(** The predicate returned by [buildInkFn], on the positions the loops pass
    to it: [grayAt(data, (y * width + x) * 4) < th]. *)
Definition isInkAt (img : ImageData) (th : Z) (px py : float) : bool :=
  grayAtIndex (data img) ((py * floatOfZ (width img) + px) * 4)%float <? th.

(** *** Vocabulary of the properties *)

(** The number of the given positions at which the predicate holds. *)
Definition inkCount {P : Type} (test : P -> bool) (positions : list P) : Z :=
  Z.of_nat (length (filter test positions)).

(** [best] is the first of the positions at which the count is maximal. *)
Definition firstMaximum {P : Type} (count : P -> Z) (positions : list P) (best : P) : Prop :=
  exists before after,
    positions = before ++ best :: after /\
    (forall q, In q before -> count q < count best) /\
    (forall q, In q after -> count q <= count best).

(** The positions of a loop from [i] up to, but not including, [hi], one
    apart: each is below [hi] and is followed by itself plus 1, and the one
    after the last is not below [hi]. *)
Fixpoint stepsFrom (i hi : float) (l : list float) : Prop :=
  match l with
  | [] => (i <? hi)%float = false
  | a :: rest => a = i /\ (i <? hi)%float = true /\ stepsFrom (i + 1)%float hi rest
  end.

(** The lines of a ROI that starts at [lo] and ends before [hi]: there is
    at least one, they are [lo], [lo + 1], ... below [hi], in increasing
    order. *)
Definition scannedFrom (lo hi : float) (l : list float) : Prop :=
  l <> [] /\ stepsFrom lo hi l /\
  StronglySorted (fun a b => (a <? b)%float = true) l.

(** A rect whose coordinates are below 2^53, where [i++] still advances. *)
Definition addressable (r : Rect float) : Prop :=
  (x r <? 9007199254740992)%float = true /\
  (y r <? 9007199254740992)%float = true /\
  (x r + w r <=? 9007199254740992)%float = true /\
  (y r + h r <=? 9007199254740992)%float = true.

(** *** Sample inputs *)

(** A 4 x 4 image, white but for the dark pixels (1,2) and (2,2) of its
    third row. *)
Definition darkRow : ImageData :=
  {| data := pixelsOf [255; 255; 255; 255;  255; 255; 255; 255;
                       255; 0; 0; 255;      255; 255; 255; 255];
     width := 4; height := 4 |}.

End Locate.

(** ** calibration.ts *)

Module Calibration.
Import Strings.String.

(** [Point] of ../types: a pixel-space coordinate pair of numbers. *)
Record Point : Type := { x : float; y : float }.

(** The value returned by a mapper. *)
Record DataPoint : Type := { X : float; Y : float }.

Definition dot (a b : Point) : float := (x a * x b + y a * y b)%float.

Definition sub (a b : Point) : Point :=
  {| x := (x a - x b)%float; y := (y a - y b)%float |}.

(** [Math.hypot].  ECMAScript fixes its special cases (an infinite argument
    gives +infinity, otherwise a NaN argument gives NaN, and all zeros give
    +0) and leaves the rest to the implementation; it is taken here as V8
    computes it: the arguments are scaled by the largest magnitude, their
    squares are added with Kahan's compensated summation, and the square
    root of the sum is scaled back. *)
Definition largestMagnitude (vs : list float) : float :=
  fold_left
    (fun mx v =>
       if PrimFloat.is_nan v then mx
       else if (mx <? PrimFloat.abs v)%float then PrimFloat.abs v else mx)
    vs 0%float.

(** One step of the summation on the pair (sum, compensation). *)
Definition kahanStep (mx : float) (acc : float * float) (v : float) : float * float :=
  let n := (PrimFloat.abs v / mx)%float in
  let summand := (n * n - snd acc)%float in
  let preliminary := (fst acc + summand)%float in
  (preliminary, (preliminary - fst acc - summand)%float).

Definition hypotOf (vs : list float) : float :=
  let mx := largestMagnitude vs in
  if (mx =? infinity)%float then infinity
  else if existsb PrimFloat.is_nan vs then nan
  else if (mx =? 0)%float then 0%float
  else (PrimFloat.sqrt (fst (fold_left (kahanStep mx) vs (0%float, 0%float))) * mx)%float.

Definition hypot (a b : float) : float := hypotOf [a; b].

Definition norm (a : Point) : float := hypot (x a) (y a).

Definition normalize (a : Point) : Point :=
  let n := norm a in
  if (n <? 1e-9)%float then {| x := 1; y := 0 |}
  else {| x := (x a / n)%float; y := (y a / n)%float |}.

(** The argument object of [buildPixelToDataMapper]. *)
Record Args : Type := {
  pxX1 : Point; pxX2 : Point; pxY1 : Point; pxY2 : Point;
  x1 : float; x2 : float; y1 : float; y2 : float
}.

Definition degenerateMessage : String.string :=
  "Calibration points are degenerate (too close)."%string.

Definition buildPixelToDataMapper (args : Args) : result (Point -> DataPoint) :=
  let vx := normalize (sub (pxX2 args) (pxX1 args)) in
  let vy := normalize (sub (pxY2 args) (pxY1 args)) in
  let dx := sub (pxX2 args) (pxX1 args) in
  let dy := sub (pxY2 args) (pxY1 args) in
  let denomX := dot dx vx in
  let denomY := dot dy vy in
  if (PrimFloat.abs denomX <? 1e-6)%float || (PrimFloat.abs denomY <? 1e-6)%float
  then Throw degenerateMessage
  else
    let sx := ((x2 args - x1 args) / denomX)%float in
    let sy := ((y2 args - y1 args) / denomY)%float in
    Ok (fun p =>
          let relX := dot (sub p (pxX1 args)) vx in
          let relY := dot (sub p (pxY1 args)) vy in
          {| X := (x1 args + sx * relX)%float;
             Y := (y1 args + sy * relY)%float |}).

(** *** The specification's wording of the transform (section 4.5) *)

(** Per axis: unit direction v = normalize(pxB - pxA). *)
Definition axisDirection (pxA pxB : Point) : Point := normalize (sub pxB pxA).

(** The span of an axis's two pixel points projected on their own
    normalized direction: dot(pxB - pxA, v). *)
Definition projectedSpan (pxA pxB : Point) : float :=
  dot (sub pxB pxA) (axisDirection pxA pxB).

(** Scale s = (valB - valA) / dot(pxB - pxA, v). *)
Definition axisScale (pxA pxB : Point) (valA valB : float) : float :=
  ((valB - valA) / projectedSpan pxA pxB)%float.

(** map(p) = { X: x1 + sx.dot(p - pxX1, vx), Y: y1 + sy.dot(p - pxY1, vy) }. *)
Definition evaluation (args : Args) (p : Point) : DataPoint :=
  {| X := (x1 args + axisScale (pxX1 args) (pxX2 args) (x1 args) (x2 args)
                     * dot (sub p (pxX1 args)) (axisDirection (pxX1 args) (pxX2 args)))%float;
     Y := (y1 args + axisScale (pxY1 args) (pxY2 args) (y1 args) (y2 args)
                     * dot (sub p (pxY1 args)) (axisDirection (pxY1 args) (pxY2 args)))%float |}.

(** An axis is degenerate when its projected span is below 1e-6 in
    absolute value. *)
Definition nearZeroSpan (pxA pxB : Point) : bool :=
  (PrimFloat.abs (projectedSpan pxA pxB) <? 1e-6)%float.

(** The four pixel points of a calibration have finite coordinates. *)
Definition finiteArgs (args : Args) : Prop :=
  Forall (fun p => PrimFloat.is_finite (x p) = true /\ PrimFloat.is_finite (y p) = true)
         [pxX1 args; pxX2 args; pxY1 args; pxY2 args].

(** The calibration of the specification's round-trip example. *)
Definition exampleCalibration : Args :=
  {| pxX1 := {| x := 0; y := 100 |}; pxX2 := {| x := 100; y := 100 |};
     pxY1 := {| x := 0; y := 100 |}; pxY2 := {| x := 0; y := 0 |};
     x1 := 0; x2 := 10; y1 := 0; y2 := 1 |}.

End Calibration.

(** ** curve.ts *)

Module Curve.
Import Detect.

(** [Point] of ../types.  The coordinates that occur are seed positions
    (arbitrary numbers), integer columns and midpoints of integer rows, on
    which the arithmetic of the tracer is exact. *)
Record Point : Type := { x : Q; y : Q }.

Record Color : Type := { r : Z; g : Z; b : Z }.

Inductive Mode : Type := centerline | median.

(** [clamp(v, lo, hi)], used on integer pixel indices. *)
Definition clamp (v lo hi : Z) : Z := Z.max lo (Z.min hi v).

(** [Math.round]: the nearest integer, halves rounded up. *)
Definition round (q : Q) : Z := Qfloor (q + (1 # 2))%Q.

(** [data[idx]] as an integer byte, [None] for [undefined]. *)
Definition byteAt (d : list Z) (idx : Z) : option Z :=
  if idx <? 0 then None else nth_error d (Z.to_nat idx).

(** The test [distRgb(r, g, b, c) >= threshold], where [distRgb] is
    [Math.hypot(dr, dg, db)], taken on the exact distance: the square root
    of an integer is at least [threshold] iff [threshold <= 0] or the
    integer is at least [threshold^2].  A channel read outside the array is
    [undefined], the distance is then NaN and the comparison is false.
    The engine's [Math.hypot] (see [Calibration.hypotOf]) can return the
    double just below the exact root, 100.99999999999999 for the differences
    (20, 99, 0), so its test differs from this one for a threshold that
    equals such a root.  The properties of the tracer are stated relative
    to this test: they use it through the runs it yields, through its value
    at distance 0 and on a missing channel, and through its monotonicity in
    the threshold. *)
Definition distRgbAtLeast (cr cg cb : option Z) (c : Color) (threshold : Q) : bool :=
  match cr, cg, cb with
  | Some vr, Some vg, Some vb =>
      let dr := vr - r c in
      let dg := vg - g c in
      let db := vb - b c in
      Qle_bool threshold 0%Q
      || Qle_bool (threshold * threshold)%Q (inject_Z (dr * dr + dg * dg + db * db))
  | _, _, _ => false
  end.

Record Run : Type := { ymin : Z; ymax : Z }.

(** The arguments shared by the functions of a trace. *)
Record TraceArgs : Type := {
  roi : ImageData;
  seeds : list Point;
  pickedColor : Color;
  threshold : Q;
  mode : Mode;
  maxJump : Q;
  isBlacklistedPixel : Point -> bool
}.

(** The value of [ok] for row [py] of column [px]. *)
Definition pixelMatches (args : TraceArgs) (px py : Z) : bool :=
  if isBlacklistedPixel args {| x := inject_Z px; y := inject_Z py |} then false
  else
    let idx := pixelIndex (roi args) px py in
    negb (distRgbAtLeast (byteAt (data (roi args)) idx)
                         (byteAt (data (roi args)) (idx + 1))
                         (byteAt (data (roi args)) (idx + 2))
                         (pickedColor args) (threshold args)).

(** The row loop of [findRunsInColumn] over the remaining rows, with the
    variables [inRun] and [runStart]; the runs are returned in the order
    they are pushed, the run still open after the last row closed at
    [height - 1]. *)
Fixpoint scanRows (ok : Z -> bool) (bottom : Z) (rows : list Z)
    (inRun : bool) (runStart : Z) : list Run :=
  match rows with
  | [] => if inRun then [{| ymin := runStart; ymax := bottom |}] else []
  | py :: rest =>
      if ok py then
        if inRun then scanRows ok bottom rest true runStart
        else scanRows ok bottom rest true py
      else
        if inRun
        then {| ymin := runStart; ymax := py - 1 |} :: scanRows ok bottom rest false runStart
        else scanRows ok bottom rest false runStart
  end.

Definition findRunsInColumn (args : TraceArgs) (px : Z) : list Run :=
  scanRows (pixelMatches args px) (height (roi args) - 1)
           (range 0 (height (roi args))) false 0.

Definition runRepresentativeY (run : Run) (m : Mode) : Q :=
  let mid := (inject_Z (ymin run + ymax run)%Z / 2)%Q in
  match m with
  | median => inject_Z (Qfloor mid)
  | centerline => mid
  end.

(** The loop shared by [chooseInitialY] and [chooseNextY]: starting from
    the first run, every run (the first included) replaces the best one
    when its distance to [target] is strictly smaller.  Returns
    [(bestY, bestD)]. *)
Definition closestRun (runs : list Run) (first : Run) (target : Q) (m : Mode) : Q * Q :=
  let bestY := runRepresentativeY first m in
  fold_left
    (fun best run =>
       let py := runRepresentativeY run m in
       let d := Qabs (py - target)%Q in
       if Qltb d (snd best) then (py, d) else best)
    runs (bestY, Qabs (bestY - target)%Q).

Definition chooseInitialY (runs : list Run) (seedY : Q) (m : Mode) : option Q :=
  match runs with
  | [] => None
  | first :: _ => Some (fst (closestRun runs first seedY m))
  end.

Definition chooseNextY (runs : list Run) (yPrev : Q) (yPrev2 : option Q)
    (m : Mode) (jump : Q) : option Q :=
  match runs with
  | [] => None
  | first :: _ =>
      let yPred := match yPrev2 with
                   | None => yPrev
                   | Some p2 => (yPrev + (yPrev - p2))%Q
                   end in
      let best := closestRun runs first yPred m in
      if Qltb jump (snd best) then None else Some (fst best)
  end.

(** The [while (true)] loop of [traceDir], one unit of [fuel] per
    iteration; [None] only if the fuel runs out before the loop ends. *)
Fixpoint traceLoop (args : TraceArgs) (fuel : nat) (dir px : Z) (yPrev : Q)
    (yPrev2 : option Q) : option (list Point) :=
  match fuel with
  | O => None
  | S fuel' =>
      let pt := {| x := inject_Z px; y := yPrev |} in
      let xn := px + dir in
      if (xn <? 0) || (width (roi args) <=? xn) then Some [pt]
      else
        match chooseNextY (findRunsInColumn args xn) yPrev yPrev2
                          (mode args) (maxJump args) with
        | None => Some [pt]
        | Some yNext =>
            option_map (cons pt) (traceLoop args fuel' dir xn yNext (Some yPrev))
        end
  end.

(** [traceDir(dir)] from the origin (x0, y0).  A trace visits at most
    [width] columns. *)
Definition traceDir (args : TraceArgs) (x0 : Z) (y0 : Q) (dir : Z) : option (list Point) :=
  traceLoop args (Z.to_nat (width (roi args))) dir x0 y0 None.

(** [[...seeds].sort((a, b) => a.x - b.x)], a stable sort. *)
Fixpoint insertSeed (s : Point) (l : list Point) : list Point :=
  match l with
  | [] => [s]
  | t :: rest =>
      if Qltb 0%Q (x s - x t)%Q then t :: insertSeed s rest
      else s :: l
  end.

Definition sortSeeds (l : list Point) : list Point := fold_right insertSeed [] l.

(** The origin column of a trace: the middle seed by x, rounded and
    clamped. *)
Definition originColumn (args : TraceArgs) (sMid : Point) : Z :=
  clamp (round (x sMid)) 0 (width (roi args) - 1).

Definition traceCurveWithSeeds (args : TraceArgs) : option (list Point) :=
  let W := width (roi args) in
  let H := height (roi args) in
  if (W <=? 0) || (H <=? 0) then Some []
  else if (length (seeds args) <? 3)%nat then Some []
  else
    match nth_error (sortSeeds (seeds args)) 1 with
    | None => Some []
    | Some sMid =>
        let x0 := originColumn args sMid in
        let runs0 := findRunsInColumn args x0 in
        match chooseInitialY runs0 (y sMid) (mode args) with
        | None => Some []
        | Some y0 =>
            match traceDir args x0 y0 1, traceDir args x0 y0 (-1) with
            | Some rightPts, Some leftPts => Some (rev leftPts ++ tl rightPts)
            | _, _ => None
            end
        end
    end.

(** The specification's prediction: linear extrapolation from the two
    previous points, or the previous y before a second point exists. *)
Definition predictedY (yPrev : Q) (yPrev2 : option Q) : Q :=
  match yPrev2 with
  | None => yPrev
  | Some p2 => (yPrev + (yPrev - p2))%Q
  end.

(** Jump-limited tracing in one direction, as the specification describes
    it: from column [px], where the trace is at [yPrev] (and was at [yPrev2]
    one column earlier, if any), the points emitted are the current point
    alone when the next column is outside the image or when all its runs are
    farther than [maxJump] from the predicted y; otherwise the current point
    followed by the trace from the next column at the representative y of
    the closest run. *)
Inductive Traced (args : TraceArgs) (dir : Z) :
    Z -> Q -> option Q -> list Point -> Prop :=
| traced_edge (px : Z) (yPrev : Q) (yPrev2 : option Q) :
    px + dir < 0 \/ width (roi args) <= px + dir ->
    Traced args dir px yPrev yPrev2 [{| x := inject_Z px; y := yPrev |}]
| traced_stop (px : Z) (yPrev : Q) (yPrev2 : option Q) :
    0 <= px + dir < width (roi args) ->
    (forall run, In run (findRunsInColumn args (px + dir)) ->
       (maxJump args
        < Qabs (runRepresentativeY run (mode args) - predictedY yPrev yPrev2))%Q) ->
    Traced args dir px yPrev yPrev2 [{| x := inject_Z px; y := yPrev |}]
| traced_step (px : Z) (yPrev : Q) (yPrev2 : option Q) (yNext : Q) (rest : list Point) :
    0 <= px + dir < width (roi args) ->
    (exists run, In run (findRunsInColumn args (px + dir)) /\
                 yNext = runRepresentativeY run (mode args)) ->
    (forall run, In run (findRunsInColumn args (px + dir)) ->
       (Qabs (yNext - predictedY yPrev yPrev2)
        <= Qabs (runRepresentativeY run (mode args) - predictedY yPrev yPrev2))%Q) ->
    (Qabs (yNext - predictedY yPrev yPrev2) <= maxJump args)%Q ->
    Traced args dir (px + dir) yNext (Some yPrev) rest ->
    Traced args dir px yPrev yPrev2 ({| x := inject_Z px; y := yPrev |} :: rest).

(** The columns [px, px + dir, px + 2 dir, ...]. *)
Fixpoint columnsFrom (px dir : Z) (n : nat) : list Z :=
  match n with
  | O => []
  | S k => px :: columnsFrom (px + dir) dir k
  end.

(** *** Sample inputs *)

(** A white image of the given size with the listed pixels painted red. *)
Definition paint (W H : Z) (red : list (Z * Z)) : ImageData :=
  {| data :=
       flat_map
         (fun py =>
            flat_map
              (fun px =>
                 if existsb (fun c => (fst c =? px) && (snd c =? py)) red
                 then [255; 0; 0; 255] else [255; 255; 255; 255])
              (range 0 W))
         (range 0 H);
     width := W;
     height := H |}.

(** A red curve through columns 0..4 of a 5 x 6 image: rows 2, 2, 2-3, 3 and
    then a jump to row 5; three seeds whose middle one (by x) is near
    column 2. *)
Definition sampleTrace (jump : Q) : TraceArgs :=
  {| roi := paint 5 6 [(0, 2); (1, 2); (2, 2); (2, 3); (3, 3); (4, 5)];
     seeds := [ {| x := 4; y := 3 |}; {| x := 1 # 5; y := 2 |};
                {| x := 12 # 5; y := 13 # 5 |} ];
     pickedColor := {| r := 255; g := 0; b := 0 |};
     threshold := 45;
     mode := centerline;
     maxJump := jump;
     isBlacklistedPixel := fun _ => false |}.

(** A polyline with its coordinates in lowest terms. *)
Definition reduced (pts : option (list Point)) : option (list (Q * Q)) :=
  option_map (map (fun p => (Qred (x p), Qred (y p)))) pts.

End Curve.

(** ** curve.ts: vocabulary for the runs of a column *)

Module Runs.
Import Detect Curve.

(** Runs listed from top to bottom, each one a non-empty interval of rows
    starting at or below [from], with at least one row between a run and
    the next. *)
Fixpoint separatedRuns (from : Z) (runs : list Run) : Prop :=
  match runs with
  | [] => True
  | run :: rest =>
      from <= ymin run /\ ymin run <= ymax run /\ separatedRuns (ymax run + 2) rest
  end.

(** Row [py] belongs to one of the runs. *)
Definition covers (runs : list Run) (py : Z) : Prop :=
  exists run, In run runs /\ ymin run <= py <= ymax run.


(** The seeds have pairwise different x coordinates. *)
Definition distinctColumns (s : list Point) : Prop :=
  forall p q, In p s -> In q s -> (x p == x q)%Q -> p = q.

(** The arguments of a trace with other seeds. *)
Definition withSeeds (args : TraceArgs) (s : list Point) : TraceArgs :=
  {| roi := roi args; seeds := s; pickedColor := pickedColor args;
     threshold := threshold args; mode := mode args; maxJump := maxJump args;
     isBlacklistedPixel := isBlacklistedPixel args |}.

(** The arguments of a trace with another colour threshold, and with
    another jump limit: what the sliders of the application change before
    it traces again. *)
Definition withThreshold (args : TraceArgs) (t : Q) : TraceArgs :=
  {| roi := roi args; seeds := seeds args; pickedColor := pickedColor args;
     threshold := t; mode := mode args; maxJump := maxJump args;
     isBlacklistedPixel := isBlacklistedPixel args |}.

Definition withMaxJump (args : TraceArgs) (j : Q) : TraceArgs :=
  {| roi := roi args; seeds := seeds args; pickedColor := pickedColor args;
     threshold := threshold args; mode := mode args; maxJump := j;
     isBlacklistedPixel := isBlacklistedPixel args |}.

End Runs.

(** ** curve.ts: the colour picked by the seeds *)

Module CurveColor.
Import Detect.

(** A colour as [computeAverageColor] returns it: a channel is [None] when
    it is NaN, which happens when a seed is read outside the pixel array
    ([data[idx]] is then [undefined]). *)
Record Average : Type := { r : option Z; g : option Z; b : option Z }.

(** The three running sums [sr], [sg], [sb]. *)
Record Sums : Type := { sr : option Z; sg : option Z; sb : option Z }.

(** [sum += data[idx]]. *)
Definition addByte (sum byte : option Z) : option Z :=
  match sum, byte with
  | Some s, Some v => Some (s + v)
  | _, _ => None
  end.

(** The pixel a seed is read at: its coordinates rounded and clamped to
    the image. *)
Definition seedColumn (roi : ImageData) (s : Curve.Point) : Z :=
  Curve.clamp (Curve.round (Curve.x s)) 0 (width roi - 1).

Definition seedRow (roi : ImageData) (s : Curve.Point) : Z :=
  Curve.clamp (Curve.round (Curve.y s)) 0 (height roi - 1).

Definition sumSeeds (roi : ImageData) (seeds : list Curve.Point) : Sums :=
  fold_left
    (fun acc s =>
       let idx := pixelIndex roi (seedColumn roi s) (seedRow roi s) in
       {| sr := addByte (sr acc) (Curve.byteAt (data roi) idx);
          sg := addByte (sg acc) (Curve.byteAt (data roi) (idx + 1));
          sb := addByte (sb acc) (Curve.byteAt (data roi) (idx + 2)) |})
    seeds {| sr := Some 0; sg := Some 0; sb := Some 0 |}.

(** [Math.round(sum / n)].  The quotient of an integer by [n] is never
    closer than 1/(2n) to a half-integer other than itself, so that rounding
    the exact quotient and rounding the binary64 one agree. *)
Definition roundedMean (sum : option Z) (n : Z) : option Z :=
  option_map (fun s => Curve.round (inject_Z s / inject_Z n)) sum.

Definition computeAverageColor (roi : ImageData) (seeds : list Curve.Point) : Average :=
  let sums := sumSeeds roi seeds in
  let n := Z.max 1 (Z.of_nat (length seeds)) in
  {| r := roundedMean (sr sums) n;
     g := roundedMean (sg sums) n;
     b := roundedMean (sb sums) n |}.

(** *** Vocabulary of the properties *)

(** The sum of one channel (0 red, 1 green, 2 blue) over the seeds. *)
Definition channelSum (roi : ImageData) (off : Z) (seeds : list Curve.Point)
    (start : option Z) : option Z :=
  fold_left
    (fun acc s =>
       addByte acc (Curve.byteAt (data roi)
                      (pixelIndex roi (seedColumn roi s) (seedRow roi s) + off)))
    seeds start.


(** The colour stored at the pixel a seed is read at. *)
Definition seedColor (roi : ImageData) (s : Curve.Point) : Average :=
  let idx := pixelIndex roi (seedColumn roi s) (seedRow roi s) in
  {| r := Curve.byteAt (data roi) idx;
     g := Curve.byteAt (data roi) (idx + 1);
     b := Curve.byteAt (data roi) (idx + 2) |}.

Definition exactly (c : Curve.Color) : Average :=
  {| r := Some (Curve.r c); g := Some (Curve.g c); b := Some (Curve.b c) |}.

(** The arguments of the trace started once the seeds are picked. *)
Definition traceArgs (roi : ImageData) (seeds : list Curve.Point) (c : Curve.Color)
    (threshold : Q) (mode : Curve.Mode) (maxJump : Q)
    (isBlacklistedPixel : Curve.Point -> bool) : Curve.TraceArgs :=
  {| Curve.roi := roi; Curve.seeds := seeds; Curve.pickedColor := c;
     Curve.threshold := threshold; Curve.mode := mode; Curve.maxJump := maxJump;
     Curve.isBlacklistedPixel := isBlacklistedPixel |}.

End CurveColor.

(** ** curve.ts: from traced pixels to the data series *)

Module Series.

Record DataPoint (N : Type) : Type := { X : N; Y : N }.
Arguments X {N} _.
Arguments Y {N} _.

Section MapAndSort.
Context {N : Type} `{Number N} {P : Type}.

(** [mapped.sort((a, b) => a.X - b.X)]: a stable sort; [b] goes before [a]
    only when [a.X - b.X > 0]. *)
Fixpoint insertByX (a : DataPoint N) (l : list (DataPoint N)) : list (DataPoint N) :=
  match l with
  | [] => [a]
  | b :: rest =>
      if nltb (ofZ 0) (nsub (X a) (X b)) then b :: insertByX a rest
      else a :: l
  end.

Definition sortByX (l : list (DataPoint N)) : list (DataPoint N) :=
  fold_right insertByX [] l.

Definition mapAndSort (pointsPx : list P) (pixelToData : P -> DataPoint N)
    (reverseX : bool) : list (DataPoint N) :=
  let mapped := sortByX (map pixelToData pointsPx) in
  if reverseX then rev mapped else mapped.

End MapAndSort.

End Series.

(** ** detect.ts: vocabulary for the threshold *)

Module Threshold.
Import Detect.

(** The weight of the class of the gray levels 0..t, and its weighted
    sum: [wB] and [sumB] once the scan has processed level [t]. *)
Definition weightUpTo (hist : Histogram) (t : Z) : Z := sumOf hist (range 0 (t + 1)).

Definition sumUpTo (hist : Histogram) (t : Z) : Z :=
  sumOf (fun u => u * hist u) (range 0 (t + 1)).

(** Level [t] splits the pixels: some are at or below it, some above. *)
Definition splits (hist : Histogram) (total t : Z) : Prop :=
  weightUpTo hist t <> 0 /\ total - weightUpTo hist t <> 0.

(** The between-class variance of the split at [t], without rounding. *)
Definition between (hist : Histogram) (total t : Z) : Q :=
  betweenExact (weightUpTo hist t) (total - weightUpTo hist t) (sumUpTo hist t)
               (sumOf (fun u => u * hist u) (range 0 256)).

(** What the scan knows after the levels below [lo]: no level has split
    the pixels yet and the threshold is still the default, or the threshold
    is the first level among them that maximises the between-class
    variance, which [vmax] records. *)
Definition scanned (hist : Histogram) (total lo thr : Z) (vmax : Q) : Prop :=
  ((forall t, 0 <= t < lo -> ~ splits hist total t) /\ thr = 128 /\ vmax = inject_Z (-1))
  \/
  (0 <= thr < lo /\ splits hist total thr /\ vmax = between hist total thr /\
   (forall t, 0 <= t < lo -> splits hist total t ->
      (between hist total t <= between hist total thr)%Q) /\
   (forall t, 0 <= t < thr -> splits hist total t ->
      (between hist total t < between hist total thr)%Q)).

(** The value [varBetween] that the scan computes from [sumB] and [wB]. *)
Definition varBetweenOf {N : Type} `{Division N} (total sum sb wb : Z) : N :=
  let wF := total - wb in
  let mB := ndiv (ofZ sb) (ofZ wb) in
  let mF := ndiv (nsub (ofZ sum) (ofZ sb)) (ofZ wF) in
  nmul (nmul (nmul (ofZ wb) (ofZ wF)) (nsub mB mF)) (nsub mB mF).

(** The between-class variance of the split at [t] as the scan computes
    it, in binary64. *)
Definition computedBetween (hist : Histogram) (total t : Z) : float :=
  varBetweenOf (N := float) total (sumOf (fun u => u * hist u) (range 0 256))
    (sumUpTo hist t) (weightUpTo hist t).

(** What the scan in binary64 knows after the levels below [lo]: no level
    has split the pixels yet, or the threshold is the first level among them
    at which the computed variance is largest, and [vmax] is that variance. *)
Definition scannedComputed (hist : Histogram) (total lo thr : Z) (vmax : float) : Prop :=
  ((forall t, 0 <= t < lo -> ~ splits hist total t) /\ thr = 128 /\ vmax = floatOfZ (-1))
  \/
  (0 <= thr < lo /\ splits hist total thr /\ vmax = computedBetween hist total thr /\
   (forall t, 0 <= t < lo -> splits hist total t ->
      (computedBetween hist total t <=? computedBetween hist total thr)%float = true) /\
   (forall t, 0 <= t < thr -> splits hist total t ->
      (computedBetween hist total t <? computedBetween hist total thr)%float = true)).

(** Some pixels are at level [thr] and some are above it. *)
Definition occupiedSplit (hist : Histogram) (thr : Z) : Prop :=
  0 <= thr <= 255 /\ 0 < hist thr /\ exists u, thr < u <= 255 /\ 0 < hist u.

(** The pixels of the rect, row by row, as the counting loop visits them. *)
Definition rectPixels (rect : Rect float) : list (Z * Z) :=
  flat_map
    (fun py => map (fun px => (px, py))
                   (range (toInt32 (x rect)) (toInt32 (x rect + w rect)%float)))
    (range (toInt32 (y rect)) (toInt32 (y rect + h rect)%float)).

(** The pixels of the rect whose gray level is [t]. *)
Definition atLevel (img : ImageData) (rect : Rect float) (t : Z) : list (Z * Z) :=
  filter (fun p => grayAt (data img) (pixelIndex img (fst p) (snd p)) =? t)
         (rectPixels rect).

(** A black-and-white image: [dark] pixels of gray 0 followed by [light]
    pixels of gray 255, in one row. *)
Definition twoTone (dark light : nat) : ImageData :=
  {| data := concat (repeat [0; 0; 0; 255] dark ++ repeat [255; 255; 255; 255] light);
     width := Z.of_nat (dark + light);
     height := 1 |}.

End Threshold.

(** ** detect.ts: tick marks and the detection as a whole *)

Module Ticks.
Import Detect.

Record Point (N : Type) : Type := { x : N; y : N }.
Arguments x {N} _.
Arguments y {N} _.

(** [Line] of ../types: a point and a direction. *)
Record Line (N : Type) : Type := { p : Point N; v : Point N }.
Arguments p {N} _.
Arguments v {N} _.

Record Detection (N : Type) : Type := {
  xAxisLine : Line N;
  yAxisLine : Line N;
  tickPointsX : list (Point N);
  tickPointsY : list (Point N)
}.
Arguments xAxisLine {N} _.
Arguments yAxisLine {N} _.
Arguments tickPointsX {N} _.
Arguments tickPointsY {N} _.

Definition minOffset : Z := 3.
Definition maxOffset : Z := 14.

(** The loops [for (let d = minOffset; d <= maxOffset; d++) if (...) { has =
    true; break; }]: some offset passes the test. *)
Definition someOffset (test : Z -> bool) : bool :=
  existsb test (range minOffset (maxOffset + 1)).

(** [y >= r.y && y < r.y + r.h && y >= 0 && y < height]. *)
Definition rowInside (r : Rect Z) (H py : Z) : bool :=
  (Detect.y r <=? py) && (py <? Detect.y r + h r) && (0 <=? py) && (py <? H).

(** [x >= r.x && x < r.x + r.w && x >= 0 && x < width]. *)
Definition columnInside (r : Rect Z) (W px : Z) : bool :=
  (Detect.x r <=? px) && (px <? Detect.x r + w r) && (0 <=? px) && (px <? W).

(** The columns pushed to [candidatesX]. *)
Definition candidatesX (img : ImageData) (r : Rect Z) (axisY : Z)
    (ink : Z -> Z -> bool) : list Z :=
  filter
    (fun px =>
       ink px axisY
       && (let hasUp :=
             someOffset (fun dy => rowInside r (height img) (axisY - dy)
                                   && ink px (axisY - dy)) in
           let hasDown :=
             someOffset (fun dy => rowInside r (height img) (axisY + dy)
                                   && ink px (axisY + dy)) in
           hasUp || hasDown))
    (range (Detect.x r) (Detect.x r + w r)).

(** The rows pushed to [candidatesY]. *)
Definition candidatesY (img : ImageData) (r : Rect Z) (axisX : Z)
    (ink : Z -> Z -> bool) : list Z :=
  filter
    (fun py =>
       ink axisX py
       && (let hasLeft :=
             someOffset (fun dx => columnInside r (width img) (axisX - dx)
                                   && ink (axisX - dx) py) in
           let hasRight :=
             someOffset (fun dx => columnInside r (width img) (axisX + dx)
                                   && ink (axisX + dx) py) in
           hasLeft || hasRight))
    (range (Detect.y r) (Detect.y r + h r)).

Section Detection.
Context {N : Type} `{Division N}.

(** [detectXTicks] and [detectYTicks] on a ROI with integer fields and an
    integer axis line, where the columns and rows visited are integers. *)
Definition detectXTicks (img : ImageData) (roi : Rect Z) (axisY : Z)
    (ink : Z -> Z -> bool) : list (Point N) :=
  let r := clampRect roi (width img) (height img) in
  let merged := cluster1D (map ofZ (candidatesX img r axisY ink)) (ofZ 4) in
  map (fun mx => {| x := mx; y := ofZ axisY |}) merged.

Definition detectYTicks (img : ImageData) (roi : Rect Z) (axisX : Z)
    (ink : Z -> Z -> bool) : list (Point N) :=
  let r := clampRect roi (width img) (height img) in
  let merged := cluster1D (map ofZ (candidatesY img r axisX ink)) (ofZ 4) in
  map (fun my => {| x := ofZ axisX; y := my |}) merged.

(** A rect with integer fields, as [buildInkFn] receives it. *)
Definition rectAsNumbers (r : Rect Z) : Rect float :=
  {| Detect.x := floatOfZ (Detect.x r); Detect.y := floatOfZ (Detect.y r);
     w := floatOfZ (w r); h := floatOfZ (h r) |}.

(** [detectAxesAndTicksTwoRois], for ROIs whose fields are integers. *)
Definition detectAxesAndTicksTwoRois (roi : ImageData) (axisRoiX axisRoiY : Rect Z)
    : Detection N :=
  let rX := clampRect axisRoiX (width roi) (height roi) in
  let rY := clampRect axisRoiY (width roi) (height roi) in
  let rectForThresh := if w rY * h rY <=? w rX * h rX then rX else rY in
  let ink := isInk (buildInkFn roi (rectAsNumbers rectForThresh)) in
  let axisY := findXAxisY roi rX ink in
  let axisX := findYAxisX roi rY ink in
  {| xAxisLine := {| p := {| x := ofZ 0; y := ofZ axisY |};
                     v := {| x := ofZ 1; y := ofZ 0 |} |};
     yAxisLine := {| p := {| x := ofZ axisX; y := ofZ 0 |};
                     v := {| x := ofZ 0; y := ofZ 1 |} |};
     tickPointsX := detectXTicks roi rX axisY ink;
     tickPointsY := detectYTicks roi rY axisX ink |}.

End Detection.

(** *** Vocabulary of the properties *)

(** Consecutive values are more than [d] apart. *)
Fixpoint apart (d : Q) (cs : list Q) : Prop :=
  match cs with
  | c :: ((c' :: _) as rest) => (d < c' - c)%Q /\ apart d rest
  | _ => True
  end.

(** Column [px] of the ROI carries a tick of the x axis found in row
    [axisY]: it is ink on the axis and again 3 to 14 rows above or below
    it, inside the ROI and the image. *)
Definition tickColumn (img : ImageData) (r : Rect Z) (axisY : Z) (ink : Z -> Z -> bool)
    (px : Z) : Prop :=
  Detect.x r <= px < Detect.x r + w r /\ ink px axisY = true /\
  exists py,
    (3 <= axisY - py <= 14 \/ 3 <= py - axisY <= 14) /\
    Detect.y r <= py < Detect.y r + h r /\ 0 <= py < height img /\ ink px py = true.

(** Row [py] of the ROI carries a tick of the y axis found in column
    [axisX]. *)
Definition tickRow (img : ImageData) (r : Rect Z) (axisX : Z) (ink : Z -> Z -> bool)
    (py : Z) : Prop :=
  Detect.y r <= py < Detect.y r + h r /\ ink axisX py = true /\
  exists px,
    (3 <= axisX - px <= 14 \/ 3 <= px - axisX <= 14) /\
    Detect.x r <= px < Detect.x r + w r /\ 0 <= px < width img /\ ink px py = true.

End Ticks.

(** ** blacklist.ts *)

Module Blacklist.
Import Ticks.

Definition normalize (a : Point float) : Point float :=
  let n := Calibration.hypot (x a) (y a) in
  if (n <? 1e-9)%float then {| x := 1%float; y := 0%float |}
  else {| x := (x a / n)%float; y := (y a / n)%float |}.

Definition distancePointToLine (q : Point float) (line : Line float) : float :=
  let u := normalize (v line) in
  let dx := (x q - x (p line))%float in
  let dy := (y q - y (p line))%float in
  PrimFloat.abs (dx * y u - dy * x u)%float.

Definition dist2 (a b : Point float) : float :=
  let dx := (x a - x b)%float in
  let dy := (y a - y b)%float in
  (dx * dx + dy * dy)%float.

(** The argument object of [buildBlacklist]. *)
Record Args : Type := {
  xAxisLine : Line float;
  yAxisLine : Line float;
  tickPointsX : list (Point float);
  tickPointsY : list (Point float);
  axisBand : float;
  tickRadius : float
}.

Definition buildBlacklist (args : Args) : Point float -> bool :=
  let ticks := tickPointsX args ++ tickPointsY args in
  let tickR2 := (tickRadius args * tickRadius args)%float in
  fun q =>
    if (distancePointToLine q (xAxisLine args) <? axisBand args)%float then true
    else if (distancePointToLine q (yAxisLine args) <? axisBand args)%float then true
    else existsb (fun t => (dist2 q t <? tickR2)%float) ticks.

(** *** Vocabulary of the properties *)

(** The blacklist the application builds from a detection: a band of 4
    pixels around the axes and a radius of 6 pixels around the ticks. *)
Definition ofDetection (d : Detection float) : Point float -> bool :=
  buildBlacklist
    {| xAxisLine := Ticks.xAxisLine d;
       yAxisLine := Ticks.yAxisLine d;
       tickPointsX := Ticks.tickPointsX d;
       tickPointsY := Ticks.tickPointsY d;
       axisBand := 4%float;
       tickRadius := 6%float |}.

Definition finitePoint (q : Point float) : Prop :=
  PrimFloat.is_finite (x q) = true /\ PrimFloat.is_finite (y q) = true.

(** The detector returns its axes as the horizontal line through
    (0, axisY) and the vertical line through (axisX, 0). *)
Definition detectionOf (axisY axisX : float) (ticksX ticksY : list (Point float))
    : Detection float :=
  {| Ticks.xAxisLine := {| p := {| x := 0%float; y := axisY |};
                           v := {| x := 1%float; y := 0%float |} |};
     Ticks.yAxisLine := {| p := {| x := axisX; y := 0%float |};
                           v := {| x := 0%float; y := 1%float |} |};
     Ticks.tickPointsX := ticksX;
     Ticks.tickPointsY := ticksY |}.

End Blacklist.

(** ** The canvases: selecting a region by dragging, and cropping *)

Module Selection.
Import Detect.

Section Drag.
Context {N : Type} `{Number N}.

(** [rectFromPoints] of OriginalImageCanvas.tsx and RoiWorkCanvas.tsx. *)
Definition rectFromPoints (a b : Ticks.Point N) : Rect N :=
  let x1 := nmin (Ticks.x a) (Ticks.x b) in
  let y1 := nmin (Ticks.y a) (Ticks.y b) in
  let x2 := nmax (Ticks.x a) (Ticks.x b) in
  let y2 := nmax (Ticks.y a) (Ticks.y b) in
  {| x := x1; y := y1; w := nsub x2 x1; h := nsub y2 y1 |}.

(** What the handler [finish] of either canvas commits at the end of a
    drag from [start] to [cur] over an image of size W x H: the dragged rect
    clamped to the image ([clampRectToImage] and the canvases' [clampRect]
    are the [clampRect] of detect.ts, word for word), if it is at least 10
    wide and high, and nothing otherwise. *)
Definition finish (start cur : Ticks.Point N) (W H : N) : option (Rect N) :=
  let raw := rectFromPoints start cur in
  let clamped := clampRect raw W H in
  if nleb (ofZ 10) (w clamped) && nleb (ofZ 10) (h clamped) then Some clamped
  else None.

End Drag.

(** The box [cropImageData] cuts out of the bitmap for a rect: position
    and size of the [drawImage] source, and size of the [ImageData]
    returned. *)
Definition cropBox (rect : Rect Q) : Rect Z :=
  {| x := Z.max 0 (Qfloor (x rect));
     y := Z.max 0 (Qfloor (y rect));
     w := Z.max 1 (Qfloor (w rect));
     h := Z.max 1 (Qfloor (h rect)) |}.

(** *** Vocabulary of the properties *)

(** The point lies on the image, borders included, as the canvases'
    conversion of pointer positions guarantees. *)
Definition onImage (q : Ticks.Point Q) (W H : Z) : Prop :=
  (0 <= Ticks.x q <= inject_Z W)%Q /\ (0 <= Ticks.y q <= inject_Z H)%Q.

Definition sameRect (r s : Rect Q) : Prop :=
  (x r == x s /\ y r == y s /\ w r == w s /\ h r == h s)%Q.

End Selection.

(** ** App.tsx: picking a calibration point among the ticks *)

Module Picking.
Import Ticks.

Definition dist2 (a b : Point float) : float :=
  let dx := (x a - x b)%float in
  let dy := (y a - y b)%float in
  (dx * dx + dy * dy)%float.

(** One iteration of the loop of [nearestWithin] on the pair
    [(best, bestD)], which starts as [(null, Infinity)]. *)
Definition nearer (q0 : Point float) (st : option (Point float) * float) (q : Point float)
    : option (Point float) * float :=
  let d := dist2 q0 q in
  if (d <? snd st)%float then (Some q, d) else st.

Definition nearestWithin (q0 : Point float) (pts : list (Point float)) (radius : float)
    : option (Point float) :=
  let r2 := (radius * radius)%float in
  let st := fold_left (nearer q0) pts (None, infinity) in
  match fst st with
  | Some best => if (snd st <=? r2)%float then Some best else None
  | None => None
  end.

End Picking.

(* ================================================================== *)
(** * Part II: properties                                              *)
(* ================================================================== *)

Module Binary64Facts.
Import Binary64.

Lemma keyLt_trans a b c : keyLt a b -> keyLt b c -> keyLt a c.
Proof.
  destruct a as [[a1 a2] a3], b as [[b1 b2] b3], c as [[c1 c2] c3]. unfold keyLt. lia.
Qed.

Lemma keyLt_irrefl a : ~ keyLt a a.
Proof. destruct a as [[a1 a2] a3]. unfold keyLt. lia. Qed.

Lemma keyLt_total a b : keyLt a b \/ a = b \/ keyLt b a.
Proof.
  destruct a as [[a1 a2] a3], b as [[b1 b2] b3]. unfold keyLt.
  destruct (Z.lt_trichotomy a1 b1) as [?|[?|?]]; [lia| |lia].
  destruct (Z.lt_trichotomy a2 b2) as [?|[?|?]]; [lia| |lia].
  destruct (Z.lt_trichotomy a3 b3) as [?|[?|?]]; [lia| |lia].
  right. left. congruence.
Qed.

Lemma SFcompare_key (x y : spec_float) :
  isNaN x = false -> isNaN y = false ->
  match SFcompare x y with
  | Some Lt => keyLt (orderKey x) (orderKey y)
  | Some Eq => orderKey x = orderKey y
  | Some Gt => keyLt (orderKey y) (orderKey x)
  | None => False
  end.
Proof.
  destruct x as [sx|sx| |sx mx ex], y as [sy|sy| |sy my ey]; try discriminate; intros _ _;
    try (destruct sx); try (destruct sy); cbn; try lia; try reflexivity.
  - destruct (Z.compare_spec ex ey) as [E|E|E]; try lia.
    change (Pos.compare_cont Eq mx my) with (Pos.compare mx my).
    destruct (Pos.compare_spec mx my) as [F|F|F]; cbn; subst; try reflexivity; lia.
  - destruct (Z.compare_spec ex ey) as [E|E|E]; try lia.
    change (Pos.compare_cont Eq mx my) with (Pos.compare mx my).
    destruct (Pos.compare_spec mx my) as [F|F|F]; cbn; subst; try reflexivity; lia.
Qed.

Lemma SFltb_key (x y : spec_float) :
  SFltb x y = true <-> isNaN x = false /\ isNaN y = false /\ keyLt (orderKey x) (orderKey y).
Proof.
  unfold SFltb. split.
  - intros H. assert (Nx : isNaN x = false) by (destruct x; try reflexivity; discriminate).
    assert (Ny : isNaN y = false) by (destruct x, y; try reflexivity; discriminate).
    pose proof (SFcompare_key x y Nx Ny) as K.
    destruct (SFcompare x y) as [[| |]|]; try discriminate. auto.
  - intros [Nx [Ny L]]. pose proof (SFcompare_key x y Nx Ny) as K.
    destruct (SFcompare x y) as [[| |]|]; try reflexivity; try contradiction.
    + rewrite K in L. now apply keyLt_irrefl in L.
    + exfalso. exact (keyLt_irrefl _ (keyLt_trans _ _ _ L K)).
Qed.

Lemma SFleb_key (x y : spec_float) :
  SFleb x y = true <->
  isNaN x = false /\ isNaN y = false /\ (keyLt (orderKey x) (orderKey y) \/ orderKey x = orderKey y).
Proof.
  unfold SFleb. split.
  - intros H. assert (Nx : isNaN x = false) by (destruct x; try reflexivity; discriminate).
    assert (Ny : isNaN y = false) by (destruct x, y; try reflexivity; discriminate).
    pose proof (SFcompare_key x y Nx Ny) as K.
    destruct (SFcompare x y) as [[| |]|]; try discriminate; auto.
  - intros [Nx [Ny L]]. pose proof (SFcompare_key x y Nx Ny) as K.
    destruct (SFcompare x y) as [[| |]|]; try reflexivity; try contradiction.
    destruct L as [L|L].
    + exfalso. exact (keyLt_irrefl _ (keyLt_trans _ _ _ L K)).
    + rewrite L in K. now apply keyLt_irrefl in K.
Qed.

(** The same on the primitive doubles. *)

Lemma is_nan_SF (x : float) : PrimFloat.is_nan x = isNaN (Prim2SF x).
Proof.
  unfold PrimFloat.is_nan. rewrite FloatAxioms.eqb_spec. unfold SFeqb.
  destruct (Prim2SF x) as [s|s| |s m e]; try (destruct s); cbn; try reflexivity.
  - rewrite Z.compare_refl. change (Pos.compare_cont Eq m m) with (Pos.compare m m).
    now rewrite Pos.compare_refl.
  - rewrite Z.compare_refl. change (Pos.compare_cont Eq m m) with (Pos.compare m m).
    now rewrite Pos.compare_refl.
Qed.

Lemma ltb_key (x y : float) :
  (x <? y)%float = true <->
  PrimFloat.is_nan x = false /\ PrimFloat.is_nan y = false /\ keyLt (key x) (key y).
Proof. rewrite FloatAxioms.ltb_spec, !is_nan_SF. apply SFltb_key. Qed.

Lemma leb_key (x y : float) :
  (x <=? y)%float = true <->
  PrimFloat.is_nan x = false /\ PrimFloat.is_nan y = false /\
  (keyLt (key x) (key y) \/ key x = key y).
Proof. rewrite FloatAxioms.leb_spec, !is_nan_SF. apply SFleb_key. Qed.

Lemma ltb_trans (x y z : float) :
  (x <? y)%float = true -> (y <? z)%float = true -> (x <? z)%float = true.
Proof.
  rewrite !ltb_key. intros [Nx [Ny L1]] [_ [Nz L2]]. eauto using keyLt_trans.
Qed.

Lemma ltb_leb_trans (x y z : float) :
  (x <? y)%float = true -> (y <=? z)%float = true -> (x <? z)%float = true.
Proof.
  rewrite !ltb_key, leb_key. intros [Nx [Ny L1]] [_ [Nz [L2|L2]]].
  - eauto using keyLt_trans.
  - rewrite <- L2. auto.
Qed.

Lemma leb_ltb_trans (x y z : float) :
  (x <=? y)%float = true -> (y <? z)%float = true -> (x <? z)%float = true.
Proof.
  rewrite !ltb_key, leb_key. intros [Nx [Ny [L1|L1]]] [_ [Nz L2]].
  - eauto using keyLt_trans.
  - rewrite L1. auto.
Qed.

Lemma leb_trans (x y z : float) :
  (x <=? y)%float = true -> (y <=? z)%float = true -> (x <=? z)%float = true.
Proof.
  rewrite !leb_key. intros [Nx [Ny L1]] [_ [Nz L2]]. repeat split; auto.
  destruct L1 as [L1|L1], L2 as [L2|L2].
  - left. eauto using keyLt_trans.
  - left. now rewrite <- L2.
  - left. now rewrite L1.
  - right. congruence.
Qed.

Lemma ltb_leb (x y : float) : (x <? y)%float = true -> (x <=? y)%float = true.
Proof. rewrite ltb_key, leb_key. intuition. Qed.

Lemma leb_refl (x : float) : PrimFloat.is_nan x = false -> (x <=? x)%float = true.
Proof. rewrite leb_key. intuition. Qed.

Lemma ltb_irrefl (x : float) : (x <? x)%float = false.
Proof.
  destruct (x <? x)%float eqn:E; [|reflexivity].
  apply ltb_key in E. destruct E as [_ [_ L]]. now apply keyLt_irrefl in L.
Qed.

(** Of two doubles that are not NaN, one is below the other or they are
    equal in the order. *)
Lemma not_ltb_leb (x y : float) :
  PrimFloat.is_nan x = false -> PrimFloat.is_nan y = false ->
  (x <? y)%float = false -> (y <=? x)%float = true.
Proof.
  intros Nx Ny H. apply leb_key. repeat split; auto.
  destruct (keyLt_total (key x) (key y)) as [L|[L|L]]; auto.
  exfalso. assert (T : (x <? y)%float = true) by (apply ltb_key; auto). congruence.
Qed.

Lemma ltb_not_leb (x y : float) :
  (x <? y)%float = true -> (y <=? x)%float = false.
Proof.
  intros H. destruct (y <=? x)%float eqn:E; [|reflexivity].
  pose proof (ltb_leb_trans _ _ _ H E) as F. now rewrite ltb_irrefl in F.
Qed.

Lemma ltb_not_nan_l (x y : float) : (x <? y)%float = true -> PrimFloat.is_nan x = false.
Proof. rewrite ltb_key. intuition. Qed.
Lemma ltb_not_nan_r (x y : float) : (x <? y)%float = true -> PrimFloat.is_nan y = false.
Proof. rewrite ltb_key. intuition. Qed.
Lemma leb_not_nan_l (x y : float) : (x <=? y)%float = true -> PrimFloat.is_nan x = false.
Proof. rewrite leb_key. intuition. Qed.
Lemma leb_not_nan_r (x y : float) : (x <=? y)%float = true -> PrimFloat.is_nan y = false.
Proof. rewrite leb_key. intuition. Qed.


(** *** The number of bits of a mantissa *)

Lemma digits2_pos_size (p : positive) : digits2_pos p = Pos.size p.
Proof. induction p; cbn; congruence. Qed.

Lemma Zdigits2_log2 (p : positive) : Zdigits2 (Zpos p) = Z.log2 (Zpos p) + 1.
Proof.
  cbn [Zdigits2]. rewrite digits2_pos_size.
  destruct p; cbn [Pos.size Z.log2]; rewrite ?Pos2Z.inj_succ; lia.
Qed.

Lemma Zdigits2_pos (m : Z) : 0 < m -> 0 < Zdigits2 m.
Proof. destruct m; try lia. intros _. cbn. lia. Qed.

Lemma Zdigits2_bounds (m : Z) : 0 < m -> 2 ^ (Zdigits2 m - 1) <= m < 2 ^ Zdigits2 m.
Proof.
  destruct m as [|p|p]; try lia. intros _. rewrite Zdigits2_log2.
  replace (Z.log2 (Z.pos p) + 1 - 1) with (Z.log2 (Z.pos p)) by lia.
  replace (Z.log2 (Z.pos p) + 1) with (Z.succ (Z.log2 (Z.pos p))) by lia.
  apply Z.log2_spec. lia.
Qed.

Lemma Zdigits2_le (m k : Z) : 0 < m -> 0 <= k -> m < 2 ^ k -> Zdigits2 m <= k.
Proof.
  intros Hm Hk H. destruct (Z_le_gt_dec (Zdigits2 m) k) as [L|L]; [exact L|].
  pose proof (Zdigits2_bounds m Hm) as [B _].
  assert (2 ^ k <= 2 ^ (Zdigits2 m - 1)) by (apply Z.pow_le_mono_r; lia). lia.
Qed.

Lemma Zdigits2_ge (m k : Z) : 0 < m -> 2 ^ k <= m -> k + 1 <= Zdigits2 m.
Proof.
  intros Hm H. destruct (Z_le_gt_dec (k + 1) (Zdigits2 m)) as [L|L]; [exact L|].
  pose proof (Zdigits2_bounds m Hm) as [_ B]. pose proof (Zdigits2_pos m Hm).
  assert (2 ^ Zdigits2 m <= 2 ^ k) by (apply Z.pow_le_mono_r; lia). lia.
Qed.

Lemma Zdigits2_mono (m m' : Z) : 0 < m -> m <= m' -> Zdigits2 m <= Zdigits2 m'.
Proof.
  intros Hm H. pose proof (Zdigits2_bounds m Hm) as [B _].
  pose proof (Zdigits2_ge m' (Zdigits2 m - 1) ltac:(lia) ltac:(lia)). lia.
Qed.

Lemma Zdigits2_shiftr (m n : Z) :
  0 < m -> 0 <= n < Zdigits2 m -> Zdigits2 (Z.shiftr m n) = Zdigits2 m - n /\ 0 < Z.shiftr m n.
Proof.
  intros Hm Hn. pose proof (Zdigits2_bounds m Hm) as [B1 B2].
  assert (P : 0 < Z.shiftr m n).
  { rewrite Z.shiftr_div_pow2 by lia.
    assert (2 ^ n <= m). { eapply Z.le_trans; [|exact B1]. apply Z.pow_le_mono_r; lia. }
    assert (0 < 2 ^ n) by (apply Z.pow_pos_nonneg; lia).
    apply Z.div_str_pos. lia. }
  split; [|exact P].
  destruct m as [|p|p]; try lia. destruct (Z.shiftr (Z.pos p) n) as [|q|q] eqn:E; try lia.
  rewrite !Zdigits2_log2 in *. rewrite <- E. rewrite Z.log2_shiftr by lia.
  lia.
Qed.

Lemma Zdigits2_succ (m : Z) : 0 < m -> Zdigits2 (m + 1) <= Zdigits2 m + 1.
Proof.
  intros Hm. pose proof (Zdigits2_bounds m Hm) as [_ B]. pose proof (Zdigits2_pos m Hm).
  apply Zdigits2_le; try lia.
  rewrite Z.pow_add_r by lia. change (2 ^ 1) with 2. lia.
Qed.

(** *** Shifting a mantissa to the right *)

Lemma shr_1_m (mrs : shr_record) :
  0 <= shr_m mrs -> shr_m (shr_1 mrs) = Z.div2 (shr_m mrs).
Proof. destruct mrs as [[|[p|p|]|p] r s]; cbn; intros H; try reflexivity; lia. Qed.

Lemma iter_pos_iter {A : Type} (f : A -> A) (n : positive) (a : A) :
  iter_pos f n a = Pos.iter f a n.
Proof.
  revert a. induction n as [n IH|n IH|]; intros a; cbn.
  - rewrite !IH. now rewrite <- !Pos.iter_swap.
  - now rewrite !IH.
  - reflexivity.
Qed.

Lemma iter_shr_1_m (n : positive) (mrs : shr_record) :
  0 <= shr_m mrs -> shr_m (iter_pos shr_1 n mrs) = Z.shiftr (shr_m mrs) (Zpos n).
Proof.
  rewrite iter_pos_iter. revert mrs. induction n as [|n IH] using Pos.peano_ind; intros mrs H.
  - cbn [Pos.iter]. rewrite shr_1_m by exact H. now rewrite Z.div2_spec.
  - rewrite Pos.iter_succ, shr_1_m.
    + rewrite IH by exact H. rewrite Z.div2_spec, Z.shiftr_shiftr by lia.
      f_equal. lia.
    + rewrite IH by exact H. now apply Z.shiftr_nonneg.
Qed.

Lemma shr_shrBy (mrs : shr_record) (e n : Z) :
  0 <= shr_m mrs ->
  (shr_m (fst (shr mrs e n)), snd (shr mrs e n)) = shrBy (shr_m mrs) e n.
Proof.
  intros H. unfold shr, shrBy. destruct n as [|p|p]; cbn [fst snd Z.ltb Z.compare]; try reflexivity.
  now rewrite iter_shr_1_m.
Qed.

Lemma shr_record_of_loc_m (m : Z) (l : location) : shr_m (shr_record_of_loc m l) = m.
Proof. destruct l as [|[| |]]; reflexivity. Qed.

Lemma round_nearest_even_bounds (m : Z) (l : location) :
  m <= round_nearest_even m l <= m + 1.
Proof. destruct l as [|[| |]]; cbn; try lia. destruct (Z.even m); lia. Qed.

Lemma fexp_fexp64 (e : Z) : fexp prec emax e = fexp64 e.
Proof. reflexivity. Qed.

(** The two steps of [binary_round_aux]: the mantissa is cut to 53 bits,
    rounded to one of its two neighbours, and cut again if the rounding
    carried into a 54th bit. *)
Lemma binary_round_aux_form (sx : bool) (m e : Z) (l : location) :
  0 <= m ->
  exists mr,
    let m1e1 := shrBy m e (fexp64 (Zdigits2 m + e) - e) in
    fst m1e1 <= mr <= fst m1e1 + 1 /\
    binary_round_aux prec emax sx m e l =
      finish sx (shrBy mr (snd m1e1) (fexp64 (Zdigits2 mr + snd m1e1) - snd m1e1)).
Proof.
  intros Hm. unfold binary_round_aux, shr_fexp. change (fexp prec emax) with fexp64.
  set (n1 := fexp64 (Zdigits2 m + e) - e).
  pose proof (shr_shrBy (shr_record_of_loc m l) e n1) as S1.
  rewrite shr_record_of_loc_m in S1. specialize (S1 Hm).
  destruct (shr (shr_record_of_loc m l) e n1) as [mrs' e'] eqn:E1. cbn [fst snd] in S1.
  set (mr := round_nearest_even (shr_m mrs') (loc_of_shr_record mrs')).
  exists mr. cbn zeta. rewrite <- S1. cbn [fst snd].
  split; [apply round_nearest_even_bounds|].
  set (n2 := fexp64 (Zdigits2 mr + e') - e').
  assert (Hmr : 0 <= mr).
  { pose proof (round_nearest_even_bounds (shr_m mrs') (loc_of_shr_record mrs')).
    assert (0 <= shr_m mrs').
    { assert (F : shr_m mrs' = fst (shrBy m e n1)) by now rewrite <- S1.
      rewrite F. unfold shrBy. destruct (0 <? n1); cbn [fst]; [now apply Z.shiftr_nonneg | exact Hm]. }
    unfold mr. lia. }
  pose proof (shr_shrBy (shr_record_of_loc mr loc_Exact) e' n2) as S2.
  rewrite shr_record_of_loc_m in S2. specialize (S2 Hmr).
  destruct (shr (shr_record_of_loc mr loc_Exact) e' n2) as [mrs'' e''] eqn:E2. cbn [fst snd] in S2.
  rewrite <- S2. unfold finish. cbn [fst snd]. reflexivity.
Qed.

(** *** What a rounding returns *)

(** A positive mantissa above the underflow range rounds to a double of the
    same sign whose exponent is the one of the format at that magnitude, or
    one more when the rounding carries; the mantissa is one of the two
    neighbours of the truncated one. *)
Lemma binary_round_aux_range (sx : bool) (m e : Z) (l : location) :
  0 < m -> -1074 < Zdigits2 m + e ->
  let E1 := Z.max e (fexp64 (Zdigits2 m + e)) in
  let m1 := fst (shrBy m e (fexp64 (Zdigits2 m + e) - e)) in
  exists mr m2 e2,
    m1 <= mr <= m1 + 1 /\ 0 < m1 /\
    ((e2 = E1 /\ m2 = mr) \/ (e2 = E1 + 1 /\ m2 = Z.shiftr mr 1)) /\
    0 < m2 /\
    binary_round_aux prec emax sx m e l =
      (if e2 <=? 971 then S754_finite sx (Z.to_pos m2) e2 else S754_infinity sx).
Proof.
  intros Hm Hd E1 m1.
  destruct (binary_round_aux_form sx m e l ltac:(lia)) as (mr & Hmr & Eq).
  cbv zeta in Hmr, Eq. fold m1 in Hmr.
  assert (He1 : snd (shrBy m e (fexp64 (Zdigits2 m + e) - e)) = E1).
  { unfold shrBy, E1. destruct (Z.ltb_spec 0 (fexp64 (Zdigits2 m + e) - e)); cbn [snd]; lia. }
  rewrite He1 in Eq.
  pose proof (Zdigits2_pos m Hm) as Dm.
  assert (Hm1 : 0 < m1 /\ Zdigits2 m1 <= 53 /\
                (Zdigits2 m1 = 53 \/ (Zdigits2 m1 < 53 /\ fexp64 (Zdigits2 m1 + E1) <= E1))).
  { unfold m1, shrBy. unfold E1, fexp64 in *.
    destruct (Z.ltb_spec 0 (Z.max (Zdigits2 m + e - 53) (-1074) - e)) as [Hn|Hn]; cbn [fst].
    - destruct (Zdigits2_shiftr m (Z.max (Zdigits2 m + e - 53) (-1074) - e) Hm ltac:(lia)) as [D P].
      rewrite D. lia.
    - lia. }
  destruct Hm1 as (Pm1 & Dm1 & Cm1).
  assert (Pmr : 0 < mr) by lia.
  assert (Dmr : Zdigits2 m1 <= Zdigits2 mr <= Zdigits2 m1 + 1).
  { split; [apply Zdigits2_mono; lia|].
    destruct (Z.eq_dec mr m1) as [->|Hne]; [lia|].
    replace mr with (m1 + 1) by lia. now apply Zdigits2_succ. }
  assert (HE1 : -1074 <= E1) by (unfold E1, fexp64; lia).
  exists mr.
  unfold shrBy in Eq.
  destruct (Z.ltb_spec 0 (fexp64 (Zdigits2 mr + E1) - E1)) as [Hn|Hn].
  - (* the rounding carried into a 54th bit *)
    assert (N2 : fexp64 (Zdigits2 mr + E1) - E1 = 1) by (unfold fexp64 in *; lia).
    rewrite N2 in Eq.
    assert (D2 : 0 <= 1 < Zdigits2 mr) by (unfold fexp64 in *; lia).
    destruct (Zdigits2_shiftr mr 1 Pmr D2) as [_ P].
    exists (Z.shiftr mr 1), (E1 + 1). repeat split; try lia.
    rewrite Eq. unfold finish. cbn [fst snd].
    destruct (Z.shiftr mr 1) as [|p|p]; try lia. reflexivity.
  - exists mr, E1. repeat split; try lia.
    rewrite Eq. unfold finish. cbn [fst snd].
    destruct mr as [|p|p]; try lia. reflexivity.
Qed.

(** Rounding never invents a NaN. *)
Lemma binary_round_aux_not_nan (sx : bool) (m e : Z) (l : location) :
  0 <= m -> isNaN (binary_round_aux prec emax sx m e l) = false.
Proof.
  intros Hm. destruct (binary_round_aux_form sx m e l Hm) as (mr & Hmr & ->).
  cbv zeta in *. unfold finish.
  set (m1e1 := shrBy m e (fexp64 (Zdigits2 m + e) - e)) in *.
  assert (0 <= fst m1e1).
  { unfold m1e1, shrBy. destruct (0 <? _); cbn [fst]; [apply Z.shiftr_nonneg|]; lia. }
  assert (H2 : 0 <= fst (shrBy mr (snd m1e1) (fexp64 (Zdigits2 mr + snd m1e1) - snd m1e1))).
  { unfold shrBy. destruct (0 <? _); cbn [fst]; [apply Z.shiftr_nonneg|]; lia. }
  destruct (fst (shrBy mr _ _)) as [|p|p]; try reflexivity; [|lia].
  now destruct (_ <=? 971).
Qed.

(** *** Aligning and normalising *)

Lemma iter_xO_Z (p d : positive) : Zpos (Pos.iter xO p d) = Zpos p * 2 ^ Zpos d.
Proof.
  induction d as [|d IH] using Pos.peano_ind.
  - cbn [Pos.iter]. lia.
  - rewrite Pos.iter_succ, Pos2Z.inj_xO, IH, Pos2Z.inj_succ, Z.pow_succ_r by lia. lia.
Qed.

Lemma shl_align_Z (m : positive) (e e' : Z) :
  e' <= e -> Zpos (fst (shl_align m e e')) = Zpos m * 2 ^ (e - e') /\ snd (shl_align m e e') = e'.
Proof.
  intros H. unfold shl_align. destruct (e' - e) as [|d|d] eqn:E; cbn [fst snd]; try lia.
  - replace (e - e') with 0 by lia. split; lia.
  - rewrite iter_xO_Z. replace (e - e') with (Zpos d) by lia. split; [reflexivity|lia].
Qed.

Lemma shl_align_none (m : positive) (e e' : Z) : e <= e' -> shl_align m e e' = (m, e).
Proof. intros H. unfold shl_align. destruct (e' - e) as [|d|d] eqn:E; try reflexivity; lia. Qed.

Lemma binary_round_not_nan (sx : bool) (m : positive) (e : Z) :
  isNaN (binary_round prec emax sx m e) = false.
Proof.
  unfold binary_round. destruct (shl_align m e _) as [mz ez].
  apply binary_round_aux_not_nan. lia.
Qed.

Lemma binary_normalize_not_nan (m e : Z) (s : bool) :
  isNaN (binary_normalize prec emax m e s) = false.
Proof. destruct m; cbn [binary_normalize]; [reflexivity | apply binary_round_not_nan ..]. Qed.

Lemma SFsub_not_nan (x y : spec_float) :
  finiteSF x = true -> isNaN y = false -> isNaN (SFsub prec emax x y) = false.
Proof.
  destruct x as [sx|sx| |sx mx ex], y as [sy|sy| |sy my ey]; try discriminate; intros _ _;
    cbn [SFsub]; try reflexivity.
  - destruct sx, sy; reflexivity.
  - apply binary_normalize_not_nan.
Qed.

Lemma SFadd_not_nan (x y : spec_float) :
  finiteSF x = true -> isNaN y = false -> isNaN (SFadd prec emax x y) = false.
Proof.
  destruct x as [sx|sx| |sx mx ex], y as [sy|sy| |sy my ey]; try discriminate; intros _ _;
    cbn [SFadd]; try reflexivity.
  - destruct sx, sy; reflexivity.
  - apply binary_normalize_not_nan.
Qed.

Lemma SFmul_not_nan (x y : spec_float) :
  finiteSF x = true -> finiteSF y = true -> isNaN (SFmul prec emax x y) = false.
Proof.
  destruct x as [sx|sx| |sx mx ex], y as [sy|sy| |sy my ey]; try discriminate; intros _ _;
    cbn [SFmul]; try reflexivity.
  apply binary_round_aux_not_nan. lia.
Qed.

Lemma is_finite_SF (x : float) : PrimFloat.is_finite x = finiteSF (Prim2SF x).
Proof.
  unfold PrimFloat.is_finite, PrimFloat.is_infinity. rewrite is_nan_SF.
  rewrite FloatAxioms.eqb_spec, FloatAxioms.abs_spec.
  destruct (Prim2SF x) as [s|s| |s m e]; reflexivity.
Qed.

Lemma sub_not_nan (x y : float) :
  PrimFloat.is_finite x = true -> PrimFloat.is_nan y = false ->
  PrimFloat.is_nan (x - y) = false.
Proof.
  rewrite is_finite_SF, !is_nan_SF, FloatAxioms.sub_spec. apply SFsub_not_nan.
Qed.

Lemma add_not_nan (x y : float) :
  PrimFloat.is_finite x = true -> PrimFloat.is_nan y = false ->
  PrimFloat.is_nan (x + y) = false.
Proof.
  rewrite is_finite_SF, !is_nan_SF, FloatAxioms.add_spec. apply SFadd_not_nan.
Qed.

(** What [valid_binary] says of a finite double: at most 53 bits, and
    exactly 53 unless the exponent is the smallest one. *)
Lemma valid_finite (x : float) (s : bool) (m : positive) (e : Z) :
  Prim2SF x = S754_finite s m e ->
  -1074 <= e <= 971 /\ Zdigits2 (Zpos m) <= 53 /\ (-1074 < e -> Zdigits2 (Zpos m) = 53).
Proof.
  intros E. pose proof (FloatAxioms.Prim2SF_valid x) as V. rewrite E in V.
  cbn [valid_binary] in V. unfold bounded, canonical_mantissa in V.
  apply andb_true_iff in V as [C B]. apply Z.eqb_eq in C. apply Z.leb_le in B.
  change (Zpos (digits2_pos m)) with (Zdigits2 (Zpos m)) in C.
  unfold fexp, emin, prec, emax in *. lia.
Qed.

(** *** Counting up *)

Lemma binary_round_no_shift (sx : bool) (m : positive) (e : Z) :
  e <= fexp64 (Zdigits2 (Zpos m) + e) ->
  binary_round prec emax sx m e = binary_round_aux prec emax sx (Zpos m) e loc_Exact.
Proof.
  intros H. unfold binary_round.
  change (fexp prec emax (Zpos (digits2_pos m) + e)) with (fexp64 (Zdigits2 (Zpos m) + e)).
  now rewrite shl_align_none.
Qed.

(** Below 2^53 a non-negative double grows when a double that is at least 1
    is added to it: the counter of a [for] loop advances, and a rect of
    width at least 1 ends after it starts. *)
Lemma SFadd_increases (m : positive) (e : Z) (mh : positive) (eh : Z) :
  -1074 <= e <= 0 -> Zdigits2 (Zpos m) <= 53 -> (-1074 < e -> Zdigits2 (Zpos m) = 53) ->
  -52 <= eh -> Zdigits2 (Zpos mh) = 53 ->
  let r := SFadd prec emax (S754_finite false m e) (S754_finite false mh eh) in
  isNaN r = false /\ keyLt (orderKey (S754_finite false m e)) (orderKey r).
Proof.
  intros He Dm Cm Heh Dh r.
  split; [apply SFadd_not_nan; reflexivity|].
  subst r. cbn [SFadd cond_Zopp].
  set (ez := Z.min e eh).
  destruct (shl_align_Z m e ez ltac:(unfold ez; lia)) as [A1 _].
  destruct (shl_align_Z mh eh ez ltac:(unfold ez; lia)) as [A2 _].
  rewrite A1, A2. clear A1 A2.
  pose proof (Zdigits2_bounds (Zpos m) ltac:(lia)) as [Bm1 Bm2].
  pose proof (Zdigits2_bounds (Zpos mh) ltac:(lia)) as [Bh1 _].
  rewrite Dh in Bh1. change (2 ^ (53 - 1)) with (2 ^ 52) in Bh1.
  set (sm := Z.pos m * 2 ^ (e - ez) + Z.pos mh * 2 ^ (eh - ez)).
  assert (P1 : 0 < 2 ^ (e - ez)) by (apply Z.pow_pos_nonneg; unfold ez; lia).
  assert (P2 : 0 < 2 ^ (eh - ez)) by (apply Z.pow_pos_nonneg; unfold ez; lia).
  assert (PS : 0 < sm) by (unfold sm; nia).
  (* the magnitude of the sum *)
  assert (DS : 53 + eh <= Zdigits2 sm + ez /\ 53 <= Zdigits2 sm /\
               (-1074 < e -> 53 + e <= Zdigits2 sm + ez)).
  { assert (Hh : 2 ^ (52 + (eh - ez)) <= sm).
    { unfold sm. rewrite Z.pow_add_r by (unfold ez; lia). nia. }
    pose proof (Zdigits2_ge sm _ PS Hh). split; [lia|]. split; [unfold ez in *; lia|].
    intros Hn. specialize (Cm Hn). rewrite Cm in Bm1. change (2 ^ (53 - 1)) with (2 ^ 52) in Bm1.
    assert (Hm : 2 ^ (52 + (e - ez)) <= sm).
    { unfold sm. rewrite Z.pow_add_r by (unfold ez; lia). nia. }
    pose proof (Zdigits2_ge sm _ PS Hm). lia. }
  destruct DS as (D1 & D2 & D3).
  assert (ES : exists p, sm = Zpos p) by (destruct sm as [|p|p]; try lia; now exists p).
  destruct ES as [p ES].
  assert (Esm : sm = Z.pos m * 2 ^ (e - ez) + Z.pos mh * 2 ^ (eh - ez)) by reflexivity.
  clearbody sm. rewrite ES at 1.
  cbn [binary_normalize].
  rewrite binary_round_no_shift by (rewrite <- ES; unfold fexp64, ez in *; lia).
  rewrite <- ES.
  destruct (binary_round_aux_range false sm ez loc_Exact PS ltac:(lia))
    as (mr & m2 & e2 & Hmr & Pm1 & Hcase & Pm2 & ->).
  cbv zeta in Hmr, Pm1, Hcase.
  assert (E1 : Z.max ez (fexp64 (Zdigits2 sm + ez)) = Zdigits2 sm + ez - 53)
    by (unfold fexp64; lia).
  rewrite E1 in Hcase.
  destruct (Z.leb_spec e2 971); [|cbn; lia].
  cbn [orderKey keyLt]. right. split; [reflexivity|].
  destruct (Z_lt_le_dec e (Zdigits2 sm + ez - 53)) as [Hlt|Hge]; [lia|].
  (* the exponent of the format has not grown: the mantissa has *)
  assert (E53 : Zdigits2 sm + ez - 53 = e) by lia.
  destruct Hcase as [[-> ->]|[-> _]]; [|lia].
  right. split; [lia|]. rewrite Z2Pos.id by lia.
  assert (Ez : ez = eh) by (unfold ez; lia).
  assert (N1 : fexp64 (Zdigits2 sm + ez) - ez = e - eh) by (unfold fexp64; lia).
  rewrite N1 in Hmr. unfold shrBy in Hmr.
  assert (M1 : Z.pos m + 1 <= Z.shiftr sm (e - eh)).
  { rewrite Z.shiftr_div_pow2 by lia. rewrite Esm, Ez.
    replace (eh - eh) with 0 by lia. change (2 ^ 0) with 1. rewrite Z.mul_1_r.
    assert (0 < 2 ^ (e - eh)) by (apply Z.pow_pos_nonneg; lia).
    rewrite Z.div_add_l by lia.
    assert (1 <= Z.pos mh / 2 ^ (e - eh)).
    { apply Z.div_le_lower_bound; [lia|]. rewrite Z.mul_1_r.
      eapply Z.le_trans; [|exact Bh1]. apply Z.pow_le_mono_r; lia. }
    lia. }
  destruct (Z.ltb_spec 0 (e - eh)) as [Hpos|Hzero]; cbn [fst] in Hmr.
  - lia.
  - replace (e - eh) with 0 in M1 by lia. rewrite Z.shiftr_0_r in M1. lia.
Qed.

Lemma add_increases (y h : float) :
  (0 <=? y)%float = true -> (y <? 9007199254740992)%float = true ->
  (1 <=? h)%float = true ->
  (y <? y + h)%float = true /\ (0 <=? y + h)%float = true.
Proof.
  intros H0 H53 H1.
  assert (L : (y <? y + h)%float = true).
  { apply ltb_key. apply leb_key in H0 as (_ & Ny & K0). apply ltb_key in H53 as (_ & _ & K53).
    apply leb_key in H1 as (_ & Nh & K1).
    split; [exact Ny|].
    unfold key in *. rewrite is_nan_SF in *. rewrite FloatAxioms.add_spec.
    change (Prim2SF 0) with (S754_zero false) in K0.
    change (Prim2SF 9007199254740992) with (S754_finite false 4503599627370496 1) in K53.
    change (Prim2SF 1) with (S754_finite false 4503599627370496 (-52)) in K1.
    pose proof (valid_finite h) as Vh.
    destruct (Prim2SF h) as [sh|sh| |sh mh eh]; try discriminate.
    { exfalso. cbn in K1. destruct K1 as [K1|K1]; [lia | discriminate]. }
    { destruct sh; [cbn in K1; destruct K1 as [K1|K1]; [lia | discriminate]|].
      destruct (Prim2SF y) as [s|s| |s m e]; try discriminate.
      - split; [reflexivity|]. cbn. lia.
      - destruct s; cbn in K0, K53; [destruct K0 as [K0|K0]; [lia | discriminate] | lia].
      - split; [reflexivity|]. destruct s; cbn in K0 |- *; [|lia].
        destruct K0 as [K0|K0]; [lia | discriminate]. }
    destruct sh; [cbn in K1; destruct K1 as [K1|K1]; [lia | discriminate]|].
    destruct (Vh _ _ _ eq_refl) as (Veh & Vdh & Vch).
    assert (Hh : -52 <= eh /\ Zdigits2 (Zpos mh) = 53).
    { cbn in K1. assert (-52 <= eh) by (destruct K1 as [K1|K1]; [lia | injection K1; lia]).
      split; [assumption|]. apply Vch. lia. }
    destruct Hh as [Heh Dh].
    destruct (Prim2SF y) as [s|s| |s m e] eqn:E.
    - split; [reflexivity|]. cbn. lia.
    - destruct s; cbn in K0, K53; [destruct K0 as [K0|K0]; [lia | discriminate] | lia].
    - discriminate.
    - destruct (valid_finite y s m e E) as (Ve & Vd & Vc).
      destruct s; [cbn in K0; destruct K0 as [K0|K0]; [lia | discriminate]|].
      assert (He : e <= 0).
      { cbn in K53. destruct (Z_le_gt_dec e 0) as [?|G]; [assumption|]. exfalso.
        assert (e = 1) by lia. subst e.
        pose proof (Zdigits2_bounds (Zpos m) ltac:(lia)) as [B _].
        rewrite Vc in B by lia. change (2 ^ (53 - 1)) with 4503599627370496 in B. lia. }
      exact (SFadd_increases m e mh eh ltac:(lia) Vd Vc Heh Dh). }
  split; [exact L|].
  apply ltb_leb. eapply leb_ltb_trans; eassumption.
Qed.

Lemma add_one_increases (y : float) :
  (0 <=? y)%float = true -> (y <? 9007199254740992)%float = true ->
  (y <? y + 1)%float = true /\ (0 <=? y + 1)%float = true.
Proof. intros H0 H53. now apply add_increases. Qed.

Lemma valid_finite_lt (x : float) (s : bool) (m : positive) (e : Z) :
  Prim2SF x = S754_finite s m e -> -1074 <= e <= 971 /\ Zpos m < 2 ^ 53.
Proof.
  intros E. destruct (valid_finite x s m e E) as (Ve & Vd & _). split; [exact Ve|].
  pose proof (Zdigits2_bounds (Zpos m) ltac:(lia)) as [_ B].
  assert (2 ^ Zdigits2 (Zpos m) <= 2 ^ 53) by (apply Z.pow_le_mono_r; lia). lia.
Qed.

(** The rank grows with the order. *)
Lemma rank_lt (x y : float) :
  (0 <=? x)%float = true -> (x <? y)%float = true ->
  rank (Prim2SF x) < rank (Prim2SF y).
Proof.
  intros H0 L. apply leb_key in H0 as (_ & Nx & K0). apply ltb_key in L as (_ & Ny & K).
  unfold key in *. rewrite is_nan_SF in Nx, Ny.
  change (Prim2SF 0) with (S754_zero false) in K0.
  assert (P53 : 0 < 2 ^ 53) by reflexivity.
  pose proof (valid_finite_lt x) as Vx. pose proof (valid_finite_lt y) as Vy.
  destruct (Prim2SF x) as [sx|sx| |sx mx ex]; try discriminate;
    destruct (Prim2SF y) as [sy|sy| |sy my ey]; try discriminate;
    try (specialize (Vx _ _ _ eq_refl)); try (specialize (Vy _ _ _ eq_refl));
    try destruct sx; try destruct sy; cbn in K0, K |- *;
    try (destruct K0 as [K0|K0]; [lia | discriminate]); try lia; nia.
Qed.

(** *** Signs *)

Lemma leb_zero_nonneg (x : float) :
  (0 <=? x)%float = true <-> nonnegSF (Prim2SF x) = true.
Proof.
  rewrite leb_key. unfold key. rewrite !is_nan_SF.
  change (Prim2SF 0) with (S754_zero false).
  destruct (Prim2SF x) as [s|s| |s m e]; try (destruct s); cbn; split;
    try discriminate; try reflexivity; intros H; try (repeat split; auto; lia).
  all: destruct H as (_ & _ & [H|H]); try lia; try discriminate.
Qed.

Lemma finish_sign (sx : bool) (me : Z * Z) :
  0 <= fst me ->
  match finish sx me with
  | S754_zero s | S754_infinity s | S754_finite s _ _ => s = sx
  | S754_nan => False
  end.
Proof.
  unfold finish. destruct (fst me) as [|p|p]; try reflexivity; [|lia].
  intros _. now destruct (snd me <=? 971).
Qed.

Lemma binary_round_aux_sign (sx : bool) (m e : Z) (l : location) :
  0 <= m ->
  match binary_round_aux prec emax sx m e l with
  | S754_zero s | S754_infinity s | S754_finite s _ _ => s = sx
  | S754_nan => False
  end.
Proof.
  intros Hm. destruct (binary_round_aux_form sx m e l Hm) as (mr & Hmr & ->).
  cbv zeta in *. apply finish_sign.
  assert (0 <= fst (shrBy m e (fexp64 (Zdigits2 m + e) - e))).
  { unfold shrBy. destruct (0 <? _); cbn [fst]; [apply Z.shiftr_nonneg|]; lia. }
  unfold shrBy. destruct (0 <? _); cbn [fst]; [apply Z.shiftr_nonneg|]; lia.
Qed.

Lemma binary_round_sign (sx : bool) (m : positive) (e : Z) :
  match binary_round prec emax sx m e with
  | S754_zero s | S754_infinity s | S754_finite s _ _ => s = sx
  | S754_nan => False
  end.
Proof.
  unfold binary_round. destruct (shl_align m e _) as [mz ez].
  apply binary_round_aux_sign. lia.
Qed.

Lemma binary_normalize_nonneg (m e : Z) :
  0 <= m -> nonnegSF (binary_normalize prec emax m e false) = true.
Proof.
  intros Hm. destruct m as [|p|p]; cbn [binary_normalize]; [reflexivity| |lia].
  pose proof (binary_round_sign false p e) as S.
  destruct (binary_round prec emax false p e) as [s|s| |s m' e']; try contradiction;
    subst; reflexivity.
Qed.

(** A double that is at least 1 stays non-negative when 1 is subtracted. *)
Lemma sub_one_nonneg (x : float) :
  PrimFloat.is_finite x = true -> (1 <=? x)%float = true -> (0 <=? x - 1)%float = true.
Proof.
  intros F H. apply leb_zero_nonneg. rewrite FloatAxioms.sub_spec.
  apply leb_key in H as (_ & N & K). unfold key in K. rewrite is_finite_SF in F.
  change (Prim2SF 1) with (S754_finite false 4503599627370496 (-52)) in *.
  pose proof (valid_finite x) as V.
  destruct (Prim2SF x) as [s|s| |s m e]; try discriminate.
  { exfalso. cbn in K. destruct K as [K|K]; [lia | discriminate]. }
  destruct s; [exfalso; cbn in K; destruct K as [K|K]; [lia | discriminate]|].
  destruct (V _ _ _ eq_refl) as (Ve & Vd & Vc).
  assert (He : -52 <= e) by (cbn in K; destruct K as [K|K]; [lia | injection K; lia]).
  cbn [SFsub cond_Zopp].
  apply binary_normalize_nonneg.
  replace (Z.min e (-52)) with (-52) by lia.
  destruct (shl_align_Z m e (-52) He) as [A1 _]. rewrite A1.
  rewrite shl_align_none by lia. cbn [fst].
  pose proof (Zdigits2_bounds (Zpos m) ltac:(lia)) as [B _].
  rewrite Vc in B by lia. change (2 ^ (53 - 1)) with 4503599627370496 in B.
  assert (0 < 2 ^ (e - -52)) by (apply Z.pow_pos_nonneg; lia).
  assert (Z.pos m * 1 <= Z.pos m * 2 ^ (e - -52)) by (apply Z.mul_le_mono_nonneg_l; lia).
  cbn [cond_Zopp]. lia.
Qed.

(** *** Operations that are exact *)

Lemma shr_1_even (p : positive) :
  shr_1 {| shr_m := Zpos (xO p); shr_r := false; shr_s := false |}
  = {| shr_m := Zpos p; shr_r := false; shr_s := false |}.
Proof. reflexivity. Qed.

(** Shifting out zeros leaves nothing to round. *)
Lemma iter_shr_1_exact (k p : positive) :
  iter_pos shr_1 k {| shr_m := Zpos (Pos.iter xO p k); shr_r := false; shr_s := false |}
  = {| shr_m := Zpos p; shr_r := false; shr_s := false |}.
Proof.
  rewrite iter_pos_iter. induction k as [|k IH] using Pos.peano_ind.
  - reflexivity.
  - rewrite (Pos.iter_succ_r k _ shr_1), (Pos.iter_succ k _ xO), shr_1_even. exact IH.
Qed.

Lemma Zdigits2_iter_xO (p k : positive) :
  Zdigits2 (Zpos (Pos.iter xO p k)) = Zdigits2 (Zpos p) + Zpos k.
Proof.
  induction k as [|k IH] using Pos.peano_ind.
  - cbn. lia.
  - rewrite Pos.iter_succ. cbn [Zdigits2 digits2_pos] in *. lia.
Qed.

(** A canonical mantissa with [k] zeros appended rounds back to itself. *)
Lemma binary_round_aux_exact (sx : bool) (m k : positive) (e : Z) :
  fexp64 (Zdigits2 (Zpos m) + e) = e -> e <= 971 ->
  binary_round_aux prec emax sx (Zpos (Pos.iter xO m k)) (e - Zpos k) loc_Exact
  = S754_finite sx m e.
Proof.
  intros C B. unfold binary_round_aux, shr_fexp. change (fexp prec emax) with fexp64.
  rewrite Zdigits2_iter_xO.
  replace (Zdigits2 (Z.pos m) + Z.pos k + (e - Z.pos k)) with (Zdigits2 (Zpos m) + e) by lia.
  rewrite C. replace (e - (e - Z.pos k)) with (Zpos k) by lia.
  cbn [shr_record_of_loc shr]. rewrite iter_shr_1_exact.
  cbn [shr_m loc_of_shr_record round_nearest_even].
  replace (e - Z.pos k + Z.pos k) with e by lia.
  rewrite C, Z.sub_diag. cbn [shr shr_record_of_loc shr_m].
  apply Z.leb_le in B. change (emax - prec) with 971. now rewrite B.
Qed.

Lemma valid_canonical (x : float) (s : bool) (m : positive) (e : Z) :
  Prim2SF x = S754_finite s m e -> fexp64 (Zdigits2 (Zpos m) + e) = e /\ e <= 971.
Proof.
  intros E. pose proof (FloatAxioms.Prim2SF_valid x) as V. rewrite E in V.
  cbn [valid_binary] in V. unfold bounded, canonical_mantissa in V.
  apply andb_true_iff in V as [C B]. apply Z.eqb_eq in C. apply Z.leb_le in B.
  split; [exact C | exact B].
Qed.

(** Multiplying a finite double by 1 returns it. *)
Lemma mul_one_r (x : float) : PrimFloat.is_finite x = true -> (x * 1)%float = x.
Proof.
  intros F. apply Prim2SF_inj. rewrite FloatAxioms.mul_spec. rewrite is_finite_SF in F.
  change (Prim2SF 1) with (S754_finite false 4503599627370496 (-52)).
  pose proof (valid_canonical x) as V.
  destruct (Prim2SF x) as [s|s| |s m e]; try discriminate.
  - cbn. now destruct s.
  - destruct (V _ _ _ eq_refl) as [C B]. unfold SF64mul. cbn [SFmul].
    replace (xorb s false) with s by (now destruct s).
    replace (Zpos (m * 4503599627370496)) with (Zpos (Pos.iter xO m 52))
      by (rewrite iter_xO_Z; reflexivity).
    replace (e + -52) with (e - 52) by lia.
    now apply binary_round_aux_exact.
Qed.

Lemma mul_one_l (x : float) : PrimFloat.is_finite x = true -> (1 * x)%float = x.
Proof.
  intros F. apply Prim2SF_inj. rewrite FloatAxioms.mul_spec. rewrite is_finite_SF in F.
  change (Prim2SF 1) with (S754_finite false 4503599627370496 (-52)).
  pose proof (valid_canonical x) as V.
  destruct (Prim2SF x) as [s|s| |s m e]; try discriminate.
  - reflexivity.
  - destruct (V _ _ _ eq_refl) as [C B]. unfold SF64mul. cbn [SFmul xorb].
    replace (Zpos (4503599627370496 * m)) with (Zpos (Pos.iter xO m 52))
      by (rewrite iter_xO_Z; lia).
    replace (-52 + e) with (e - 52) by lia.
    now apply binary_round_aux_exact.
Qed.

Lemma SFdiv_core_self (m : positive) (e : Z) :
  SFdiv_core_binary prec emax (Zpos m) e (Zpos m) e = (9007199254740992, -53, loc_Exact).
Proof.
  assert (D : Z.div_eucl (Z.shiftl (Z.pos m) 53) (Z.pos m) = (9007199254740992, 0)).
  { rewrite Z.shiftl_mul_pow2 by lia. change (2 ^ 53) with 9007199254740992.
    pose proof (Z.div_eucl_eq (Z.pos m * 9007199254740992) (Z.pos m) ltac:(lia)) as Q.
    pose proof (Z.mod_pos_bound (Z.pos m * 9007199254740992) (Z.pos m) ltac:(lia)) as R.
    unfold Z.modulo in R.
    destruct (Z.div_eucl (Z.pos m * 9007199254740992) (Z.pos m)) as [q r].
    assert (q = 9007199254740992) by nia. subst q. f_equal. lia. }
  unfold SFdiv_core_binary.
  replace (Zdigits2 (Z.pos m) + e - (Zdigits2 (Z.pos m) + e)) with 0 by lia.
  rewrite Z.sub_diag.
  change (Z.min (fexp prec emax 0) 0) with (-53). change (0 - -53) with 53.
  cbn match.
  change (IntDef.Z.div_eucl (IntDef.Z.shiftl (Z.pos m) 53) (Z.pos m))
    with (Z.div_eucl (Z.shiftl (Z.pos m) 53) (Z.pos m)).
  rewrite D. f_equal. unfold new_location.
  destruct (Z.even (Z.pos m)); reflexivity.
Qed.

(** A finite double other than zero divided by its absolute value is 1 or
    -1, and by itself 1. *)
Lemma div_abs (x : float) (s : bool) (m : positive) (e : Z) :
  Prim2SF x = S754_finite s m e ->
  Prim2SF (x / PrimFloat.abs x) = S754_finite s 4503599627370496 (-52).
Proof.
  intros E. rewrite FloatAxioms.div_spec, FloatAxioms.abs_spec, E.
  unfold SF64div. cbn [SFabs SFdiv]. rewrite SFdiv_core_self.
  destruct s; reflexivity.
Qed.

Lemma div_abs_abs (x : float) (s : bool) (m : positive) (e : Z) :
  Prim2SF x = S754_finite s m e -> (PrimFloat.abs x / PrimFloat.abs x)%float = 1%float.
Proof.
  intros E. apply Prim2SF_inj. rewrite FloatAxioms.div_spec, FloatAxioms.abs_spec, E.
  unfold SF64div. cbn [SFabs SFdiv]. rewrite SFdiv_core_self. reflexivity.
Qed.

Lemma zero_div_abs (x : float) (s : bool) (m : positive) (e : Z) :
  Prim2SF x = S754_finite s m e -> (0 / PrimFloat.abs x)%float = 0%float.
Proof.
  intros E. apply Prim2SF_inj. rewrite FloatAxioms.div_spec, FloatAxioms.abs_spec, E.
  reflexivity.
Qed.

(** A double times its own sign is its absolute value. *)
Lemma mul_own_sign (x : float) (s : bool) (m : positive) (e : Z) :
  Prim2SF x = S754_finite s m e ->
  (x * (x / PrimFloat.abs x))%float = PrimFloat.abs x.
Proof.
  intros E. apply Prim2SF_inj.
  rewrite FloatAxioms.mul_spec, (div_abs x s m e E), FloatAxioms.abs_spec, E.
  destruct (valid_canonical x s m e E) as [C B]. unfold SF64mul. cbn [SFmul SFabs].
  replace (xorb s s) with false by (now destruct s).
  replace (Zpos (m * 4503599627370496)) with (Zpos (Pos.iter xO m 52))
    by (rewrite iter_xO_Z; reflexivity).
  replace (e + -52) with (e - 52) by lia.
  now apply binary_round_aux_exact.
Qed.

Lemma add_zero_r (x : float) (s : bool) (m : positive) (e : Z) :
  Prim2SF x = S754_finite s m e -> (x + 0)%float = x.
Proof.
  intros E. apply Prim2SF_inj. rewrite FloatAxioms.add_spec, E. reflexivity.
Qed.

Lemma add_zero_l (x : float) (s : bool) (m : positive) (e : Z) :
  Prim2SF x = S754_finite s m e -> (0 + x)%float = x.
Proof.
  intros E. apply Prim2SF_inj. rewrite FloatAxioms.add_spec, E. reflexivity.
Qed.

(** *** Scaling by a power of two *)

Lemma shr_exponent (mrs : shr_record) (e e' n : Z) :
  fst (shr mrs e n) = fst (shr mrs e' n).
Proof. unfold shr. now destruct n. Qed.

(** [binary_round_aux], step by step. *)
Lemma binary_round_aux_eq (sx : bool) (m e : Z) (l : location) :
  0 <= m ->
  binary_round_aux prec emax sx m e l =
    let n1 := fexp64 (Zdigits2 m + e) - e in
    let mr := cut m l n1 in
    let e1 := snd (shrBy m e n1) in
    finish sx (shrBy mr e1 (fexp64 (Zdigits2 mr + e1) - e1)).
Proof.
  intros Hm. cbv zeta. unfold binary_round_aux, shr_fexp. change (fexp prec emax) with fexp64.
  set (n1 := fexp64 (Zdigits2 m + e) - e).
  pose proof (shr_shrBy (shr_record_of_loc m l) e n1) as S1.
  rewrite shr_record_of_loc_m in S1. specialize (S1 Hm).
  unfold cut. rewrite (shr_exponent _ 0 e n1).
  destruct (shr (shr_record_of_loc m l) e n1) as [mrs' e'] eqn:E1. cbn [fst snd] in S1 |- *.
  assert (Ee : e' = snd (shrBy m e n1)) by (now rewrite <- S1).
  assert (Em : shr_m mrs' = fst (shrBy m e n1)) by (now rewrite <- S1).
  rewrite <- Ee.
  set (mr := round_nearest_even (shr_m mrs') (loc_of_shr_record mrs')).
  assert (Hmr : 0 <= mr).
  { pose proof (round_nearest_even_bounds (shr_m mrs') (loc_of_shr_record mrs')).
    assert (0 <= shr_m mrs').
    { rewrite Em. unfold shrBy. destruct (0 <? n1); cbn [fst]; [now apply Z.shiftr_nonneg | exact Hm]. }
    unfold mr. lia. }
  set (n2 := fexp64 (Zdigits2 mr + e') - e').
  pose proof (shr_shrBy (shr_record_of_loc mr loc_Exact) e' n2) as S2.
  rewrite shr_record_of_loc_m in S2. specialize (S2 Hmr).
  destruct (shr (shr_record_of_loc mr loc_Exact) e' n2) as [mrs'' e''] eqn:E2. cbn [fst snd] in S2.
  rewrite <- S2. unfold finish. cbn [fst snd]. reflexivity.
Qed.

Lemma cut_bounds (m e : Z) (l : location) (n : Z) :
  0 <= m -> fst (shrBy m e n) <= cut m l n <= fst (shrBy m e n) + 1.
Proof.
  intros Hm. unfold cut.
  pose proof (shr_shrBy (shr_record_of_loc m l) 0 n) as S1.
  rewrite shr_record_of_loc_m in S1. specialize (S1 Hm).
  assert (E : shr_m (fst (shr (shr_record_of_loc m l) 0 n)) = fst (shrBy m e n)).
  { replace (fst (shrBy m e n)) with (fst (shrBy m 0 n))
      by (unfold shrBy; now destruct (0 <? n)).
    now rewrite <- S1. }
  rewrite <- E. apply round_nearest_even_bounds.
Qed.

(** A mantissa of at least 53 bits, rounded at an exponent and at the same
    exponent plus [j], away from the underflow range: the same mantissa
    comes out, [j] binades apart. *)
Lemma binary_round_aux_shift (sx : bool) (m e : Z) (l : location) (j : Z) :
  0 < m -> 53 <= Zdigits2 m ->
  -1074 <= Zdigits2 m + e - 53 -> -1074 <= Zdigits2 m + e + j - 53 ->
  exists m' e',
    Zdigits2 (Zpos m') = 53 /\
    Zdigits2 m + e - 53 <= e' <= Zdigits2 m + e - 52 /\
    binary_round_aux prec emax sx m e l
    = (if e' <=? 971 then S754_finite sx m' e' else S754_infinity sx) /\
    binary_round_aux prec emax sx m (e + j) l
    = (if e' + j <=? 971 then S754_finite sx m' (e' + j) else S754_infinity sx).
Proof.
  intros Hm D53 U1 U2.
  rewrite !binary_round_aux_eq by lia. cbv zeta.
  assert (N1 : fexp64 (Zdigits2 m + e) - e = Zdigits2 m - 53) by (unfold fexp64; lia).
  assert (N1' : fexp64 (Zdigits2 m + (e + j)) - (e + j) = Zdigits2 m - 53)
    by (unfold fexp64; lia).
  rewrite N1, N1'.
  set (n1 := Zdigits2 m - 53).
  set (mr := cut m l n1).
  pose proof (cut_bounds m e l n1 ltac:(lia)) as Bmr. fold mr in Bmr.
  assert (S1 : 0 < fst (shrBy m e n1) /\ Zdigits2 (fst (shrBy m e n1)) = 53 /\
               snd (shrBy m e n1) = e + n1 /\ snd (shrBy m (e + j) n1) = e + n1 + j).
  { unfold shrBy. destruct (Z.ltb_spec 0 n1) as [P|P]; cbn [fst snd].
    - destruct (Zdigits2_shiftr m n1 Hm ltac:(unfold n1; lia)) as [D P'].
      repeat split; try (rewrite ?D; unfold n1 in *; lia).
    - repeat split; unfold n1 in *; lia. }
  destruct S1 as (Pm1 & Dm1 & -> & ->).
  assert (Pmr : 0 < mr) by lia.
  assert (Dmr : 53 <= Zdigits2 mr <= 54).
  { split.
    - rewrite <- Dm1. apply Zdigits2_mono; lia.
    - destruct (Z.eq_dec mr (fst (shrBy m e n1))) as [->|Hne]; [lia|].
      replace mr with (fst (shrBy m e n1) + 1) by lia.
      pose proof (Zdigits2_succ _ Pm1). lia. }
  assert (N2 : fexp64 (Zdigits2 mr + (e + n1)) - (e + n1) = Zdigits2 mr - 53)
    by (unfold fexp64, n1; lia).
  assert (N2' : fexp64 (Zdigits2 mr + (e + n1 + j)) - (e + n1 + j) = Zdigits2 mr - 53)
    by (unfold fexp64, n1; lia).
  rewrite N2, N2'.
  assert (F : exists m2, 0 < m2 /\ Zdigits2 m2 = 53 /\
              fst (shrBy mr (e + n1) (Zdigits2 mr - 53)) = m2 /\
              fst (shrBy mr (e + n1 + j) (Zdigits2 mr - 53)) = m2 /\
              snd (shrBy mr (e + n1 + j) (Zdigits2 mr - 53))
              = snd (shrBy mr (e + n1) (Zdigits2 mr - 53)) + j /\
              e + n1 <= snd (shrBy mr (e + n1) (Zdigits2 mr - 53)) <= e + n1 + 1).
  { unfold shrBy. destruct (Z.ltb_spec 0 (Zdigits2 mr - 53)) as [P|P]; cbn [fst snd].
    - destruct (Zdigits2_shiftr mr (Zdigits2 mr - 53) Pmr ltac:(lia)) as [D P'].
      eexists. repeat split; try reflexivity; try lia.
    - exists mr. repeat split; try reflexivity; try lia. }
  destruct F as (m2 & Pm2 & Dm2 & F1 & F2 & F3 & F4).
  destruct m2 as [|p|p]; try lia.
  exists p, (snd (shrBy mr (e + n1) (Zdigits2 mr - 53))).
  split; [exact Dm2|]. split; [unfold n1 in *; lia|].
  unfold finish. rewrite F1, F2, F3. split; reflexivity.
Qed.

Lemma Zdigits2_mul (a b : Z) :
  0 < a -> 0 < b ->
  Zdigits2 a + Zdigits2 b - 1 <= Zdigits2 (a * b) <= Zdigits2 a + Zdigits2 b.
Proof.
  intros Ha Hb.
  pose proof (Zdigits2_bounds a Ha) as [A1 A2]. pose proof (Zdigits2_bounds b Hb) as [B1 B2].
  pose proof (Zdigits2_pos a Ha). pose proof (Zdigits2_pos b Hb).
  assert (P1 : 0 < 2 ^ (Zdigits2 a - 1)) by (apply Z.pow_pos_nonneg; lia).
  assert (P2 : 0 < 2 ^ (Zdigits2 b - 1)) by (apply Z.pow_pos_nonneg; lia).
  split.
  - assert (2 ^ (Zdigits2 a - 1 + (Zdigits2 b - 1)) <= a * b).
    { rewrite Z.pow_add_r by lia. nia. }
    pose proof (Zdigits2_ge (a * b) _ ltac:(nia) H1). lia.
  - apply Zdigits2_le; [nia | lia|]. rewrite Z.pow_add_r by lia. nia.
Qed.

Lemma ranged_shiftE (L U j : Z) (x : spec_float) :
  ranged L U x -> ranged (L + j) (U + j) (shiftE j x).
Proof. destruct x as [s|s| |s m e]; cbn; auto. lia. Qed.

Lemma ranged_weaken (L U L' U' : Z) (x : spec_float) :
  ranged L U x -> L' <= L -> U <= U' -> ranged L' U' x.
Proof. destruct x as [s|s| |s m e]; cbn; auto. lia. Qed.

(** Products: scaling the factors scales the product. *)
Lemma SFmul_shift (x y : spec_float) (a b L1 U1 L2 U2 : Z) :
  ranged L1 U1 x -> ranged L2 U2 y ->
  -1074 <= L1 + L2 + 52 -> -1074 <= L1 + L2 + 52 + (a + b) ->
  U1 + U2 + 54 <= 971 -> U1 + U2 + 54 + (a + b) <= 971 ->
  SFmul prec emax (shiftE a x) (shiftE b y) = shiftE (a + b) (SFmul prec emax x y) /\
  ranged (L1 + L2 + 52) (U1 + U2 + 54) (SFmul prec emax x y).
Proof.
  intros Rx Ry C1 C2 O1 O2.
  destruct x as [sx|sx| |sx mx ex], y as [sy|sy| |sy my ey]; try contradiction;
    cbn [shiftE SFmul]; try (split; [reflexivity | exact I]).
  destruct Rx as [Ex Dx], Ry as [Ey Dy].
  pose proof (Zdigits2_mul (Zpos mx) (Zpos my) ltac:(lia) ltac:(lia)) as Dm.
  change (Zpos mx * Zpos my) with (Zpos (mx * my)) in Dm.
  destruct (binary_round_aux_shift (xorb sx sy) (Zpos (mx * my)) (ex + ey) loc_Exact (a + b))
    as (m' & e' & D' & E' & R1 & R2); try lia.
  replace (ex + a + (ey + b)) with (ex + ey + (a + b)) by lia.
  rewrite R1, R2.
  destruct (Z.leb_spec e' 971); [|lia]. destruct (Z.leb_spec (e' + (a + b)) 971); [|lia].
  cbn [shiftE ranged]. split; [reflexivity|]. split; [lia | exact D'].
Qed.

Lemma SFdiv_core_shift (m1 e1 m2 e2 j : Z) :
  SFdiv_core_binary prec emax m1 (e1 + j) m2 (e2 + j) = SFdiv_core_binary prec emax m1 e1 m2 e2.
Proof.
  unfold SFdiv_core_binary.
  replace (Zdigits2 m1 + (e1 + j) - (Zdigits2 m2 + (e2 + j)))
    with (Zdigits2 m1 + e1 - (Zdigits2 m2 + e2)) by lia.
  replace (e1 + j - (e2 + j)) with (e1 - e2) by lia. reflexivity.
Qed.

(** Quotients: scaling both operands leaves the quotient as it is. *)
Lemma SFdiv_shift (x y : spec_float) (j : Z) :
  finiteSF x = true -> (exists s m e, y = S754_finite s m e) ->
  SFdiv prec emax (shiftE j x) (shiftE j y) = SFdiv prec emax x y.
Proof.
  intros Fx (sy & my & ey & ->).
  destruct x as [sx|sx| |sx mx ex]; try discriminate; cbn [shiftE SFdiv]; [reflexivity|].
  now rewrite SFdiv_core_shift.
Qed.

Lemma SFdiv_range (x y : spec_float) (L1 U1 L2 U2 : Z) :
  ranged L1 U1 x -> ranged L2 U2 y -> (exists s m e, y = S754_finite s m e) ->
  -1074 <= L1 - U2 - 53 -> U1 - L2 - 51 <= 971 ->
  ranged (L1 - U2 - 53) (U1 - L2 - 51) (SFdiv prec emax x y).
Proof.
  intros Rx Ry (sy & my & ey & ->) C O.
  destruct x as [sx|sx| |sx mx ex]; try contradiction; cbn [SFdiv]; [exact I|].
  destruct Rx as [Ex Dx], Ry as [Ey Dy].
  unfold SFdiv_core_binary. rewrite Dx, Dy.
  change (fexp prec emax) with fexp64.
  replace (Z.min (fexp64 (53 + ex - (53 + ey))) (ex - ey)) with (ex - ey - 53)
    by (unfold fexp64; lia).
  replace (ex - ey - (ex - ey - 53)) with 53 by lia. cbn match.
  change (IntDef.Z.div_eucl (IntDef.Z.shiftl (Z.pos mx) 53) (Z.pos my))
    with (Z.div_eucl (Z.shiftl (Z.pos mx) 53) (Z.pos my)).
  pose proof (Zdigits2_bounds (Zpos mx) ltac:(lia)) as [X1 X2].
  pose proof (Zdigits2_bounds (Zpos my) ltac:(lia)) as [Y1 Y2].
  rewrite Dx in X1, X2. rewrite Dy in Y1, Y2.
  change (2 ^ (53 - 1)) with 4503599627370496 in *. change (2 ^ 53) with 9007199254740992 in *.
  rewrite Z.shiftl_mul_pow2 by lia. change (2 ^ 53) with 9007199254740992.
  pose proof (Z.div_eucl_eq (Z.pos mx * 9007199254740992) (Z.pos my) ltac:(lia)) as Q.
  pose proof (Z.mod_pos_bound (Z.pos mx * 9007199254740992) (Z.pos my) ltac:(lia)) as R.
  unfold Z.modulo in R.
  destruct (Z.div_eucl (Z.pos mx * 9007199254740992) (Z.pos my)) as [q r].
  assert (Hq : 4503599627370496 <= q < 18014398509481984) by nia.
  assert (Dq : 53 <= Zdigits2 q <= 54).
  { split.
    - apply (Zdigits2_ge q 52); [lia|]. change (2 ^ 52) with 4503599627370496. lia.
    - apply Zdigits2_le; [lia | lia|]. change (2 ^ 54) with 18014398509481984. lia. }
  destruct (binary_round_aux_shift (xorb sx sy) q (ex - ey - 53) (new_location (Z.pos my) r) 0)
    as (m' & e' & D' & E' & R1 & _); try lia.
  rewrite R1. destruct (Z.leb_spec e' 971); [|lia].
  cbn [ranged]. split; [lia | exact D'].
Qed.

Lemma shl_align_shift (m : positive) (e e' j : Z) :
  shl_align m (e + j) (e' + j) = (fst (shl_align m e e'), snd (shl_align m e e') + j).
Proof.
  unfold shl_align. replace (e' + j - (e + j)) with (e' - e) by lia.
  destruct (e' - e); reflexivity.
Qed.

(** Normalising a mantissa at an exponent and [j] binades above. *)
Lemma binary_round_shift (sx : bool) (m : positive) (e j : Z) :
  -1074 <= Zdigits2 (Zpos m) + e - 53 -> -1074 <= Zdigits2 (Zpos m) + e + j - 53 ->
  exists m' e',
    Zdigits2 (Zpos m') = 53 /\
    Zdigits2 (Zpos m) + e - 53 <= e' <= Zdigits2 (Zpos m) + e - 52 /\
    binary_round prec emax sx m e
    = (if e' <=? 971 then S754_finite sx m' e' else S754_infinity sx) /\
    binary_round prec emax sx m (e + j)
    = (if e' + j <=? 971 then S754_finite sx m' (e' + j) else S754_infinity sx).
Proof.
  intros U1 U2. unfold binary_round.
  change (Zpos (digits2_pos m)) with (Zdigits2 (Zpos m)). change (fexp prec emax) with fexp64.
  replace (fexp64 (Zdigits2 (Zpos m) + (e + j))) with (fexp64 (Zdigits2 (Zpos m) + e) + j)
    by (unfold fexp64; lia).
  rewrite shl_align_shift.
  assert (F : fexp64 (Zdigits2 (Zpos m) + e) = Zdigits2 (Zpos m) + e - 53)
    by (unfold fexp64; lia).
  rewrite F.
  destruct (Z_lt_le_dec (Zdigits2 (Zpos m)) 53) as [Lt|Ge].
  - (* fewer than 53 bits: shifted to the left *)
    destruct (shl_align_Z m e (Zdigits2 (Zpos m) + e - 53) ltac:(lia)) as [A1 A2].
    destruct (shl_align m e (Zdigits2 (Zpos m) + e - 53)) as [mz ez]. cbn [fst snd] in *.
    subst ez.
    assert (Dz : Zdigits2 (Zpos mz) = 53).
    { rewrite A1. replace (e - (Zdigits2 (Z.pos m) + e - 53)) with (53 - Zdigits2 (Zpos m)) by lia.
      rewrite <- Z.shiftl_mul_pow2 by lia.
      pose proof (Zdigits2_pos (Zpos m) ltac:(lia)).
      destruct (Z.shiftl (Z.pos m) (53 - Zdigits2 (Z.pos m))) as [|q|q] eqn:Eq.
      - apply Z.shiftl_eq_0_iff in Eq; lia.
      - rewrite Zdigits2_log2, <- Eq, Z.log2_shiftl by lia. rewrite (Zdigits2_log2 m) in *. lia.
      - pose proof (Z.shiftl_nonneg (Zpos m) (53 - Zdigits2 (Zpos m))). lia. }
    destruct (binary_round_aux_shift sx (Zpos mz) (Zdigits2 (Zpos m) + e - 53) loc_Exact j)
      as (m' & e' & D' & E' & R1 & R2); try lia.
    exists m', e'. split; [exact D'|]. split; [lia|]. split; assumption.
  - rewrite shl_align_none by lia. cbn [fst snd].
    destruct (binary_round_aux_shift sx (Zpos m) e loc_Exact j)
      as (m' & e' & D' & E' & R1 & R2); try lia.
    exists m', e'. split; [exact D'|]. split; [lia|]. split; assumption.
Qed.

Lemma binary_normalize_shift (M e j L U : Z) :
  -1074 <= L - 52 -> -1074 <= L - 52 + j -> U + 2 <= 971 -> U + 2 + j <= 971 ->
  L <= e -> (M <> 0 -> Zdigits2 M + e <= U + 54) ->
  binary_normalize prec emax M (e + j) false = shiftE j (binary_normalize prec emax M e false) /\
  ranged (L - 52) (U + 2) (binary_normalize prec emax M e false).
Proof.
  intros C1 C2 O1 O2 He Hd.
  destruct M as [|p|p]; cbn [binary_normalize]; [split; [reflexivity | exact I]| |].
  - specialize (Hd ltac:(lia)). pose proof (Zdigits2_pos (Zpos p) ltac:(lia)).
    destruct (binary_round_shift false p e j) as (m' & e' & D' & E' & R1 & R2); try lia.
    rewrite R1, R2. destruct (Z.leb_spec e' 971); [|lia].
    destruct (Z.leb_spec (e' + j) 971); [|lia].
    cbn [shiftE ranged]. split; [reflexivity|]. split; [lia | exact D'].
  - specialize (Hd ltac:(lia)). cbn [Zdigits2] in Hd.
    pose proof (Zdigits2_pos (Zpos p) ltac:(lia)). cbn [Zdigits2] in H.
    destruct (binary_round_shift true p e j) as (m' & e' & D' & E' & R1 & R2);
      try (cbn [Zdigits2]; lia).
    rewrite R1, R2. cbn [Zdigits2] in E'. destruct (Z.leb_spec e' 971); [|lia].
    destruct (Z.leb_spec (e' + j) 971); [|lia].
    cbn [shiftE ranged]. split; [reflexivity|]. split; [lia | exact D'].
Qed.

Lemma Zdigits2_opp (m : Z) : Zdigits2 (- m) = Zdigits2 m.
Proof. now destruct m. Qed.

Lemma Zdigits2_abs_le (a b : Z) (k : Z) :
  0 <= k -> Z.abs a < 2 ^ k -> Z.abs b < 2 ^ k -> a + b <> 0 -> Zdigits2 (a + b) <= k + 1.
Proof.
  intros Hk Ha Hb Hne.
  assert (Hs : Z.abs (a + b) < 2 ^ (k + 1)).
  { rewrite Z.pow_add_r by lia. change (2 ^ 1) with 2. lia. }
  destruct (Z_lt_le_dec (a + b) 0) as [N|P].
  - rewrite <- Zdigits2_opp. apply Zdigits2_le; lia.
  - apply Zdigits2_le; lia.
Qed.

(** Differences: scaling both operands scales the difference. *)
Lemma SFsub_shift (x y : spec_float) (j L U : Z) :
  ranged L U x -> ranged L U y ->
  -1074 <= L - 52 -> -1074 <= L - 52 + j -> U + 2 <= 971 -> U + 2 + j <= 971 ->
  SFsub prec emax (shiftE j x) (shiftE j y) = shiftE j (SFsub prec emax x y) /\
  ranged (L - 52) (U + 2) (SFsub prec emax x y).
Proof.
  intros Rx Ry C1 C2 O1 O2.
  destruct x as [sx|sx| |sx mx ex], y as [sy|sy| |sy my ey]; try contradiction;
    cbn [shiftE SFsub].
  - destruct sx, sy; split; try reflexivity; exact I.
  - split; [reflexivity|]. cbn [ranged] in *. lia.
  - split; [reflexivity|]. cbn [ranged] in *. lia.
  - destruct Rx as [Ex Dx], Ry as [Ey Dy].
    replace (Z.min (ex + j) (ey + j)) with (Z.min ex ey + j) by lia.
    rewrite !shl_align_shift. cbn [fst].
    set (ez := Z.min ex ey).
    destruct (shl_align_Z mx ex ez ltac:(unfold ez; lia)) as [A1 _].
    destruct (shl_align_Z my ey ez ltac:(unfold ez; lia)) as [A2 _].
    apply (binary_normalize_shift _ ez j L U); try lia; try (unfold ez; lia).
    intros Hne.
    pose proof (Zdigits2_bounds (Zpos mx) ltac:(lia)) as [_ X2].
    pose proof (Zdigits2_bounds (Zpos my) ltac:(lia)) as [_ Y2].
    rewrite Dx in X2. rewrite Dy in Y2.
    assert (K : 0 <= 53 + (Z.max ex ey - ez)) by (unfold ez; lia).
    assert (Bx : Z.pos (fst (shl_align mx ex ez)) < 2 ^ (53 + (Z.max ex ey - ez))).
    { rewrite A1, Z.pow_add_r by (unfold ez; lia).
      assert (2 ^ (ex - ez) <= 2 ^ (Z.max ex ey - ez)) by (apply Z.pow_le_mono_r; unfold ez; lia).
      assert (0 < 2 ^ (ex - ez)) by (apply Z.pow_pos_nonneg; unfold ez; lia).
      nia. }
    assert (By : Z.pos (fst (shl_align my ey ez)) < 2 ^ (53 + (Z.max ex ey - ez))).
    { rewrite A2, Z.pow_add_r by (unfold ez; lia).
      assert (2 ^ (ey - ez) <= 2 ^ (Z.max ex ey - ez)) by (apply Z.pow_le_mono_r; unfold ez; lia).
      assert (0 < 2 ^ (ey - ez)) by (apply Z.pow_pos_nonneg; unfold ez; lia).
      nia. }
    set (a := cond_Zopp sx (Z.pos (fst (shl_align mx ex ez)))) in *.
    set (b := cond_Zopp sy (Z.pos (fst (shl_align my ey ez)))) in *.
    replace (a - b) with (a + - b) in * by lia.
    pose proof (Zdigits2_abs_le a (- b) _ K) as Hd.
    assert (Z.abs a = Z.pos (fst (shl_align mx ex ez))) by (unfold a; destruct sx; cbn; lia).
    assert (Z.abs (- b) = Z.pos (fst (shl_align my ey ez))) by (unfold b; destruct sy; cbn; lia).
    specialize (Hd ltac:(lia) ltac:(lia) Hne). unfold ez in *. lia.
Qed.

Lemma shiftE_0 (x : spec_float) : shiftE 0 x = x.
Proof. destruct x as [s|s| |s m e]; cbn [shiftE]; try reflexivity. now rewrite Z.add_0_r. Qed.

Lemma shiftE_opp (j : Z) (x : spec_float) : shiftE j (SFopp x) = SFopp (shiftE j x).
Proof. now destruct x. Qed.

Lemma ranged_opp (L U : Z) (x : spec_float) : ranged L U x -> ranged L U (SFopp x).
Proof. now destruct x. Qed.

Lemma ranged_finite (L U : Z) (x : spec_float) : ranged L U x -> finiteSF x = true.
Proof. now destruct x. Qed.

(** Two doubles compare as they do [j] binades up. *)
Lemma SFcompare_shiftE (j : Z) (x y : spec_float) :
  SFcompare (shiftE j x) (shiftE j y) = SFcompare x y.
Proof.
  destruct x as [sx|sx| |sx mx ex], y as [sy|sy| |sy my ey]; try reflexivity.
  cbn [shiftE SFcompare]. now rewrite (Z.add_comm ex j), (Z.add_comm ey j), Z.add_compare_mono_l.
Qed.

Lemma SFltb_shiftE (j : Z) (x y : spec_float) :
  SFltb (shiftE j x) (shiftE j y) = SFltb x y.
Proof. unfold SFltb. now rewrite SFcompare_shiftE. Qed.

(** A double below zero is below every double that is not. *)
Lemma SFltb_negative (m : positive) (e : Z) (x : spec_float) :
  nonnegSF x = true -> SFltb (S754_finite true m e) x = true.
Proof. destruct x as [s|[|]| |[|] mx ex]; try discriminate; reflexivity. Qed.

(** The sign of [p * d * d] for a positive [p]. *)
Lemma SFmul_square_nonneg (mp : positive) (ep : Z) (d : spec_float) :
  finiteSF d = true ->
  nonnegSF (SFmul prec emax (SFmul prec emax (S754_finite false mp ep) d) d) = true.
Proof.
  destruct d as [s|s| |s m e]; try discriminate; intros _.
  - reflexivity.
  - cbn [SFmul xorb].
    pose proof (binary_round_aux_sign s (Zpos (mp * m)) (ep + e) loc_Exact ltac:(lia)) as S1.
    destruct (binary_round_aux prec emax s (Zpos (mp * m)) (ep + e) loc_Exact)
      as [s1|s1| |s1 m1 e1]; try contradiction; subst s1; cbn [SFmul].
    + reflexivity.
    + now destruct s.
    + replace (xorb s s) with false by now destruct s.
      pose proof (binary_round_aux_sign false (Zpos (m1 * m)) (e1 + e) loc_Exact ltac:(lia)) as S2.
      destruct (binary_round_aux prec emax false (Zpos (m1 * m)) (e1 + e) loc_Exact)
        as [s2|s2| |s2 m2 e2]; try contradiction; subst s2; reflexivity.
Qed.

(** An integer mantissa with [j] more binary digits is the same double as
    the mantissa [j] binades up. *)
Lemma binary_normalize_scale (M j : Z) :
  0 <= j -> 0 < M -> 2 ^ j * M < 2 ^ 53 ->
  binary_normalize prec emax (2 ^ j * M) 0 false = binary_normalize prec emax M j false.
Proof.
  intros Hj HM Hlt.
  assert (P2 : 0 < 2 ^ j) by (apply Z.pow_pos_nonneg; lia).
  destruct M as [|p|p]; try lia.
  destruct (2 ^ j * Zpos p) as [|q|q] eqn:Eq; try lia.
  cbn [binary_normalize]. unfold binary_round.
  change (Zpos (digits2_pos q)) with (Zdigits2 (Zpos q)).
  change (Zpos (digits2_pos p)) with (Zdigits2 (Zpos p)).
  change (fexp prec emax) with fexp64.
  assert (Dq : Zdigits2 (Zpos q) = Zdigits2 (Zpos p) + j).
  { rewrite !Zdigits2_log2, <- Eq, Z.mul_comm, <- Z.shiftl_mul_pow2, Z.log2_shiftl by lia. lia. }
  assert (Dle : Zdigits2 (Zpos q) <= 53) by (apply Zdigits2_le; lia).
  pose proof (Zdigits2_pos (Zpos p) ltac:(lia)) as Dp.
  rewrite Dq, Z.add_0_r.
  set (t := fexp64 (Zdigits2 (Zpos p) + j)).
  assert (Ht : t <= 0) by (unfold t, fexp64; lia).
  destruct (shl_align_Z q 0 t ltac:(lia)) as [A1 A2].
  destruct (shl_align_Z p j t ltac:(lia)) as [B1 B2].
  destruct (shl_align q 0 t) as [mq eq], (shl_align p j t) as [mp ep]. cbn [fst snd] in *.
  subst eq ep.
  assert (E : Zpos mq = Zpos mp).
  { rewrite A1, B1, <- Eq. replace (j - t) with (j + (0 - t)) by lia.
    rewrite Z.pow_add_r by lia. lia. }
  injection E as ->. reflexivity.
Qed.

(** The double of an integer below 2^53, and of the integer times 2^j. *)
Lemma binary_normalize_integer (M j : Z) :
  0 <= j -> 0 <= M -> 2 ^ j * M < 2 ^ 53 ->
  binary_normalize prec emax (2 ^ j * M) 0 false
  = shiftE j (binary_normalize prec emax M 0 false) /\
  ranged (-52) 1 (binary_normalize prec emax M 0 false) /\
  (0 < M -> exists m e, binary_normalize prec emax M 0 false = S754_finite false m e).
Proof.
  intros Hj HM Hlt.
  assert (P2 : 0 < 2 ^ j) by (apply Z.pow_pos_nonneg; lia).
  destruct (Z.eq_dec M 0) as [->|Hne].
  { rewrite Z.mul_0_r. cbn [binary_normalize shiftE ranged]. repeat split; lia. }
  assert (J : j <= 52).
  { destruct (Z_lt_le_dec 52 j) as [G|]; [|lia].
    assert (2 ^ 53 <= 2 ^ j) by (apply Z.pow_le_mono_r; lia). nia. }
  assert (Mlt : M < 2 ^ 53) by nia.
  assert (D : Zdigits2 M <= 53) by (apply Zdigits2_le; lia).
  rewrite binary_normalize_scale by lia.
  destruct (binary_normalize_shift M 0 j 0 (-1)) as [S1 R1]; try lia.
  cbn [Z.add] in S1. split; [exact S1|]. split; [exact R1|].
  intros _. destruct M as [|p|p]; try lia. cbn [binary_normalize].
  pose proof (Zdigits2_pos (Zpos p) ltac:(lia)).
  destruct (binary_round_shift false p 0 0) as (m' & e' & _ & E' & R & _); try lia.
  rewrite R. destruct (Z.leb_spec e' 971); [|lia]. now exists m', e'.
Qed.

(** Scaling the four integers of [spreadSF] by 2^j scales the result by
    4^j, exactly: no step of the evaluation comes near the ends of the
    exponent range. *)
Lemma spreadSF_shift (wb wf sb sm : spec_float) (j : Z) :
  0 <= j <= 52 ->
  ranged (-52) 1 wb -> ranged (-52) 1 wf -> ranged (-52) 1 sb -> ranged (-52) 1 sm ->
  (exists m e, wb = S754_finite false m e) -> (exists m e, wf = S754_finite false m e) ->
  spreadSF (shiftE j wb) (shiftE j wf) (shiftE j sb) (shiftE j sm)
  = shiftE (j + j) (spreadSF wb wf sb sm) /\
  ranged (-368) 176 (spreadSF wb wf sb sm) /\
  nonnegSF (spreadSF wb wf sb sm) = true.
Proof.
  intros Hj Rwb Rwf Rsb Rsm Pwb Pwf. unfold spreadSF.
  assert (Fwb : exists s m e, wb = S754_finite s m e)
    by (destruct Pwb as (m & e & ->); now exists false, m, e).
  assert (Fwf : exists s m e, wf = S754_finite s m e)
    by (destruct Pwf as (m & e & ->); now exists false, m, e).
  (* the class means do not change *)
  rewrite (SFdiv_shift sb wb j (ranged_finite _ _ _ Rsb) Fwb).
  pose proof (SFdiv_range sb wb (-52) 1 (-52) 1 Rsb Rwb Fwb ltac:(lia) ltac:(lia)) as RmB.
  destruct (SFsub_shift sm sb j (-52) 1 Rsm Rsb) as [Ediff Rdiff]; try lia.
  rewrite Ediff.
  rewrite (SFdiv_shift _ wf j (ranged_finite _ _ _ Rdiff) Fwf).
  pose proof (SFdiv_range _ wf (-104) 3 (-52) 1 Rdiff Rwf Fwf ltac:(lia) ltac:(lia)) as RmF.
  set (mB := SFdiv prec emax sb wb) in *.
  set (mF := SFdiv prec emax (SFsub prec emax sm sb) wf) in *.
  destruct (SFsub_shift mB mF 0 (-158) 4) as [_ Rd]; try lia.
  { apply (ranged_weaken _ _ _ _ _ RmB); lia. }
  { apply (ranged_weaken _ _ _ _ _ RmF); lia. }
  set (d := SFsub prec emax mB mF) in *.
  (* the weights, and the products with them, are 4^j times larger *)
  destruct (SFmul_shift wb wf j j (-52) 1 (-52) 1 Rwb Rwf) as [EP RP]; try lia.
  rewrite EP.
  destruct (SFmul_shift (SFmul prec emax wb wf) d (j + j) 0 _ _ _ _ RP Rd) as [EQ RQ]; try lia.
  rewrite shiftE_0, Z.add_0_r in EQ. rewrite EQ.
  destruct (SFmul_shift (SFmul prec emax (SFmul prec emax wb wf) d) d (j + j) 0 _ _ _ _ RQ Rd)
    as [EV RV]; try lia.
  rewrite shiftE_0, Z.add_0_r in EV. rewrite EV.
  split; [reflexivity|]. split.
  - apply (ranged_weaken _ _ _ _ _ RV); lia.
  - destruct Pwb as (mb & eb & ->), Pwf as (mf & ef & ->).
    cbn [SFmul xorb] in *.
    pose proof (binary_round_aux_sign false (Zpos (mb * mf)) (eb + ef) loc_Exact ltac:(lia)) as Sg.
    destruct (binary_round_aux prec emax false (Zpos (mb * mf)) (eb + ef) loc_Exact)
      as [s|s| |s m e]; try contradiction; subst s.
    + destruct d as [sd|sd| |sd md ed]; try contradiction; reflexivity.
    + apply SFmul_square_nonneg. exact (ranged_finite _ _ _ Rd).
Qed.

End Binary64Facts.

Module DetectFacts.
Import Detect Binary64 Binary64Facts.

(** *** [| 0] on doubles *)

Example toInt32_samples :
  toInt32 (-3.7)%float = -3 /\
  toInt32 0.999%float = 0 /\
  toInt32 254.99999999999997%float = 254 /\
  toInt32 2147483648%float = -2147483648 /\
  toInt32 4294967297.5%float = 1 /\
  toInt32 nan = 0 /\
  toInt32 infinity = 0.
Proof. vm_compute. repeat split; reflexivity. Qed.

(** *** The gray value of a pixel *)

Lemma countFrom_In (n : nat) (lo j : Z) :
  In j (countFrom lo n) <-> lo <= j < lo + Z.of_nat n.
Proof.
  revert lo; induction n as [|n IH]; intros lo; cbn [countFrom In].
  - lia.
  - rewrite IH. lia.
Qed.

Lemma range_In (lo hi j : Z) : In j (range lo hi) <-> lo <= j < hi.
Proof. unfold range. rewrite countFrom_In. lia. Qed.

Lemma forall3_spec {A : Type} (ra ga ba : list A) (add : A -> A -> A)
    (chk : A -> bool) :
  forall3 ra ga ba add chk = true ->
  forall r g b, In r ra -> In g ga -> In b ba -> chk (add (add r g) b) = true.
Proof.
  unfold forall3. intros H r g b Hr Hg Hb.
  rewrite forallb_forall in H. specialize (H r Hr).
  rewrite forallb_forall in H. specialize (H g Hg). cbv zeta in H.
  rewrite forallb_forall in H. exact (H b Hb).
Qed.

Lemma grayCheckAll_true :
  forall3 (map (weighted 0.299 299) byteValues)
          (map (weighted 0.587 587) byteValues)
          (map (weighted 0.114 114) byteValues)
          addWeighted grayCheckPair = true.
Proof. vm_compute. reflexivity. Qed.

Lemma byteValues_In (v : Z) : 0 <= v <= 255 -> In v byteValues.
Proof. intros H. apply countFrom_In. change (Z.of_nat 256) with 256. lia. Qed.

Lemma grayCheck_bytes (r g b : Z) :
  0 <= r <= 255 -> 0 <= g <= 255 -> 0 <= b <= 255 ->
  grayCheck (luminance (floatOfZ r) (floatOfZ g) (floatOfZ b))
            (299 * Uint63.of_Z r + 587 * Uint63.of_Z g + 114 * Uint63.of_Z b)%uint63
  = true.
Proof.
  intros Hr Hg Hb.
  exact (forall3_spec _ _ _ _ _ grayCheckAll_true
           (weighted 0.299 299 r) (weighted 0.587 587 g) (weighted 0.114 114 b)
           (in_map _ _ _ (byteValues_In r Hr))
           (in_map _ _ _ (byteValues_In g Hg))
           (in_map _ _ _ (byteValues_In b Hb))).
Qed.

Lemma weighted_sum_to_Z (r g b : Z) :
  0 <= r <= 255 -> 0 <= g <= 255 -> 0 <= b <= 255 ->
  Uint63.to_Z (299 * Uint63.of_Z r + 587 * Uint63.of_Z g + 114 * Uint63.of_Z b)%uint63
  = 299 * r + 587 * g + 114 * b.
Proof.
  intros Hr Hg Hb.
  rewrite !Uint63.add_spec, !Uint63.mul_spec, !Uint63.of_Z_spec.
  change (Uint63.to_Z 299) with 299. change (Uint63.to_Z 587) with 587.
  change (Uint63.to_Z 114) with 114.
  change Uint63.wB with 9223372036854775808.
  rewrite (Z.mod_small r), (Z.mod_small g), (Z.mod_small b) by lia.
  rewrite (Z.mod_small (299 * r)), (Z.mod_small (587 * g)), (Z.mod_small (114 * b)) by lia.
  rewrite (Z.mod_small (299 * r + 587 * g)) by lia.
  apply Z.mod_small. lia.
Qed.

Lemma grayCheck_sound (f : float) (e : int) :
  grayCheck f e = true ->
  0 <= toInt32 f <= 255 /\
  1000 * toInt32 f <= Uint63.to_Z e <= 1000 * toInt32 f + 1000.
Proof.
  unfold grayCheck. cbv zeta. rewrite !andb_true_iff, !negb_true_iff.
  intros [[[[[Hfin Hpos] Hmask] Hle] Hlo] Hhi].
  apply Uint63.eqb_spec in Hmask. apply Uint63.leb_spec in Hle, Hlo, Hhi.
  change (Uint63.to_Z 255) with 255 in Hle.
  pose proof (Uint63.to_Z_bounded (truncMagnitude f)) as Hb.
  assert (Hm : Uint63.to_Z (1000 * truncMagnitude f)%uint63
               = 1000 * Uint63.to_Z (truncMagnitude f)).
  { rewrite Uint63.mul_spec. change (Uint63.to_Z 1000) with 1000.
    change Uint63.wB with 9223372036854775808. apply Z.mod_small. lia. }
  assert (Hp : Uint63.to_Z (1000 * truncMagnitude f + 1000)%uint63
               = 1000 * Uint63.to_Z (truncMagnitude f) + 1000).
  { rewrite Uint63.add_spec, Hm. change (Uint63.to_Z 1000) with 1000.
    change Uint63.wB with 9223372036854775808. apply Z.mod_small. lia. }
  rewrite Hm in Hlo. rewrite Hp in Hhi.
  assert (Ht : toInt32 f = Uint63.to_Z (truncMagnitude f)).
  { unfold toInt32. rewrite Hfin, Hpos, Hmask.
    destruct (Z.ltb_spec (Uint63.to_Z (truncMagnitude f)) 2147483648); lia. }
  rewrite Ht. lia.
Qed.

(** The bounds that hold for every byte triple. *)
Lemma grayOfBytes_bounds (r g b : Z) :
  0 <= r <= 255 -> 0 <= g <= 255 -> 0 <= b <= 255 ->
  0 <= grayOfBytes r g b <= 255 /\
  1000 * grayOfBytes r g b <= 299 * r + 587 * g + 114 * b
    <= 1000 * grayOfBytes r g b + 1000.
Proof.
  intros Hr Hg Hb. unfold grayOfBytes.
  pose proof (grayCheck_sound _ _ (grayCheck_bytes r g b Hr Hg Hb)) as H.
  rewrite (weighted_sum_to_Z r g b Hr Hg Hb) in H. exact H.
Qed.

(** Reading three bytes stored at [idx], [idx+1], [idx+2]. *)
Lemma channel_stored (d : list Z) (idx v : Z) :
  0 <= idx -> nth_error d (Z.to_nat idx) = Some v -> channel d idx = floatOfZ v.
Proof.
  intros Hi Hn. unfold channel. rewrite Hn.
  destruct (Z.ltb_spec idx 0); [lia|reflexivity].
Qed.

Lemma grayAt_stored (d : list Z) (idx r g b : Z) :
  0 <= idx ->
  nth_error d (Z.to_nat idx) = Some r ->
  nth_error d (Z.to_nat (idx + 1)) = Some g ->
  nth_error d (Z.to_nat (idx + 2)) = Some b ->
  grayAt d idx = grayOfBytes r g b.
Proof.
  intros Hi Hr Hg Hb. unfold grayAt, grayOfBytes. cbv zeta.
  rewrite (channel_stored d idx r), (channel_stored d (idx + 1) g),
          (channel_stored d (idx + 2) b) by (assumption || lia).
  reflexivity.
Qed.

(** C3, as stated, fails: the pixel (2, 0, 0) has weighted luminance 0.598,
    whose nearest integer is 1 (both for the exact value and for
    [Math.round] of the computed double, i.e. the integer part of
    [0.598 + 0.5]), but [grayAt] truncates it to 0. *)
Lemma C3_gray_is_not_rounded :
  grayAt [2; 0; 0; 255] 0 = 0 /\
  roundedLuminance 2 0 0 = 1 /\
  toInt32 (luminance (floatOfZ 2) (floatOfZ 0) (floatOfZ 0) + 0.5)%float = 1 /\
  grayAt [2; 0; 0; 255] 0 <> roundedLuminance 2 0 0.
Proof. vm_compute. repeat split; discriminate. Qed.

(** C3, amended: for every byte triple (R, G, B) stored at [idx], the gray
    value is the integer part ([| 0], truncation) of the double-precision
    sum R*0.299 + G*0.587 + B*0.114.  It lies in 0..255, never exceeds the
    exact luminance L = (299 R + 587 G + 114 B)/1000 nor its rounding, and is
    within one of it: gray <= L <= gray + 1. *)
Theorem C3_gray_is_truncated (d : list Z) (idx r g b : Z) :
  0 <= idx ->
  nth_error d (Z.to_nat idx) = Some r ->
  nth_error d (Z.to_nat (idx + 1)) = Some g ->
  nth_error d (Z.to_nat (idx + 2)) = Some b ->
  0 <= r <= 255 -> 0 <= g <= 255 -> 0 <= b <= 255 ->
  grayAt d idx = toInt32 (luminance (floatOfZ r) (floatOfZ g) (floatOfZ b)) /\
  0 <= grayAt d idx <= 255 /\
  1000 * grayAt d idx <= 299 * r + 587 * g + 114 * b <= 1000 * grayAt d idx + 1000 /\
  grayAt d idx <= roundedLuminance r g b.
Proof.
  intros Hi Er Eg Eb Hr Hg Hb.
  rewrite (grayAt_stored d idx r g b Hi Er Eg Eb).
  destruct (grayOfBytes_bounds r g b Hr Hg Hb) as [Hrange [Hlo Hhi]].
  repeat split; try lia.
  unfold roundedLuminance.
  apply Z.div_le_lower_bound; lia.
Qed.

Lemma C3_gray_is_truncated_witness :
  grayAt [200; 100; 50; 255] 0 = 124 /\
  0 <= grayAt [200; 100; 50; 255] 0 <= 255.
Proof.
  pose proof (C3_gray_is_truncated [200; 100; 50; 255] 0 200 100 50
                ltac:(lia) eq_refl eq_refl eq_refl ltac:(lia) ltac:(lia) ltac:(lia))
    as [_ [H _]].
  split; [vm_compute; reflexivity | exact H].
Defined.

(** *** Clamping a rect *)

(** A fractional rect, clamped in binary64 into a 200 x 200 buffer. *)
Example clampRect_fractional :
  clampRect (N := float)
    {| x := (-3.5)%float; y := 190.25%float; w := 500%float; h := 40%float |}
    200%float 200%float
  = {| x := 0%float; y := 190.25%float; w := 200%float; h := 9.75%float |}.
Proof. vm_compute. reflexivity. Qed.

(** Without pixels (W = H = 0) the clamped rect is still 1 x 1: the minimum
    size wins over the bounds. *)
Example clampRect_empty_bounds :
  let c := clampRect (N := Z) {| x := 0; y := 0; w := 5; h := 5 |} 0 0 in
  c = {| x := 0; y := 0; w := 1; h := 1 |} /\
  ~ (0 <= x c /\ 0 <= y c /\ x c + w c <= 0 /\ y c + h c <= 0 /\ 1 <= w c /\ 1 <= h c).
Proof. cbn. split; [reflexivity | lia]. Qed.

(** The position and the minimum size are guaranteed whatever the bounds. *)
Lemma clampRect_position_and_size (r : Rect Z) (W H : Z) :
  let c := clampRect r W H in
  0 <= x c /\ 0 <= y c /\ 1 <= w c /\ 1 <= h c.
Proof. cbn. lia. Qed.

Lemma Qle_bool_false (a b : Q) : Qle_bool a b = false -> (b < a)%Q.
Proof.
  intros E. apply Qnot_le_lt. intro Hle. apply Qle_bool_iff in Hle. congruence.
Qed.

(** The same property over rects with rational (fractional) fields,
    computed exactly. *)
Lemma clampRect_within_bounds_exact (r : Rect Q) (W H : Q) :
  (1 <= W)%Q -> (1 <= H)%Q ->
  let c := clampRect r W H in
  (0 <= x c /\ 0 <= y c /\ x c + w c <= W /\ y c + h c <= H /\ 1 <= w c /\ 1 <= h c)%Q.
Proof.
  intros HW HH. cbn.
  repeat match goal with
         | |- context [Qle_bool ?a ?b] =>
             let E := fresh "E" in
             destruct (Qle_bool a b) eqn:E;
             [apply Qle_bool_iff in E | apply Qle_bool_false in E]
         end.
  all: unfold inject_Z in *; repeat split; lra.
Qed.

(** *** [Math.max] and [Math.min] *)

Lemma is_nan_nan : PrimFloat.is_nan nan = true.
Proof. reflexivity. Qed.

Lemma is_zero_key (a : float) :
  PrimFloat.is_zero a = true -> exists s, Prim2SF a = S754_zero s.
Proof.
  unfold PrimFloat.is_zero. rewrite FloatAxioms.eqb_spec.
  change (Prim2SF zero) with (S754_zero false).
  destruct (Prim2SF a) as [s|s| |s m e]; try (destruct s); cbn; try discriminate;
    intros _; eauto.
Qed.

Lemma same_key_zero (a b : float) (s : bool) :
  Prim2SF a = S754_zero s -> PrimFloat.is_nan b = false -> key a = key b ->
  exists s', Prim2SF b = S754_zero s'.
Proof.
  unfold key. rewrite is_nan_SF. intros -> N K.
  destruct (Prim2SF b) as [s'|s'| |s' m e]; try (destruct s'); try discriminate; eauto.
Qed.

Lemma not_ltb_same_key (a b : float) :
  PrimFloat.is_nan a = false -> PrimFloat.is_nan b = false ->
  (a <? b)%float = false -> (b <? a)%float = false -> key a = key b.
Proof.
  intros Na Nb L1 L2. destruct (keyLt_total (key a) (key b)) as [L|[L|L]]; [|exact L|].
  - assert ((a <? b)%float = true) by (apply ltb_key; auto). congruence.
  - assert ((b <? a)%float = true) by (apply ltb_key; auto). congruence.
Qed.

Lemma leb_of_key (a b : float) :
  PrimFloat.is_nan a = false -> PrimFloat.is_nan b = false -> key a = key b ->
  (a <=? b)%float = true.
Proof. intros Na Nb K. apply leb_key. auto. Qed.

(** [Math.max] of two numbers that are not NaN is the larger of them (one
    of them, up to the sign of zero). *)
Lemma floatMax_spec (a b : float) :
  PrimFloat.is_nan a = false -> PrimFloat.is_nan b = false ->
  PrimFloat.is_nan (floatMax a b) = false /\
  (a <=? floatMax a b)%float = true /\ (b <=? floatMax a b)%float = true /\
  (key (floatMax a b) = key a \/ key (floatMax a b) = key b).
Proof.
  intros Na Nb. unfold floatMax. rewrite Na, Nb. cbn [orb].
  destruct (a <? b)%float eqn:L1.
  { repeat split; auto using ltb_leb, leb_refl. }
  destruct (b <? a)%float eqn:L2.
  { repeat split; auto using ltb_leb, leb_refl. }
  pose proof (not_ltb_same_key a b Na Nb L1 L2) as K.
  destruct (PrimFloat.is_zero a) eqn:Z.
  - destruct (is_zero_key a Z) as [s Ea].
    destruct (same_key_zero a b s Ea Nb K) as [s' Eb].
    assert (E : exists s'', Prim2SF (a + b) = S754_zero s'').
    { rewrite FloatAxioms.add_spec, Ea, Eb. destruct s, s'; cbn; eauto. }
    destruct E as [s'' E].
    assert (Ka : key (a + b) = key a) by (unfold key; now rewrite E, Ea).
    assert (Nab : PrimFloat.is_nan (a + b) = false) by (rewrite is_nan_SF, E; reflexivity).
    repeat split; auto.
    + apply leb_of_key; auto.
    + apply leb_of_key; auto. congruence.
  - repeat split; auto using leb_refl. apply leb_of_key; auto.
Qed.

Lemma floatMin_spec (a b : float) :
  PrimFloat.is_nan a = false -> PrimFloat.is_nan b = false ->
  PrimFloat.is_nan (floatMin a b) = false /\
  (floatMin a b <=? a)%float = true /\ (floatMin a b <=? b)%float = true /\
  (key (floatMin a b) = key a \/ key (floatMin a b) = key b).
Proof.
  intros Na Nb. unfold floatMin. rewrite Na, Nb. cbn [orb].
  destruct (a <? b)%float eqn:L1.
  { repeat split; auto using ltb_leb, leb_refl. }
  destruct (b <? a)%float eqn:L2.
  { repeat split; auto using ltb_leb, leb_refl. }
  pose proof (not_ltb_same_key a b Na Nb L1 L2) as K.
  destruct (PrimFloat.is_zero a) eqn:Z.
  - destruct (is_zero_key a Z) as [s Ea].
    destruct (same_key_zero a b s Ea Nb K) as [s' Eb].
    assert (E : exists s'', Prim2SF (- (- a + - b)) = S754_zero s'').
    { rewrite FloatAxioms.opp_spec, FloatAxioms.add_spec, !FloatAxioms.opp_spec, Ea, Eb.
      destruct s, s'; cbn; eauto. }
    destruct E as [s'' E].
    assert (Ka : key (- (- a + - b)) = key a) by (unfold key; now rewrite E, Ea).
    assert (Nab : PrimFloat.is_nan (- (- a + - b)) = false) by (rewrite is_nan_SF, E; reflexivity).
    repeat split; auto.
    + apply leb_of_key; auto.
    + apply leb_of_key; auto. congruence.
  - repeat split; auto using leb_refl. apply leb_of_key; auto.
Qed.

Lemma leb_same_key_l (a a' c : float) :
  PrimFloat.is_nan a' = false -> key a' = key a -> (a <=? c)%float = true ->
  (a' <=? c)%float = true.
Proof.
  intros N K L. apply leb_key in L as (_ & Nc & L). apply leb_key.
  rewrite K. auto.
Qed.

Lemma floatMax_lub (a b c : float) :
  (a <=? c)%float = true -> (b <=? c)%float = true -> (floatMax a b <=? c)%float = true.
Proof.
  intros La Lb.
  destruct (floatMax_spec a b (leb_not_nan_l _ _ La) (leb_not_nan_l _ _ Lb))
    as (N & _ & _ & [K|K]); eauto using leb_same_key_l.
Qed.

(** *** Clamping a rect of doubles *)

Lemma clamp_position (lo v : float) :
  PrimFloat.is_nan v = false -> (0 <=? lo)%float = true ->
  let c := floatMax 0 (floatMin lo v) in
  PrimFloat.is_nan c = false /\ (0 <=? c)%float = true /\ (c <=? lo)%float = true.
Proof.
  intros Nv Hlo c.
  destruct (floatMin_spec lo v (leb_not_nan_r _ _ Hlo) Nv) as (Nm & Ml & _ & _).
  destruct (floatMax_spec 0 (floatMin lo v) eq_refl Nm) as (Nc & C0 & _ & _).
  repeat split; auto. apply floatMax_lub; assumption.
Qed.

Lemma clamp_size (room v : float) :
  PrimFloat.is_nan v = false -> PrimFloat.is_nan room = false ->
  let c := floatMax 1 (floatMin room v) in
  PrimFloat.is_nan c = false /\ (1 <=? c)%float = true /\ (c <=? floatMax 1 room)%float = true.
Proof.
  intros Nv Nr c.
  destruct (floatMin_spec room v Nr Nv) as (Nm & Ml & _ & _).
  destruct (floatMax_spec 1 (floatMin room v) eq_refl Nm) as (Nc & C1 & _ & _).
  destruct (floatMax_spec 1 room eq_refl Nr) as (_ & R1 & R2 & _).
  repeat split; auto. apply floatMax_lub; [assumption|].
  eapply leb_trans; eassumption.
Qed.

(** The clamped rect of a rect of doubles without a NaN field, in bounds
    that are finite and at least 1. *)
Lemma clampRect_binary64 (r : Rect float) (W H : float) :
  PrimFloat.is_nan (x r) = false -> PrimFloat.is_nan (y r) = false ->
  PrimFloat.is_nan (w r) = false -> PrimFloat.is_nan (h r) = false ->
  PrimFloat.is_finite W = true -> PrimFloat.is_finite H = true ->
  (1 <=? W)%float = true -> (1 <=? H)%float = true ->
  let c := clampRect r W H in
  ((0 <=? x c)%float = true /\ (x c <=? W - 1)%float = true /\
   (1 <=? w c)%float = true /\ (w c <=? floatMax 1 (W - x c))%float = true) /\
  ((0 <=? y c)%float = true /\ (y c <=? H - 1)%float = true /\
   (1 <=? h c)%float = true /\ (h c <=? floatMax 1 (H - y c))%float = true).
Proof.
  intros Nx Ny Nw Nh FW FH HW HH c. subst c. unfold clampRect.
  cbn [x y w h ofZ nmax nmin nsub Float64].
  change (floatOfZ 0) with 0%float. change (floatOfZ 1) with 1%float.
  destruct (clamp_position (W - 1) (x r) Nx (sub_one_nonneg W FW HW)) as (Ncx & X0 & X1).
  destruct (clamp_position (H - 1) (y r) Ny (sub_one_nonneg H FH HH)) as (Ncy & Y0 & Y1).
  destruct (clamp_size (W - floatMax 0 (floatMin (W - 1) (x r))) (w r) Nw
              (sub_not_nan _ _ FW Ncx)) as (_ & W1 & W2).
  destruct (clamp_size (H - floatMax 0 (floatMin (H - 1) (y r))) (h r) Nh
              (sub_not_nan _ _ FH Ncy)) as (_ & H1 & H2).
  repeat split; assumption.
Qed.

(** C4, as stated, fails on the rects that the canvases pass, whose fields
    are fractional doubles: in a buffer 200 wide, x = 0.1 leaves the width
    200 - 0.1 rounded to 199.90000000000001, and the exact sum x + w is
    above 200.  It also fails when a field is NaN: the clamped x is NaN,
    which is not at least 0. *)
Lemma C4_clampRect_overhangs :
  (let c := clampRect (N := float)
              {| x := 0.1%float; y := 0%float; w := 500%float; h := 50%float |}
              200%float 100%float in
   c = {| x := 0.1%float; y := 0%float; w := 199.90000000000001%float; h := 50%float |} /\
   exists qx qw, exactQ (x c) = Some qx /\ exactQ (w c) = Some qw /\ (200 < qx + qw)%Q) /\
  (let c := clampRect (N := float)
              {| x := nan; y := 0%float; w := 5%float; h := 5%float |}
              10%float 10%float in
   PrimFloat.is_nan (x c) = true /\ (0 <=? x c)%float = false).
Proof.
  split.
  - split; [vm_compute; reflexivity|].
    eexists. eexists. split; [vm_compute; reflexivity|]. split; [vm_compute; reflexivity|].
    vm_compute. reflexivity.
  - vm_compute. split; reflexivity.
Qed.

(** C4, amended: for every rect R of doubles without a NaN field and all
    finite bounds W >= 1 and H >= 1, the clamped rect satisfies
    0 <= x <= W - 1, 0 <= y <= H - 1, w >= 1, h >= 1, and w and h are at most
    the room left, max(1, W - x) and max(1, H - y), with the differences as
    binary64 rounds them; and for every rect R with integer fields and all
    integer bounds W >= 1 and H >= 1 it satisfies 0 <= x, 0 <= y, x + w <= W,
    y + h <= H, w >= 1 and h >= 1. *)
Theorem C4_clampRect_within_bounds :
  (forall (r : Rect float) (W H : float),
     PrimFloat.is_nan (x r) = false -> PrimFloat.is_nan (y r) = false ->
     PrimFloat.is_nan (w r) = false -> PrimFloat.is_nan (h r) = false ->
     PrimFloat.is_finite W = true -> PrimFloat.is_finite H = true ->
     (1 <=? W)%float = true -> (1 <=? H)%float = true ->
     let c := clampRect r W H in
     ((0 <=? x c)%float = true /\ (x c <=? W - 1)%float = true /\
      (1 <=? w c)%float = true /\ (w c <=? floatMax 1 (W - x c))%float = true) /\
     ((0 <=? y c)%float = true /\ (y c <=? H - 1)%float = true /\
      (1 <=? h c)%float = true /\ (h c <=? floatMax 1 (H - y c))%float = true)) /\
  (forall (r : Rect Z) (W H : Z),
     1 <= W -> 1 <= H ->
     let c := clampRect r W H in
     0 <= x c /\ 0 <= y c /\ x c + w c <= W /\ y c + h c <= H /\ 1 <= w c /\ 1 <= h c).
Proof.
  split.
  - exact clampRect_binary64.
  - intros r W H HW HH. cbn. lia.
Qed.

Lemma C4_clampRect_within_bounds_witness :
  let c := clampRect (N := float)
             {| x := 0.1%float; y := 190.25%float; w := 500%float; h := 40%float |}
             200%float 200%float in
  ((0 <=? x c)%float = true /\ (x c <=? 200 - 1)%float = true /\
   (1 <=? w c)%float = true /\ (w c <=? floatMax 1 (200 - x c))%float = true) /\
  ((0 <=? y c)%float = true /\ (y c <=? 200 - 1)%float = true /\
   (1 <=? h c)%float = true /\ (h c <=? floatMax 1 (200 - y c))%float = true).
Proof.
  apply (proj1 C4_clampRect_within_bounds
           {| x := 0.1%float; y := 190.25%float; w := 500%float; h := 40%float |}
           200%float 200%float); reflexivity.
Defined.

(** *** Locating an axis *)

Lemma countInk_from (test : Z -> bool) (l : list Z) (s0 : Z) :
  fold_left (fun s i => if test i then s + 1 else s) l s0
  = s0 + Z.of_nat (length (filter test l)).
Proof.
  revert s0; induction l as [|i l IH]; intros s0; cbn [fold_left filter].
  - cbn. lia.
  - rewrite IH. destruct (test i); cbn [length]; lia.
Qed.

Lemma countInk_inkCount (test : Z -> bool) (lo hi : Z) :
  countInk test (range lo hi) = inkCount test lo hi.
Proof. unfold countInk, inkCount. rewrite countInk_from. lia. Qed.

Lemma inkCount_nonneg (test : Z -> bool) (lo hi : Z) : 0 <= inkCount test lo hi.
Proof. unfold inkCount. lia. Qed.

(** The forward scan with a strict comparison keeps the first maximum:
    either nothing beats the starting pair, or the result is a position
    that beats everything before it strictly and everything after it
    weakly. *)
Lemma scanBest_first_max (count : Z -> Z) (positions : list Z) (start : Z * Z) :
  (scanBest count positions start = start /\
   forall q, In q positions -> count q <= snd start)
  \/
  (exists l1 p l2,
      positions = l1 ++ p :: l2 /\
      scanBest count positions start = (p, count p) /\
      snd start < count p /\
      (forall q, In q l1 -> count q < count p) /\
      (forall q, In q l2 -> count q <= count p)).
Proof.
  revert start; induction positions as [|p ps IH]; intros start.
  - left. split; [reflexivity | intros q []].
  - unfold scanBest in *. cbn [fold_left].
    destruct (Z.ltb_spec (snd start) (count p)) as [Hlt|Hge].
    + destruct (IH (p, count p)) as [[E Hall]|(l1 & p' & l2 & E & R & Hs & H1 & H2)].
      * right. exists [], p, ps. cbn [snd app] in *. repeat split; auto.
        intros q [].
      * right. exists (p :: l1), p', l2. cbn [snd] in *. subst ps.
        repeat split; auto; try lia.
        intros q [<-|Hq]; [lia | auto].
    + destruct (IH start) as [[E Hall]|(l1 & p' & l2 & E & R & Hs & H1 & H2)].
      * left. split; [exact E|]. intros q [<-|Hq]; [lia | auto].
      * right. exists (p :: l1), p', l2. subst ps.
        repeat split; auto.
        intros q [<-|Hq]; [lia | auto].
Qed.

Lemma scanBest_ext (c1 c2 : Z -> Z) (positions : list Z) (start : Z * Z) :
  (forall q, c1 q = c2 q) ->
  scanBest c1 positions start = scanBest c2 positions start.
Proof.
  intros Hext. unfold scanBest. revert start.
  induction positions as [|p ps IH]; intros start; cbn [fold_left]; [reflexivity|].
  rewrite Hext. apply IH.
Qed.

(** In an increasing run of integers, what precedes an element is smaller
    and what follows it is larger. *)
Lemma countFrom_split (n : nat) (lo p : Z) (l1 l2 : list Z) :
  countFrom lo n = l1 ++ p :: l2 ->
  (forall q, In q l1 -> lo <= q < p) /\ (forall q, In q l2 -> p < q).
Proof.
  revert n lo; induction l1 as [|a l1 IH]; intros n lo E.
  - destruct n as [|n]; [discriminate|]. cbn in E. injection E as <- <-.
    split; [intros q [] | intros q Hq; apply countFrom_In in Hq; lia].
  - destruct n as [|n]; [discriminate|]. cbn in E. injection E as <- E.
    destruct (IH _ _ E) as [H1 H2]. split; [|exact H2].
    assert (Hp : In p (countFrom (lo + 1) n)) by (rewrite E; apply in_elt).
    apply countFrom_In in Hp.
    intros q [<-|Hq]; [lia | specialize (H1 q Hq); lia].
Qed.

(** The scan of a non-empty range of lines whose counts are non-negative,
    started from (first line, -1). *)
Lemma scanBest_range (count : Z -> Z) (lo hi : Z) :
  lo < hi -> (forall q, 0 <= count q) ->
  let best := fst (scanBest count (range lo hi) (lo, -1)) in
  lo <= best < hi /\
  (forall q, lo <= q < hi -> count q <= count best) /\
  (forall q, lo <= q < best -> count q < count best).
Proof.
  intros Hne Hpos.
  destruct (scanBest_first_max count (range lo hi) (lo, -1))
    as [[_ Hall]|(l1 & p & l2 & E & R & _ & H1 & H2)].
  - exfalso. specialize (Hall lo). cbn [snd] in Hall.
    specialize (Hpos lo). assert (In lo (range lo hi)) by (apply range_In; lia).
    specialize (Hall H). lia.
  - rewrite R. cbn [fst].
    assert (Hp : In p (range lo hi)) by (rewrite E; apply in_elt).
    apply range_In in Hp.
    destruct (countFrom_split _ _ _ _ _ E) as [S1 S2].
    split; [exact Hp|]. split.
    + intros q Hq. apply range_In in Hq. rewrite E in Hq.
      apply in_app_or in Hq as [Hq|[<-|Hq]]; [specialize (H1 q Hq) | | auto]; lia.
    + intros q Hq.
      assert (Hin : In q (range lo hi)) by (apply range_In; lia).
      rewrite E in Hin.
      apply in_app_or in Hin as [Hin|[<-|Hin]]; [auto | lia | specialize (S2 q Hin); lia].
Qed.

(** Rows 1 and 2 both hold two ink pixels: the earlier one is returned. *)
Example findXAxisY_tie :
  findXAxisY {| data := []; width := 3; height := 4 |}
             {| x := 0; y := 0; w := 3; h := 4 |}
             (fun px py => ((py =? 1) || (py =? 2)) && (px <? 2))
  = 1.
Proof. vm_compute. reflexivity. Qed.

(** On a ROI with integer fields: [findXAxisY] returns a row of the clamped
    ROI whose ink count is maximal among the rows of the ROI and strictly
    larger than that of every earlier row; [findYAxisX] does the same for
    the columns. *)
Lemma axis_first_maximum_on_integers (img : ImageData) (roi : Rect Z) (ink : Z -> Z -> bool) :
  let r := clampRect roi (width img) (height img) in
  let rowInk := fun py => inkCount (fun px => ink px py) (x r) (x r + w r) in
  let colInk := fun px => inkCount (fun py => ink px py) (y r) (y r + h r) in
  let axisY := findXAxisY img roi ink in
  let axisX := findYAxisX img roi ink in
  (y r <= axisY < y r + h r /\
   (forall py, y r <= py < y r + h r -> rowInk py <= rowInk axisY) /\
   (forall py, y r <= py < axisY -> rowInk py < rowInk axisY)) /\
  (x r <= axisX < x r + w r /\
   (forall px, x r <= px < x r + w r -> colInk px <= colInk axisX) /\
   (forall px, x r <= px < axisX -> colInk px < colInk axisX)).
Proof.
  intros r rowInk colInk axisY axisX.
  destruct (clampRect_position_and_size roi (width img) (height img))
    as (_ & _ & Hw & Hh). fold r in Hw, Hh.
  split.
  - subst axisY. unfold findXAxisY. fold r.
    rewrite (scanBest_ext _ rowInk) by (intro; apply countInk_inkCount).
    apply scanBest_range; [lia | intro; apply inkCount_nonneg].
  - subst axisX. unfold findYAxisX. fold r.
    rewrite (scanBest_ext _ colInk) by (intro; apply countInk_inkCount).
    apply scanBest_range; [lia | intro; apply inkCount_nonneg].
Qed.

(** *** Locating an axis on any ROI *)

Section AnyPosition.
Context {P : Type}.

Lemma countInk_filter (test : P -> bool) (l : list P) :
  fold_left (fun s i => if test i then s + 1 else s) l 0 = Locate.inkCount test l.
Proof.
  unfold Locate.inkCount.
  enough (G : forall s0, fold_left (fun s i => if test i then s + 1 else s) l s0
                         = s0 + Z.of_nat (length (filter test l))) by (rewrite G; lia).
  induction l as [|i l IH]; intros s0; cbn [fold_left filter].
  - cbn. lia.
  - rewrite IH. destruct (test i); cbn [length]; lia.
Qed.

Lemma inkCount_not_negative (test : P -> bool) (l : list P) : 0 <= Locate.inkCount test l.
Proof. unfold Locate.inkCount. lia. Qed.

Lemma inkCount_blank (test : P -> bool) (l : list P) :
  (forall q, In q l -> test q = false) -> Locate.inkCount test l = 0.
Proof.
  intros Hn. unfold Locate.inkCount.
  induction l as [|a l IH]; cbn [filter]; [reflexivity|].
  rewrite (Hn a) by now left. apply IH. intros q Hq. apply Hn. now right.
Qed.

End AnyPosition.

Section AnyNumber.
Context {N : Type} `{Number N}.

(** The forward scan with a strict comparison keeps the first maximum. *)
Lemma scanBest_first_maximum (count : N -> Z) (positions : list N) (start : N * Z) :
  (Locate.scanBest count positions start = start /\
   forall q, In q positions -> count q <= snd start)
  \/
  (exists l1 p l2,
      positions = l1 ++ p :: l2 /\
      Locate.scanBest count positions start = (p, count p) /\
      snd start < count p /\
      (forall q, In q l1 -> count q < count p) /\
      (forall q, In q l2 -> count q <= count p)).
Proof.
  revert start; induction positions as [|p ps IH]; intros start.
  - left. split; [reflexivity | intros q []].
  - unfold Locate.scanBest in *. cbn [fold_left].
    destruct (Z.ltb_spec (snd start) (count p)) as [Hlt|Hge].
    + destruct (IH (p, count p)) as [[E Hall]|(l1 & p' & l2 & E & R & Hs & H1 & H2)].
      * right. exists [], p, ps. cbn [snd app] in *. repeat split; auto.
        intros q [].
      * right. exists (p :: l1), p', l2. cbn [snd] in *. subst ps.
        repeat split; auto; try lia.
        intros q [<-|Hq]; [lia | auto].
    + destruct (IH start) as [[E Hall]|(l1 & p' & l2 & E & R & Hs & H1 & H2)].
      * left. split; [exact E|]. intros q [<-|Hq]; [lia | auto].
      * right. exists (p :: l1), p', l2. subst ps.
        repeat split; auto.
        intros q [<-|Hq]; [lia | auto].
Qed.

(** Started from (first position, -1) on a non-empty list of positions
    whose counts are not negative. *)
Lemma scanBest_located (count : N -> Z) (positions : list N) (lo : N) :
  positions <> [] -> (forall q, 0 <= count q) ->
  Locate.firstMaximum count positions (fst (Locate.scanBest count positions (lo, -1))).
Proof.
  intros Hne Hpos.
  destruct (scanBest_first_maximum count positions (lo, -1))
    as [[_ Hall]|(l1 & p & l2 & E & R & _ & H1 & H2)].
  - exfalso. destruct positions as [|a l]; [now apply Hne|].
    specialize (Hall a (or_introl eq_refl)). specialize (Hpos a). cbn [snd] in Hall. lia.
  - rewrite R. cbn [fst]. exists l1, l2. auto.
Qed.

Lemma scanBest_same_counts (c1 c2 : N -> Z) (positions : list N) (start : N * Z) :
  (forall q, c1 q = c2 q) ->
  Locate.scanBest c1 positions start = Locate.scanBest c2 positions start.
Proof.
  intros Hext. unfold Locate.scanBest. revert start.
  induction positions as [|p ps IH]; intros start; cbn [fold_left]; [reflexivity|].
  rewrite Hext. apply IH.
Qed.

(** Without a position that counts above 0, the first one is kept. *)
Lemma scanBest_blank (count : N -> Z) (positions : list N) (lo : N) :
  (forall q, In q positions -> count q = 0) ->
  hd lo positions = lo ->
  fst (Locate.scanBest count positions (lo, -1)) = lo.
Proof.
  intros Hz Hhd. destruct positions as [|a l]; [reflexivity|].
  cbn [hd] in Hhd. subst a. unfold Locate.scanBest. cbn [fold_left snd].
  rewrite (Hz lo) by now left. cbn [Z.ltb Z.compare].
  assert (G : forall l', (forall q, In q l' -> count q = 0) ->
              fold_left (fun acc p => if snd acc <? count p then (p, count p) else acc) l' (lo, 0)
              = (lo, 0)).
  { induction l' as [|b l' IH]; intros Hz'; cbn [fold_left snd]; [reflexivity|].
    rewrite (Hz' b) by now left. cbn [Z.ltb Z.compare]. apply IH.
    intros q Hq. apply Hz'. now right. }
  rewrite G; [reflexivity|]. intros q Hq. apply Hz. now right.
Qed.

Lemma counter_step (k : nat) (i hi : N) :
  Locate.counter (S k) i hi =
  if nltb i hi then option_map (cons i) (Locate.counter k (nadd i (ofZ 1)) hi) else Some [].
Proof. reflexivity. Qed.

(** More fuel does not change a loop that has ended. *)
Lemma counter_more_fuel (k k' : nat) (i hi : N) (l : list N) :
  Locate.counter k i hi = Some l -> (k <= k')%nat -> Locate.counter k' i hi = Some l.
Proof.
  revert k' i l. induction k as [|k IH]; intros k' i l E Hk; [discriminate|].
  destruct k' as [|k']; [lia|]. cbn [Locate.counter] in *.
  destruct (nltb i hi); [|exact E].
  destruct (Locate.counter k (nadd i (ofZ 1)) hi) as [l'|] eqn:E'; [|discriminate].
  rewrite (IH k' _ l' E') by lia. exact E.
Qed.

End AnyNumber.

(** The counter of a loop over doubles: it ends when it starts at a
    non-negative double and its bound is at most 2^53, and its values are
    the ones of [scannedFrom]. *)
Lemma counter_ends (hi : float) :
  (hi <=? 9007199254740992)%float = true ->
  forall (n : nat) (lo : float),
    (0 <=? lo)%float = true ->
    (Z.to_nat (rank (Prim2SF hi) - rank (Prim2SF lo)) <= n)%nat ->
    exists rows,
      Locate.counter (S n) lo hi = Some rows /\
      Locate.stepsFrom lo hi rows /\
      StronglySorted (fun a b => (a <? b)%float = true) rows /\
      Forall (fun q => (lo <=? q)%float = true /\ (q <? hi)%float = true) rows /\
      ((lo <? hi)%float = true -> rows <> []).
Proof.
  intros Hhi. induction n as [|n IH]; intros lo H0 Hn.
  - exists []. cbn [Locate.counter].
    destruct (nltb lo hi) eqn:L.
    + exfalso. pose proof (rank_lt lo hi H0 L). lia.
    + change (nltb lo hi) with (lo <? hi)%float in L.
      repeat split; try constructor; [exact L | congruence].
  - rewrite counter_step. change (nltb lo hi) with (lo <? hi)%float.
    destruct (lo <? hi)%float eqn:L.
    + pose proof (ltb_leb_trans _ _ _ L Hhi) as L53.
      destruct (add_one_increases lo H0 L53) as [Hup H0'].
      change (nadd lo (ofZ 1)) with (lo + 1)%float.
      destruct (IH (lo + 1)%float H0') as (rows & E & St & So & Fa & _).
      { pose proof (rank_lt lo hi H0 L). pose proof (rank_lt lo (lo + 1)%float H0 Hup). lia. }
      exists (lo :: rows). rewrite E. cbn [option_map].
      assert (Nlo : PrimFloat.is_nan lo = false) by (eapply leb_not_nan_r; eassumption).
      repeat split; auto.
      * constructor; [exact So|]. rewrite Forall_forall in *. intros q Hq.
        destruct (Fa q Hq) as [Hq1 _]. eapply ltb_leb_trans; eassumption.
      * constructor; [split; [now apply leb_refl | exact L]|].
        rewrite Forall_forall in *. intros q Hq. destruct (Fa q Hq) as [Hq1 Hq2].
        split; [|exact Hq2]. eapply leb_trans; [apply ltb_leb; exact Hup | exact Hq1].
      * discriminate.
    + exists []. repeat split; try constructor; [exact L | congruence].
Qed.

Lemma floatMax_not_nan (a b : float) :
  PrimFloat.is_nan (floatMax a b) = false ->
  PrimFloat.is_nan a = false /\ PrimFloat.is_nan b = false.
Proof.
  unfold floatMax. destruct (PrimFloat.is_nan a), (PrimFloat.is_nan b); cbn [orb]; auto;
    intros; discriminate.
Qed.

Lemma add_not_nan_r (a b : float) :
  PrimFloat.is_nan (a + b) = false -> PrimFloat.is_nan b = false.
Proof.
  rewrite !is_nan_SF, FloatAxioms.add_spec.
  destruct (Prim2SF a) as [sa|sa| |sa ma ea], (Prim2SF b) as [sb|sb| |sb mb eb];
    try reflexivity; cbn; auto.
Qed.

(** Where the clamped ROI starts and how large it is, once it is known to
    be addressable. *)
Lemma clamped_corner (roi : Rect float) (W H : float) :
  let r := clampRect roi W H in
  Locate.addressable r ->
  (0 <=? x r)%float = true /\ (0 <=? y r)%float = true /\
  (1 <=? w r)%float = true /\ (1 <=? h r)%float = true.
Proof.
  intros r (X53 & Y53 & XW & YH).
  pose proof (ltb_not_nan_l _ _ X53) as Nx. pose proof (ltb_not_nan_l _ _ Y53) as Ny.
  pose proof (add_not_nan_r _ _ (leb_not_nan_l _ _ XW)) as Nw.
  pose proof (add_not_nan_r _ _ (leb_not_nan_l _ _ YH)) as Nh.
  subst r. unfold clampRect in *. cbn [x y w h ofZ nmax nmin nsub Float64] in *.
  change (floatOfZ 0) with 0%float in *. change (floatOfZ 1) with 1%float in *.
  destruct (floatMax_not_nan _ _ Nx) as [_ Nx']. destruct (floatMax_not_nan _ _ Ny) as [_ Ny'].
  destruct (floatMax_not_nan _ _ Nw) as [_ Nw']. destruct (floatMax_not_nan _ _ Nh) as [_ Nh'].
  destruct (floatMax_spec 0 _ eq_refl Nx') as (_ & ? & _).
  destruct (floatMax_spec 0 _ eq_refl Ny') as (_ & ? & _).
  destruct (floatMax_spec 1 _ eq_refl Nw') as (_ & ? & _).
  destruct (floatMax_spec 1 _ eq_refl Nh') as (_ & ? & _).
  auto.
Qed.

(** The lines that a loop over an addressable ROI visits. *)
Lemma lines_scanned (lo size : float) :
  (0 <=? lo)%float = true -> (1 <=? size)%float = true ->
  (lo <? 9007199254740992)%float = true ->
  (lo + size <=? 9007199254740992)%float = true ->
  exists fuel rows,
    Locate.scannedFrom lo (lo + size) rows /\
    forall k, (fuel <= k)%nat -> Locate.counter k lo (lo + size)%float = Some rows.
Proof.
  intros H0 H1 L53 Hhi.
  destruct (add_increases lo size H0 L53 H1) as [Hup _].
  set (n := Z.to_nat (rank (Prim2SF (lo + size)) - rank (Prim2SF lo))).
  destruct (counter_ends (lo + size) Hhi n lo H0 (Nat.le_refl _)) as (rows & E & St & So & _ & Ne).
  exists (S n), rows. split.
  - split; [auto|]. split; assumption.
  - intros k Hk. eapply counter_more_fuel; eassumption.
Qed.

Lemma locate_ended (k : nat) (lo hi lo' hi' : float) (count : list float -> float -> Z)
    (outer inner : list float) :
  outer <> [] ->
  Locate.counter k lo hi = Some outer -> Locate.counter k lo' hi' = Some inner ->
  Locate.locate k lo hi lo' hi' count
  = Some (fst (Locate.scanBest (count inner) outer (lo, -1))).
Proof.
  intros Hne E E'. unfold Locate.locate. rewrite E, E'.
  destruct outer; [now destruct Hne | reflexivity].
Qed.

(** Both locators end on an addressable ROI, and return what the scan of the
    rows, or of the columns, keeps. *)
Lemma axes_located (img : ImageData) (roi : Rect float) (isInk : float -> float -> bool) :
  let r := clampRect roi (ofZ (width img)) (ofZ (height img)) in
  Locate.addressable r ->
  exists (fuel : nat) (rows cols : list float),
    Locate.scannedFrom (y r) (y r + h r) rows /\
    Locate.scannedFrom (x r) (x r + w r) cols /\
    forall k, (fuel <= k)%nat ->
      Locate.findXAxisY k img roi isInk
      = Some (fst (Locate.scanBest
                     (fun py => Locate.inkCount (fun px => isInk px py) cols) rows (y r, -1))) /\
      Locate.findYAxisX k img roi isInk
      = Some (fst (Locate.scanBest
                     (fun px => Locate.inkCount (fun py => isInk px py) rows) cols (x r, -1))).
Proof.
  intros r A. destruct (clamped_corner roi _ _ A) as (X0 & Y0 & W1 & H1).
  fold r in X0, Y0, W1, H1. destruct A as (X53 & Y53 & XW & YH).
  destruct (lines_scanned (y r) (h r) Y0 H1 Y53 YH) as (fy & rows & Sy & Ey).
  destruct (lines_scanned (x r) (w r) X0 W1 X53 XW) as (fx & cols & Sx & Ex).
  exists (Nat.max fy fx), rows, cols. split; [exact Sy|]. split; [exact Sx|].
  intros k Hk. specialize (Ey k ltac:(lia)). specialize (Ex k ltac:(lia)).
  unfold Locate.findXAxisY, Locate.findYAxisX. fold r.
  change (nadd (y r) (h r)) with (y r + h r)%float.
  change (nadd (x r) (w r)) with (x r + w r)%float.
  split.
  - rewrite (locate_ended k _ _ _ _ _ rows cols (proj1 Sy) Ey Ex).
    f_equal. f_equal. apply scanBest_same_counts. intros q. apply countInk_filter.
  - rewrite (locate_ended k _ _ _ _ _ cols rows (proj1 Sx) Ex Ey).
    f_equal. f_equal. apply scanBest_same_counts. intros q. apply countInk_filter.
Qed.

(** C6: on every ROI, fractional or not, whose clamped rect is addressable
    (its coordinates are below 2^53, as in every image that fits in memory),
    [findXAxisY] ends and returns a row of the clamped ROI: the rows are
    y, y + 1, ... below y + h, scanned in increasing order, the row returned
    has the largest ink count over the columns x, x + 1, ... below x + w,
    and every row scanned before it has a strictly smaller count (the first
    maximum wins); [findYAxisX] does the same for the columns, scanned in
    increasing x. *)
Theorem C6_axis_is_first_maximum (img : ImageData) (roi : Rect float)
    (isInk : float -> float -> bool) :
  let r := clampRect roi (ofZ (width img)) (ofZ (height img)) in
  Locate.addressable r ->
  exists (fuel : nat) (rows cols : list float) (axisY axisX : float),
    Locate.scannedFrom (y r) (y r + h r) rows /\
    Locate.scannedFrom (x r) (x r + w r) cols /\
    (forall k, (fuel <= k)%nat ->
       Locate.findXAxisY k img roi isInk = Some axisY /\
       Locate.findYAxisX k img roi isInk = Some axisX) /\
    Locate.firstMaximum (fun py => Locate.inkCount (fun px => isInk px py) cols) rows axisY /\
    Locate.firstMaximum (fun px => Locate.inkCount (fun py => isInk px py) rows) cols axisX.
Proof.
  intros r A. destruct (axes_located img roi isInk A) as (fuel & rows & cols & Sy & Sx & E).
  fold r in Sy, Sx, E.
  exists fuel, rows, cols. eexists. eexists. split; [exact Sy|]. split; [exact Sx|].
  split; [exact E|]. split.
  - apply scanBest_located; [exact (proj1 Sy) | intro; apply inkCount_not_negative].
  - apply scanBest_located; [exact (proj1 Sx) | intro; apply inkCount_not_negative].
Qed.

(** Half a pixel off the grid, the rows are 0.5, 1.5 and 2.5 and the
    predicate of [buildInkFn] reads the bytes of other pixels: rows 1.5 and
    2.5 both count one ink position, and the earlier one is returned. *)
Example findXAxisY_fractional :
  Locate.findXAxisY 10 Locate.darkRow
    {| x := 0%float; y := 0.5%float; w := 4%float; h := 3%float |}
    (Locate.isInkAt Locate.darkRow 100)
  = Some 1.5%float /\
  map (fun py => Locate.inkCount (fun px => Locate.isInkAt Locate.darkRow 100 px py)
                   [0; 1; 2; 3]%float)
      [0.5; 1.5; 2.5]%float
  = [0; 1; 1].
Proof. vm_compute. split; reflexivity. Qed.

Lemma C6_axis_is_first_maximum_witness :
  let roi := {| x := 0%float; y := 0.5%float; w := 4%float; h := 3%float |} in
  let isInk := Locate.isInkAt Locate.darkRow 100 in
  let r := clampRect roi (ofZ (width Locate.darkRow)) (ofZ (height Locate.darkRow)) in
  exists (fuel : nat) (rows cols : list float) (axisY axisX : float),
    Locate.scannedFrom (y r) (y r + h r) rows /\
    Locate.scannedFrom (x r) (x r + w r) cols /\
    (forall k, (fuel <= k)%nat ->
       Locate.findXAxisY k Locate.darkRow roi isInk = Some axisY /\
       Locate.findYAxisX k Locate.darkRow roi isInk = Some axisX) /\
    Locate.firstMaximum (fun py => Locate.inkCount (fun px => isInk px py) cols) rows axisY /\
    Locate.firstMaximum (fun px => Locate.inkCount (fun py => isInk px py) rows) cols axisX.
Proof.
  intros roi isInk.
  apply (C6_axis_is_first_maximum Locate.darkRow roi isInk).
  vm_compute. repeat split; reflexivity.
Defined.

(** On integer fields the loops are the closed form [Detect.findXAxisY]:
    the counters take the consecutive integers of [range]. *)
Lemma counter_range (k : nat) (lo hi : Z) :
  (Z.to_nat (hi - lo) < k)%nat -> Locate.counter k lo hi = Some (range lo hi).
Proof.
  revert lo. induction k as [|k IH]; intros lo Hk; [lia|].
  rewrite counter_step. cbn [nltb nadd ofZ Integer].
  destruct (Z.ltb_spec lo hi) as [L|L].
  - rewrite IH by lia. cbn [option_map]. unfold range.
    replace (Z.to_nat (hi - lo)) with (S (Z.to_nat (hi - (lo + 1)))) by lia.
    reflexivity.
  - unfold range. replace (Z.to_nat (hi - lo)) with 0%nat by lia. reflexivity.
Qed.

Lemma findXAxisY_on_integers (k : nat) (img : ImageData) (roi : Rect Z) (ink : Z -> Z -> bool) :
  let r := clampRect roi (width img) (height img) in
  (Z.to_nat (w r) < k)%nat -> (Z.to_nat (h r) < k)%nat ->
  Locate.findXAxisY k img roi ink = Some (Detect.findXAxisY img roi ink) /\
  Locate.findYAxisX k img roi ink = Some (Detect.findYAxisX img roi ink).
Proof.
  intros r Hw Hh. unfold Locate.findXAxisY, Locate.findYAxisX, Locate.locate,
    Detect.findXAxisY, Detect.findYAxisX.
  cbn [ofZ nadd Integer]. fold r.
  rewrite !counter_range by lia.
  split.
  - destruct (range (y r) (y r + h r)) eqn:E; reflexivity.
  - destruct (range (x r) (x r + w r)) eqn:E; reflexivity.
Qed.

(** *** A region of a single gray level *)

Section SingleLevel.
Context {N : Type} `{Division N}.

(** When one bin holds every pixel, the scan passes the empty bins with
    [continue] and leaves at the occupied one with [break]: no threshold is
    ever assigned. *)
Lemma otsuLoop_single_level (hist : Histogram) (total sum g0 : Z) (ts : list Z)
    (st : Scan N) :
  (forall t, hist t = if t =? g0 then total else 0) ->
  total <> 0 -> wB st = 0 ->
  otsuLoop hist total sum ts st = threshold st.
Proof.
  intros Hhist Htot. revert st.
  induction ts as [|t rest IH]; intros st HwB; cbn [otsuLoop]; [reflexivity|].
  rewrite Hhist, HwB.
  destruct (Z.eqb_spec t g0) as [_|_].
  - destruct (Z.eqb_spec (0 + total) 0) as [E|_]; [lia|].
    replace (total - (0 + total)) with 0 by lia. reflexivity.
  - cbn [Z.add Z.eqb]. rewrite IH; reflexivity.
Qed.

Lemma otsuFromHistogram_single_level (hist : Histogram) (total g0 : Z) :
  (forall t, hist t = if t =? g0 then total else 0) ->
  0 < total ->
  otsuFromHistogram hist total = 128.
Proof.
  intros Hhist Htot. unfold otsuFromHistogram.
  destruct (Z.leb_spec total 0); [lia|].
  rewrite (otsuLoop_single_level hist total _ g0) by (auto; lia).
  reflexivity.
Qed.

End SingleLevel.

(** Counting a run of pixels that all have gray level [g0]. *)
Lemma countRow_single_level (img : ImageData) (py g0 : Z) (cols : list Z)
    (acc : Histogram * Z) (k : Z) :
  (forall px, In px cols -> grayAt (data img) (pixelIndex img px py) = g0) ->
  (forall t, fst acc t = if t =? g0 then k else 0) -> snd acc = k ->
  let acc' :=
    fold_left
      (fun acc px =>
         let g := grayAt (data img) (pixelIndex img px py) in
         (increment (fst acc) g, snd acc + 1))
      cols acc in
  (forall t, fst acc' t = if t =? g0 then k + Z.of_nat (length cols) else 0) /\
  snd acc' = k + Z.of_nat (length cols).
Proof.
  revert acc k; induction cols as [|px cols IH]; intros acc k Hg Hh Ht.
  - cbn. split; [intros t; rewrite Hh; destruct (t =? g0); f_equal; lia | lia].
  - cbn [fold_left]. cbv zeta.
    destruct (IH (increment (fst acc) (grayAt (data img) (pixelIndex img px py)),
                  snd acc + 1) (k + 1)) as [I1 I2].
    + intros q Hq. apply Hg. now right.
    + intros t. cbn [fst]. unfold increment. rewrite (Hg px) by now left.
      rewrite Hh. destruct (t =? g0); lia.
    + cbn [snd]. lia.
    + cbv zeta in I1, I2. split.
      * intros t. rewrite I1. destruct (t =? g0); cbn [length]; lia.
      * rewrite I2. cbn [length]. lia.
Qed.

Lemma countRows_single_level (img : ImageData) (g0 : Z) (rows cols : list Z)
    (acc : Histogram * Z) (k : Z) :
  (forall px py, In px cols -> In py rows ->
                 grayAt (data img) (pixelIndex img px py) = g0) ->
  (forall t, fst acc t = if t =? g0 then k else 0) -> snd acc = k ->
  let acc' :=
    fold_left
      (fun acc py =>
         fold_left
           (fun acc px =>
              let g := grayAt (data img) (pixelIndex img px py) in
              (increment (fst acc) g, snd acc + 1))
           cols acc)
      rows acc in
  let n := k + Z.of_nat (length rows) * Z.of_nat (length cols) in
  (forall t, fst acc' t = if t =? g0 then n else 0) /\ snd acc' = n.
Proof.
  revert acc k; induction rows as [|py rows IH]; intros acc k Hg Hh Ht.
  - cbn. split; [intros t; rewrite Hh; destruct (t =? g0); f_equal; lia | lia].
  - cbn [fold_left].
    destruct (countRow_single_level img py g0 cols acc k) as [R1 R2]; auto.
    { intros px Hpx. apply Hg; [exact Hpx | now left]. }
    cbv zeta in R1, R2.
    destruct (IH _ _ (fun px py Hx Hy => Hg px py Hx (or_intror Hy)) R1 R2) as [I1 I2].
    cbv zeta in I1, I2. cbv zeta. split.
    + intros t. rewrite I1. destruct (t =? g0); cbn [length]; lia.
    + rewrite I2. cbn [length]. lia.
Qed.

Lemma range_length (lo hi : Z) : lo <= hi -> Z.of_nat (length (range lo hi)) = hi - lo.
Proof.
  intros Hle. unfold range.
  assert (Hlen : forall n a, length (countFrom a n) = n).
  { induction n as [|n IH]; intros a; cbn; [reflexivity | now rewrite IH]. }
  rewrite Hlen. lia.
Qed.

(** C10: if the rect scanned by [otsuThresholdFromRect] is non-empty and all
    its pixels have one gray level, the threshold returned is the default
    128, and the ink predicate built from it compares each pixel's gray
    against 128. *)
Theorem C10_uniform_region_default_threshold (img : ImageData) (rect : Rect float)
    (g0 : Z) :
  let x0 := toInt32 (x rect) in
  let y0 := toInt32 (y rect) in
  let x1 := toInt32 (x rect + w rect)%float in
  let y1 := toInt32 (y rect + h rect)%float in
  x0 < x1 -> y0 < y1 ->
  (forall px py, x0 <= px < x1 -> y0 <= py < y1 ->
                 grayAt (data img) (pixelIndex img px py) = g0) ->
  otsuThresholdFromRect img rect = 128 /\
  th (buildInkFn img rect) = 128 /\
  (forall px py,
     isInk (buildInkFn img rect) px py
     = (grayAt (data img) (pixelIndex img px py) <? 128)).
Proof.
  intros x0 y0 x1 y1 Hx Hy Hg.
  assert (Hth : otsuThresholdFromRect img rect = 128).
  { unfold otsuThresholdFromRect.
    destruct (countRect img rect) as [hist total] eqn:E.
    unfold countRect in E. fold x0 y0 x1 y1 in E.
    destruct (countRows_single_level img g0 (range y0 y1) (range x0 x1)
                (emptyHistogram, 0) 0) as [C1 C2].
    - intros px py Hpx Hpy. apply range_In in Hpx, Hpy. now apply Hg.
    - intros t. cbn. now destruct (t =? g0).
    - reflexivity.
    - cbv zeta in C1, C2. rewrite E in C1, C2. cbn [fst snd] in C1, C2.
      rewrite !range_length in C1, C2 by lia.
      apply (otsuFromHistogram_single_level hist total g0).
      + intros t. rewrite C1, C2. reflexivity.
      + rewrite C2. nia. }
  split; [exact Hth|]. unfold buildInkFn. cbn [th isInk]. rewrite Hth.
  split; reflexivity.
Qed.

Lemma C10_uniform_region_default_threshold_witness :
  otsuThresholdFromRect whiteSquare wholeSquare = 128.
Proof.
  refine (proj1 (C10_uniform_region_default_threshold whiteSquare wholeSquare 255 _ _ _)).
  - reflexivity.
  - reflexivity.
  - intros px py Hpx Hpy.
    change (toInt32 (x wholeSquare)) with 0 in Hpx.
    change (toInt32 (x wholeSquare + w wholeSquare)%float) with 2 in Hpx.
    change (toInt32 (y wholeSquare)) with 0 in Hpy.
    change (toInt32 (y wholeSquare + h wholeSquare)%float) with 2 in Hpy.
    assert (Ex : px = 0 \/ px = 1) by lia.
    assert (Ey : py = 0 \/ py = 1) by lia.
    destruct Ex as [-> | ->]; destruct Ey as [-> | ->]; vm_compute; reflexivity.
Defined.

(** *** Replicating the pixels of a histogram *)

(** C8, as stated, fails in the arithmetic of the code.  For the histogram
    {1: 1, 4: 4, 7: 1} the candidates t = 1 and t = 4 have the same exact
    between-class variance 64.8; in binary64 the second is not larger than
    the first, so the threshold is 1, but after a 3-fold replication the
    rounded products differ the other way and the threshold is 4. *)
Lemma C8_replication_changes_threshold :
  otsuFromHistogram (N := float) threeLevels (histogramTotal threeLevels) = 1 /\
  otsuFromHistogram (N := float) (replicate 3 threeLevels)
    (histogramTotal (replicate 3 threeLevels)) = 4 /\
  otsuThresholdFromRect sixPixels
    {| x := 0%float; y := 0%float; w := 6%float; h := 1%float |} = 1 /\
  otsuThresholdFromRect eighteenPixels
    {| x := 0%float; y := 0%float; w := 18%float; h := 1%float |} = 4.
Proof. vm_compute. repeat split; reflexivity. Qed.

Lemma fold_left_sumOf (f : Z -> Z) (ts : list Z) (a : Z) :
  fold_left (fun s t => s + f t) ts a = a + sumOf f ts.
Proof.
  revert a; induction ts as [|t ts IH]; intros a; cbn [fold_left sumOf].
  - lia.
  - rewrite IH. lia.
Qed.

Lemma sumOf_ext (f g : Z -> Z) (ts : list Z) :
  (forall t, f t = g t) -> sumOf f ts = sumOf g ts.
Proof. intros E. induction ts as [|t ts IH]; cbn [sumOf]; [reflexivity | now rewrite E, IH]. Qed.

Lemma sumOf_scaled (k : Z) (f : Z -> Z) (ts : list Z) :
  sumOf (fun t => k * f t) ts = k * sumOf f ts.
Proof. induction ts as [|t ts IH]; cbn [sumOf]; [lia | rewrite IH; lia]. Qed.

Lemma sumOf_nonneg (f : Z -> Z) (ts : list Z) :
  (forall t, 0 <= f t) -> 0 <= sumOf f ts.
Proof.
  intros Hf. induction ts as [|t ts IH]; cbn [sumOf]; [lia|].
  specialize (Hf t). lia.
Qed.

Lemma histogramTotal_replicate (k : Z) (hist : Histogram) :
  histogramTotal (replicate k hist) = k * histogramTotal hist.
Proof.
  unfold histogramTotal, replicate. rewrite !fold_left_sumOf.
  rewrite (sumOf_scaled k hist). lia.
Qed.

Lemma weightedSum_replicate (k : Z) (hist : Histogram) (ts : list Z) :
  fold_left (fun s t => s + t * replicate k hist t) ts 0
  = k * fold_left (fun s t => s + t * hist t) ts 0.
Proof.
  unfold replicate.
  rewrite (fold_left_sumOf (fun t => t * (k * hist t))).
  rewrite (fold_left_sumOf (fun t => t * hist t)).
  rewrite (sumOf_ext _ (fun t => k * (t * hist t))) by (intro; lia).
  rewrite (sumOf_scaled k (fun t => t * hist t)). lia.
Qed.

Lemma inject_Z_nonzero (z : Z) : z <> 0 -> ~ (inject_Z z == 0)%Q.
Proof. intros Hz E. apply Hz. unfold Qeq in E. cbn in E. lia. Qed.

Lemma betweenExact_replicate (k wb wf sb sm : Z) :
  k <> 0 -> wb <> 0 -> wf <> 0 ->
  (betweenExact (k * wb) (k * wf) (k * sb) (k * sm)
   == inject_Z k * inject_Z k * betweenExact wb wf sb sm)%Q.
Proof.
  intros Hk Hb Hf. unfold betweenExact. rewrite !inject_Z_mult.
  pose proof (inject_Z_nonzero k Hk). pose proof (inject_Z_nonzero wb Hb).
  pose proof (inject_Z_nonzero wf Hf).
  field. repeat split; assumption.
Qed.

Lemma betweenExact_nonneg (wb wf sb sm : Z) :
  0 < wb -> 0 < wf -> (0 <= betweenExact wb wf sb sm)%Q.
Proof.
  intros Hb Hf. unfold betweenExact.
  set (d := (inject_Z sb / inject_Z wb - (inject_Z sm - inject_Z sb) / inject_Z wf)%Q).
  assert (Hwb : (0 < inject_Z wb)%Q) by (unfold Qlt; cbn; lia).
  assert (Hwf : (0 < inject_Z wf)%Q) by (unfold Qlt; cbn; lia).
  rewrite <- Qmult_assoc.
  apply Qmult_le_0_compat.
  - apply Qlt_le_weak. apply Qmult_lt_0_compat; assumption.
  - destruct (Qlt_le_dec d 0) as [Hneg|Hpos].
    + setoid_replace (d * d)%Q with ((- d) * (- d))%Q by ring.
      apply Qmult_le_0_compat; lra.
    + apply Qmult_le_0_compat; assumption.
Qed.

Lemma Qltb_lt (a b : Q) : Qltb a b = true <-> (a < b)%Q.
Proof.
  unfold Qltb. rewrite negb_true_iff. split.
  - apply Qle_bool_false.
  - intros Hlt. destruct (Qle_bool b a) eqn:E; [|reflexivity].
    apply Qle_bool_iff in E. lra.
Qed.

Lemma Qltb_same (a b a' b' : Q) :
  ((a < b)%Q <-> (a' < b')%Q) -> Qltb a b = Qltb a' b'.
Proof.
  intros Hiff. destruct (Qltb a b) eqn:E1, (Qltb a' b') eqn:E2; try reflexivity.
  - apply Qltb_lt in E1. apply Hiff, Qltb_lt in E1. congruence.
  - apply Qltb_lt in E2. apply Hiff, Qltb_lt in E2. congruence.
Qed.

Lemma otsuLoop_replicate (k : Z) (hist : Histogram) (total sum : Z) (ts : list Z)
    (st st' : Scan Q) :
  0 < k -> (forall t, 0 <= hist t) ->
  wB st' = k * wB st -> sumB st' = k * sumB st -> threshold st' = threshold st ->
  maxRelated k (varMax st) (varMax st') ->
  0 <= wB st -> wB st + sumOf hist ts = total ->
  otsuLoop (replicate k hist) (k * total) (k * sum) ts st'
  = otsuLoop hist total sum ts st.
Proof.
  intros Hk Hpos. revert st st'.
  induction ts as [|t rest IH]; intros st st' EwB EsB Eth Hmax Hw0 Htot;
    cbn [otsuLoop]; [exact Eth|].
  cbn [sumOf] in Htot.
  pose proof (Hpos t) as Ht. pose proof (sumOf_nonneg hist rest Hpos) as Hrest.
  assert (Hr : replicate k hist t = k * hist t) by reflexivity.
  rewrite !Hr, EwB, EsB. clear Hr.
  replace (k * wB st + k * hist t) with (k * (wB st + hist t)) by lia.
  replace (k * total - k * (wB st + hist t)) with (k * (total - (wB st + hist t))) by lia.
  replace (k * sumB st + t * (k * hist t)) with (k * (sumB st + t * hist t)) by lia.
  set (wb := wB st + hist t). set (wf := total - wb). set (sb := sumB st + t * hist t).
  destruct (Z.eqb_spec wb 0) as [E0|Hwb].
  - rewrite E0, Z.mul_0_r. cbn [Z.eqb].
    apply IH; cbn [wB sumB threshold varMax]; auto; lia.
  - destruct (Z.eqb_spec (k * wb) 0) as [E|_]; [nia|].
    destruct (Z.eqb_spec wf 0) as [E0|Hwf].
    + rewrite E0, Z.mul_0_r. cbn [Z.eqb]. exact Eth.
    + destruct (Z.eqb_spec (k * wf) 0) as [E|_]; [nia|].
      cbn [ofZ nmul nsub ndiv nltb Exact ExactDiv].
      fold (betweenExact wb wf sb sum).
      fold (betweenExact (k * wb) (k * wf) (k * sb) (k * sum)).
      assert (Hscaled := betweenExact_replicate k wb wf sb sum ltac:(lia) Hwb Hwf).
      assert (Hnn : (0 <= betweenExact wb wf sb sum)%Q)
        by (apply betweenExact_nonneg; subst wb wf; lia).
      assert (Hkk : (0 < inject_Z k * inject_Z k)%Q).
      { apply Qmult_lt_0_compat; unfold Qlt; cbn; lia. }
      assert (Hcmp : Qltb (varMax st') (betweenExact (k * wb) (k * wf) (k * sb) (k * sum))
                     = Qltb (varMax st) (betweenExact wb wf sb sum)).
      { apply Qltb_same. rewrite Hscaled.
        destruct Hmax as [[E1 E2]|[Hv E2]]; rewrite E2.
        - rewrite E1. split; intros _; [lra|].
          assert (0 <= inject_Z k * inject_Z k * betweenExact wb wf sb sum)%Q
            by (apply Qmult_le_0_compat; lra).
          lra.
        - split; intros Hlt.
          + apply Qmult_lt_l in Hlt; assumption.
          + apply Qmult_lt_l; assumption. }
      rewrite Hcmp.
      destruct (Qltb (varMax st) (betweenExact wb wf sb sum)).
      * apply IH; cbn [wB sumB threshold varMax]; auto; try (subst wb; lia).
        right. split; assumption.
      * apply IH; cbn [wB sumB threshold varMax]; auto; subst wb; lia.
Qed.

(** *** Replication by a power of two, in binary64 *)

Lemma floatOfZ_normalize (z : Z) :
  0 <= z < 2 ^ 53 -> Prim2SF (floatOfZ z) = binary_normalize prec emax z 0 false.
Proof.
  intros Hz. unfold floatOfZ. destruct (Z.ltb_spec z 0) as [Hn|_]; [lia|].
  rewrite FloatAxioms.of_uint63_spec, Uint63.of_Z_spec, Z.mod_small; [reflexivity|].
  split; [lia|]. apply Z.lt_trans with (2 ^ 53); [lia | reflexivity].
Qed.

(** The double of a count, and of the count times 2^j. *)
Lemma floatOfZ_doubled (j z : Z) :
  0 <= j -> 0 <= z -> 2 ^ j * z < 2 ^ 53 ->
  Prim2SF (floatOfZ (2 ^ j * z)) = shiftE j (Prim2SF (floatOfZ z)) /\
  ranged (-52) 1 (Prim2SF (floatOfZ z)) /\
  (0 < z -> exists m e, Prim2SF (floatOfZ z) = S754_finite false m e).
Proof.
  intros Hj Hz Hlt.
  assert (P2 : 0 < 2 ^ j) by (apply Z.pow_pos_nonneg; lia).
  rewrite !floatOfZ_normalize by nia.
  apply binary_normalize_integer; assumption.
Qed.

Lemma varBetweenOf_spread (total sum sb wb : Z) :
  Prim2SF (Threshold.varBetweenOf (N := float) total sum sb wb)
  = spreadSF (Prim2SF (floatOfZ wb)) (Prim2SF (floatOfZ (total - wb)))
             (Prim2SF (floatOfZ sb)) (Prim2SF (floatOfZ sum)).
Proof.
  unfold Threshold.varBetweenOf, spreadSF.
  cbn [ofZ nmul nsub ndiv Float64 Float64Div].
  rewrite !FloatAxioms.mul_spec, !FloatAxioms.sub_spec, !FloatAxioms.div_spec,
    !FloatAxioms.sub_spec.
  reflexivity.
Qed.

Lemma nonnegSF_shiftE (j : Z) (x : spec_float) : nonnegSF (shiftE j x) = nonnegSF x.
Proof. now destruct x. Qed.

(** The between-class variance computed from counts that are 2^j times
    larger is 4^j times larger, exactly. *)
Lemma varBetweenOf_doubled (j total sum sb wb : Z) :
  0 <= j -> 0 < wb -> 0 < total - wb -> 0 <= sb <= sum ->
  2 ^ j * total < 2 ^ 53 -> 2 ^ j * sum < 2 ^ 53 ->
  let v := Threshold.varBetweenOf (N := float) total sum sb wb in
  let v' := Threshold.varBetweenOf (N := float)
              (2 ^ j * total) (2 ^ j * sum) (2 ^ j * sb) (2 ^ j * wb) in
  Prim2SF v' = shiftE (j + j) (Prim2SF v) /\
  ranged (-368) 176 (Prim2SF v) /\ nonnegSF (Prim2SF v) = true.
Proof.
  intros Hj Hwb Hwf Hsb Ht Hs v v'. subst v v'.
  assert (P2 : 0 < 2 ^ j) by (apply Z.pow_pos_nonneg; lia).
  assert (J : j <= 52).
  { destruct (Z_lt_le_dec 52 j) as [G|]; [|lia].
    assert (2 ^ 53 <= 2 ^ j) by (apply Z.pow_le_mono_r; lia). nia. }
  rewrite !varBetweenOf_spread.
  replace (2 ^ j * total - 2 ^ j * wb) with (2 ^ j * (total - wb)) by lia.
  destruct (floatOfZ_doubled j wb) as (E1 & R1 & P1); try nia.
  destruct (floatOfZ_doubled j (total - wb)) as (E2 & R2 & P2'); try nia.
  destruct (floatOfZ_doubled j sb) as (E3 & R3 & _); try nia.
  destruct (floatOfZ_doubled j sum) as (E4 & R4 & _); try nia.
  rewrite E1, E2, E3, E4.
  apply spreadSF_shift; auto; lia.
Qed.

Lemma otsuLoop_doubled (j : Z) (hist : Histogram) (total sum : Z) (ts : list Z)
    (st st' : Scan float) :
  0 <= j -> (forall t, 0 <= hist t) -> (forall t, In t ts -> 0 <= t) ->
  2 ^ j * total < 2 ^ 53 -> 2 ^ j * sum < 2 ^ 53 ->
  wB st' = 2 ^ j * wB st -> sumB st' = 2 ^ j * sumB st -> threshold st' = threshold st ->
  maxDoubled j (varMax st) (varMax st') ->
  0 <= wB st -> wB st + sumOf hist ts = total ->
  0 <= sumB st -> sumB st + sumOf (fun t => t * hist t) ts = sum ->
  otsuLoop (replicate (2 ^ j) hist) (2 ^ j * total) (2 ^ j * sum) ts st'
  = otsuLoop hist total sum ts st.
Proof.
  intros Hj Hpos. revert st st'.
  assert (P2 : 0 < 2 ^ j) by (apply Z.pow_pos_nonneg; lia).
  induction ts as [|t rest IH]; intros st st' Hts Ht53 Hs53 EwB EsB Eth Hmax Hw0 Htot Hs0 Hsum;
    cbn [otsuLoop]; [exact Eth|].
  cbn [sumOf] in Htot, Hsum.
  pose proof (Hpos t) as Ht. pose proof (sumOf_nonneg hist rest Hpos) as Hrest.
  assert (Ht0 : 0 <= t) by (apply Hts; now left).
  assert (Hrest' : 0 <= sumOf (fun u => u * hist u) rest).
  { clear - Hts Hpos. induction rest as [|u rest IH]; cbn [sumOf]; [lia|].
    assert (0 <= u) by (apply Hts; right; now left). pose proof (Hpos u).
    assert (0 <= sumOf (fun u0 => u0 * hist u0) rest).
    { apply IH. intros v [->|Hv]; apply Hts; [now left | right; now right]. }
    nia. }
  assert (Hts' : forall u, In u rest -> 0 <= u) by (intros u Hu; apply Hts; now right).
  assert (Hr : replicate (2 ^ j) hist t = 2 ^ j * hist t) by reflexivity.
  rewrite !Hr, EwB, EsB. clear Hr.
  replace (2 ^ j * wB st + 2 ^ j * hist t) with (2 ^ j * (wB st + hist t)) by lia.
  replace (2 ^ j * total - 2 ^ j * (wB st + hist t))
    with (2 ^ j * (total - (wB st + hist t))) by lia.
  replace (2 ^ j * sumB st + t * (2 ^ j * hist t)) with (2 ^ j * (sumB st + t * hist t)) by lia.
  set (wb := wB st + hist t). set (wf := total - wb). set (sb := sumB st + t * hist t).
  destruct (Z.eqb_spec wb 0) as [E0|Hwb].
  - rewrite E0, Z.mul_0_r. cbn [Z.eqb].
    apply IH; cbn [wB sumB threshold varMax]; auto; lia.
  - destruct (Z.eqb_spec (2 ^ j * wb) 0) as [E|_]; [nia|].
    destruct (Z.eqb_spec wf 0) as [E0|Hwf].
    + rewrite E0, Z.mul_0_r. cbn [Z.eqb]. exact Eth.
    + destruct (Z.eqb_spec (2 ^ j * wf) 0) as [E|_]; [nia|].
      replace (2 ^ j * wf) with (2 ^ j * total - 2 ^ j * wb) by (unfold wf; lia).
      unfold wf.
      fold (Threshold.varBetweenOf (N := float) total sum sb wb).
      fold (Threshold.varBetweenOf (N := float)
              (2 ^ j * total) (2 ^ j * sum) (2 ^ j * sb) (2 ^ j * wb)).
      destruct (varBetweenOf_doubled j total sum sb wb) as (Ev & Rv & Nv);
        try (unfold wb, wf, sb in *; nia).
      set (v := Threshold.varBetweenOf (N := float) total sum sb wb) in *.
      set (v' := Threshold.varBetweenOf (N := float)
                   (2 ^ j * total) (2 ^ j * sum) (2 ^ j * sb) (2 ^ j * wb)) in *.
      assert (Hcmp : nltb (varMax st') v' = nltb (varMax st) v).
      { cbn [nltb Float64]. rewrite !FloatAxioms.ltb_spec, Ev.
        destruct Hmax as [[E1 E2]|(E2 & _ & _)].
        - rewrite E1, E2. change (Prim2SF (floatOfZ (-1))) with (S754_finite true 4503599627370496 (-52)).
          rewrite !SFltb_negative; [reflexivity | exact Nv | now rewrite nonnegSF_shiftE].
        - rewrite E2. apply SFltb_shiftE. }
      rewrite Hcmp.
      destruct (nltb (varMax st) v).
      * apply IH; cbn [wB sumB threshold varMax]; auto; try (unfold wb, sb; lia).
        right. split; [exact Ev|]. split; assumption.
      * apply IH; cbn [wB sumB threshold varMax]; auto; unfold wb, sb; lia.
Qed.

Lemma weightedSum_bounds (hist : Histogram) (ts : list Z) :
  (forall t, 0 <= hist t) -> (forall t, In t ts -> 0 <= t <= 255) ->
  0 <= sumOf (fun t => t * hist t) ts <= 255 * sumOf hist ts.
Proof.
  intros Hpos Hts. induction ts as [|t rest IH]; cbn [sumOf]; [lia|].
  assert (0 <= t <= 255) by (apply Hts; now left). pose proof (Hpos t).
  assert (0 <= sumOf (fun u => u * hist u) rest <= 255 * sumOf hist rest)
    by (apply IH; intros u Hu; apply Hts; now right).
  nia.
Qed.

Lemma otsuFromHistogram_doubled (hist : Histogram) (j : Z) :
  (forall t, 0 <= hist t) -> 0 <= j -> 255 * (2 ^ j * histogramTotal hist) < 2 ^ 53 ->
  otsuFromHistogram (N := float) (replicate (2 ^ j) hist)
    (histogramTotal (replicate (2 ^ j) hist))
  = otsuFromHistogram (N := float) hist (histogramTotal hist).
Proof.
  intros Hpos Hj Hlt. unfold otsuFromHistogram.
  assert (P2 : 0 < 2 ^ j) by (apply Z.pow_pos_nonneg; lia).
  rewrite histogramTotal_replicate.
  destruct (Z.leb_spec (histogramTotal hist) 0) as [Hle|Hgt];
    destruct (Z.leb_spec (2 ^ j * histogramTotal hist) 0) as [Hle'|Hgt'];
    try reflexivity; try nia.
  cbv zeta. rewrite weightedSum_replicate.
  assert (Et : histogramTotal hist = sumOf hist (range 0 256))
    by (unfold histogramTotal; rewrite fold_left_sumOf; lia).
  assert (Es : fold_left (fun s t => s + t * hist t) (range 0 256) 0
               = sumOf (fun t => t * hist t) (range 0 256))
    by (rewrite (fold_left_sumOf (fun t => t * hist t)); lia).
  pose proof (weightedSum_bounds hist (range 0 256) Hpos
                ltac:(intros t Ht; apply range_In in Ht; lia)) as Hb.
  apply otsuLoop_doubled; cbn [wB sumB threshold varMax]; auto; try lia.
  - intros t Ht. apply range_In in Ht. lia.
  - rewrite Es. nia.
  - left. split; reflexivity.
Qed.

(** C8, amended: in the arithmetic of the code the Otsu threshold is
    invariant under replication by a power of two: for every histogram of
    non-negative counts and every factor 2^j that keeps 255 times the number
    of pixels below 2^53, the threshold selected for the histogram with
    every bin count multiplied by 2^j is the one selected for the original.
    For a factor k that is not a power of two the rounded variances of tied
    candidates may compare differently; without rounding the threshold is
    the same for every positive k. *)
Theorem C8_replication_invariant (hist : Histogram) (j k : Z) :
  (forall t, 0 <= hist t) ->
  0 <= j -> 255 * (2 ^ j * histogramTotal hist) < 2 ^ 53 ->
  0 < k ->
  otsuFromHistogram (N := float) (replicate (2 ^ j) hist)
    (histogramTotal (replicate (2 ^ j) hist))
  = otsuFromHistogram (N := float) hist (histogramTotal hist)
  /\
  otsuFromHistogram (N := Q) (replicate k hist) (histogramTotal (replicate k hist))
  = otsuFromHistogram (N := Q) hist (histogramTotal hist).
Proof.
  intros Hpos Hj Hlt Hk. split.
  - now apply otsuFromHistogram_doubled.
  - unfold otsuFromHistogram.
    rewrite histogramTotal_replicate.
    destruct (Z.leb_spec (histogramTotal hist) 0) as [Hle|Hgt];
      destruct (Z.leb_spec (k * histogramTotal hist) 0) as [Hle'|Hgt'];
      try reflexivity; try nia.
    cbv zeta. rewrite weightedSum_replicate.
    apply otsuLoop_replicate; cbn [wB sumB threshold varMax]; auto; try lia.
    + left. split; reflexivity.
    + unfold histogramTotal. rewrite fold_left_sumOf. lia.
Qed.

Lemma threeLevels_nonneg (t : Z) : 0 <= threeLevels t.
Proof.
  unfold threeLevels.
  destruct (t =? 1); [lia|]. destruct (t =? 4); [lia|]. destruct (t =? 7); lia.
Qed.

Lemma C8_replication_invariant_witness :
  otsuFromHistogram (N := float) (replicate (2 ^ 2) threeLevels)
    (histogramTotal (replicate (2 ^ 2) threeLevels))
  = otsuFromHistogram (N := float) threeLevels (histogramTotal threeLevels)
  /\
  otsuFromHistogram (N := Q) (replicate 3 threeLevels)
    (histogramTotal (replicate 3 threeLevels))
  = otsuFromHistogram (N := Q) threeLevels (histogramTotal threeLevels).
Proof.
  apply (C8_replication_invariant threeLevels 2 3).
  - exact threeLevels_nonneg.
  - lia.
  - vm_compute. reflexivity.
  - lia.
Defined.

(** *** The histograms the code builds *)

(** NaN is contagious in the luminance, and [NaN | 0] is 0. *)
Lemma mul_nan_l (f : float) : (nan * f)%float = nan.
Proof.
  apply Prim2SF_inj. rewrite FloatAxioms.mul_spec.
  change (Prim2SF nan) with S754_nan. reflexivity.
Qed.

Lemma add_nan_l (f : float) : (nan + f)%float = nan.
Proof.
  apply Prim2SF_inj. rewrite FloatAxioms.add_spec.
  change (Prim2SF nan) with S754_nan. reflexivity.
Qed.

Lemma add_nan_r (f : float) : (f + nan)%float = nan.
Proof.
  apply Prim2SF_inj. rewrite FloatAxioms.add_spec.
  change (Prim2SF nan) with S754_nan. unfold SF64add, SFadd.
  destruct (Prim2SF f); reflexivity.
Qed.

Lemma channel_cases (d : list Z) (idx : Z) :
  channel d idx = nan \/ exists v, In v d /\ channel d idx = floatOfZ v.
Proof.
  unfold channel. destruct (idx <? 0); [now left|].
  destruct (nth_error d (Z.to_nat idx)) as [v|] eqn:E; [|now left].
  right. exists v. split; [eapply nth_error_In; eassumption | reflexivity].
Qed.

(** Whatever is read, in or outside the array, the gray value of byte data
    is a valid bin index. *)
Lemma grayAt_range (d : list Z) (idx : Z) :
  Forall (fun v => 0 <= v <= 255) d -> 0 <= grayAt d idx <= 255.
Proof.
  intros Hd. rewrite Forall_forall in Hd. unfold grayAt. cbv zeta.
  destruct (channel_cases d idx) as [Er|(r & Hr & Er)]; rewrite Er.
  { unfold luminance. rewrite mul_nan_l, !add_nan_l. vm_compute. split; discriminate. }
  destruct (channel_cases d (idx + 1)) as [Eg|(g & Hg & Eg)]; rewrite Eg.
  { unfold luminance. rewrite mul_nan_l, add_nan_r, add_nan_l.
    vm_compute. split; discriminate. }
  destruct (channel_cases d (idx + 2)) as [Eb|(b & Hb & Eb)]; rewrite Eb.
  { unfold luminance. rewrite mul_nan_l, add_nan_r. vm_compute. split; discriminate. }
  apply (grayOfBytes_bounds r g b); auto.
Qed.

Lemma sumOf_increment (hist : Histogram) (g lo : Z) (n : nat) :
  sumOf (increment hist g) (countFrom lo n)
  = sumOf hist (countFrom lo n) + (if (lo <=? g) && (g <? lo + Z.of_nat n) then 1 else 0).
Proof.
  revert lo; induction n as [|n IH]; intros lo; cbn [countFrom sumOf].
  - destruct (Z.leb_spec lo g), (Z.ltb_spec g (lo + Z.of_nat 0)); cbn; lia.
  - rewrite IH. unfold increment.
    destruct (Z.eqb_spec lo g), (Z.leb_spec lo g), (Z.leb_spec (lo + 1) g),
      (Z.ltb_spec g (lo + Z.of_nat (S n))), (Z.ltb_spec g (lo + 1 + Z.of_nat n));
      cbn [andb]; lia.
Qed.

Lemma counted_increment (acc : Histogram * Z) (g : Z) :
  0 <= g <= 255 -> counted acc -> counted (increment (fst acc) g, snd acc + 1).
Proof.
  intros Hg [Hpos Htot]. split; cbn [fst snd].
  - intros t. unfold increment. specialize (Hpos t). destruct (t =? g); lia.
  - unfold range. rewrite sumOf_increment. fold (range 0 256). rewrite Htot.
    change (Z.of_nat (Z.to_nat (256 - 0))) with 256.
    destruct (Z.leb_spec 0 g), (Z.ltb_spec g (0 + 256)); cbn [andb]; lia.
Qed.

Lemma countRect_counted (img : ImageData) (rect : Rect float) :
  Forall (fun v => 0 <= v <= 255) (data img) -> counted (countRect img rect).
Proof.
  intros Hd. unfold countRect. cbv zeta.
  generalize (range (toInt32 (y rect)) (toInt32 (y rect + h rect)%float)).
  generalize (range (toInt32 (x rect)) (toInt32 (x rect + w rect)%float)).
  intros cols rows.
  assert (H0 : counted (emptyHistogram, 0)).
  { split; [intros t; unfold emptyHistogram; cbn; lia | reflexivity]. }
  revert H0. generalize (emptyHistogram, 0).
  induction rows as [|py rows IH]; intros acc Hacc; cbn [fold_left]; [exact Hacc|].
  apply IH. clear IH. revert acc Hacc.
  induction cols as [|px cols IHc]; intros acc Hacc; cbn [fold_left]; [exact Hacc|].
  apply IHc. apply counted_increment; [apply grayAt_range, Hd | exact Hacc].
Qed.

(** Hence the exact-arithmetic threshold of any rect of a byte image is
    invariant under replication of its histogram. *)
Corollary rect_threshold_replication_exact (img : ImageData) (rect : Rect float) (k : Z) :
  Forall (fun v => 0 <= v <= 255) (data img) -> 0 < k ->
  let hist := fst (countRect img rect) in
  let total := snd (countRect img rect) in
  total = histogramTotal hist /\
  otsuFromHistogram (N := Q) (replicate k hist) (histogramTotal (replicate k hist))
  = otsuFromHistogram (N := Q) hist total.
Proof.
  intros Hd Hk hist total.
  destruct (countRect_counted img rect Hd) as [Hpos Htot]. fold hist total in Hpos, Htot.
  assert (E : total = histogramTotal hist).
  { unfold histogramTotal. rewrite fold_left_sumOf. lia. }
  split; [exact E|]. rewrite E.
  (* the statement for histograms *)
  unfold otsuFromHistogram.
  rewrite histogramTotal_replicate.
  destruct (Z.leb_spec (histogramTotal hist) 0) as [Hle|Hgt];
    destruct (Z.leb_spec (k * histogramTotal hist) 0) as [Hle'|Hgt'];
    try reflexivity; try nia.
  cbv zeta. rewrite weightedSum_replicate.
  apply otsuLoop_replicate; cbn [wB sumB threshold varMax]; auto; try lia.
  - left. split; reflexivity.
Qed.

(** *** 1-D clustering *)

Section ClusterFacts.
Context {N : Type} `{Division N}.

(** The cut of a non-empty list starts with a cluster that starts with the
    first value. *)
Lemma splitAtGaps_cons (d a : N) (l : list N) :
  exists g gs, splitAtGaps d (a :: l) = (a :: g) :: gs.
Proof.
  revert a; induction l as [|b l IH]; intros a.
  - exists [], []. reflexivity.
  - destruct (IH b) as (g & gs & E). cbn [splitAtGaps] in *. rewrite E.
    destruct (nleb (nsub b a) d); eauto.
Qed.

(** Cutting loses and reorders nothing. *)
Lemma splitAtGaps_concat (d : N) (l : list N) : concat (splitAtGaps d l) = l.
Proof.
  induction l as [|a l IH]; [reflexivity|].
  destruct l as [|b l]; [reflexivity|].
  destruct (splitAtGaps_cons d b l) as (g & gs & E).
  change (splitAtGaps d (a :: b :: l))
    with (match splitAtGaps d (b :: l) with
          | g :: gs => if nleb (nsub b a) d then (a :: g) :: gs else [a] :: g :: gs
          | [] => [[a]]
          end).
  rewrite E in *. destruct (nleb (nsub b a) d); cbn [concat app] in *; now rewrite IH.
Qed.

Lemma splitAtGaps_clusters (d : N) (l : list N) :
  Forall (linked d) (splitAtGaps d l) /\ separated d (splitAtGaps d l).
Proof.
  induction l as [|a l IH]; [split; constructor|].
  destruct l as [|b l]; [split; [repeat constructor | exact I]|].
  destruct (splitAtGaps_cons d b l) as (g & gs & E).
  change (splitAtGaps d (a :: b :: l))
    with (match splitAtGaps d (b :: l) with
          | g :: gs => if nleb (nsub b a) d then (a :: g) :: gs else [a] :: g :: gs
          | [] => [[a]]
          end).
  rewrite E in *. destruct IH as [IH1 IH2]. inversion IH1 as [|? ? Hg Hgs]; subst.
  destruct (nleb (nsub b a) d) eqn:Egap.
  - split.
    + constructor; [|assumption]. cbn [linked]. split; assumption.
    + destruct gs as [|[|c g2] gs']; cbn [separated] in *; auto.
  - split.
    + constructor; [exact I | assumption].
    + cbn [separated last]. split; assumption.
Qed.

(** The loop of [cluster1D], read against the cut of [prev :: rest]: the
    cluster under construction absorbs the rest of the first cluster. *)
Lemma clusterLoop_splitAtGaps (d : N) (rest : list N) (prev sum : N) (cnt : Z) :
  clusterLoop d rest prev sum cnt =
  match splitAtGaps d (prev :: rest) with
  | g :: gs =>
      ndiv (fold_left nadd (tl g) sum) (ofZ (cnt + Z.of_nat (length (tl g))))
      :: map mean gs
  | [] => []
  end.
Proof.
  revert prev sum cnt; induction rest as [|vi rest IH]; intros prev sum cnt.
  - cbn. now rewrite Z.add_0_r.
  - cbn [clusterLoop].
    change (splitAtGaps d (prev :: vi :: rest))
      with (match splitAtGaps d (vi :: rest) with
            | g :: gs => if nleb (nsub vi prev) d then (prev :: g) :: gs
                         else [prev] :: g :: gs
            | [] => [[prev]]
            end).
    rewrite !IH.
    destruct (splitAtGaps_cons d vi rest) as (g & gs & E). rewrite E.
    destruct (nleb (nsub vi prev) d); cbn [tl fold_left length map mean].
    + do 2 f_equal. f_equal. lia.
    + rewrite Z.add_0_r. do 2 f_equal. f_equal. f_equal. lia.
Qed.

(** The code computes what the specification describes. *)
Lemma cluster1D_clusterCenters (values : list N) (d : N) :
  cluster1D values d = clusterCenters values d.
Proof.
  unfold cluster1D, clusterCenters.
  destruct (sortAscending values) as [|v0 rest]; [reflexivity|].
  rewrite clusterLoop_splitAtGaps.
  destruct (splitAtGaps_cons d v0 rest) as (g & gs & E). rewrite E.
  cbn [tl map mean length]. do 2 f_equal. f_equal. lia.
Qed.

Lemma insertSorted_Permutation (a : N) (l : list N) :
  Permutation (a :: l) (insertSorted a l).
Proof.
  induction l as [|b l IH]; cbn [insertSorted]; [reflexivity|].
  destruct (nltb (ofZ 0) (nsub a b)); [|reflexivity].
  rewrite perm_swap. now constructor.
Qed.

Lemma sortAscending_Permutation (values : list N) :
  Permutation values (sortAscending values).
Proof.
  induction values as [|a l IH]; cbn [sortAscending fold_right]; [constructor|].
  rewrite <- insertSorted_Permutation. now constructor.
Qed.

End ClusterFacts.

(** On exact numbers the sort is ascending. *)
Lemma insertSorted_Sorted (a : Q) (l : list Q) :
  Sorted Qle l -> Sorted Qle (insertSorted a l).
Proof.
  induction l as [|b l IH]; intros Hs; cbn [insertSorted].
  - repeat constructor.
  - cbn [nltb nsub ofZ Exact].
    destruct (Qltb (inject_Z 0) (a - b)) eqn:E.
    + apply Qltb_lt in E. inversion Hs as [|? ? Hl Hb]; subst.
      constructor; [now apply IH|].
      destruct l as [|c l]; cbn [insertSorted].
      * constructor. unfold inject_Z in E. lra.
      * cbn [nltb nsub ofZ Exact]. destruct (Qltb (inject_Z 0) (a - c)).
        -- inversion Hb; subst. now constructor.
        -- constructor. unfold inject_Z in E. lra.
    + constructor; [assumption|]. constructor.
      destruct (Qlt_le_dec (inject_Z 0) (a - b)) as [Hlt|Hle].
      * apply Qltb_lt in Hlt. congruence.
      * unfold inject_Z in Hle. lra.
Qed.

Lemma sortAscending_Sorted (values : list Q) : Sorted Qle (sortAscending values).
Proof.
  induction values as [|a l IH]; cbn [sortAscending fold_right]; [constructor|].
  now apply insertSorted_Sorted.
Qed.

(** C7: [cluster1D] sorts the values ascending, cuts the sorted sequence
    wherever two neighbours are more than the merge distance apart (so that
    neighbours with gap <= mergeDist share a cluster) and returns the
    arithmetic mean of each cluster, in order; on [10, 11, 13, 50, 51] with
    merge distance 4 the result is exactly [(10+11+13)/3, 50.5]. *)
Theorem C7_cluster1D_means :
  (forall (values : list float) (d : float),
     cluster1D values d = map mean (splitAtGaps d (sortAscending values)) /\
     Permutation values (sortAscending values) /\
     concat (splitAtGaps d (sortAscending values)) = sortAscending values /\
     Forall (linked d) (splitAtGaps d (sortAscending values)) /\
     separated d (splitAtGaps d (sortAscending values))) /\
  (forall (values : list Q) (d : Q),
     cluster1D values d = map mean (splitAtGaps d (sortAscending values)) /\
     Permutation values (sortAscending values) /\
     Sorted Qle (sortAscending values) /\
     concat (splitAtGaps d (sortAscending values)) = sortAscending values /\
     Forall (linked d) (splitAtGaps d (sortAscending values)) /\
     separated d (splitAtGaps d (sortAscending values))) /\
  cluster1D [10; 11; 13; 50; 51]%float 4%float
    = [((10 + 11 + 13) / 3)%float; 50.5%float] /\
  cluster1D [51; 13; 10; 50; 11]%float 4%float
    = [((10 + 11 + 13) / 3)%float; 50.5%float] /\
  cluster1D [10; 11; 13; 50; 51]%Q 4%Q = [(34 # 3)%Q; (101 # 2)%Q].
Proof.
  split; [|split; [|split; [|split]]].
  - intros values d.
    pose proof (splitAtGaps_clusters d (sortAscending values)) as [L S].
    repeat split; auto using cluster1D_clusterCenters, sortAscending_Permutation,
      splitAtGaps_concat.
  - intros values d.
    pose proof (splitAtGaps_clusters d (sortAscending values)) as [L S].
    repeat split; auto using cluster1D_clusterCenters, sortAscending_Permutation,
      splitAtGaps_concat, sortAscending_Sorted.
  - vm_compute. reflexivity.
  - vm_compute. reflexivity.
  - vm_compute. reflexivity.
Qed.

End DetectFacts.

Module CalibrationFacts.
Import Calibration Binary64 Binary64Facts.

(** The source's control flow, read off the definition: the guard decides
    between the error and the mapper, and the mapper is the evaluation
    formula. *)
Lemma buildPixelToDataMapper_cases (args : Args) :
  buildPixelToDataMapper args =
  if nearZeroSpan (pxX1 args) (pxX2 args) || nearZeroSpan (pxY1 args) (pxY2 args)
  then Throw degenerateMessage
  else Ok (evaluation args).
Proof. reflexivity. Qed.

(** *** Finite doubles *)

Lemma is_finite_cases (f : float) :
  PrimFloat.is_finite f = true ->
  (exists s, Prim2SF f = S754_zero s) \/ (exists s m e, Prim2SF f = S754_finite s m e).
Proof.
  unfold PrimFloat.is_finite, PrimFloat.is_nan, PrimFloat.is_infinity.
  rewrite !FloatAxioms.eqb_spec, FloatAxioms.abs_spec.
  destruct (Prim2SF f) as [s| s | |s m e] eqn:E.
  - intros _. left. now exists s.
  - cbn. rewrite orb_true_r. discriminate.
  - cbn. discriminate.
  - intros _. right. now exists s, m, e.
Qed.

(** A finite double minus itself is [+0]. *)
Lemma sub_diag_finite (f : float) :
  PrimFloat.is_finite f = true -> (f - f)%float = 0%float.
Proof.
  intros Hf. apply Prim2SF_inj. rewrite FloatAxioms.sub_spec.
  change (Prim2SF 0) with (S754_zero false).
  destruct (is_finite_cases f Hf) as [[s E]|[s [m [e E]]]]; rewrite E.
  - destruct s; reflexivity.
  - unfold SF64sub, SFsub. rewrite Z.min_id, Z.sub_diag. reflexivity.
Qed.

Lemma sub_same_point (p : Point) :
  PrimFloat.is_finite (x p) = true -> PrimFloat.is_finite (y p) = true ->
  sub p p = {| x := 0; y := 0 |}.
Proof.
  intros Hx Hy. unfold sub. now rewrite (sub_diag_finite _ Hx), (sub_diag_finite _ Hy).
Qed.

Lemma nearZeroSpan_same_point (p : Point) :
  PrimFloat.is_finite (x p) = true -> PrimFloat.is_finite (y p) = true ->
  nearZeroSpan p p = true.
Proof.
  intros Hx Hy. unfold nearZeroSpan, projectedSpan, axisDirection.
  rewrite (sub_same_point p Hx Hy). vm_compute. reflexivity.
Qed.

(** C1: on the specification's calibration, [buildPixelToDataMapper] returns
    a mapper (it does not throw); that mapper is the evaluation formula
    map(p) = { X: x1 + sx.dot(p - pxX1, vx), Y: y1 + sy.dot(p - pxY1, vy) };
    and applied to (50, 50) it yields exactly X = 5 and Y = 0.5. *)
Theorem C1_calibration_round_trip :
  exists m : Point -> DataPoint,
    buildPixelToDataMapper exampleCalibration = Ok m /\
    m = evaluation exampleCalibration /\
    m {| x := 50; y := 50 |} = {| X := 5; Y := 0.5 |}.
Proof.
  exists (evaluation exampleCalibration). split; [|split].
  - rewrite buildPixelToDataMapper_cases.
    replace (nearZeroSpan (pxX1 exampleCalibration) (pxX2 exampleCalibration)) with false
      by (vm_compute; reflexivity).
    replace (nearZeroSpan (pxY1 exampleCalibration) (pxY2 exampleCalibration)) with false
      by (vm_compute; reflexivity).
    reflexivity.
  - reflexivity.
  - vm_compute. reflexivity.
Qed.

(** *** [Math.hypot] along an axis *)

Lemma abs_finite (a : float) (s : bool) (m : positive) (e : Z) :
  Prim2SF a = S754_finite s m e -> Prim2SF (PrimFloat.abs a) = S754_finite false m e.
Proof. intros E. now rewrite FloatAxioms.abs_spec, E. Qed.

Lemma abs_abs (a : float) : PrimFloat.abs (PrimFloat.abs a) = PrimFloat.abs a.
Proof.
  apply Prim2SF_inj. rewrite !FloatAxioms.abs_spec. now destruct (Prim2SF a).
Qed.

Lemma zero_ltb_abs (a : float) (s : bool) (m : positive) (e : Z) :
  Prim2SF a = S754_finite s m e -> (0 <? PrimFloat.abs a)%float = true.
Proof.
  intros E. rewrite FloatAxioms.ltb_spec, (abs_finite a s m e E). reflexivity.
Qed.

Lemma abs_ltb_zero (a : float) : (PrimFloat.abs a <? 0)%float = false.
Proof.
  rewrite FloatAxioms.ltb_spec, FloatAxioms.abs_spec.
  now destruct (Prim2SF a) as [s|s| |s m e].
Qed.

Lemma finite_is_nan (a : float) (s : bool) (m : positive) (e : Z) :
  Prim2SF a = S754_finite s m e -> PrimFloat.is_nan a = false.
Proof. intros E. now rewrite is_nan_SF, E. Qed.

Lemma abs_eqb_infinity (a : float) (s : bool) (m : positive) (e : Z) :
  Prim2SF a = S754_finite s m e -> (PrimFloat.abs a =? infinity)%float = false.
Proof. intros E. rewrite FloatAxioms.eqb_spec, (abs_finite a s m e E). reflexivity. Qed.

Lemma abs_eqb_zero (a : float) (s : bool) (m : positive) (e : Z) :
  Prim2SF a = S754_finite s m e -> (PrimFloat.abs a =? 0)%float = false.
Proof. intros E. rewrite FloatAxioms.eqb_spec, (abs_finite a s m e E). reflexivity. Qed.

Lemma abs_is_finite (a : float) (s : bool) (m : positive) (e : Z) :
  Prim2SF a = S754_finite s m e -> PrimFloat.is_finite (PrimFloat.abs a) = true.
Proof. intros E. now rewrite is_finite_SF, (abs_finite a s m e E). Qed.

(** Along an axis the norm is the absolute value, exactly. *)
Lemma hypot_along_x (a : float) (s : bool) (m : positive) (e : Z) :
  Prim2SF a = S754_finite s m e -> hypot a 0 = PrimFloat.abs a.
Proof.
  intros E. unfold hypot, hypotOf, largestMagnitude. cbn [fold_left existsb].
  rewrite (finite_is_nan a s m e E). change (PrimFloat.is_nan 0) with false.
  rewrite (zero_ltb_abs a s m e E). change (PrimFloat.abs 0) with 0%float.
  rewrite abs_ltb_zero, (abs_eqb_infinity a s m e E), (abs_eqb_zero a s m e E).
  cbn [orb]. unfold kahanStep. cbn [fst snd].
  change (PrimFloat.abs 0) with 0%float.
  rewrite (div_abs_abs a s m e E), (zero_div_abs a s m e E).
  match goal with
  | |- (?c * _)%float = _ => replace c with 1%float by (vm_compute; reflexivity)
  end.
  apply mul_one_l, (abs_is_finite a s m e E).
Qed.

Lemma hypot_along_y (b : float) (s : bool) (m : positive) (e : Z) :
  Prim2SF b = S754_finite s m e -> hypot 0 b = PrimFloat.abs b.
Proof.
  intros E. unfold hypot, hypotOf, largestMagnitude. cbn [fold_left existsb].
  rewrite (finite_is_nan b s m e E). change (PrimFloat.is_nan 0) with false.
  change (PrimFloat.abs 0) with 0%float. change (0 <? 0)%float with false.
  cbv beta iota. rewrite (zero_ltb_abs b s m e E).
  rewrite (abs_eqb_infinity b s m e E), (abs_eqb_zero b s m e E).
  cbn [orb]. unfold kahanStep. cbn [fst snd].
  change (PrimFloat.abs 0) with 0%float.
  rewrite (div_abs_abs b s m e E), (zero_div_abs b s m e E).
  match goal with
  | |- (?c * _)%float = _ => replace c with 1%float by (vm_compute; reflexivity)
  end.
  apply mul_one_l, (abs_is_finite b s m e E).
Qed.

(** The three shapes of a difference of finite doubles. *)
Lemma difference_cases (u v : float) :
  PrimFloat.is_finite u = true -> PrimFloat.is_finite v = true ->
  let a := (u - v)%float in
  (a = 0%float \/ a = (-0)%float) \/
  (exists s m e, Prim2SF a = S754_finite s m e) \/
  (a = infinity \/ a = neg_infinity).
Proof.
  intros Fu Fv a.
  assert (N : PrimFloat.is_nan a = false).
  { apply sub_not_nan; [exact Fu|]. rewrite is_finite_SF in Fv. rewrite is_nan_SF.
    now destruct (Prim2SF v). }
  rewrite is_nan_SF in N.
  destruct (Prim2SF a) as [s|s| |s m e] eqn:E; try discriminate.
  - left. destruct s; [right | left]; apply Prim2SF_inj; rewrite E; reflexivity.
  - right. right. destruct s; [right | left]; apply Prim2SF_inj; rewrite E; reflexivity.
  - right. left. eauto.
Qed.

Lemma mul_zero_r (b : float) (s : bool) (m : positive) (e : Z) :
  Prim2SF b = S754_finite s m e -> (0 + b * 0)%float = 0%float.
Proof.
  intros E. apply Prim2SF_inj.
  rewrite FloatAxioms.add_spec, FloatAxioms.mul_spec, E. now destruct s.
Qed.

(** *** Calibration axes along the pixel grid *)

(** The projected span of a horizontal axis is the difference of the x
    coordinates, and that of a vertical axis the difference of the y
    coordinates, as far as the guard of [buildPixelToDataMapper] can
    tell. *)
Lemma nearZeroSpan_horizontal (pA pB : Point) :
  PrimFloat.is_finite (x pA) = true -> PrimFloat.is_finite (x pB) = true ->
  PrimFloat.is_finite (y pA) = true -> y pB = y pA ->
  nearZeroSpan pA pB = (PrimFloat.abs (x pB - x pA) <? 1e-6)%float.
Proof.
  intros FxA FxB FyA Ey. unfold nearZeroSpan, projectedSpan, axisDirection, sub.
  rewrite Ey, (sub_diag_finite _ FyA).
  destruct (difference_cases (x pB) (x pA) FxB FxA) as [[Z|Z]|[(s & m & e & E)|[I|I]]];
    cbv zeta in *.
  - rewrite Z. vm_compute. reflexivity.
  - rewrite Z. vm_compute. reflexivity.
  - set (a := (x pB - x pA)%float) in *.
    unfold normalize, norm. cbn [x y]. rewrite (hypot_along_x a s m e E).
    destruct (PrimFloat.abs a <? 1e-9)%float eqn:L; unfold dot; cbn [x y].
    + rewrite (mul_one_r a) by (rewrite is_finite_SF, E; reflexivity).
      replace (0 * 0)%float with 0%float by (vm_compute; reflexivity).
      now rewrite (add_zero_r a s m e E).
    + rewrite (mul_own_sign a s m e E), (zero_div_abs a s m e E).
      replace (0 * 0)%float with 0%float by (vm_compute; reflexivity).
      rewrite (add_zero_r _ _ _ _ (abs_finite a s m e E)). now rewrite abs_abs.
  - rewrite I. vm_compute. reflexivity.
  - rewrite I. vm_compute. reflexivity.
Qed.

Lemma nearZeroSpan_vertical (pA pB : Point) :
  PrimFloat.is_finite (y pA) = true -> PrimFloat.is_finite (y pB) = true ->
  PrimFloat.is_finite (x pA) = true -> x pB = x pA ->
  nearZeroSpan pA pB = (PrimFloat.abs (y pB - y pA) <? 1e-6)%float.
Proof.
  intros FyA FyB FxA Ex. unfold nearZeroSpan, projectedSpan, axisDirection, sub.
  rewrite Ex, (sub_diag_finite _ FxA).
  destruct (difference_cases (y pB) (y pA) FyB FyA) as [[Z|Z]|[(s & m & e & E)|[I|I]]];
    cbv zeta in *.
  - rewrite Z. vm_compute. reflexivity.
  - rewrite Z. vm_compute. reflexivity.
  - set (b := (y pB - y pA)%float) in *.
    unfold normalize, norm. cbn [x y]. rewrite (hypot_along_y b s m e E).
    destruct (PrimFloat.abs b <? 1e-9)%float eqn:L; unfold dot; cbn [x y].
    + replace (0 * 1)%float with 0%float by (vm_compute; reflexivity).
      rewrite (mul_zero_r b s m e E).
      replace (PrimFloat.abs 0 <? 1e-6)%float with true by (vm_compute; reflexivity).
      symmetry. eapply ltb_trans; [exact L | vm_compute; reflexivity].
    + rewrite (mul_own_sign b s m e E), (zero_div_abs b s m e E).
      replace (0 * 0)%float with 0%float by (vm_compute; reflexivity).
      rewrite (add_zero_l _ _ _ _ (abs_finite b s m e E)). now rewrite abs_abs.
  - rewrite I. vm_compute. reflexivity.
  - rewrite I. vm_compute. reflexivity.
Qed.

(** A tilted axis: the span of (0,0)-(3,4) is 5, and the one of
    (0,0)-(3e-7,4e-7), half a millionth of a pixel long, is below the
    limit of a millionth. *)
Example nearZeroSpan_tilted :
  projectedSpan {| x := 0; y := 0 |} {| x := 3; y := 4 |} = 5%float /\
  nearZeroSpan {| x := 0; y := 0 |} {| x := 3; y := 4 |} = false /\
  nearZeroSpan {| x := 0; y := 0 |} {| x := 3e-7; y := 4e-7 |} = true.
Proof. vm_compute. repeat split; reflexivity. Qed.

(** [Math.hypot] scales before it squares: an axis 1e200 pixels long has
    that length, not an infinite one, and is accepted. *)
Example nearZeroSpan_huge :
  hypot 1e200 0 = 1e200%float /\
  nearZeroSpan {| x := 0; y := 0 |} {| x := 1e200; y := 0 |} = false.
Proof. vm_compute. split; reflexivity. Qed.

(** C2, as stated, fails where pxX1 = pxX2 has an infinite coordinate: the
    difference Infinity - Infinity is NaN, so is the projected span, the
    guard [Math.abs(denomX) < 1e-6] does not fire and a mapper is
    returned. *)
Lemma C2_coincident_points_at_infinity :
  let args := {| pxX1 := {| x := infinity; y := 0 |}; pxX2 := {| x := infinity; y := 0 |};
                 pxY1 := {| x := 0; y := 100 |}; pxY2 := {| x := 0; y := 0 |};
                 x1 := 0; x2 := 10; y1 := 0; y2 := 1 |} in
  pxX1 args = pxX2 args /\
  buildPixelToDataMapper args = Ok (evaluation args) /\
  PrimFloat.is_nan (projectedSpan (pxX1 args) (pxX2 args)) = true.
Proof.
  intros args. split; [reflexivity|]. split; [|vm_compute; reflexivity].
  rewrite buildPixelToDataMapper_cases.
  replace (nearZeroSpan (pxX1 args) (pxX2 args)) with false by (vm_compute; reflexivity).
  replace (nearZeroSpan (pxY1 args) (pxY2 args)) with false by (vm_compute; reflexivity).
  reflexivity.
Qed.

(** C2, amended: [buildPixelToDataMapper] throws the degenerate-calibration
    error, returning no mapper, exactly when the projected span of the X
    axis or of the Y axis along its own normalized direction is below 1e-6
    in absolute value, and returns a mapper when neither is; whatever the
    other inputs, it throws when pxX1 and pxX2 are the same point with
    finite coordinates; and for axes along the pixel grid (pxX1, pxX2 in one
    row and pxY1, pxY2 in one column, finite coordinates) the projected
    spans are the coordinate differences: it throws exactly when
    |pxX2.x - pxX1.x| < 1e-6 or |pxY2.y - pxY1.y| < 1e-6. *)
Theorem C2_degenerate_calibration :
  (forall args : Args,
     buildPixelToDataMapper args = Throw degenerateMessage <->
     (nearZeroSpan (pxX1 args) (pxX2 args) = true \/
      nearZeroSpan (pxY1 args) (pxY2 args) = true)) /\
  (forall args : Args,
     nearZeroSpan (pxX1 args) (pxX2 args) = false ->
     nearZeroSpan (pxY1 args) (pxY2 args) = false ->
     buildPixelToDataMapper args = Ok (evaluation args)) /\
  (forall (p pY1 pY2 : Point) (vx1 vx2 vy1 vy2 : float),
     PrimFloat.is_finite (x p) = true -> PrimFloat.is_finite (y p) = true ->
     buildPixelToDataMapper
       {| pxX1 := p; pxX2 := p; pxY1 := pY1; pxY2 := pY2;
          x1 := vx1; x2 := vx2; y1 := vy1; y2 := vy2 |}
     = Throw degenerateMessage) /\
  (forall args : Args,
     finiteArgs args ->
     y (pxX2 args) = y (pxX1 args) -> x (pxY2 args) = x (pxY1 args) ->
     (buildPixelToDataMapper args = Throw degenerateMessage <->
      ((PrimFloat.abs (x (pxX2 args) - x (pxX1 args)) <? 1e-6)%float = true \/
       (PrimFloat.abs (y (pxY2 args) - y (pxY1 args)) <? 1e-6)%float = true))).
Proof.
  assert (A : forall args : Args,
             buildPixelToDataMapper args = Throw degenerateMessage <->
             (nearZeroSpan (pxX1 args) (pxX2 args) = true \/
              nearZeroSpan (pxY1 args) (pxY2 args) = true)).
  { intros args. rewrite buildPixelToDataMapper_cases.
    destruct (nearZeroSpan (pxX1 args) (pxX2 args));
      destruct (nearZeroSpan (pxY1 args) (pxY2 args)); cbn;
      split; intros H; try reflexivity; try discriminate; auto;
      destruct H; discriminate. }
  split; [exact A|]. split; [|split].
  - intros args HX HY. rewrite buildPixelToDataMapper_cases, HX, HY. reflexivity.
  - intros p pY1 pY2 vx1 vx2 vy1 vy2 Hx Hy.
    rewrite buildPixelToDataMapper_cases. cbn [pxX1 pxX2].
    rewrite (nearZeroSpan_same_point p Hx Hy). reflexivity.
  - intros args F Ey Ex. unfold finiteArgs in F.
    inversion F as [|? ? [FX1x FX1y] F1]; subst. inversion F1 as [|? ? [FX2x FX2y] F2]; subst.
    inversion F2 as [|? ? [FY1x FY1y] F3]; subst. inversion F3 as [|? ? [FY2x FY2y] _]; subst.
    rewrite A.
    rewrite (nearZeroSpan_horizontal _ _ FX1x FX2x FX1y Ey).
    rewrite (nearZeroSpan_vertical _ _ FY1y FY2y FY1x Ex).
    reflexivity.
Qed.

(** Coincident points throw; on axes along the grid, a span of 0.0005
    pixels is accepted and one of 0.0000005 pixels is not. *)
Lemma C2_degenerate_calibration_witness :
  buildPixelToDataMapper
    {| pxX1 := {| x := 12.5; y := 40 |}; pxX2 := {| x := 12.5; y := 40 |};
       pxY1 := {| x := 0; y := 100 |}; pxY2 := {| x := 0; y := 0 |};
       x1 := 0; x2 := 10; y1 := 0; y2 := 1 |}
  = Throw degenerateMessage /\
  buildPixelToDataMapper
    {| pxX1 := {| x := 0; y := 0 |}; pxX2 := {| x := 0.0005; y := 0 |};
       pxY1 := {| x := 0; y := 100 |}; pxY2 := {| x := 0; y := 0 |};
       x1 := 0; x2 := 10; y1 := 0; y2 := 1 |}
  <> Throw degenerateMessage /\
  buildPixelToDataMapper
    {| pxX1 := {| x := 0; y := 0 |}; pxX2 := {| x := 0.0000005; y := 0 |};
       pxY1 := {| x := 0; y := 100 |}; pxY2 := {| x := 0; y := 0 |};
       x1 := 0; x2 := 10; y1 := 0; y2 := 1 |}
  = Throw degenerateMessage.
Proof.
  destruct C2_degenerate_calibration as (_ & _ & Same & Grid).
  split; [apply Same; reflexivity|]. split.
  - intros E. apply Grid in E.
    + destruct E as [E|E]; vm_compute in E; discriminate.
    + repeat constructor.
    + reflexivity.
    + reflexivity.
  - apply Grid.
    + repeat constructor.
    + reflexivity.
    + reflexivity.
    + left. vm_compute. reflexivity.
Defined.

End CalibrationFacts.

Module CurveFacts.
Import Detect Curve DetectFacts.

(** *** Choosing the closest run *)

(** The scan for the closest run, from any starting pair that records its
    own distance: the result records its own distance, is the start or
    comes from one of the runs, and is no farther than the start and than
    every run. *)
Lemma closest_fold (runs : list Run) (target : Q) (m : Mode) (best0 : Q * Q) :
  snd best0 = Qabs (fst best0 - target) ->
  let best :=
    fold_left
      (fun best run =>
         let py := runRepresentativeY run m in
         let d := Qabs (py - target) in
         if Qltb d (snd best) then (py, d) else best)
      runs best0 in
  snd best = Qabs (fst best - target) /\
  (best = best0 \/ exists run, In run runs /\ fst best = runRepresentativeY run m) /\
  (snd best <= snd best0)%Q /\
  (forall run, In run runs -> (snd best <= Qabs (runRepresentativeY run m - target))%Q).
Proof.
  revert best0; induction runs as [|run runs IH]; intros best0 H0; cbn [fold_left].
  - repeat split; auto; try lra. intros run [].
  - cbv zeta.
    destruct (Qltb (Qabs (runRepresentativeY run m - target)) (snd best0)) eqn:E.
    + apply Qltb_lt in E.
      destruct (IH (runRepresentativeY run m, Qabs (runRepresentativeY run m - target))
                  eq_refl) as (I1 & I2 & I3 & I4).
      cbv zeta in I1, I2, I3, I4. cbn [fst snd] in I3.
      split; [exact I1|]. split; [|split].
      * right. destruct I2 as [->|(r' & Hin & Er)].
        -- exists run. split; [now left | reflexivity].
        -- exists r'. split; [now right | exact Er].
      * lra.
      * intros r' [<-|Hin]; [exact I3 | now apply I4].
    + destruct (IH best0 H0) as (I1 & I2 & I3 & I4).
      cbv zeta in I1, I2, I3, I4.
      assert (Hge : (snd best0 <= Qabs (runRepresentativeY run m - target))%Q).
      { destruct (Qlt_le_dec (Qabs (runRepresentativeY run m - target)) (snd best0))
          as [Hlt|Hle]; [|exact Hle].
        apply Qltb_lt in Hlt. congruence. }
      split; [exact I1|]. split; [|split].
      * destruct I2 as [->|(r' & Hin & Er)]; [now left|].
        right. exists r'. split; [now right | exact Er].
      * exact I3.
      * intros r' [<-|Hin]; [lra | now apply I4].
Qed.

Lemma closestRun_spec (first : Run) (rest : list Run) (target : Q) (m : Mode) :
  let best := closestRun (first :: rest) first target m in
  snd best = Qabs (fst best - target) /\
  (exists run, In run (first :: rest) /\ fst best = runRepresentativeY run m) /\
  (forall run, In run (first :: rest) ->
               (snd best <= Qabs (runRepresentativeY run m - target))%Q).
Proof.
  unfold closestRun. cbv zeta.
  destruct (closest_fold (first :: rest) target m
              (runRepresentativeY first m, Qabs (runRepresentativeY first m - target))
              eq_refl) as (I1 & I2 & _ & I4).
  cbv zeta in I1, I2, I4.
  split; [exact I1|]. split; [|exact I4].
  destruct I2 as [->|I2]; [|exact I2].
  exists first. split; [now left | reflexivity].
Qed.

Lemma chooseNextY_predicted (runs : list Run) (yPrev : Q) (yPrev2 : option Q)
    (m : Mode) (jump : Q) :
  chooseNextY runs yPrev yPrev2 m jump =
  match runs with
  | [] => None
  | first :: _ =>
      let best := closestRun runs first (predictedY yPrev yPrev2) m in
      if Qltb jump (snd best) then None else Some (fst best)
  end.
Proof. reflexivity. Qed.

(** A chosen y is the representative of a run of the column, the closest
    one to the prediction, and within the jump limit. *)
Lemma chooseNextY_Some (runs : list Run) (yPrev : Q) (yPrev2 : option Q)
    (m : Mode) (jump yNext : Q) :
  chooseNextY runs yPrev yPrev2 m jump = Some yNext ->
  (exists run, In run runs /\ yNext = runRepresentativeY run m) /\
  (forall run, In run runs ->
     (Qabs (yNext - predictedY yPrev yPrev2)
      <= Qabs (runRepresentativeY run m - predictedY yPrev yPrev2))%Q) /\
  (Qabs (yNext - predictedY yPrev yPrev2) <= jump)%Q.
Proof.
  rewrite chooseNextY_predicted. destruct runs as [|first rest]; [discriminate|].
  cbv zeta.
  destruct (closestRun_spec first rest (predictedY yPrev yPrev2) m) as (I1 & I2 & I3).
  cbv zeta in I1, I2, I3.
  destruct (Qltb jump (snd (closestRun (first :: rest) first (predictedY yPrev yPrev2) m)))
    eqn:E; [discriminate|].
  intros [= <-]. rewrite <- I1. split; [exact I2|]. split; [exact I3|].
  destruct (Qlt_le_dec jump
              (snd (closestRun (first :: rest) first (predictedY yPrev yPrev2) m)))
    as [Hlt|Hle]; [|exact Hle].
  apply Qltb_lt in Hlt. congruence.
Qed.

(** No y is chosen exactly when the column has no run or even its closest
    run is farther from the prediction than the jump limit. *)
Lemma chooseNextY_None (runs : list Run) (yPrev : Q) (yPrev2 : option Q)
    (m : Mode) (jump : Q) :
  chooseNextY runs yPrev yPrev2 m jump = None <->
  (forall run, In run runs ->
     (jump < Qabs (runRepresentativeY run m - predictedY yPrev yPrev2))%Q).
Proof.
  rewrite chooseNextY_predicted. destruct runs as [|first rest].
  - split; [intros _ run [] | reflexivity].
  - cbv zeta.
    destruct (closestRun_spec first rest (predictedY yPrev yPrev2) m) as (I1 & I2 & I3).
    cbv zeta in I1, I2, I3.
    destruct (Qltb jump (snd (closestRun (first :: rest) first (predictedY yPrev yPrev2) m)))
      eqn:E.
    + apply Qltb_lt in E. split; [|reflexivity].
      intros _ run Hin. specialize (I3 run Hin). lra.
    + split; [discriminate|]. intros Hall.
      destruct I2 as (run & Hin & Er). specialize (Hall run Hin).
      rewrite <- Er, <- I1 in Hall. apply Qltb_lt in Hall. congruence.
Qed.

(** *** The columns of a trace *)

Lemma traceLoop_unfold (args : TraceArgs) (fuel : nat) (dir px : Z) (yPrev : Q)
    (yPrev2 : option Q) :
  traceLoop args (S fuel) dir px yPrev yPrev2 =
  if (px + dir <? 0) || (width (roi args) <=? px + dir)
  then Some [{| x := inject_Z px; y := yPrev |}]
  else
    match chooseNextY (findRunsInColumn args (px + dir)) yPrev yPrev2
                      (mode args) (maxJump args) with
    | None => Some [{| x := inject_Z px; y := yPrev |}]
    | Some yNext =>
        option_map (cons {| x := inject_Z px; y := yPrev |})
                   (traceLoop args fuel dir (px + dir) yNext (Some yPrev))
    end.
Proof. reflexivity. Qed.

(** A trace starts at the point it is started from and then visits
    consecutive columns, one step of [dir] at a time. *)
Lemma traceLoop_columns (args : TraceArgs) (fuel : nat) (dir px : Z) (yPrev : Q)
    (yPrev2 : option Q) (pts : list Point) :
  traceLoop args fuel dir px yPrev yPrev2 = Some pts ->
  hd_error pts = Some {| x := inject_Z px; y := yPrev |} /\
  map x pts = map inject_Z (columnsFrom px dir (length pts)).
Proof.
  revert px yPrev yPrev2 pts; induction fuel as [|fuel IH];
    intros px yPrev yPrev2 pts; [discriminate|].
  rewrite traceLoop_unfold.
  destruct ((px + dir <? 0) || (width (roi args) <=? px + dir)).
  - intros [= <-]. split; reflexivity.
  - destruct (chooseNextY _ _ _ _ _) as [yNext|].
    + destruct (traceLoop args fuel dir (px + dir) yNext (Some yPrev)) as [rest|] eqn:E;
        [|discriminate].
      intros [= <-]. destruct (IH _ _ _ _ E) as [_ Hc].
      split; [reflexivity|]. cbn [map length columnsFrom x]. now rewrite Hc.
    + intros [= <-]. split; reflexivity.
Qed.

(** The loop of [traceDir] emits what jump-limited tracing prescribes. *)
Lemma traceLoop_Traced (args : TraceArgs) (fuel : nat) (dir px : Z) (yPrev : Q)
    (yPrev2 : option Q) (pts : list Point) :
  traceLoop args fuel dir px yPrev yPrev2 = Some pts ->
  Traced args dir px yPrev yPrev2 pts.
Proof.
  revert px yPrev yPrev2 pts; induction fuel as [|fuel IH];
    intros px yPrev yPrev2 pts; [discriminate|].
  rewrite traceLoop_unfold.
  destruct (Z.ltb_spec (px + dir) 0) as [Hlo|Hlo]; cbn [orb].
  { intros [= <-]. apply traced_edge. now left. }
  destruct (Z.leb_spec (width (roi args)) (px + dir)) as [Hhi|Hhi].
  { intros [= <-]. apply traced_edge. now right. }
  destruct (chooseNextY (findRunsInColumn args (px + dir)) yPrev yPrev2
                        (mode args) (maxJump args)) as [yNext|] eqn:E.
  - destruct (traceLoop args fuel dir (px + dir) yNext (Some yPrev)) as [rest|] eqn:ER;
      [|discriminate].
    intros [= <-]. destruct (chooseNextY_Some _ _ _ _ _ _ E) as (H1 & H2 & H3).
    apply traced_step with (yNext := yNext); auto.
  - intros [= <-]. apply traced_stop; [lia|]. now apply chooseNextY_None.
Qed.

(** The loop ends before the fuel does. *)
Lemma traceLoop_terminates (args : TraceArgs) (fuel : nat) (dir px : Z) (yPrev : Q)
    (yPrev2 : option Q) :
  (dir = 1 /\ px < width (roi args) /\ width (roi args) - px <= Z.of_nat fuel) \/
  (dir = -1 /\ 0 <= px /\ px + 1 <= Z.of_nat fuel) ->
  exists pts, traceLoop args fuel dir px yPrev yPrev2 = Some pts.
Proof.
  revert px yPrev yPrev2; induction fuel as [|fuel IH]; intros px yPrev yPrev2 Hm.
  - exfalso. cbn in Hm. lia.
  - rewrite traceLoop_unfold.
    destruct (Z.ltb_spec (px + dir) 0) as [Hlo|Hlo]; cbn [orb]; [eauto|].
    destruct (Z.leb_spec (width (roi args)) (px + dir)) as [Hhi|Hhi]; [eauto|].
    destruct (chooseNextY _ _ _ _ _) as [yNext|]; [|eauto].
    destruct (IH (px + dir) yNext (Some yPrev)) as [rest E]; [lia|].
    rewrite E. cbn. eauto.
Qed.

Lemma columnsFrom_up (px : Z) (n : nat) : columnsFrom px 1 n = countFrom px n.
Proof. revert px; induction n as [|n IH]; intros px; cbn; [reflexivity | now rewrite IH]. Qed.

Lemma countFrom_app (lo : Z) (n k : nat) :
  countFrom lo n ++ countFrom (lo + Z.of_nat n) k = countFrom lo (n + k).
Proof.
  revert lo; induction n as [|n IH]; intros lo.
  - cbn [countFrom app Nat.add]. f_equal. cbn. lia.
  - cbn [countFrom app Nat.add]. f_equal. rewrite <- IH. do 2 f_equal. lia.
Qed.

Lemma columnsFrom_down (px : Z) (n : nat) :
  rev (columnsFrom px (-1) n) = countFrom (px - Z.of_nat n + 1) n.
Proof.
  revert px; induction n as [|n IH]; intros px; [reflexivity|].
  cbn [columnsFrom rev]. rewrite IH.
  replace [px] with (countFrom (px + -1 - Z.of_nat n + 1 + Z.of_nat n) 1)
    by (cbn; f_equal; lia).
  rewrite countFrom_app. replace (n + 1)%nat with (S n) by lia.
  f_equal. lia.
Qed.

Lemma countFrom_sorted (lo : Z) (n : nat) : StronglySorted Z.lt (countFrom lo n).
Proof.
  revert lo; induction n as [|n IH]; intros lo; cbn [countFrom]; constructor; [apply IH|].
  apply Forall_forall. intros q Hq. apply countFrom_In in Hq. lia.
Qed.

Lemma increasing_columns (pts : list Point) (cols : list Z) :
  map x pts = map inject_Z cols -> StronglySorted Z.lt cols ->
  StronglySorted (fun p q => (x p < x q)%Q) pts.
Proof.
  revert cols; induction pts as [|p pts IH]; intros [|c cols] E Hs;
    try discriminate; [constructor|].
  cbn [map] in E. injection E as Ep Erest.
  inversion Hs as [|? ? Hs' Hall]; subst.
  constructor; [now apply (IH cols)|].
  apply Forall_forall. intros q Hq.
  apply (in_map x) in Hq. rewrite Erest in Hq. apply in_map_iff in Hq as (c' & Ec & Hin).
  rewrite Forall_forall in Hall. specialize (Hall c' Hin).
  rewrite Ep, <- Ec. now rewrite <- Zlt_Qlt.
Qed.

(** *** The tracer on a sample image *)

(** The run of rows 2..3 is represented by 2.5, or by 2 in "median" mode. *)
Example runRepresentativeY_modes :
  (runRepresentativeY {| ymin := 2; ymax := 3 |} centerline == 5 # 2)%Q /\
  (runRepresentativeY {| ymin := 2; ymax := 3 |} median == 2)%Q.
Proof. split; reflexivity. Qed.

(** Column 2 of the sample image holds one run, column 4 another. *)
Example findRunsInColumn_sample :
  findRunsInColumn (sampleTrace 1) 2 = [{| ymin := 2; ymax := 3 |}] /\
  findRunsInColumn (sampleTrace 1) 4 = [{| ymin := 5; ymax := 5 |}].
Proof. vm_compute. split; reflexivity. Qed.

(** With a jump limit of 1 the rightward trace stops at column 3: the only
    run of column 4 is 1.5 away from the predicted 3.5. *)
Example trace_stops_at_jump :
  reduced (traceCurveWithSeeds (sampleTrace 1))
  = Some [(0, 2); (1, 2); (2, 5 # 2); (3, 3)]%Q.
Proof. vm_compute. reflexivity. Qed.

(** With a jump limit of 2 the same run is accepted. *)
Example trace_follows_within_limit :
  reduced (traceCurveWithSeeds (sampleTrace 2))
  = Some [(0, 2); (1, 2); (2, 5 # 2); (3, 3); (4, 5)]%Q.
Proof. vm_compute. reflexivity. Qed.

(** *** The two claims about tracing *)

(** C5: at each step of a directional trace the next point lies in the
    adjacent column, at the representative y of the run closest to the
    predicted y (yPrev + (yPrev - yPrev2), or yPrev before a second prior
    point exists); that run is within [maxJump] of the prediction.  If even
    the closest run is farther than [maxJump] (or the column has no run) no
    y is chosen and the trace in that direction ends at the current point:
    it emits nothing further, skips no column and never steps back. *)
Theorem C5_jump_limited_tracing :
  (forall runs yPrev yPrev2 m jump yNext,
     chooseNextY runs yPrev yPrev2 m jump = Some yNext ->
     (exists run, In run runs /\ yNext = runRepresentativeY run m) /\
     (forall run, In run runs ->
        (Qabs (yNext - predictedY yPrev yPrev2)
         <= Qabs (runRepresentativeY run m - predictedY yPrev yPrev2))%Q) /\
     (Qabs (yNext - predictedY yPrev yPrev2) <= jump)%Q) /\
  (forall runs yPrev yPrev2 m jump,
     chooseNextY runs yPrev yPrev2 m jump = None <->
     (forall run, In run runs ->
        (jump < Qabs (runRepresentativeY run m - predictedY yPrev yPrev2))%Q)) /\
  (forall args fuel dir px yPrev yPrev2,
     0 <= px + dir < width (roi args) ->
     match chooseNextY (findRunsInColumn args (px + dir)) yPrev yPrev2
                       (mode args) (maxJump args) with
     | None =>
         traceLoop args (S fuel) dir px yPrev yPrev2
         = Some [{| x := inject_Z px; y := yPrev |}]
     | Some yNext =>
         traceLoop args (S fuel) dir px yPrev yPrev2
         = option_map (cons {| x := inject_Z px; y := yPrev |})
                      (traceLoop args fuel dir (px + dir) yNext (Some yPrev))
     end) /\
  (forall args x0 y0 dir pts,
     traceDir args x0 y0 dir = Some pts ->
     Traced args dir x0 y0 None pts /\
     hd_error pts = Some {| x := inject_Z x0; y := y0 |} /\
     map x pts = map inject_Z (columnsFrom x0 dir (length pts))).
Proof.
  split; [|split; [|split]].
  - exact chooseNextY_Some.
  - exact chooseNextY_None.
  - intros args fuel dir px yPrev yPrev2 Hin.
    rewrite traceLoop_unfold.
    destruct (Z.ltb_spec (px + dir) 0); [lia|].
    destruct (Z.leb_spec (width (roi args)) (px + dir)); [lia|].
    cbn [orb]. destruct (chooseNextY _ _ _ _ _); reflexivity.
  - intros args x0 y0 dir pts. unfold traceDir. intros E. split.
    + exact (traceLoop_Traced _ _ _ _ _ _ _ E).
    + exact (traceLoop_columns _ _ _ _ _ _ _ E).
Qed.

Lemma clamp_range (v lo hi : Z) : lo <= hi -> lo <= clamp v lo hi <= hi.
Proof. unfold clamp. lia. Qed.



End CurveFacts.

(* ================================================================== *)
(** * Part II, continued: the rest of the code                         *)
(* ================================================================== *)

Module RunFacts.
Import Detect Curve Runs DetectFacts CurveFacts.

(** *** The runs of a column *)

Lemma separatedRuns_weaken (a b : Z) (runs : list Run) :
  a <= b -> separatedRuns b runs -> separatedRuns a runs.
Proof. destruct runs as [|run rest]; cbn; [auto | intuition lia]. Qed.

Lemma covers_cons (run : Run) (rest : list Run) (py : Z) :
  covers (run :: rest) py <-> ymin run <= py <= ymax run \/ covers rest py.
Proof.
  unfold covers. split.
  - intros (r & [<-|Hin] & Hr); [now left | right; eauto].
  - intros [Hr|(r & Hin & Hr)]; [exists run | exists r]; cbn; auto.
Qed.

Lemma separatedRuns_above (from : Z) (runs : list Run) (py : Z) :
  separatedRuns from runs -> covers runs py -> from <= py.
Proof.
  revert from; induction runs as [|run rest IH]; intros from Hs (r & Hin & Hr);
    [destruct Hin|].
  cbn in Hs. destruct Hs as (H1 & H2 & H3). destruct Hin as [<-|Hin]; [lia|].
  assert (ymax run + 2 <= py) by (apply (IH _ H3); exists r; auto). lia.
Qed.

Lemma separatedRuns_bounds (from : Z) (runs : list Run) (run : Run) :
  separatedRuns from runs -> In run runs -> from <= ymin run <= ymax run.
Proof.
  revert from; induction runs as [|r0 rest IH]; intros from Hs Hin; [destruct Hin|].
  cbn in Hs. destruct Hs as (H1 & H2 & H3). destruct Hin as [<-|Hin]; [lia|].
  specialize (IH _ H3 Hin). lia.
Qed.

(** The row loop over the rows [lo .. lo+n-1], entered outside a run or
    inside a run opened at [runStart < lo]. *)
Lemma scanRows_spec (ok : Z -> bool) (n : nat) (lo runStart : Z) (inRun : bool) :
  (inRun = true -> runStart < lo) ->
  let bottom := lo + Z.of_nat n - 1 in
  let runs := scanRows ok bottom (countFrom lo n) inRun runStart in
  Forall (fun run => ymax run <= bottom) runs /\
  (forall py, lo <= py <= bottom -> (ok py = true <-> covers runs py)) /\
  (if inRun
   then exists e rest, runs = {| ymin := runStart; ymax := e |} :: rest /\
                       lo - 1 <= e /\ separatedRuns (e + 2) rest
   else separatedRuns lo runs).
Proof.
  revert lo runStart inRun; induction n as [|n IH];
    intros lo runStart inRun Hopen bottom runs.
  - subst runs bottom. cbn [countFrom scanRows]. destruct inRun.
    + split; [repeat constructor; cbn; lia|]. split; [intros py Hpy; lia|].
      exists (lo + Z.of_nat 0 - 1), []. cbn. repeat split; lia.
    + split; [constructor|]. split; [intros py Hpy; lia | exact I].
  - assert (Eb : bottom = (lo + 1) + Z.of_nat n - 1) by (subst bottom; lia).
    subst runs. cbn [countFrom scanRows]. rewrite Eb.
    destruct (ok lo) eqn:Eok; destruct inRun.
    + (* inside a run, the row matches *)
      destruct (IH (lo + 1) runStart true) as (B & C & e & rest & E & He & Hs);
        [intros _; specialize (Hopen eq_refl); lia|].
      specialize (Hopen eq_refl).
      split; [exact B|]. split.
      * intros py Hpy. destruct (Z.eq_dec py lo) as [->|Hne]; [|apply C; lia].
        split; [intros _|intros _; exact Eok].
        rewrite E. apply covers_cons. left. cbn. lia.
      * exists e, rest. repeat split; auto. lia.
    + (* outside a run, the row matches: a run opens here *)
      destruct (IH (lo + 1) lo true) as (B & C & e & rest & E & He & Hs); [lia|].
      split; [exact B|]. split.
      * intros py Hpy. destruct (Z.eq_dec py lo) as [->|Hne]; [|apply C; lia].
        split; [intros _|intros _; exact Eok].
        rewrite E. apply covers_cons. left. cbn. lia.
      * rewrite E. cbn. repeat split; auto; lia.
    + (* inside a run, the row does not match: the run closes above it *)
      destruct (IH (lo + 1) runStart false) as (B & C & Hs); [discriminate|].
      specialize (Hopen eq_refl).
      split; [constructor; [cbn; lia | exact B]|]. split.
      * intros py Hpy. rewrite covers_cons. cbn [ymin ymax].
        destruct (Z.eq_dec py lo) as [->|Hne].
        -- split; [congruence|]. intros [Hc|Hc]; [lia|].
           pose proof (separatedRuns_above _ _ _ Hs Hc). lia.
        -- rewrite (C py) by lia. split; [auto|]. intros [Hc|Hc]; [lia | exact Hc].
      * exists (lo - 1), (scanRows ok (lo + 1 + Z.of_nat n - 1) (countFrom (lo + 1) n)
                                   false runStart).
        repeat split; [lia|]. replace (lo - 1 + 2) with (lo + 1) by lia. exact Hs.
    + (* outside a run, the row does not match *)
      destruct (IH (lo + 1) runStart false) as (B & C & Hs); [discriminate|].
      split; [exact B|]. split.
      * intros py Hpy. destruct (Z.eq_dec py lo) as [->|Hne]; [|apply C; lia].
        split; [congruence|]. intros Hc.
        pose proof (separatedRuns_above _ _ _ Hs Hc). lia.
      * apply (separatedRuns_weaken lo (lo + 1)); [lia | exact Hs].
Qed.

(** The runs of a column, read off the row loop. *)
Lemma findRunsInColumn_runs (args : TraceArgs) (px : Z) :
  let runs := findRunsInColumn args px in
  separatedRuns 0 runs /\
  Forall (fun run => ymax run <= height (roi args) - 1) runs /\
  (forall py, 0 <= py < height (roi args) ->
     (pixelMatches args px py = true <-> covers runs py)).
Proof.
  unfold findRunsInColumn, range. cbv zeta.
  destruct (Z.le_gt_cases 0 (height (roi args))) as [HH|HH].
  - pose proof (scanRows_spec (pixelMatches args px) (Z.to_nat (height (roi args) - 0))
                  0 0 false) as S.
    cbv zeta in S.
    replace (0 + Z.of_nat (Z.to_nat (height (roi args) - 0)) - 1)
      with (height (roi args) - 1) in S by lia.
    destruct S as (B & C & Hs); [discriminate|].
    split; [exact Hs|]. split; [exact B|]. intros py Hpy. apply C. lia.
  - replace (Z.to_nat (height (roi args) - 0)) with 0%nat by lia. cbn.
    split; [exact I|]. split; [constructor|]. intros py Hpy. lia.
Qed.

(** X1: the runs [findRunsInColumn] returns for a column are its maximal
    vertical stretches of matching pixels: listed from top to bottom, each
    non-empty and inside the image, two consecutive runs separated by at
    least one row, and a row of the image lies in some run exactly when its
    pixel matches (it is not blacklisted and the distance of its colour to
    the picked colour is not at least the threshold). *)
Theorem X1_findRunsInColumn_maximal_runs (args : TraceArgs) (px : Z) :
  let runs := findRunsInColumn args px in
  separatedRuns 0 runs /\
  Forall (fun run => ymax run <= height (roi args) - 1) runs /\
  (forall py, 0 <= py < height (roi args) ->
     (pixelMatches args px py = true <-> covers runs py)).
Proof. exact (findRunsInColumn_runs args px). Qed.

(** A run of a column lies inside the image and all its rows match. *)
Lemma findRunsInColumn_In (args : TraceArgs) (px : Z) (run : Run) :
  In run (findRunsInColumn args px) ->
  0 <= ymin run <= ymax run /\ ymax run <= height (roi args) - 1 /\
  (forall py, ymin run <= py <= ymax run -> pixelMatches args px py = true).
Proof.
  intros Hin. destruct (findRunsInColumn_runs args px) as (Hs & B & C).
  pose proof (separatedRuns_bounds _ _ _ Hs Hin) as Hb.
  rewrite Forall_forall in B. specialize (B run Hin). cbv beta in B.
  split; [exact Hb|]. split; [exact B|].
  intros py Hpy. apply C; [lia|]. exists run. auto.
Qed.

(** A column without runs has no matching row. *)
Lemma findRunsInColumn_nil (args : TraceArgs) (px : Z) :
  findRunsInColumn args px = [] <->
  (forall py, 0 <= py < height (roi args) -> pixelMatches args px py = false).
Proof.
  destruct (findRunsInColumn_runs args px) as (Hs & B & C). split.
  - intros E py Hpy. destruct (pixelMatches args px py) eqn:Em; [|reflexivity].
    apply C in Em; [|exact Hpy]. rewrite E in Em. destruct Em as (r & [] & _).
  - intros Hno. destruct (findRunsInColumn args px) as [|run rest] eqn:E; [reflexivity|].
    exfalso.
    assert (Hin : In run (findRunsInColumn args px)) by (rewrite E; now left).
    destruct (findRunsInColumn_In args px run Hin) as (Hb & Ht & Hm).
    specialize (Hm (ymin run)). specialize (Hno (ymin run)).
    rewrite Hno in Hm by lia. discriminate Hm. lia.
Qed.

(** *** The representative row of a run *)



(** *** The first point of a trace *)

Lemma chooseInitialY_None (runs : list Run) (seedY : Q) (m : Mode) :
  chooseInitialY runs seedY m = None <-> runs = [].
Proof. destruct runs; cbn; split; congruence. Qed.


(** *** The points of a trace *)



(** *** Sorting the seeds *)

Lemma insertSeed_length (s : Point) (l : list Point) :
  length (insertSeed s l) = S (length l).
Proof.
  induction l as [|t rest IH]; [reflexivity|].
  cbn [insertSeed]. destruct (Qltb 0 (x s - x t)); cbn [length]; congruence.
Qed.

Lemma sortSeeds_length (l : list Point) : length (sortSeeds l) = length l.
Proof.
  induction l as [|s rest IH]; [reflexivity|].
  cbn [sortSeeds fold_right]. fold (sortSeeds rest).
  rewrite insertSeed_length. cbn [length]. congruence.
Qed.

(** *** The shape of a trace *)

(** Either the trace is empty, for one of four reasons, or it is the
    merge of the two directional traces started in the origin column at the
    run closest to the middle seed. *)
Lemma traceCurveWithSeeds_shape (args : TraceArgs) :
  (traceCurveWithSeeds args = Some [] /\
   (width (roi args) <= 0 \/ height (roi args) <= 0 \/
    (length (seeds args) < 3)%nat \/
    exists sMid, nth_error (sortSeeds (seeds args)) 1 = Some sMid /\
                 findRunsInColumn args (originColumn args sMid) = [])) \/
  (exists sMid y0 leftPts rightPts,
     0 < width (roi args) /\ 0 < height (roi args) /\
     (3 <= length (seeds args))%nat /\
     nth_error (sortSeeds (seeds args)) 1 = Some sMid /\
     chooseInitialY (findRunsInColumn args (originColumn args sMid)) (y sMid) (mode args)
     = Some y0 /\
     traceDir args (originColumn args sMid) y0 1 = Some rightPts /\
     traceDir args (originColumn args sMid) y0 (-1) = Some leftPts /\
     traceCurveWithSeeds args = Some (rev leftPts ++ tl rightPts)).
Proof.
  unfold traceCurveWithSeeds. cbv zeta.
  destruct (Z.leb_spec (width (roi args)) 0) as [HW|HW]; cbn [orb]; [left; auto|].
  destruct (Z.leb_spec (height (roi args)) 0) as [HH|HH]; [left; auto|].
  destruct (Nat.ltb_spec (length (seeds args)) 3) as [Hn|Hn]; [left; auto|].
  destruct (nth_error (sortSeeds (seeds args)) 1) as [sMid|] eqn:Emid.
  2: { exfalso. apply nth_error_None in Emid. rewrite sortSeeds_length in Emid. lia. }
  destruct (chooseInitialY (findRunsInColumn args (originColumn args sMid)) (y sMid)
                           (mode args)) as [y0|] eqn:E0.
  2: { left. split; [reflexivity|]. do 3 right. exists sMid. split; [reflexivity|].
       now apply chooseInitialY_None in E0. }
  assert (Hx0 : 0 <= originColumn args sMid <= width (roi args) - 1)
    by (apply clamp_range; lia).
  destruct (traceLoop_terminates args (Z.to_nat (width (roi args))) 1
              (originColumn args sMid) y0 None) as [rightPts ER]; [left; lia|].
  destruct (traceLoop_terminates args (Z.to_nat (width (roi args))) (-1)
              (originColumn args sMid) y0 None) as [leftPts EL]; [right; lia|].
  right. exists sMid, y0, leftPts, rightPts. unfold traceDir. rewrite ER, EL.
  repeat split; auto.
Qed.

(** X2: the trace is empty exactly when the image has no column or no row,
    when fewer than three seeds are given, or when the origin column (the
    column of the middle seed by x) has no matching pixel at all. *)
Theorem X2_trace_empty_iff (args : TraceArgs) :
  traceCurveWithSeeds args = Some [] <->
  (width (roi args) <= 0 \/ height (roi args) <= 0 \/
   (length (seeds args) < 3)%nat \/
   exists sMid, nth_error (sortSeeds (seeds args)) 1 = Some sMid /\
     forall py, 0 <= py < height (roi args) ->
                pixelMatches args (originColumn args sMid) py = false).
Proof.
  destruct (traceCurveWithSeeds_shape args)
    as [[E Hwhy]|(sMid & y0 & leftPts & rightPts & HW & HH & Hn & Emid & E0 & ER & EL & E)].
  - split; [intros _|intros _; exact E].
    destruct Hwhy as [H|[H|[H|(sMid & Emid & Hnil)]]]; auto.
    do 3 right. exists sMid. split; [exact Emid|]. now apply findRunsInColumn_nil.
  - split.
    + rewrite E. intros [= Hnil]. exfalso.
      destruct (traceLoop_columns _ _ _ _ _ _ _ EL) as [Hhd _].
      apply app_eq_nil in Hnil as [Hrev _].
      apply (f_equal (@rev Point)) in Hrev. rewrite rev_involutive in Hrev. cbn in Hrev.
      rewrite Hrev in Hhd. discriminate Hhd.
    + intros [H|[H|[H|(sMid' & Emid' & Hno)]]]; try lia.
      exfalso. rewrite Emid in Emid'. injection Emid' as <-.
      apply findRunsInColumn_nil in Hno. rewrite Hno in E0. discriminate E0.
Qed.



(** The points of a trace lie in increasing columns. *)
Lemma trace_increasing (args : TraceArgs) (pts : list Point) :
  traceCurveWithSeeds args = Some pts ->
  StronglySorted (fun p q => (x p < x q)%Q) pts.
Proof.
  intros Et.
  destruct (traceCurveWithSeeds_shape args)
    as [[E _]|(sMid & y0 & leftPts & rightPts & _ & _ & _ & _ & _ & ER & EL & E)];
    rewrite E in Et; injection Et as <-; [constructor|].
  unfold traceDir in ER, EL.
  destruct (traceLoop_columns _ _ _ _ _ _ _ ER) as [HR CR].
  destruct (traceLoop_columns _ _ _ _ _ _ _ EL) as [HL CL].
  destruct rightPts as [|p0 tlR]; [discriminate|].
  cbn [tl length columnsFrom map] in *. injection CR as _ CR.
  apply (increasing_columns _
           (countFrom (originColumn args sMid - Z.of_nat (length leftPts) + 1)
                      (length leftPts + length tlR))); [|apply countFrom_sorted].
  rewrite map_app, map_rev, CL, <- map_rev, columnsFrom_down, CR, columnsFrom_up.
  rewrite <- map_app.
  replace (originColumn args sMid + 1)
    with (originColumn args sMid - Z.of_nat (length leftPts) + 1
          + Z.of_nat (length leftPts)) by lia.
  now rewrite countFrom_app.
Qed.




(** *** The order of the seeds *)

Lemma insertSeed_Permutation (s : Point) (l : list Point) :
  Permutation (s :: l) (insertSeed s l).
Proof.
  induction l as [|t rest IH]; [reflexivity|].
  cbn [insertSeed]. destruct (Qltb 0 (x s - x t)); [|reflexivity].
  rewrite perm_swap. now constructor.
Qed.

Lemma sortSeeds_Permutation (l : list Point) : Permutation l (sortSeeds l).
Proof.
  induction l as [|s rest IH]; [reflexivity|].
  cbn [sortSeeds fold_right]. fold (sortSeeds rest).
  rewrite <- insertSeed_Permutation. now constructor.
Qed.

Lemma insertSeed_sorted (s : Point) (l : list Point) :
  StronglySorted (fun p q => (x p <= x q)%Q) l ->
  StronglySorted (fun p q => (x p <= x q)%Q) (insertSeed s l).
Proof.
  induction 1 as [|t rest Hs IH Hall]; [repeat constructor|].
  cbn [insertSeed]. destruct (Qltb 0 (x s - x t)) eqn:E.
  - apply Qltb_lt in E. constructor; [exact IH|].
    apply (Permutation_Forall (insertSeed_Permutation s rest)).
    constructor; [lra | exact Hall].
  - assert (Hle : (x s <= x t)%Q).
    { destruct (Qlt_le_dec (x t) (x s)) as [Hlt|Hle]; [|exact Hle].
      assert (Hp : (0 < x s - x t)%Q) by lra. apply Qltb_lt in Hp. congruence. }
    constructor; [now constructor|]. constructor; [exact Hle|].
    revert Hall. apply Forall_impl. intros q Hq. lra.
Qed.

Lemma sortSeeds_sorted (l : list Point) :
  StronglySorted (fun p q => (x p <= x q)%Q) (sortSeeds l).
Proof.
  induction l as [|s rest IH]; [constructor|].
  cbn [sortSeeds fold_right]. fold (sortSeeds rest). now apply insertSeed_sorted.
Qed.

(** Seeds with pairwise different x have one sorted arrangement only. *)
Lemma sorted_seeds_unique (l1 l2 : list Point) :
  Permutation l1 l2 -> distinctColumns l1 ->
  StronglySorted (fun p q => (x p <= x q)%Q) l1 ->
  StronglySorted (fun p q => (x p <= x q)%Q) l2 ->
  l1 = l2.
Proof.
  revert l2; induction l1 as [|a l1 IH]; intros l2 HP Hd S1 S2.
  - apply Permutation_nil in HP. now subst.
  - destruct l2 as [|b l2]; [apply Permutation_sym, Permutation_nil in HP; discriminate|].
    inversion S1 as [|? ? S1' F1]; subst. inversion S2 as [|? ? S2' F2]; subst.
    rewrite Forall_forall in F1, F2.
    assert (Ha : In a (b :: l2)) by (apply (Permutation_in _ HP); now left).
    assert (Hb : In b (a :: l1))
      by (apply (Permutation_in _ (Permutation_sym HP)); now left).
    assert (Eab : a = b).
    { apply Hd; [now left | exact Hb|].
      destruct Ha as [->|Ha]; [reflexivity|]. destruct Hb as [->|Hb]; [reflexivity|].
      specialize (F1 b Hb). specialize (F2 a Ha). cbv beta in F1, F2. lra. }
    subst b. f_equal. apply IH; auto.
    + now apply Permutation_cons_inv in HP.
    + intros p q Hp Hq. apply Hd; now right.
Qed.

Lemma traceLoop_withSeeds (args : TraceArgs) (s : list Point) (fuel : nat) (dir px : Z)
    (yPrev : Q) (yPrev2 : option Q) :
  traceLoop (withSeeds args s) fuel dir px yPrev yPrev2
  = traceLoop args fuel dir px yPrev yPrev2.
Proof.
  revert px yPrev yPrev2; induction fuel as [|fuel IH]; intros px yPrev yPrev2;
    [reflexivity|].
  rewrite !traceLoop_unfold.
  change (findRunsInColumn (withSeeds args s) (px + dir))
    with (findRunsInColumn args (px + dir)).
  change (roi (withSeeds args s)) with (roi args).
  change (mode (withSeeds args s)) with (mode args).
  change (maxJump (withSeeds args s)) with (maxJump args).
  destruct ((px + dir <? 0) || (width (roi args) <=? px + dir)); [reflexivity|].
  destruct (chooseNextY _ _ _ _ _) as [yNext|]; [|reflexivity].
  now rewrite IH.
Qed.

(** The trace depends on the seeds through their number and their sorted
    arrangement only. *)
Lemma traceCurveWithSeeds_seeds (args : TraceArgs) (s1 s2 : list Point) :
  length s1 = length s2 -> sortSeeds s1 = sortSeeds s2 ->
  traceCurveWithSeeds (withSeeds args s1) = traceCurveWithSeeds (withSeeds args s2).
Proof.
  intros Hlen Hsort. unfold traceCurveWithSeeds. cbv zeta.
  change (seeds (withSeeds args s1)) with s1.
  change (seeds (withSeeds args s2)) with s2.
  change (roi (withSeeds args s1)) with (roi args).
  change (roi (withSeeds args s2)) with (roi args).
  change (mode (withSeeds args s1)) with (mode args).
  change (mode (withSeeds args s2)) with (mode args).
  rewrite Hlen, Hsort.
  destruct ((width (roi args) <=? 0) || (height (roi args) <=? 0)); [reflexivity|].
  destruct (length s2 <? 3)%nat; [reflexivity|].
  destruct (nth_error (sortSeeds s2) 1) as [sMid|]; [|reflexivity].
  change (originColumn (withSeeds args s1) sMid) with (originColumn args sMid).
  change (originColumn (withSeeds args s2) sMid) with (originColumn args sMid).
  change (findRunsInColumn (withSeeds args s1) (originColumn args sMid))
    with (findRunsInColumn args (originColumn args sMid)).
  change (findRunsInColumn (withSeeds args s2) (originColumn args sMid))
    with (findRunsInColumn args (originColumn args sMid)).
  destruct (chooseInitialY _ _ _) as [y0|]; [|reflexivity].
  unfold traceDir. rewrite !traceLoop_withSeeds. reflexivity.
Qed.

(** X5: the trace does not depend on the order in which the seeds were
    picked, provided no two of them share an x coordinate. *)
Theorem X5_trace_independent_of_seed_order (args : TraceArgs) (s1 s2 : list Point) :
  Permutation s1 s2 -> distinctColumns s1 ->
  traceCurveWithSeeds (withSeeds args s1) = traceCurveWithSeeds (withSeeds args s2).
Proof.
  intros HP Hd. apply traceCurveWithSeeds_seeds; [now apply Permutation_length|].
  apply sorted_seeds_unique.
  - now rewrite <- (sortSeeds_Permutation s1), <- (sortSeeds_Permutation s2).
  - intros p q Hp Hq. apply Hd.
    + apply (Permutation_in _ (Permutation_sym (sortSeeds_Permutation s1)) Hp).
    + apply (Permutation_in _ (Permutation_sym (sortSeeds_Permutation s1)) Hq).
  - apply sortSeeds_sorted.
  - apply sortSeeds_sorted.
Qed.

Lemma X5_trace_independent_of_seed_order_witness :
  traceCurveWithSeeds (withSeeds (sampleTrace 1) (seeds (sampleTrace 1)))
  = traceCurveWithSeeds (withSeeds (sampleTrace 1) (rev (seeds (sampleTrace 1)))).
Proof.
  apply X5_trace_independent_of_seed_order.
  - apply Permutation_rev.
  - intros p q Hp Hq E. cbn in Hp, Hq.
    destruct Hp as [<-|[<-|[<-|[]]]]; destruct Hq as [<-|[<-|[<-|[]]]];
      try reflexivity; vm_compute in E; discriminate E.
Defined.

(** *** The threshold and the jump limit *)

Lemma distRgbAtLeast_monotone (cr cg cb : option Z) (c : Color) (t t' : Q) :
  (t <= t')%Q ->
  distRgbAtLeast cr cg cb c t = false -> distRgbAtLeast cr cg cb c t' = false.
Proof.
  intros Hle. unfold distRgbAtLeast.
  destruct cr as [vr|]; [|auto]. destruct cg as [vg|]; [|auto]. destruct cb as [vb|]; [|auto].
  cbv zeta.
  set (d2 := inject_Z _). rewrite !orb_false_iff. intros [H1 H2].
  apply Qle_bool_false in H1, H2.
  assert (Ht' : (0 < t')%Q) by lra.
  assert (Hsq : (t * t <= t' * t')%Q).
  { apply Qle_trans with (t * t')%Q.
    - apply Qmult_le_l; assumption.
    - apply Qmult_le_r; assumption. }
  split.
  - destruct (Qle_bool t' 0) eqn:E; [|reflexivity]. apply Qle_bool_iff in E. lra.
  - destruct (Qle_bool (t' * t') d2) eqn:E; [|reflexivity]. apply Qle_bool_iff in E. lra.
Qed.

Lemma pixelMatches_monotone (args : TraceArgs) (t : Q) (px py : Z) :
  (threshold args <= t)%Q ->
  pixelMatches args px py = true -> pixelMatches (withThreshold args t) px py = true.
Proof.
  intros Hle. unfold pixelMatches. cbn [withThreshold isBlacklistedPixel roi pickedColor threshold].
  destruct (isBlacklistedPixel args _); [discriminate|]. cbv zeta.
  rewrite !negb_true_iff. now apply distRgbAtLeast_monotone.
Qed.

Lemma byteAt_inside (d : list Z) (idx : Z) :
  0 <= idx < Z.of_nat (length d) -> exists v, byteAt d idx = Some v.
Proof.
  intros Hidx. unfold byteAt. destruct (Z.ltb_spec idx 0) as [Hn|_]; [lia|].
  destruct (nth_error d (Z.to_nat idx)) as [v|] eqn:E; [now exists v|].
  apply nth_error_None in E. lia.
Qed.

(** Under a threshold of zero or less no stored pixel matches. *)
Lemma pixelMatches_no_threshold (args : TraceArgs) (px py : Z) :
  (threshold args <= 0)%Q ->
  4 * width (roi args) * height (roi args) <= Z.of_nat (length (data (roi args))) ->
  0 <= px < width (roi args) -> 0 <= py < height (roi args) ->
  pixelMatches args px py = false.
Proof.
  intros Hle Hlen Hpx Hpy. unfold pixelMatches.
  destruct (isBlacklistedPixel args _); [reflexivity|]. cbv zeta.
  assert (Hidx : 0 <= pixelIndex (roi args) px py
                 /\ pixelIndex (roi args) px py + 2 < Z.of_nat (length (data (roi args))))
    by (unfold pixelIndex; nia).
  destruct (byteAt_inside (data (roi args)) (pixelIndex (roi args) px py)) as [vr Er]; [lia|].
  destruct (byteAt_inside (data (roi args)) (pixelIndex (roi args) px py + 1)) as [vg Eg];
    [lia|].
  destruct (byteAt_inside (data (roi args)) (pixelIndex (roi args) px py + 2)) as [vb Eb];
    [lia|].
  rewrite Er, Eg, Eb. unfold distRgbAtLeast. cbv zeta.
  apply Qle_bool_iff in Hle. now rewrite Hle.
Qed.

(** X25: raising the colour threshold never loses a pixel: a pixel that
    matches still matches under any larger threshold, so that every row of a
    run stays in a run; and with a threshold of zero or less, on an image
    that stores all its pixels, no column has a run and the trace is
    empty. *)
Theorem X25_threshold_monotone (args : TraceArgs) (t : Q) :
  ((threshold args <= t)%Q ->
   forall px py, 0 <= py < height (roi args) ->
     covers (findRunsInColumn args px) py ->
     covers (findRunsInColumn (withThreshold args t) px) py) /\
  ((t <= 0)%Q ->
   4 * width (roi args) * height (roi args) <= Z.of_nat (length (data (roi args))) ->
   (forall px, 0 <= px < width (roi args) ->
      findRunsInColumn (withThreshold args t) px = []) /\
   traceCurveWithSeeds (withThreshold args t) = Some []).
Proof.
  split.
  - intros Hle px py Hpy Hc.
    destruct (findRunsInColumn_runs args px) as (_ & _ & C1).
    destruct (findRunsInColumn_runs (withThreshold args t) px) as (_ & _ & C2).
    apply C2; [exact Hpy|]. apply pixelMatches_monotone; [exact Hle|]. now apply C1.
  - intros Hle Hlen.
    assert (Hnil : forall qx, 0 <= qx < width (roi args) ->
                     findRunsInColumn (withThreshold args t) qx = []).
    { intros qx Hqx. apply findRunsInColumn_nil. intros py Hpy.
      now apply pixelMatches_no_threshold. }
    split; [exact Hnil|].
    destruct (traceCurveWithSeeds_shape (withThreshold args t))
      as [[E _]|(sMid & y0 & _ & _ & HW & _ & _ & _ & E0 & _)]; [exact E|].
    change (roi (withThreshold args t)) with (roi args) in HW.
    rewrite Hnil in E0; [discriminate E0|].
    pose proof (clamp_range (round (x sMid)) 0 (width (roi args) - 1)).
    unfold originColumn. change (roi (withThreshold args t)) with (roi args). lia.
Qed.

Lemma chooseNextY_larger_jump (runs : list Run) (yPrev : Q) (yPrev2 : option Q)
    (m : Mode) (j j' yNext : Q) :
  (j <= j')%Q ->
  chooseNextY runs yPrev yPrev2 m j = Some yNext ->
  chooseNextY runs yPrev yPrev2 m j' = Some yNext.
Proof.
  intros Hle. unfold chooseNextY. destruct runs as [|first rest]; [discriminate|].
  cbv zeta. set (best := closestRun _ _ _ _).
  destruct (Qltb j (snd best)) eqn:E; [discriminate|]. intros [= <-].
  destruct (Qltb j' (snd best)) eqn:E'; [|reflexivity].
  apply Qltb_lt in E'.
  assert (Hlt : (j < snd best)%Q) by lra. apply Qltb_lt in Hlt. congruence.
Qed.

(** With a larger jump limit a directional trace runs through the same
    points and possibly further. *)
Lemma traceLoop_extends (args : TraceArgs) (j : Q) (fuel : nat) (dir px : Z) (yPrev : Q)
    (yPrev2 : option Q) (pts : list Point) :
  (maxJump args <= j)%Q ->
  (dir = 1 /\ px < width (roi args) /\ width (roi args) - px <= Z.of_nat fuel) \/
  (dir = -1 /\ 0 <= px /\ px + 1 <= Z.of_nat fuel) ->
  traceLoop args fuel dir px yPrev yPrev2 = Some pts ->
  exists more,
    traceLoop (withMaxJump args j) fuel dir px yPrev yPrev2 = Some (pts ++ more).
Proof.
  intros Hle. revert px yPrev yPrev2 pts; induction fuel as [|fuel IH];
    intros px yPrev yPrev2 pts Hm; [discriminate|].
  rewrite !traceLoop_unfold.
  change (findRunsInColumn (withMaxJump args j) (px + dir))
    with (findRunsInColumn args (px + dir)).
  change (roi (withMaxJump args j)) with (roi args).
  change (mode (withMaxJump args j)) with (mode args).
  change (maxJump (withMaxJump args j)) with j.
  destruct (Z.ltb_spec (px + dir) 0) as [Hlo|Hlo]; cbn [orb].
  { intros [= <-]. exists []. reflexivity. }
  destruct (Z.leb_spec (width (roi args)) (px + dir)) as [Hhi|Hhi].
  { intros [= <-]. exists []. reflexivity. }
  destruct (chooseNextY (findRunsInColumn args (px + dir)) yPrev yPrev2 (mode args)
                        (maxJump args)) as [yNext|] eqn:E.
  - rewrite (chooseNextY_larger_jump _ _ _ _ _ j _ Hle E).
    destruct (traceLoop args fuel dir (px + dir) yNext (Some yPrev)) as [rest|] eqn:ER;
      [|discriminate].
    intros [= <-]. destruct (IH (px + dir) yNext (Some yPrev) rest) as (more & Em);
      [lia | exact ER|].
    exists more. rewrite Em. reflexivity.
  - intros [= <-].
    destruct (chooseNextY (findRunsInColumn args (px + dir)) yPrev yPrev2 (mode args) j)
      as [yNext|]; [|exists []; reflexivity].
    destruct (traceLoop_terminates (withMaxJump args j) fuel dir (px + dir) yNext
                (Some yPrev)) as [rest Er].
    { change (roi (withMaxJump args j)) with (roi args). lia. }
    exists rest. rewrite Er. reflexivity.
Qed.

(** X26: raising the jump limit only extends the trace: the trace under
    the larger limit is the trace under the smaller one, possibly continued
    at its left end, at its right end or both. *)
Theorem X26_larger_jump_extends_the_trace (args : TraceArgs) (j : Q) (pts : list Point) :
  (maxJump args <= j)%Q ->
  traceCurveWithSeeds args = Some pts ->
  exists before after,
    traceCurveWithSeeds (withMaxJump args j) = Some (before ++ pts ++ after).
Proof.
  intros Hle Et.
  destruct (traceCurveWithSeeds_shape args)
    as [[E Hwhy]|(sMid & y0 & leftPts & rightPts & HW & HH & Hn & Emid & E0 & ER & EL & E)];
    rewrite E in Et; injection Et as <-.
  - destruct (traceCurveWithSeeds_shape (withMaxJump args j))
      as [[E' _]|(sMid & y0 & leftPts & rightPts & HW & HH & Hn & Emid & E0 & _ & _ & E')].
    + exists [], []. exact E'.
    + exfalso.
      change (roi (withMaxJump args j)) with (roi args) in HW, HH.
      change (seeds (withMaxJump args j)) with (seeds args) in Hn, Emid.
      change (findRunsInColumn (withMaxJump args j) (originColumn (withMaxJump args j) sMid))
        with (findRunsInColumn args (originColumn args sMid)) in E0.
      destruct Hwhy as [H|[H|[H|(s & Es & Hnil)]]]; try lia.
      rewrite Emid in Es. injection Es as <-. rewrite Hnil in E0. discriminate E0.
  - assert (Hx0 : 0 <= originColumn args sMid <= width (roi args) - 1)
      by (apply clamp_range; lia).
    unfold traceDir in ER, EL.
    destruct (traceLoop_extends args j (Z.to_nat (width (roi args))) 1
                (originColumn args sMid) y0 None rightPts Hle) as (moreR & ER');
      [left; lia | exact ER|].
    destruct (traceLoop_extends args j (Z.to_nat (width (roi args))) (-1)
                (originColumn args sMid) y0 None leftPts Hle) as (moreL & EL');
      [right; lia | exact EL|].
    exists (rev moreL), moreR.
    unfold traceCurveWithSeeds. cbv zeta.
    change (roi (withMaxJump args j)) with (roi args).
    change (seeds (withMaxJump args j)) with (seeds args).
    change (mode (withMaxJump args j)) with (mode args).
    destruct (Z.leb_spec (width (roi args)) 0); [lia|].
    destruct (Z.leb_spec (height (roi args)) 0); [lia|]. cbn [orb].
    destruct (Nat.ltb_spec (length (seeds args)) 3); [lia|].
    rewrite Emid.
    change (originColumn (withMaxJump args j) sMid) with (originColumn args sMid).
    change (findRunsInColumn (withMaxJump args j) (originColumn args sMid))
      with (findRunsInColumn args (originColumn args sMid)).
    rewrite E0. unfold traceDir.
    change (roi (withMaxJump args j)) with (roi args). rewrite ER', EL'.
    destruct (traceLoop_columns _ _ _ _ _ _ _ ER) as [HR _].
    destruct rightPts as [|p0 tlR]; [discriminate|].
    cbn [tl app]. rewrite rev_app_distr, <- !app_assoc. reflexivity.
Qed.

Lemma X26_larger_jump_extends_the_trace_witness :
  exists before after,
    traceCurveWithSeeds (withMaxJump (sampleTrace 1) 2)
    = Some (before ++ [ {| x := 0; y := 4 # 2 |}; {| x := 1; y := 4 # 2 |};
                        {| x := 2; y := 5 # 2 |}; {| x := 3; y := 6 # 2 |} ]%Q ++ after).
Proof.
  apply (X26_larger_jump_extends_the_trace (sampleTrace 1) 2).
  - discriminate.
  - vm_compute. reflexivity.
Defined.

End RunFacts.

Module CurveColorFacts.
Import Detect CurveColor DetectFacts CurveFacts RunFacts.

(** *** The average colour of the seeds *)

Lemma sumSeeds_channels (roi : ImageData) (seeds : list Curve.Point) :
  sumSeeds roi seeds
  = {| sr := channelSum roi 0 seeds (Some 0);
       sg := channelSum roi 1 seeds (Some 0);
       sb := channelSum roi 2 seeds (Some 0) |}.
Proof.
  unfold sumSeeds, channelSum.
  generalize (Some 0) at 1 4 as a0. generalize (Some 0) at 1 3 as a1.
  generalize (Some 0) as a2.
  induction seeds as [|s rest IH]; intros a2 a1 a0; [reflexivity|].
  cbn [fold_left]. cbv zeta. cbn [sr sg sb]. rewrite IH.
  now rewrite Z.add_0_r.
Qed.




Lemma channelSum_uniform (roi : ImageData) (off v : Z) (seeds : list Curve.Point) (a : Z) :
  (forall s, In s seeds ->
     Curve.byteAt (data roi) (pixelIndex roi (seedColumn roi s) (seedRow roi s) + off)
     = Some v) ->
  channelSum roi off seeds (Some a) = Some (a + Z.of_nat (length seeds) * v).
Proof.
  revert a; induction seeds as [|p rest IH]; intros a Hall.
  - cbn. f_equal. lia.
  - unfold channelSum. cbn [fold_left]. rewrite (Hall p) by now left.
    cbn [addByte]. fold (channelSum roi off rest (Some (a + v))).
    rewrite IH by (intros s Hs; apply Hall; now right).
    f_equal. cbn [length]. lia.
Qed.

Lemma round_integer (z : Z) : Curve.round (inject_Z z) = z.
Proof.
  unfold Curve.round.
  assert (H1 : (inject_Z z <= inject_Z z + (1 # 2))%Q) by lra.
  assert (H2 : (inject_Z z + (1 # 2) < inject_Z (z + 1))%Q)
    by (rewrite inject_Z_plus; change (inject_Z 1) with 1%Q; lra).
  apply Qfloor_resp_le in H1. rewrite Qfloor_Z in H1.
  pose proof (Qfloor_le (inject_Z z + (1 # 2))) as H3.
  assert (H4 : (inject_Z (Qfloor (inject_Z z + (1 # 2))) < inject_Z (z + 1))%Q) by lra.
  rewrite <- Zlt_Qlt in H4. lia.
Qed.

Lemma round_mean_exact (n v : Z) :
  0 < n -> Curve.round (inject_Z (n * v) / inject_Z n) = v.
Proof.
  intros Hn. rewrite <- (round_integer v) at 2. unfold Curve.round.
  apply Qfloor_comp. rewrite inject_Z_mult.
  assert (~ inject_Z n == 0)%Q by (apply inject_Z_nonzero; lia).
  field. assumption.
Qed.




Lemma average_of_one_color (roi : ImageData) (seeds : list Curve.Point)
    (c : Curve.Color) :
  seeds <> [] ->
  (forall s, In s seeds -> seedColor roi s = exactly c) ->
  computeAverageColor roi seeds = exactly c.
Proof.
  intros Hne Hall. unfold computeAverageColor. cbv zeta. rewrite sumSeeds_channels.
  cbn [sr sg sb].
  assert (Hn : 0 < Z.max 1 (Z.of_nat (length seeds))) by lia.
  assert (En : Z.max 1 (Z.of_nat (length seeds)) = Z.of_nat (length seeds))
    by (destruct seeds; [congruence | cbn [length]; lia]).
  rewrite (channelSum_uniform roi 0 (Curve.r c)), (channelSum_uniform roi 1 (Curve.g c)),
    (channelSum_uniform roi 2 (Curve.b c)).
  - cbn [roundedMean option_map]. rewrite !Z.add_0_l, En.
    rewrite !round_mean_exact by lia. reflexivity.
  - intros s Hs. specialize (Hall s Hs). unfold seedColor, exactly in Hall.
    now injection Hall.
  - intros s Hs. specialize (Hall s Hs). unfold seedColor, exactly in Hall.
    now injection Hall.
  - intros s Hs. specialize (Hall s Hs). unfold seedColor, exactly in Hall.
    rewrite Z.add_0_r. now injection Hall.
Qed.

(** X7: when all the seeds (at least one) lie over pixels of one colour,
    [computeAverageColor] returns exactly that colour. *)
Theorem X7_average_of_one_color (roi : ImageData) (seeds : list Curve.Point)
    (c : Curve.Color) :
  seeds <> [] ->
  (forall s, In s seeds -> seedColor roi s = exactly c) ->
  computeAverageColor roi seeds = exactly c.
Proof. exact (average_of_one_color roi seeds c). Qed.

Lemma X7_average_of_one_color_witness :
  computeAverageColor (Curve.roi (Curve.sampleTrace 1))
    [ {| Curve.x := 1 # 5; Curve.y := 2 |}; {| Curve.x := 3; Curve.y := 14 # 5 |} ]%Q
  = exactly {| Curve.r := 255; Curve.g := 0; Curve.b := 0 |}.
Proof.
  apply X7_average_of_one_color.
  - discriminate.
  - intros s [<-|[<-|[]]]; vm_compute; reflexivity.
Defined.

(** A pixel of the picked colour matches under any positive threshold,
    unless it is blacklisted. *)
Lemma pixelMatches_picked (args : Curve.TraceArgs) (px py : Z) :
  (0 < Curve.threshold args)%Q ->
  Curve.isBlacklistedPixel args {| Curve.x := inject_Z px; Curve.y := inject_Z py |} = false ->
  Curve.byteAt (data (Curve.roi args)) (pixelIndex (Curve.roi args) px py)
  = Some (Curve.r (Curve.pickedColor args)) ->
  Curve.byteAt (data (Curve.roi args)) (pixelIndex (Curve.roi args) px py + 1)
  = Some (Curve.g (Curve.pickedColor args)) ->
  Curve.byteAt (data (Curve.roi args)) (pixelIndex (Curve.roi args) px py + 2)
  = Some (Curve.b (Curve.pickedColor args)) ->
  Curve.pixelMatches args px py = true.
Proof.
  intros Hth Hb Er Eg Eb. unfold Curve.pixelMatches. rewrite Hb. cbv zeta.
  rewrite Er, Eg, Eb. unfold Curve.distRgbAtLeast. rewrite !Z.sub_diag. cbn [Z.mul Z.add].
  assert (H1 : Qle_bool (Curve.threshold args) 0 = false).
  { destruct (Qle_bool (Curve.threshold args) 0) eqn:E; [|reflexivity].
    apply Qle_bool_iff in E. lra. }
  assert (H2 : Qle_bool (Curve.threshold args * Curve.threshold args) (inject_Z 0) = false).
  { destruct (Qle_bool (Curve.threshold args * Curve.threshold args) (inject_Z 0)) eqn:E;
      [|reflexivity].
    apply Qle_bool_iff in E. change (inject_Z 0) with 0%Q in E.
    assert (0 < Curve.threshold args * Curve.threshold args)%Q
      by (apply Qmult_lt_0_compat; assumption).
    lra. }
  now rewrite H1, H2.
Qed.

(** X8: picking the colour and tracing, as the application does once the
    third seed is clicked: when the seeds (three or more) lie over pixels of
    one colour that are not blacklisted and the threshold is positive, the
    colour picked is that colour and the trace started with it is not
    empty. *)
Theorem X8_seeds_on_the_curve_give_a_trace (roi : ImageData) (seeds : list Curve.Point)
    (c : Curve.Color) (threshold : Q) (mode : Curve.Mode) (maxJump : Q)
    (isBlacklistedPixel : Curve.Point -> bool) :
  0 < width roi -> 0 < height roi -> (3 <= length seeds)%nat -> (0 < threshold)%Q ->
  (forall s, In s seeds ->
     seedColor roi s = exactly c /\
     isBlacklistedPixel {| Curve.x := inject_Z (seedColumn roi s);
                           Curve.y := inject_Z (seedRow roi s) |} = false) ->
  computeAverageColor roi seeds = exactly c /\
  exists p pts,
    Curve.traceCurveWithSeeds
      (traceArgs roi seeds c threshold mode maxJump isBlacklistedPixel)
    = Some (p :: pts).
Proof.
  intros HW HH Hn Hth Hall. split.
  - apply average_of_one_color; [destruct seeds; [cbn in Hn; lia | discriminate]|].
    intros s Hs. apply (Hall s Hs).
  - set (args := traceArgs roi seeds c threshold mode maxJump isBlacklistedPixel).
    destruct (traceCurveWithSeeds_shape args)
      as [[E Hwhy]|(sMid & y0 & leftPts & rightPts & _ & _ & _ & Emid & E0 & ER & EL & E)].
    + exfalso. destruct Hwhy as [H|[H|[H|(sMid & Emid & Hnil)]]];
        [cbn in H; lia | cbn in H; lia | cbn in H; lia |].
      assert (Hin : In sMid seeds).
      { apply nth_error_In in Emid.
        apply (Permutation_in _ (Permutation_sym (sortSeeds_Permutation seeds)) Emid). }
      destruct (Hall sMid Hin) as [Hc Hb].
      unfold seedColor, exactly in Hc. injection Hc as Er Eg Eb.
      assert (Hm : Curve.pixelMatches args (seedColumn roi sMid) (seedRow roi sMid) = true)
        by (apply pixelMatches_picked; assumption).
      pose proof (proj1 (findRunsInColumn_nil args (Curve.originColumn args sMid)) Hnil
                    (seedRow roi sMid)) as Hno.
      change (Curve.originColumn args sMid) with (seedColumn roi sMid) in Hno.
      rewrite Hno in Hm; [discriminate Hm|].
      pose proof (clamp_range (Curve.round (Curve.y sMid)) 0 (height roi - 1)) as Hy.
      unfold seedRow. cbn [args traceArgs Curve.roi]. lia.
    + rewrite E.
      destruct (traceLoop_columns _ _ _ _ _ _ _ EL) as [Hhd _].
      destruct (rev leftPts ++ tl rightPts) as [|p pts] eqn:Em; [|eauto].
      exfalso. apply app_eq_nil in Em as [Hrev _].
      apply (f_equal (@rev Curve.Point)) in Hrev. rewrite rev_involutive in Hrev.
      cbn in Hrev. rewrite Hrev in Hhd. discriminate Hhd.
Qed.

Lemma X8_seeds_on_the_curve_give_a_trace_witness :
  computeAverageColor (Curve.roi (Curve.sampleTrace 1))
    [ {| Curve.x := 1 # 5; Curve.y := 2 |}; {| Curve.x := 3; Curve.y := 14 # 5 |};
      {| Curve.x := 9 # 5; Curve.y := 3 |} ]%Q
  = exactly {| Curve.r := 255; Curve.g := 0; Curve.b := 0 |} /\
  exists p pts,
    Curve.traceCurveWithSeeds
      (traceArgs (Curve.roi (Curve.sampleTrace 1))
         [ {| Curve.x := 1 # 5; Curve.y := 2 |}; {| Curve.x := 3; Curve.y := 14 # 5 |};
           {| Curve.x := 9 # 5; Curve.y := 3 |} ]%Q
         {| Curve.r := 255; Curve.g := 0; Curve.b := 0 |} 45 Curve.centerline 1
         (fun _ => false))
    = Some (p :: pts).
Proof.
  apply X8_seeds_on_the_curve_give_a_trace.
  - reflexivity.
  - reflexivity.
  - cbn. lia.
  - reflexivity.
  - intros s [<-|[<-|[<-|[]]]]; vm_compute; split; reflexivity.
Defined.

End CurveColorFacts.

Module SeriesFacts.
Import Series DetectFacts.

(** *** The data series *)

Section AnyNumber.
Context {N : Type} `{Number N} {P : Type}.

Lemma insertByX_Permutation (a : DataPoint N) (l : list (DataPoint N)) :
  Permutation (a :: l) (insertByX a l).
Proof.
  induction l as [|b rest IH]; [reflexivity|].
  cbn [insertByX]. destruct (nltb (ofZ 0) (nsub (X a) (X b))); [|reflexivity].
  rewrite perm_swap. now constructor.
Qed.

Lemma sortByX_Permutation (l : list (DataPoint N)) : Permutation l (sortByX l).
Proof.
  induction l as [|a rest IH]; [reflexivity|].
  cbn [sortByX fold_right]. fold (sortByX rest).
  rewrite <- insertByX_Permutation. now constructor.
Qed.

(** X9: whatever the numbers are (binary64 included, NaN or not) and
    whether or not the x axis is reversed, the series [mapAndSort] returns
    holds the image of every traced point under the calibration map, each
    as often as it occurs: no point is dropped, added or changed. *)
Theorem X9_mapAndSort_keeps_the_points (pointsPx : list P)
    (pixelToData : P -> DataPoint N) (reverseX : bool) :
  Permutation (map pixelToData pointsPx) (mapAndSort pointsPx pixelToData reverseX).
Proof.
  unfold mapAndSort. cbv zeta. destruct reverseX.
  - rewrite <- Permutation_rev. apply sortByX_Permutation.
  - apply sortByX_Permutation.
Qed.

End AnyNumber.

Lemma insertByX_sorted (a : DataPoint Q) (l : list (DataPoint Q)) :
  StronglySorted (fun p q => (X p <= X q)%Q) l ->
  StronglySorted (fun p q => (X p <= X q)%Q) (insertByX a l).
Proof.
  induction 1 as [|b rest Hs IH Hall]; [repeat constructor|].
  cbn [insertByX]. change (nltb (ofZ 0) (nsub (X a) (X b))) with (Qltb 0 (X a - X b)).
  destruct (Qltb 0 (X a - X b)) eqn:E.
  - apply Qltb_lt in E. constructor; [exact IH|].
    apply (Permutation_Forall (insertByX_Permutation a rest)).
    constructor; [lra | exact Hall].
  - assert (Hle : (X a <= X b)%Q).
    { destruct (Qlt_le_dec (X b) (X a)) as [Hlt|Hle]; [|exact Hle].
      assert (Hp : (0 < X a - X b)%Q) by lra.
      apply Qltb_lt in Hp. congruence. }
    constructor; [now constructor|]. constructor; [exact Hle|].
    revert Hall. apply Forall_impl. intros q Hq. lra.
Qed.

Lemma sortByX_sorted (l : list (DataPoint Q)) :
  StronglySorted (fun p q => (X p <= X q)%Q) (sortByX l).
Proof.
  induction l as [|a rest IH]; [constructor|].
  cbn [sortByX fold_right]. fold (sortByX rest). now apply insertByX_sorted.
Qed.

Lemma StronglySorted_snoc {A : Type} (R : A -> A -> Prop) (l : list A) (a : A) :
  StronglySorted R l -> Forall (fun b => R b a) l -> StronglySorted R (l ++ [a]).
Proof.
  induction 1 as [|b l Hs IH Hall]; intros Hl; [repeat constructor|].
  inversion Hl as [|? ? Hb Hl']; subst. cbn [app]. constructor; [now apply IH|].
  apply Forall_app. split; [exact Hall | now repeat constructor].
Qed.

Lemma StronglySorted_rev {A : Type} (R : A -> A -> Prop) (l : list A) :
  StronglySorted R l -> StronglySorted (fun a b => R b a) (rev l).
Proof.
  induction 1 as [|a l Hs IH Hall]; [constructor|].
  cbn [rev]. apply StronglySorted_snoc; [exact IH|]. now apply Forall_rev.
Qed.

(** X10: without rounding, the series is sorted by X: in ascending order,
    or in descending order when the x axis is reversed. *)
Theorem X10_mapAndSort_sorted {P : Type} (pointsPx : list P)
    (pixelToData : P -> DataPoint Q) (reverseX : bool) :
  StronglySorted
    (fun p q => if reverseX then (X q <= X p)%Q else (X p <= X q)%Q)
    (mapAndSort pointsPx pixelToData reverseX).
Proof.
  unfold mapAndSort. cbv zeta. destruct reverseX.
  - apply (StronglySorted_rev (fun p q : DataPoint Q => (X p <= X q)%Q)).
    apply sortByX_sorted.
  - apply sortByX_sorted.
Qed.

(** A series that is already in ascending order is left as it is. *)
Lemma sortByX_sorted_input (l : list (DataPoint Q)) :
  StronglySorted (fun p q => (X p <= X q)%Q) l -> sortByX l = l.
Proof.
  induction 1 as [|a l Hs IH Hall]; [reflexivity|].
  cbn [sortByX fold_right]. fold (sortByX l). rewrite IH.
  destruct l as [|b rest]; [reflexivity|]. cbn [insertByX].
  change (nltb (ofZ 0) (nsub (X a) (X b))) with (Qltb 0 (X a - X b)).
  destruct (Qltb 0 (X a - X b)) eqn:E; [|reflexivity].
  apply Qltb_lt in E. inversion Hall as [|? ? Hab _]; subst. lra.
Qed.

End SeriesFacts.

Module ThresholdFacts.
Import Detect Threshold Binary64 Binary64Facts DetectFacts.

(** *** Sums over the gray levels *)

Lemma sumOf_app (f : Z -> Z) (l1 l2 : list Z) :
  sumOf f (l1 ++ l2) = sumOf f l1 + sumOf f l2.
Proof. induction l1 as [|a l1 IH]; cbn [app sumOf]; [lia | rewrite IH; lia]. Qed.

Lemma range_snoc (lo hi : Z) : lo <= hi -> range lo (hi + 1) = range lo hi ++ [hi].
Proof.
  intros Hle. unfold range.
  replace (Z.to_nat (hi + 1 - lo)) with (Z.to_nat (hi - lo) + 1)%nat by lia.
  rewrite <- CurveFacts.countFrom_app. cbn [countFrom]. do 2 f_equal. lia.
Qed.

Lemma range_split (lo mid hi : Z) :
  lo <= mid <= hi -> range lo hi = range lo mid ++ range mid hi.
Proof.
  intros Hm. unfold range.
  replace (Z.to_nat (hi - lo)) with (Z.to_nat (mid - lo) + Z.to_nat (hi - mid))%nat by lia.
  rewrite <- CurveFacts.countFrom_app. do 2 f_equal. lia.
Qed.

Lemma sumOf_zero (f : Z -> Z) (ts : list Z) :
  (forall t, In t ts -> f t = 0) -> sumOf f ts = 0.
Proof.
  induction ts as [|t ts IH]; intros Hz; cbn [sumOf]; [reflexivity|].
  rewrite (Hz t) by now left. rewrite IH; [reflexivity|]. intros u Hu. apply Hz. now right.
Qed.

Lemma sumOf_positive (f : Z -> Z) (ts : list Z) :
  sumOf f ts <> 0 -> exists t, In t ts /\ f t <> 0.
Proof.
  induction ts as [|t ts IH]; cbn [sumOf]; [congruence|]. intros Hne.
  destruct (Z.eq_dec (f t) 0) as [E|E].
  - destruct IH as (u & Hu & Hf); [lia|]. exists u. split; [now right | exact Hf].
  - exists t. split; [now left | exact E].
Qed.

Section Weights.
Variable hist : Histogram.
Hypothesis hist_nonneg : forall t, 0 <= hist t.

Lemma weightUpTo_step (t : Z) :
  0 <= t -> weightUpTo hist t = sumOf hist (range 0 t) + hist t.
Proof.
  intros Ht. unfold weightUpTo. rewrite range_snoc by lia. rewrite sumOf_app.
  cbn [sumOf]. lia.
Qed.

Lemma sumUpTo_step (t : Z) :
  0 <= t -> sumUpTo hist t = sumOf (fun u => u * hist u) (range 0 t) + t * hist t.
Proof.
  intros Ht. unfold sumUpTo. rewrite range_snoc by lia. rewrite sumOf_app.
  cbn [sumOf]. lia.
Qed.

Lemma weightUpTo_nonneg (t : Z) : 0 <= weightUpTo hist t.
Proof. apply sumOf_nonneg, hist_nonneg. Qed.

Lemma weightUpTo_mono (t u : Z) : 0 <= t + 1 -> t <= u -> weightUpTo hist t <= weightUpTo hist u.
Proof.
  intros Ht Htu. unfold weightUpTo. rewrite (range_split 0 (t + 1) (u + 1)) by lia.
  rewrite sumOf_app. pose proof (sumOf_nonneg hist (range (t + 1) (u + 1)) hist_nonneg). lia.
Qed.

(** A level that splits the pixels has pixels at or below it and pixels
    above it. *)
Lemma splits_positive (t : Z) :
  0 <= t <= 255 -> splits hist (weightUpTo hist 255) t ->
  0 < weightUpTo hist t /\ 0 < weightUpTo hist 255 - weightUpTo hist t.
Proof.
  intros Ht [Hb Hf]. pose proof (weightUpTo_nonneg t).
  pose proof (weightUpTo_mono t 255). lia.
Qed.

End Weights.

(** *** The threshold maximises the between-class variance *)

Section ExactScan.
Variables (hist : Histogram) (total : Z).
Hypothesis hist_nonneg : forall t, 0 <= hist t.
Hypothesis total_counted : total = weightUpTo hist 255.

Lemma no_split_after_break (lo t : Z) :
  0 <= lo -> total - weightUpTo hist lo = 0 -> lo <= t <= 255 -> ~ splits hist total t.
Proof.
  intros Hlo Hbreak Ht [_ Hf]. apply Hf.
  pose proof (weightUpTo_mono hist hist_nonneg lo t).
  pose proof (weightUpTo_mono hist hist_nonneg t 255). lia.
Qed.

Lemma otsuLoop_scanned (n : nat) (lo : Z) (st : Scan Q) :
  0 <= lo -> lo + Z.of_nat n = 256 ->
  wB st = sumOf hist (range 0 lo) ->
  sumB st = sumOf (fun u => u * hist u) (range 0 lo) ->
  scanned hist total lo (threshold st) (varMax st) ->
  exists vmax,
    scanned hist total 256
      (otsuLoop hist total (sumOf (fun u => u * hist u) (range 0 256)) (countFrom lo n) st)
      vmax.
Proof.
  revert lo st; induction n as [|n IH]; intros lo st Hlo Hend Ew Es Hsc.
  - cbn [countFrom otsuLoop]. exists (varMax st).
    replace 256 with lo by lia. exact Hsc.
  - cbn [countFrom otsuLoop].
    assert (Ew' : wB st + hist lo = weightUpTo hist lo)
      by (rewrite weightUpTo_step, Ew by lia; reflexivity).
    assert (Es' : sumB st + lo * hist lo = sumUpTo hist lo)
      by (rewrite sumUpTo_step, Es by lia; reflexivity).
    rewrite Ew', Es'.
    destruct (Z.eqb_spec (weightUpTo hist lo) 0) as [E0|Hwb].
    { (* nothing at or below this level yet *)
      apply IH; cbn [wB sumB threshold varMax]; try lia.
      - reflexivity.
      - fold (sumUpTo hist lo). rewrite <- Es'.
        pose proof (hist_nonneg lo). pose proof (sumOf_nonneg hist (range 0 lo) hist_nonneg).
        assert (hist lo = 0) by lia. nia.
      - destruct Hsc as [(Hno & Et & Ev)|(Hthr & Hs & Ev & Hmax & Hfirst)].
        + left. split; [|auto]. intros t Ht. destruct (Z.eq_dec t lo) as [->|Hne].
          * intros [Hb _]. now apply Hb.
          * apply Hno. lia.
        + right. split; [lia|]. split; [exact Hs|]. split; [exact Ev|]. split; [|exact Hfirst].
          intros t Ht Hst. destruct (Z.eq_dec t lo) as [->|Hne].
          * destruct Hst as [Hb _]. now destruct Hb.
          * apply Hmax; [lia | exact Hst]. }
    destruct (Z.eqb_spec (total - weightUpTo hist lo) 0) as [E0|Hwf].
    { (* nothing above this level: the scan ends *)
      exists (varMax st).
      destruct Hsc as [(Hno & Et & Ev)|(Hthr & Hs & Ev & Hmax & Hfirst)].
      - left. split; [|auto]. intros t Ht. destruct (Z_lt_le_dec t lo) as [Hlt|Hge].
        + apply Hno. lia.
        + apply (no_split_after_break lo); [lia | exact E0 | lia].
      - right. split; [lia|]. split; [exact Hs|]. split; [exact Ev|]. split; [|exact Hfirst].
        intros t Ht Hst. destruct (Z_lt_le_dec t lo) as [Hlt|Hge].
        + apply Hmax; [lia | exact Hst].
        + exfalso. revert Hst. apply (no_split_after_break lo); [lia | exact E0 | lia]. }
    cbn [ofZ nmul nsub ndiv nltb Exact ExactDiv].
    fold (betweenExact (weightUpTo hist lo) (total - weightUpTo hist lo) (sumUpTo hist lo)
            (sumOf (fun u => u * hist u) (range 0 256))).
    fold (between hist total lo).
    assert (Hsplit : splits hist total lo) by (split; assumption).
    assert (Hnn : (0 <= between hist total lo)%Q).
    { unfold between. apply betweenExact_nonneg.
      - pose proof (weightUpTo_nonneg hist hist_nonneg lo). lia.
      - pose proof (weightUpTo_mono hist hist_nonneg lo 255). lia. }
    destruct (Qltb (varMax st) (between hist total lo)) eqn:Etest.
    + (* a new maximum *)
      apply Qltb_lt in Etest.
      apply IH; cbn [wB sumB threshold varMax]; try lia; try reflexivity.
      right. split; [lia|]. split; [exact Hsplit|]. split; [reflexivity|].
      destruct Hsc as [(Hno & Et & Ev)|(Hthr & Hs & Ev & Hmax & Hfirst)].
      * split; intros t Ht Hst.
        -- destruct (Z.eq_dec t lo) as [->|Hne]; [lra|]. exfalso. apply (Hno t); [lia | exact Hst].
        -- exfalso. apply (Hno t); [lia | exact Hst].
      * rewrite Ev in Etest. split; intros t Ht Hst.
        -- destruct (Z.eq_dec t lo) as [->|Hne]; [lra|].
           specialize (Hmax t ltac:(lia) Hst). lra.
        -- specialize (Hmax t ltac:(lia) Hst). lra.
    + (* not above the maximum so far *)
      assert (Hle : (between hist total lo <= varMax st)%Q).
      { destruct (Qlt_le_dec (varMax st) (between hist total lo)) as [Hlt|Hle]; [|exact Hle].
        apply Qltb_lt in Hlt. congruence. }
      apply IH; cbn [wB sumB threshold varMax]; try lia; try reflexivity.
      destruct Hsc as [(Hno & Et & Ev)|(Hthr & Hs & Ev & Hmax & Hfirst)].
      * exfalso. rewrite Ev in Hle. change (inject_Z (-1)) with (-1)%Q in Hle. lra.
      * right. split; [lia|]. split; [exact Hs|]. split; [exact Ev|]. split; [|exact Hfirst].
        rewrite Ev in Hle. intros t Ht Hst.
        destruct (Z.eq_dec t lo) as [->|Hne]; [exact Hle|]. apply Hmax; [lia | exact Hst].
Qed.

Lemma otsuFromHistogram_scanned :
  exists vmax, scanned hist total 256 (otsuFromHistogram (N := Q) hist total) vmax.
Proof.
  unfold otsuFromHistogram.
  destruct (Z.leb_spec total 0) as [Hle|Hgt].
  - exists (inject_Z (-1)). left. split; [|auto]. intros t Ht [Hb Hf].
    pose proof (weightUpTo_nonneg hist hist_nonneg t).
    pose proof (weightUpTo_mono hist hist_nonneg t 255). lia.
  - cbv zeta. rewrite fold_left_sumOf, Z.add_0_l.
    apply (otsuLoop_scanned 256 0); cbn [wB sumB threshold varMax]; try lia; try reflexivity.
    left. split; [intros t Ht; lia | auto].
Qed.

End ExactScan.

(** *** The threshold maximises the computed variance *)

Section ComputedScan.
Variables (hist : Histogram) (total : Z).
Hypothesis hist_nonneg : forall t, 0 <= hist t.
Hypothesis total_counted : total = weightUpTo hist 255.
Hypothesis total_small : 255 * total < 2 ^ 53.

Lemma sumUpTo_bounds (t : Z) :
  0 <= t <= 255 ->
  0 <= sumUpTo hist t <= sumOf (fun u => u * hist u) (range 0 256) /\
  sumOf (fun u => u * hist u) (range 0 256) <= 255 * total.
Proof.
  intros Ht. unfold sumUpTo.
  rewrite (range_split 0 (t + 1) 256), sumOf_app by lia.
  pose proof (weightedSum_bounds hist (range 0 (t + 1)) hist_nonneg
                ltac:(intros u Hu; apply range_In in Hu; lia)) as B1.
  pose proof (weightedSum_bounds hist (range (t + 1) 256) hist_nonneg
                ltac:(intros u Hu; apply range_In in Hu; lia)) as B2.
  rewrite total_counted. unfold weightUpTo. change (255 + 1) with 256.
  rewrite (range_split 0 (t + 1) 256), sumOf_app by lia. lia.
Qed.

(** At a level that splits the pixels the computed variance is a number,
    and it is above the initial maximum -1. *)
Lemma computedBetween_regular (t : Z) :
  0 <= t <= 255 -> splits hist total t ->
  PrimFloat.is_nan (computedBetween hist total t) = false /\
  (floatOfZ (-1) <? computedBetween hist total t)%float = true.
Proof.
  intros Ht Hs. rewrite total_counted in Hs.
  destruct (splits_positive hist hist_nonneg t Ht Hs) as [Hb Hf].
  destruct (sumUpTo_bounds t Ht) as [B1 B2].
  destruct (varBetweenOf_doubled 0 total
              (sumOf (fun u => u * hist u) (range 0 256)) (sumUpTo hist t) (weightUpTo hist t))
    as (_ & R & NN); try (change (2 ^ 0) with 1; lia).
  fold (computedBetween hist total t) in R, NN.
  rewrite is_nan_SF, FloatAxioms.ltb_spec.
  change (Prim2SF (floatOfZ (-1))) with (S754_finite true 4503599627370496 (-52)).
  rewrite SFltb_negative by exact NN. split; [|reflexivity].
  destruct (Prim2SF (computedBetween hist total t)); try reflexivity; contradiction.
Qed.

Lemma computed_no_split_after_break (lo t : Z) :
  0 <= lo -> total - weightUpTo hist lo = 0 -> lo <= t <= 255 -> ~ splits hist total t.
Proof.
  intros Hlo Hbreak Ht [_ Hf]. apply Hf.
  pose proof (weightUpTo_mono hist hist_nonneg lo t).
  pose proof (weightUpTo_mono hist hist_nonneg t 255). lia.
Qed.

Lemma otsuLoop_scannedComputed (n : nat) (lo : Z) (st : Scan float) :
  0 <= lo -> lo + Z.of_nat n = 256 ->
  wB st = sumOf hist (range 0 lo) ->
  sumB st = sumOf (fun u => u * hist u) (range 0 lo) ->
  scannedComputed hist total lo (threshold st) (varMax st) ->
  exists vmax,
    scannedComputed hist total 256
      (otsuLoop hist total (sumOf (fun u => u * hist u) (range 0 256)) (countFrom lo n) st)
      vmax.
Proof.
  revert lo st; induction n as [|n IH]; intros lo st Hlo Hend Ew Es Hsc.
  - cbn [countFrom otsuLoop]. exists (varMax st).
    replace 256 with lo by lia. exact Hsc.
  - cbn [countFrom otsuLoop].
    assert (Ew' : wB st + hist lo = weightUpTo hist lo)
      by (rewrite weightUpTo_step, Ew by lia; reflexivity).
    assert (Es' : sumB st + lo * hist lo = sumUpTo hist lo)
      by (rewrite sumUpTo_step, Es by lia; reflexivity).
    rewrite Ew', Es'.
    destruct (Z.eqb_spec (weightUpTo hist lo) 0) as [E0|Hwb].
    { (* nothing at or below this level yet *)
      apply IH; cbn [wB sumB threshold varMax]; try lia.
      - reflexivity.
      - fold (sumUpTo hist lo). rewrite <- Es'.
        pose proof (hist_nonneg lo). pose proof (sumOf_nonneg hist (range 0 lo) hist_nonneg).
        assert (hist lo = 0) by lia. nia.
      - destruct Hsc as [(Hno & Et & Ev)|(Hthr & Hs & Ev & Hmax & Hfirst)].
        + left. split; [|auto]. intros t Ht. destruct (Z.eq_dec t lo) as [->|Hne].
          * intros [Hb _]. now apply Hb.
          * apply Hno. lia.
        + right. split; [lia|]. split; [exact Hs|]. split; [exact Ev|]. split; [|exact Hfirst].
          intros t Ht Hst. destruct (Z.eq_dec t lo) as [->|Hne].
          * destruct Hst as [Hb _]. now destruct Hb.
          * apply Hmax; [lia | exact Hst]. }
    destruct (Z.eqb_spec (total - weightUpTo hist lo) 0) as [E0|Hwf].
    { (* nothing above this level: the scan ends *)
      exists (varMax st).
      destruct Hsc as [(Hno & Et & Ev)|(Hthr & Hs & Ev & Hmax & Hfirst)].
      - left. split; [|auto]. intros t Ht. destruct (Z_lt_le_dec t lo) as [Hlt|Hge].
        + apply Hno. lia.
        + apply (computed_no_split_after_break lo); [lia | exact E0 | lia].
      - right. split; [lia|]. split; [exact Hs|]. split; [exact Ev|]. split; [|exact Hfirst].
        intros t Ht Hst. destruct (Z_lt_le_dec t lo) as [Hlt|Hge].
        + apply Hmax; [lia | exact Hst].
        + exfalso. revert Hst.
          apply (computed_no_split_after_break lo); [lia | exact E0 | lia]. }
    fold (varBetweenOf (N := float) total (sumOf (fun u => u * hist u) (range 0 256))
            (sumUpTo hist lo) (weightUpTo hist lo)).
    fold (computedBetween hist total lo).
    assert (Hsplit : splits hist total lo) by (split; assumption).
    destruct (computedBetween_regular lo ltac:(lia) Hsplit) as [Hnum Habove].
    cbn [nltb Float64].
    destruct (varMax st <? computedBetween hist total lo)%float eqn:Etest.
    + (* a new maximum *)
      apply IH; cbn [wB sumB threshold varMax]; try lia; try reflexivity.
      right. split; [lia|]. split; [exact Hsplit|]. split; [reflexivity|].
      destruct Hsc as [(Hno & Et & Ev)|(Hthr & Hs & Ev & Hmax & Hfirst)].
      * split; intros t Ht Hst.
        -- destruct (Z.eq_dec t lo) as [->|Hne]; [now apply leb_refl|].
           exfalso. apply (Hno t); [lia | exact Hst].
        -- exfalso. apply (Hno t); [lia | exact Hst].
      * rewrite Ev in Etest. split; intros t Ht Hst.
        -- destruct (Z.eq_dec t lo) as [->|Hne]; [now apply leb_refl|].
           specialize (Hmax t ltac:(lia) Hst).
           apply ltb_leb. now apply (leb_ltb_trans _ (computedBetween hist total (threshold st))).
        -- specialize (Hmax t ltac:(lia) Hst).
           now apply (leb_ltb_trans _ (computedBetween hist total (threshold st))).
    + (* not above the maximum so far *)
      apply IH; cbn [wB sumB threshold varMax]; try lia; try reflexivity.
      destruct Hsc as [(Hno & Et & Ev)|(Hthr & Hs & Ev & Hmax & Hfirst)].
      * exfalso. rewrite Ev in Etest. congruence.
      * right. split; [lia|]. split; [exact Hs|]. split; [exact Ev|]. split; [|exact Hfirst].
        rewrite Ev in Etest. intros t Ht Hst.
        destruct (Z.eq_dec t lo) as [->|Hne]; [|apply Hmax; [lia | exact Hst]].
        apply not_ltb_leb; [|exact Hnum|exact Etest].
        apply (computedBetween_regular (threshold st)); [lia | exact Hs].
Qed.

Lemma otsuFromHistogram_scannedComputed :
  exists vmax, scannedComputed hist total 256 (otsuFromHistogram (N := float) hist total) vmax.
Proof.
  unfold otsuFromHistogram.
  destruct (Z.leb_spec total 0) as [Hle|Hgt].
  - exists (floatOfZ (-1)). left. split; [|auto]. intros t Ht [Hb Hf].
    pose proof (weightUpTo_nonneg hist hist_nonneg t).
    pose proof (weightUpTo_mono hist hist_nonneg t 255). lia.
  - cbv zeta. rewrite fold_left_sumOf, Z.add_0_l.
    apply (otsuLoop_scannedComputed 256 0); cbn [wB sumB threshold varMax];
      try lia; try reflexivity.
    left. split; [intros t Ht; lia | auto].
Qed.

End ComputedScan.

(** X11: in the arithmetic of the code, [otsuThresholdFromRect] selects by
    the between-class variance it computes: for a histogram of non-negative
    counts (255 times their number below 2^53), the threshold returned is
    the first gray level, among those that split the pixels into two
    non-empty classes, at which the variance computed in binary64 is
    largest; it is the default 128 when no level splits the pixels. *)
Theorem X11_otsu_first_maximum_of_variance (hist : Histogram) :
  (forall t, 0 <= hist t) ->
  let total := histogramTotal hist in
  255 * total < 2 ^ 53 ->
  let thr := otsuFromHistogram (N := float) hist total in
  ((forall t, 0 <= t <= 255 -> ~ splits hist total t) /\ thr = 128)
  \/
  (0 <= thr <= 255 /\ splits hist total thr /\
   (forall t, 0 <= t <= 255 -> splits hist total t ->
      (computedBetween hist total t <=? computedBetween hist total thr)%float = true) /\
   (forall t, 0 <= t < thr -> splits hist total t ->
      (computedBetween hist total t <? computedBetween hist total thr)%float = true)).
Proof.
  intros Hpos total Hsmall thr.
  assert (Et : total = weightUpTo hist 255).
  { subst total. unfold histogramTotal. rewrite fold_left_sumOf. reflexivity. }
  destruct (otsuFromHistogram_scannedComputed hist total Hpos Et Hsmall)
    as (vmax & [(Hno & E & _)|(Hthr & Hs & _ & Hmax & Hfirst)]).
  - left. split; [|exact E]. intros t Ht. apply Hno. lia.
  - right. fold thr in Hthr, Hs, Hmax, Hfirst. split; [lia|]. split; [exact Hs|].
    split; [|exact Hfirst]. intros t Ht. apply Hmax. lia.
Qed.

Lemma X11_otsu_first_maximum_of_variance_witness :
  let hist := replicate 3 threeLevels in
  let total := histogramTotal hist in
  let thr := otsuFromHistogram (N := float) hist total in
  ((forall t, 0 <= t <= 255 -> ~ splits hist total t) /\ thr = 128)
  \/
  (0 <= thr <= 255 /\ splits hist total thr /\
   (forall t, 0 <= t <= 255 -> splits hist total t ->
      (computedBetween hist total t <=? computedBetween hist total thr)%float = true) /\
   (forall t, 0 <= t < thr -> splits hist total t ->
      (computedBetween hist total t <? computedBetween hist total thr)%float = true)).
Proof.
  apply (X11_otsu_first_maximum_of_variance (replicate 3 threeLevels)).
  - intros t. unfold replicate. pose proof (threeLevels_nonneg t). lia.
  - vm_compute. reflexivity.
Defined.

(** *** The threshold is a gray level of the region *)

Lemma float_ltb_irreflexive (v : float) : PrimFloat.ltb v v = false.
Proof.
  rewrite FloatAxioms.ltb_spec. unfold SFltb.
  destruct (Prim2SF v) as [s|s| |s m e]; cbn [SFcompare]; try (destruct s; reflexivity);
    try reflexivity.
  destruct s; rewrite Z.compare_refl, Pos.compare_cont_refl; reflexivity.
Qed.

Lemma float_nltb_irreflexive (v : float) : nltb v v = false.
Proof. exact (float_ltb_irreflexive v). Qed.

Section OccupiedLevel.
Context {N : Type} `{Division N}.
Hypothesis nltb_irreflexive : forall v : N, nltb v v = false.
Variables (hist : Histogram) (total : Z).
Hypothesis hist_nonneg : forall t, 0 <= hist t.
Hypothesis total_counted : total = weightUpTo hist 255.

Lemma otsuLoop_occupied (sum : Z) (n : nat) (lo : Z) (st : Scan N) :
  0 <= lo -> lo + Z.of_nat n = 256 ->
  wB st = sumOf hist (range 0 lo) ->
  threshold st = 128 \/ occupiedSplit hist (threshold st) ->
  (wB st <> 0 ->
   nltb (varMax st) (varBetweenOf total sum (sumB st) (wB st)) = false) ->
  let thr := otsuLoop hist total sum (countFrom lo n) st in
  thr = 128 \/ occupiedSplit hist thr.
Proof.
  revert lo st; induction n as [|n IH]; intros lo st Hlo Hend Ew Hthr Hinv;
    cbn [countFrom otsuLoop]; [exact Hthr|].
  assert (Ew' : wB st + hist lo = weightUpTo hist lo)
    by (rewrite weightUpTo_step, Ew by lia; reflexivity).
  destruct (Z.eqb_spec (wB st + hist lo) 0) as [E0|Hwb].
  { apply IH; cbn [wB sumB threshold varMax]; try lia; auto; try (now rewrite Ew'). }
  destruct (Z.eqb_spec (total - (wB st + hist lo)) 0) as [E0|Hwf]; [exact Hthr|].
  fold (varBetweenOf (N := N) total sum (sumB st + lo * hist lo) (wB st + hist lo)).
  destruct (nltb (varMax st)
              (varBetweenOf total sum (sumB st + lo * hist lo) (wB st + hist lo))) eqn:Etest.
  - apply IH; cbn [wB sumB threshold varMax]; try lia; auto; try (now rewrite Ew').
    right. split; [lia|]. split.
    + pose proof (hist_nonneg lo) as Hh.
      destruct (Z.eq_dec (hist lo) 0) as [Ez|Hne]; [|lia]. exfalso.
      rewrite Ez, Z.mul_0_r, !Z.add_0_r in Etest.
      rewrite Hinv in Etest; [discriminate|]. rewrite Ez, Z.add_0_r in Hwb. exact Hwb.
    + rewrite Ew', total_counted in Hwf. unfold weightUpTo in Hwf.
      rewrite (range_split 0 (lo + 1) (255 + 1)), sumOf_app in Hwf by lia.
      destruct (sumOf_positive hist (range (lo + 1) (255 + 1))) as (u & Hu & Hne); [lia|].
      apply range_In in Hu. pose proof (hist_nonneg u). exists u. split; lia.
  - apply IH; cbn [wB sumB threshold varMax]; try lia; auto; try (now rewrite Ew').
Qed.

Lemma otsuFromHistogram_occupied :
  let thr := otsuFromHistogram (N := N) hist total in
  thr = 128 \/ occupiedSplit hist thr.
Proof.
  unfold otsuFromHistogram. destruct (total <=? 0); [now left|]. cbv zeta.
  change (range 0 256) with (countFrom 0 256).
  apply (otsuLoop_occupied _ 256 0
           {| sumB := 0; wB := 0; varMax := ofZ (-1); threshold := 128 |}).
  - lia.
  - reflexivity.
  - reflexivity.
  - now left.
  - cbn [wB]. intros Hne. now destruct Hne.
Qed.

End OccupiedLevel.

(** *** What the histogram counts *)

Lemma filter_map_length {A B : Type} (f : B -> bool) (g : A -> B) (l : list A) :
  length (filter f (map g l)) = length (filter (fun a => f (g a)) l).
Proof.
  induction l as [|a l IH]; [reflexivity|].
  cbn [map filter]. destruct (f (g a)); cbn [length]; now rewrite IH.
Qed.

Lemma countRow_histogram (img : ImageData) (py : Z) (cols : list Z)
    (acc : Histogram * Z) (t : Z) :
  let acc' :=
    fold_left
      (fun acc px =>
         let g := grayAt (data img) (pixelIndex img px py) in
         (increment (fst acc) g, snd acc + 1))
      cols acc in
  fst acc' t
  = fst acc t
    + Z.of_nat (length (filter (fun px => grayAt (data img) (pixelIndex img px py) =? t) cols))
  /\ snd acc' = snd acc + Z.of_nat (length cols).
Proof.
  revert acc; induction cols as [|px cols IH]; intros acc; cbn [fold_left filter length].
  - cbv zeta. lia.
  - cbv zeta in IH |- *.
    destruct (IH (increment (fst acc) (grayAt (data img) (pixelIndex img px py)),
                  snd acc + 1)) as [I1 I2].
    rewrite I1, I2. cbn [fst snd]. unfold increment. rewrite (Z.eqb_sym t).
    destruct (grayAt (data img) (pixelIndex img px py) =? t); cbn [length]; lia.
Qed.

Lemma countRect_histogram (img : ImageData) (rect : Rect float) (t : Z) :
  fst (countRect img rect) t = Z.of_nat (length (atLevel img rect t)) /\
  snd (countRect img rect) = Z.of_nat (length (rectPixels rect)).
Proof.
  unfold countRect, atLevel, rectPixels. cbv zeta.
  generalize (range (toInt32 (y rect)) (toInt32 (y rect + h rect)%float)).
  generalize (range (toInt32 (x rect)) (toInt32 (x rect + w rect)%float)).
  intros cols rows.
  assert (G : forall acc : Histogram * Z,
            let acc' :=
              fold_left
                (fun acc py =>
                   fold_left
                     (fun acc px =>
                        let g := grayAt (data img) (pixelIndex img px py) in
                        (increment (fst acc) g, snd acc + 1))
                     cols acc)
                rows acc in
            fst acc' t
            = fst acc t
              + Z.of_nat
                  (length
                     (filter
                        (fun p => grayAt (data img) (pixelIndex img (fst p) (snd p)) =? t)
                        (flat_map (fun py => map (fun px => (px, py)) cols) rows)))
            /\ snd acc' = snd acc
                          + Z.of_nat (length (flat_map (fun py => map (fun px => (px, py)) cols)
                                                       rows))).
  { induction rows as [|py rows IH]; intros acc; cbn [fold_left flat_map].
    - cbn. lia.
    - cbv zeta in IH |- *.
      destruct (countRow_histogram img py cols acc t) as [R1 R2]. cbv zeta in R1, R2.
      destruct (IH (fold_left
                      (fun acc px =>
                         (increment (fst acc) (grayAt (data img) (pixelIndex img px py)),
                          snd acc + 1))
                      cols acc)) as [I1 I2].
      rewrite I1, I2, R1, R2.
      rewrite filter_app, !length_app, filter_map_length, length_map. cbn [fst snd]. lia. }
  specialize (G (emptyHistogram, 0)). cbv zeta in G. cbn [fst snd] in G.
  unfold emptyHistogram in G at 2. exact G.
Qed.

(** X12: the histogram of [otsuThresholdFromRect] counts the pixels of the
    rect (columns [x | 0 .. (x + w) | 0], rows [y | 0 .. (y + h) | 0], upper
    bounds excluded): bin [t] holds the number of pixels whose gray level is
    [t], and [total] is the number of pixels. *)
Theorem X12_histogram_counts_the_pixels (img : ImageData) (rect : Rect float) (t : Z) :
  fst (countRect img rect) t = Z.of_nat (length (atLevel img rect t)) /\
  snd (countRect img rect) = Z.of_nat (length (rectPixels rect)).
Proof. exact (countRect_histogram img rect t). Qed.

(** X13: the threshold computed in binary64 for a rect of a byte image is
    the default 128 or the gray level of some pixel of the rect, and then
    some other pixel of the rect is lighter than the threshold. *)
Theorem X13_threshold_is_a_gray_level (img : ImageData) (rect : Rect float) :
  Forall (fun v => 0 <= v <= 255) (data img) ->
  let thr := otsuThresholdFromRect img rect in
  thr = 128 \/
  (0 <= thr <= 255 /\
   exists p q,
     In p (rectPixels rect) /\ In q (rectPixels rect) /\
     grayAt (data img) (pixelIndex img (fst p) (snd p)) = thr /\
     thr < grayAt (data img) (pixelIndex img (fst q) (snd q))).
Proof.
  intros Hd thr. subst thr. unfold otsuThresholdFromRect.
  destruct (countRect_counted img rect Hd) as [Hpos Htot].
  pose proof (countRect_histogram img rect) as Hh.
  destruct (countRect img rect) as [hist total]. cbn [fst snd] in *.
  destruct (otsuFromHistogram_occupied float_nltb_irreflexive hist total Hpos Htot)
    as [E|(Hr & Hocc & u & Hu & Hup)]; [now left|].
  right. split; [exact Hr|].
  assert (Hpix : forall t, 0 < hist t ->
            exists p, In p (rectPixels rect) /\
                      grayAt (data img) (pixelIndex img (fst p) (snd p)) = t).
  { intros t Ht. destruct (Hh t) as [Et _]. rewrite Et in Ht. unfold atLevel in Ht.
    destruct (filter _ (rectPixels rect)) as [|p rest] eqn:Ef; [cbn in Ht; lia|].
    assert (Hin : In p (filter
                          (fun p => grayAt (data img) (pixelIndex img (fst p) (snd p)) =? t)
                          (rectPixels rect))) by (rewrite Ef; now left).
    apply filter_In in Hin as [Hin Hg]. exists p. split; [exact Hin | lia]. }
  destruct (Hpix _ Hocc) as (p & Hp & Ep). destruct (Hpix u Hup) as (q & Hq & Eq).
  exists p, q. repeat split; auto. lia.
Qed.

Lemma X13_threshold_is_a_gray_level_witness :
  let thr := otsuThresholdFromRect sixPixels
               {| x := 0%float; y := 0%float; w := 6%float; h := 1%float |} in
  thr = 128 \/
  (0 <= thr <= 255 /\
   exists p q,
     In p (rectPixels {| x := 0%float; y := 0%float; w := 6%float; h := 1%float |}) /\
     In q (rectPixels {| x := 0%float; y := 0%float; w := 6%float; h := 1%float |}) /\
     grayAt (data sixPixels) (pixelIndex sixPixels (fst p) (snd p)) = thr /\
     thr < grayAt (data sixPixels) (pixelIndex sixPixels (fst q) (snd q))).
Proof.
  apply X13_threshold_is_a_gray_level.
  vm_compute. repeat constructor; discriminate.
Defined.

(** *** A region of two gray levels *)

Lemma sumOf_two_levels (f : Z -> Z) (a b : Z) (n : nat) (lo : Z) :
  a < b -> (forall t, t <> a -> t <> b -> f t = 0) ->
  sumOf f (countFrom lo n)
  = (if (lo <=? a) && (a <? lo + Z.of_nat n) then f a else 0)
    + (if (lo <=? b) && (b <? lo + Z.of_nat n) then f b else 0).
Proof.
  intros Hab Hz. revert lo; induction n as [|n IH]; intros lo; cbn [countFrom sumOf].
  - destruct (Z.leb_spec lo a), (Z.ltb_spec a (lo + Z.of_nat 0)),
      (Z.leb_spec lo b), (Z.ltb_spec b (lo + Z.of_nat 0)); cbn [andb]; lia.
  - rewrite IH.
    destruct (Z.eq_dec lo a) as [->|Hna]; [|destruct (Z.eq_dec lo b) as [->|Hnb]].
    + destruct (Z.leb_spec a a), (Z.ltb_spec a (a + Z.of_nat (S n))),
        (Z.leb_spec (a + 1) a), (Z.ltb_spec a (a + 1 + Z.of_nat n)),
        (Z.leb_spec a b), (Z.ltb_spec b (a + Z.of_nat (S n))),
        (Z.leb_spec (a + 1) b), (Z.ltb_spec b (a + 1 + Z.of_nat n)); cbn [andb]; lia.
    + destruct (Z.leb_spec b a), (Z.ltb_spec a (b + Z.of_nat (S n))),
        (Z.leb_spec (b + 1) a), (Z.ltb_spec a (b + 1 + Z.of_nat n)),
        (Z.leb_spec b b), (Z.ltb_spec b (b + Z.of_nat (S n))),
        (Z.leb_spec (b + 1) b), (Z.ltb_spec b (b + 1 + Z.of_nat n)); cbn [andb]; lia.
    + rewrite (Hz lo Hna Hnb).
      destruct (Z.leb_spec lo a), (Z.ltb_spec a (lo + Z.of_nat (S n))),
        (Z.leb_spec (lo + 1) a), (Z.ltb_spec a (lo + 1 + Z.of_nat n)),
        (Z.leb_spec lo b), (Z.ltb_spec b (lo + Z.of_nat (S n))),
        (Z.leb_spec (lo + 1) b), (Z.ltb_spec b (lo + 1 + Z.of_nat n)); cbn [andb]; lia.
Qed.

Section TwoLevels.
Variables (hist : Histogram) (a b : Z).
Hypothesis levels : 0 <= a < b.
Hypothesis level_range : b <= 255.
Hypothesis dark : 0 < hist a.
Hypothesis light : 0 < hist b.
Hypothesis others : forall t, t <> a -> t <> b -> hist t = 0.

Lemma two_levels_nonneg (t : Z) : 0 <= hist t.
Proof.
  destruct (Z.eq_dec t a) as [->|Ha]; [lia|]. destruct (Z.eq_dec t b) as [->|Hb]; [lia|].
  rewrite others; auto. lia.
Qed.

Lemma two_levels_weight (t : Z) :
  0 <= t ->
  weightUpTo hist t = (if a <=? t then hist a else 0) + (if b <=? t then hist b else 0).
Proof.
  intros Ht. unfold weightUpTo, range.
  rewrite (sumOf_two_levels hist a b) by (auto; lia).
  destruct (Z.leb_spec 0 a), (Z.ltb_spec a (0 + Z.of_nat (Z.to_nat (t + 1 - 0)))),
    (Z.leb_spec 0 b), (Z.ltb_spec b (0 + Z.of_nat (Z.to_nat (t + 1 - 0)))),
    (Z.leb_spec a t), (Z.leb_spec b t); cbn [andb]; lia.
Qed.

Lemma two_levels_sum (t : Z) :
  0 <= t ->
  sumUpTo hist t
  = (if a <=? t then a * hist a else 0) + (if b <=? t then b * hist b else 0).
Proof.
  intros Ht. unfold sumUpTo, range.
  rewrite (sumOf_two_levels (fun u => u * hist u) a b)
    by (try lia; intros u Ha Hb; rewrite others; auto; lia).
  destruct (Z.leb_spec 0 a), (Z.ltb_spec a (0 + Z.of_nat (Z.to_nat (t + 1 - 0)))),
    (Z.leb_spec 0 b), (Z.ltb_spec b (0 + Z.of_nat (Z.to_nat (t + 1 - 0)))),
    (Z.leb_spec a t), (Z.leb_spec b t); cbn [andb]; lia.
Qed.

Lemma two_levels_total : histogramTotal hist = hist a + hist b.
Proof.
  unfold histogramTotal. rewrite fold_left_sumOf, Z.add_0_l.
  change (sumOf hist (range 0 256)) with (weightUpTo hist 255).
  rewrite two_levels_weight by lia.
  destruct (Z.leb_spec a 255), (Z.leb_spec b 255); lia.
Qed.

Lemma two_levels_exact : otsuFromHistogram (N := Q) hist (histogramTotal hist) = a.
Proof.
  assert (Et : histogramTotal hist = weightUpTo hist 255).
  { unfold histogramTotal. rewrite fold_left_sumOf. reflexivity. }
  destruct (otsuFromHistogram_scanned hist (histogramTotal hist) two_levels_nonneg Et)
    as (vmax & [(Hno & _ & _)|(Hthr & Hs & _ & _ & Hfirst)]).
  - exfalso. apply (Hno a); [lia|]. unfold splits.
    rewrite two_levels_total, two_levels_weight by lia.
    destruct (Z.leb_spec a a), (Z.leb_spec b a); lia.
  - set (thr := otsuFromHistogram (N := Q) hist (histogramTotal hist)) in *.
    assert (Hab : a <= thr < b).
    { destruct Hs as [Hb Hf]. rewrite two_levels_total in Hf.
      rewrite two_levels_weight in Hb, Hf by lia.
      destruct (Z.leb_spec a thr), (Z.leb_spec b thr); lia. }
    destruct (Z.eq_dec thr a) as [E|Hne]; [exact E|]. exfalso.
    assert (Hsa : splits hist (histogramTotal hist) a).
    { unfold splits. rewrite two_levels_total, two_levels_weight by lia.
      destruct (Z.leb_spec a a), (Z.leb_spec b a); lia. }
    specialize (Hfirst a ltac:(lia) Hsa). revert Hfirst. unfold between.
    rewrite !two_levels_weight, !two_levels_sum by lia.
    destruct (Z.leb_spec a a), (Z.leb_spec b a), (Z.leb_spec a thr), (Z.leb_spec b thr);
      try lia.
    apply Qlt_irrefl.
Qed.

Lemma two_levels_binary64 :
  otsuFromHistogram (N := float) hist (histogramTotal hist) = a \/
  otsuFromHistogram (N := float) hist (histogramTotal hist) = 128.
Proof.
  assert (Et : histogramTotal hist = weightUpTo hist 255).
  { unfold histogramTotal. rewrite fold_left_sumOf. reflexivity. }
  destruct (otsuFromHistogram_occupied float_nltb_irreflexive hist
              (histogramTotal hist) two_levels_nonneg Et)
    as [E|(Hr & Hocc & u & Hu & Hup)]; [now right|].
  left. set (thr := otsuFromHistogram (N := float) hist (histogramTotal hist)) in *.
  destruct (Z.eq_dec thr a) as [E|Hna]; [exact E|]. exfalso.
  destruct (Z.eq_dec thr b) as [E|Hnb]; [|rewrite (others thr) in Hocc; auto; lia].
  rewrite (others u) in Hup; lia.
Qed.

End TwoLevels.

(** X14: for a region with exactly two gray levels a < b the threshold,
    computed without rounding, is the darker level a itself; computed in
    binary64 it is a or the default 128.  As ink is what is strictly darker
    than the threshold, a threshold of a makes no pixel of the region
    ink. *)
Theorem X14_two_level_threshold (hist : Histogram) (a b : Z) :
  0 <= a < b -> b <= 255 -> 0 < hist a -> 0 < hist b ->
  (forall t, t <> a -> t <> b -> hist t = 0) ->
  otsuFromHistogram (N := Q) hist (histogramTotal hist) = a /\
  (otsuFromHistogram (N := float) hist (histogramTotal hist) = a \/
   otsuFromHistogram (N := float) hist (histogramTotal hist) = 128) /\
  (forall t, 0 < hist t ->
     (t <? otsuFromHistogram (N := Q) hist (histogramTotal hist)) = false).
Proof.
  intros Hab Hb Ha Hl Ho. split; [|split].
  - now apply (two_levels_exact hist a b).
  - now apply (two_levels_binary64 hist a b).
  - intros t Ht. rewrite (two_levels_exact hist a b) by assumption.
    destruct (Z.eq_dec t a) as [->|Hna]; [apply Z.ltb_irrefl|].
    destruct (Z.eq_dec t b) as [->|Hnb]; [apply Z.ltb_ge; lia|].
    rewrite Ho in Ht; auto. lia.
Qed.

Lemma X14_two_level_threshold_witness :
  otsuFromHistogram (N := Q) (fun t => if t =? 0 then 3 else if t =? 255 then 5 else 0)
    (histogramTotal (fun t => if t =? 0 then 3 else if t =? 255 then 5 else 0)) = 0 /\
  (otsuFromHistogram (N := float) (fun t => if t =? 0 then 3 else if t =? 255 then 5 else 0)
     (histogramTotal (fun t => if t =? 0 then 3 else if t =? 255 then 5 else 0)) = 0 \/
   otsuFromHistogram (N := float) (fun t => if t =? 0 then 3 else if t =? 255 then 5 else 0)
     (histogramTotal (fun t => if t =? 0 then 3 else if t =? 255 then 5 else 0)) = 128) /\
  (forall t, 0 < (fun t => if t =? 0 then 3 else if t =? 255 then 5 else 0) t ->
     (t <? otsuFromHistogram (N := Q)
             (fun t => if t =? 0 then 3 else if t =? 255 then 5 else 0)
             (histogramTotal (fun t => if t =? 0 then 3 else if t =? 255 then 5 else 0)))
     = false).
Proof.
  apply (X14_two_level_threshold _ 0 255); try lia; try reflexivity.
  intros t H0 H255. destruct (Z.eqb_spec t 0); [lia|]. destruct (Z.eqb_spec t 255); lia.
Defined.

(** In binary64 too, a black-and-white image gets the threshold 0, and
    then none of its pixels is ink. *)
Example twoTone_has_no_ink :
  let ink := buildInkFn (twoTone 3 5)
               {| x := 0%float; y := 0%float; w := 8%float; h := 1%float |} in
  th ink = 0 /\ forallb (fun px => negb (isInk ink px 0)) (range 0 8) = true.
Proof. vm_compute. split; reflexivity. Qed.

End ThresholdFacts.

Module TickFacts.
Import Detect Ticks DetectFacts.

(** *** Clamping twice *)

Lemma clampRect_idempotent (r : Rect Z) (W H : Z) :
  clampRect (clampRect r W H) W H = clampRect r W H.
Proof. unfold clampRect. cbn. f_equal; lia. Qed.

(** X15: clamping a rect with integer fields a second time changes
    nothing, so that the axis locators, which clamp their ROI themselves,
    return the same line for a ROI and for that ROI already clamped (as
    [detectAxesAndTicksTwoRois] passes it). *)
Theorem X15_clamping_twice (img : ImageData) (roi : Rect Z) (ink : Z -> Z -> bool) :
  let r := clampRect roi (width img) (height img) in
  clampRect r (width img) (height img) = r /\
  findXAxisY img r ink = findXAxisY img roi ink /\
  findYAxisX img r ink = findYAxisX img roi ink.
Proof.
  cbv zeta. unfold findXAxisY, findYAxisX. cbv zeta.
  rewrite !clampRect_idempotent. repeat split.
Qed.

(** *** The centres of the clusters *)

Lemma mean_bounds (lo hi sum : Q) (cnt : Z) :
  0 < cnt ->
  (lo * inject_Z cnt <= sum)%Q -> (sum <= hi * inject_Z cnt)%Q ->
  (lo <= sum / inject_Z cnt <= hi)%Q.
Proof.
  intros Hc Hlo Hhi.
  assert (Hpos : (0 < inject_Z cnt)%Q) by (change 0%Q with (inject_Z 0); now rewrite <- Zlt_Qlt).
  split; [apply Qle_shift_div_l | apply Qle_shift_div_r]; assumption.
Qed.

(** The loop of [cluster1D] on sorted exact values: [first] and [prev] are
    the smallest and the largest member of the cluster under construction,
    whose members sum to [sum]. *)
Lemma clusterLoop_centres (d : Q) (rest : list Q) (first prev sum : Q) (cnt : Z) :
  0 < cnt -> (first <= prev)%Q ->
  (first * inject_Z cnt <= sum)%Q -> (sum <= prev * inject_Z cnt)%Q ->
  Sorted Qle (prev :: rest) ->
  exists c0 tail,
    clusterLoop d rest prev sum cnt = c0 :: tail /\
    apart d (c0 :: tail) /\
    Forall (fun c => (first <= c)%Q /\ exists hi, In hi (prev :: rest) /\ (c <= hi)%Q)
           (c0 :: tail) /\
    (length (c0 :: tail) <= S (length rest))%nat.
Proof.
  revert first prev sum cnt; induction rest as [|vi rest IH];
    intros first prev sum cnt Hc Hfp Hlo Hhi Hs.
  - cbn [clusterLoop]. cbn [ndiv ofZ ExactDiv Exact].
    destruct (mean_bounds first prev sum cnt Hc Hlo Hhi) as [B1 B2].
    exists (sum / inject_Z cnt)%Q, []. repeat split; auto.
    constructor; [|constructor]. split; [exact B1|].
    exists prev. split; [now left | exact B2].
  - inversion Hs as [|? ? Hs' Hhd]; subst. inversion Hhd as [|? ? Hpv]; subst.
    cbn [clusterLoop]. cbn [ndiv ofZ nleb nsub nadd ExactDiv Exact].
    assert (Hcnt : inject_Z (cnt + 1) == inject_Z cnt + 1)
      by (rewrite inject_Z_plus; reflexivity).
    assert (Hpos : (0 < inject_Z cnt)%Q)
      by (change 0%Q with (inject_Z 0); now rewrite <- Zlt_Qlt).
    destruct (Qle_bool (vi - prev) d) eqn:Egap.
    + destruct (IH first vi (sum + vi)%Q (cnt + 1)) as (c0 & tail & E & A & U & L).
      * lia.
      * lra.
      * rewrite Hcnt. lra.
      * rewrite Hcnt.
        assert (prev * inject_Z cnt <= vi * inject_Z cnt)%Q
          by (apply Qmult_le_compat_r; lra).
        lra.
      * exact Hs'.
      * exists c0, tail. rewrite E. split; [reflexivity|]. split; [exact A|]. split.
        -- revert U. apply Forall_impl. intros c (Hlow & hi & Hin & Hle).
           split; [exact Hlow|]. exists hi. split; [now right | exact Hle].
        -- cbn [length] in *. lia.
    + apply Qle_bool_false in Egap.
      destruct (mean_bounds first prev sum cnt Hc Hlo Hhi) as [B1 B2].
      destruct (IH vi vi vi 1) as (c1 & tail & E & A & U & L).
      * lia.
      * lra.
      * change (inject_Z 1) with 1%Q. lra.
      * change (inject_Z 1) with 1%Q. lra.
      * exact Hs'.
      * exists (sum / inject_Z cnt)%Q, (c1 :: tail). rewrite E.
        inversion U as [|? ? [Hc1 _] _]; subst.
        split; [reflexivity|]. split; [|split].
        -- cbn [apart]. split; [lra | exact A].
        -- constructor.
           ++ split; [exact B1|]. exists prev. split; [now left | exact B2].
           ++ revert U. apply Forall_impl. intros c (Hlow & hi & Hin & Hle).
              split; [lra|]. exists hi. split; [now right | exact Hle].
        -- cbn [length] in *. lia.
Qed.

Lemma cluster1D_centres (values : list Q) (d : Q) :
  let cs := cluster1D values d in
  (cs = [] <-> values = []) /\
  (length cs <= length values)%nat /\
  apart d cs /\
  Forall (fun c => exists lo hi, In lo values /\ In hi values /\ (lo <= c <= hi)%Q) cs.
Proof.
  unfold cluster1D.
  pose proof (sortAscending_Permutation values) as HP.
  pose proof (sortAscending_Sorted values) as HS.
  destruct (sortAscending values) as [|v0 rest] eqn:E.
  - apply Permutation_sym, Permutation_nil in HP. subst values.
    repeat split; auto.
  - destruct (clusterLoop_centres d rest v0 v0 v0 1) as (c0 & tail & Ec & A & U & L);
      try lia; try lra; auto;
      try (change (inject_Z 1) with 1%Q; lra).
    rewrite Ec. split; [|split; [|split]].
    + split; [discriminate|]. intros ->. apply Permutation_nil in HP. discriminate.
    + apply Permutation_length in HP. cbn [length] in *. lia.
    + exact A.
    + revert U. apply Forall_impl. intros c (Hlow & hi & Hin & Hle).
      exists v0, hi. split; [|split; [|split; assumption]].
      * apply (Permutation_in _ (Permutation_sym HP)). now left.
      * apply (Permutation_in _ (Permutation_sym HP)). exact Hin.
Qed.

(** X16: on exact numbers, [cluster1D] returns no centre for no value and
    at least one otherwise, never more centres than values; consecutive
    centres are more than the merge distance apart, and every centre lies
    between two of the values. *)
Theorem X16_cluster_centres_are_apart (values : list Q) (d : Q) :
  let cs := cluster1D values d in
  (cs = [] <-> values = []) /\
  (length cs <= length values)%nat /\
  apart d cs /\
  Forall (fun c => exists lo hi, In lo values /\ In hi values /\ (lo <= c <= hi)%Q) cs.
Proof. exact (cluster1D_centres values d). Qed.

(** *** Tick marks *)

Lemma someOffset_true (test : Z -> bool) :
  someOffset test = true <-> exists d, 3 <= d <= 14 /\ test d = true.
Proof.
  unfold someOffset. rewrite existsb_exists. split.
  - intros (d & Hin & Ht). apply range_In in Hin. unfold minOffset, maxOffset in Hin.
    exists d. split; [lia | exact Ht].
  - intros (d & Hd & Ht). exists d.
    split; [apply range_In; unfold minOffset, maxOffset; lia | exact Ht].
Qed.

Lemma rowInside_true (r : Rect Z) (H py : Z) :
  rowInside r H py = true <-> Detect.y r <= py < Detect.y r + h r /\ 0 <= py < H.
Proof. unfold rowInside. rewrite !andb_true_iff, !Z.leb_le, !Z.ltb_lt. lia. Qed.

Lemma columnInside_true (r : Rect Z) (W px : Z) :
  columnInside r W px = true <-> Detect.x r <= px < Detect.x r + w r /\ 0 <= px < W.
Proof. unfold columnInside. rewrite !andb_true_iff, !Z.leb_le, !Z.ltb_lt. lia. Qed.

Lemma candidatesX_In (img : ImageData) (r : Rect Z) (axisY : Z) (ink : Z -> Z -> bool)
    (px : Z) :
  In px (candidatesX img r axisY ink) <-> tickColumn img r axisY ink px.
Proof.
  unfold candidatesX, tickColumn. rewrite filter_In, range_In. cbv zeta.
  rewrite andb_true_iff, orb_true_iff, !someOffset_true. split.
  - intros (Hpx & Hink & [(d & Hd & Ht)|(d & Hd & Ht)]);
      apply andb_true_iff in Ht as [Hr Hi]; apply rowInside_true in Hr;
      (split; [exact Hpx|]; split; [exact Hink|]).
    + exists (axisY - d). repeat split; try apply Hr; auto. left. lia.
    + exists (axisY + d). repeat split; try apply Hr; auto. right. lia.
  - intros (Hpx & Hink & py & Hoff & Hr & Him & Hi).
    split; [exact Hpx|]. split; [exact Hink|]. destruct Hoff as [Hup|Hdown].
    + left. exists (axisY - py). split; [lia|].
      replace (axisY - (axisY - py)) with py by lia.
      apply andb_true_iff. split; [apply rowInside_true; lia | exact Hi].
    + right. exists (py - axisY). split; [lia|].
      replace (axisY + (py - axisY)) with py by lia.
      apply andb_true_iff. split; [apply rowInside_true; lia | exact Hi].
Qed.

Lemma candidatesY_In (img : ImageData) (r : Rect Z) (axisX : Z) (ink : Z -> Z -> bool)
    (py : Z) :
  In py (candidatesY img r axisX ink) <-> tickRow img r axisX ink py.
Proof.
  unfold candidatesY, tickRow. rewrite filter_In, range_In. cbv zeta.
  rewrite andb_true_iff, orb_true_iff, !someOffset_true. split.
  - intros (Hpy & Hink & [(d & Hd & Ht)|(d & Hd & Ht)]);
      apply andb_true_iff in Ht as [Hr Hi]; apply columnInside_true in Hr;
      (split; [exact Hpy|]; split; [exact Hink|]).
    + exists (axisX - d). repeat split; try apply Hr; auto. left. lia.
    + exists (axisX + d). repeat split; try apply Hr; auto. right. lia.
  - intros (Hpy & Hink & px & Hoff & Hr & Him & Hi).
    split; [exact Hpy|]. split; [exact Hink|]. destruct Hoff as [Hup|Hdown].
    + left. exists (axisX - px). split; [lia|].
      replace (axisX - (axisX - px)) with px by lia.
      apply andb_true_iff. split; [apply columnInside_true; lia | exact Hi].
    + right. exists (px - axisX). split; [lia|].
      replace (axisX + (px - axisX)) with px by lia.
      apply andb_true_iff. split; [apply columnInside_true; lia | exact Hi].
Qed.

(** The centres of the clusters of a list of integer positions. *)
Lemma cluster1D_positions (positions : list Z) (d : Q) :
  let cs := cluster1D (map inject_Z positions) d in
  (cs = [] <-> positions = []) /\
  (length cs <= length positions)%nat /\
  apart d cs /\
  Forall (fun c => exists lo hi, In lo positions /\ In hi positions /\
                                  (inject_Z lo <= c <= inject_Z hi)%Q) cs.
Proof.
  destruct (cluster1D_centres (map inject_Z positions) d) as (E & L & A & U).
  cbv zeta. split; [|split; [|split]].
  - rewrite E. split; [apply map_eq_nil | intros ->; reflexivity].
  - now rewrite length_map in L.
  - exact A.
  - revert U. apply Forall_impl. intros c (lo & hi & Hlo & Hhi & Hc).
    apply in_map_iff in Hlo as (zlo & <- & Hlo). apply in_map_iff in Hhi as (zhi & <- & Hhi).
    exists zlo, zhi. auto.
Qed.

Lemma detectXTicks_ticks (img : ImageData) (roi : Rect Z) (axisY : Z)
    (ink : Z -> Z -> bool) :
  let r := clampRect roi (width img) (height img) in
  let ticks := detectXTicks (N := Q) img roi axisY ink in
  (ticks = [] <-> forall px, ~ tickColumn img r axisY ink px) /\
  Z.of_nat (length ticks) <= w r /\
  apart 4 (map x ticks) /\
  Forall (fun t =>
            y t = inject_Z axisY /\
            exists c1 c2, tickColumn img r axisY ink c1 /\ tickColumn img r axisY ink c2 /\
                          (inject_Z c1 <= x t <= inject_Z c2)%Q)
         ticks.
Proof.
  intros r ticks. subst ticks. unfold detectXTicks. cbv zeta. fold r.
  destruct (cluster1D_positions (candidatesX img r axisY ink) 4) as (E & L & A & U).
  cbv zeta in E, L, A, U. change (ofZ 4) with 4%Q. change (@ofZ Q Exact) with inject_Z.
  split; [|split; [|split]].
  - split.
    + intros Hnil px Hpx. apply map_eq_nil in Hnil. apply E in Hnil.
      apply candidatesX_In in Hpx. rewrite Hnil in Hpx. exact Hpx.
    + intros Hno. destruct (candidatesX img r axisY ink) as [|c cs] eqn:Ec.
      * rewrite (proj2 E eq_refl). reflexivity.
      * exfalso. apply (Hno c). apply candidatesX_In. rewrite Ec. now left.
  - rewrite length_map.
    assert (Hc : (length (candidatesX img r axisY ink)
                  <= length (range (Detect.x r) (Detect.x r + w r)))%nat)
      by apply filter_length_le.
    pose proof (clampRect_position_and_size roi (width img) (height img)) as (_ & _ & Hw & _).
    fold r in Hw.
    pose proof (range_length (Detect.x r) (Detect.x r + w r)) as Hl. lia.
  - rewrite map_map. cbn [x]. rewrite map_id. exact A.
  - apply Forall_map. revert U. apply Forall_impl. intros c (lo & hi & Hlo & Hhi & Hc).
    cbn [x y]. split; [reflexivity|]. exists lo, hi.
    split; [now apply candidatesX_In|]. split; [now apply candidatesX_In | exact Hc].
Qed.

Lemma detectYTicks_ticks (img : ImageData) (roi : Rect Z) (axisX : Z)
    (ink : Z -> Z -> bool) :
  let r := clampRect roi (width img) (height img) in
  let ticks := detectYTicks (N := Q) img roi axisX ink in
  (ticks = [] <-> forall py, ~ tickRow img r axisX ink py) /\
  Z.of_nat (length ticks) <= h r /\
  apart 4 (map y ticks) /\
  Forall (fun t =>
            x t = inject_Z axisX /\
            exists c1 c2, tickRow img r axisX ink c1 /\ tickRow img r axisX ink c2 /\
                          (inject_Z c1 <= y t <= inject_Z c2)%Q)
         ticks.
Proof.
  intros r ticks. subst ticks. unfold detectYTicks. cbv zeta. fold r.
  destruct (cluster1D_positions (candidatesY img r axisX ink) 4) as (E & L & A & U).
  cbv zeta in E, L, A, U. change (ofZ 4) with 4%Q. change (@ofZ Q Exact) with inject_Z.
  split; [|split; [|split]].
  - split.
    + intros Hnil py Hpy. apply map_eq_nil in Hnil. apply E in Hnil.
      apply candidatesY_In in Hpy. rewrite Hnil in Hpy. exact Hpy.
    + intros Hno. destruct (candidatesY img r axisX ink) as [|c cs] eqn:Ec.
      * rewrite (proj2 E eq_refl). reflexivity.
      * exfalso. apply (Hno c). apply candidatesY_In. rewrite Ec. now left.
  - rewrite length_map.
    assert (Hc : (length (candidatesY img r axisX ink)
                  <= length (range (Detect.y r) (Detect.y r + h r)))%nat)
      by apply filter_length_le.
    pose proof (clampRect_position_and_size roi (width img) (height img)) as (_ & _ & _ & Hh).
    fold r in Hh.
    pose proof (range_length (Detect.y r) (Detect.y r + h r)) as Hl. lia.
  - rewrite map_map. cbn [y]. rewrite map_id. exact A.
  - apply Forall_map. revert U. apply Forall_impl. intros c (lo & hi & Hlo & Hhi & Hc).
    cbn [x y]. split; [reflexivity|]. exists lo, hi.
    split; [now apply candidatesY_In|]. split; [now apply candidatesY_In | exact Hc].
Qed.

(** X17: for a ROI with integer fields and an integer axis row, and
    without rounding, the ticks [detectXTicks] returns lie on the axis
    row, more than 4 pixels apart from one another, each between two columns
    of the clamped ROI that carry a tick (ink on the axis and ink again 3 to
    14 rows above or below it, inside the ROI and the image); there are no
    more ticks than columns in the ROI, and none exactly when no column
    carries a tick.  [detectYTicks] does the same with rows and columns
    exchanged. *)
Theorem X17_ticks_on_the_axis (img : ImageData) (roi : Rect Z) (axis : Z)
    (ink : Z -> Z -> bool) :
  let r := clampRect roi (width img) (height img) in
  let ticksX := detectXTicks (N := Q) img roi axis ink in
  let ticksY := detectYTicks (N := Q) img roi axis ink in
  ((ticksX = [] <-> forall px, ~ tickColumn img r axis ink px) /\
   Z.of_nat (length ticksX) <= w r /\
   apart 4 (map x ticksX) /\
   Forall (fun t =>
             y t = inject_Z axis /\
             exists c1 c2, tickColumn img r axis ink c1 /\ tickColumn img r axis ink c2 /\
                           (inject_Z c1 <= x t <= inject_Z c2)%Q)
          ticksX) /\
  ((ticksY = [] <-> forall py, ~ tickRow img r axis ink py) /\
   Z.of_nat (length ticksY) <= h r /\
   apart 4 (map y ticksY) /\
   Forall (fun t =>
             x t = inject_Z axis /\
             exists c1 c2, tickRow img r axis ink c1 /\ tickRow img r axis ink c2 /\
                           (inject_Z c1 <= y t <= inject_Z c2)%Q)
          ticksY).
Proof.
  split; [apply detectXTicks_ticks | apply detectYTicks_ticks].
Qed.

(** *** The detection as a whole *)

Lemma findXAxisY_inside (img : ImageData) (roi : Rect Z) (ink : Z -> Z -> bool) :
  let r := clampRect roi (width img) (height img) in
  Detect.y r <= findXAxisY img roi ink < Detect.y r + h r.
Proof.
  intros r.
  destruct (clampRect_position_and_size roi (width img) (height img)) as (_ & _ & _ & Hh).
  fold r in Hh. unfold findXAxisY. fold r.
  rewrite (scanBest_ext _ (fun py => inkCount (fun px => ink px py)
                                              (Detect.x r) (Detect.x r + w r)))
    by (intro; apply countInk_inkCount).
  apply scanBest_range; [lia | intro; apply inkCount_nonneg].
Qed.

Lemma findYAxisX_inside (img : ImageData) (roi : Rect Z) (ink : Z -> Z -> bool) :
  let r := clampRect roi (width img) (height img) in
  Detect.x r <= findYAxisX img roi ink < Detect.x r + w r.
Proof.
  intros r.
  destruct (clampRect_position_and_size roi (width img) (height img)) as (_ & _ & Hw & _).
  fold r in Hw. unfold findYAxisX. fold r.
  rewrite (scanBest_ext _ (fun px => inkCount (fun py => ink px py)
                                              (Detect.y r) (Detect.y r + h r)))
    by (intro; apply countInk_inkCount).
  apply scanBest_range; [lia | intro; apply inkCount_nonneg].
Qed.

Lemma clampRect_inside (r : Rect Z) (W H : Z) :
  1 <= W -> 1 <= H ->
  let c := clampRect r W H in
  0 <= Detect.x c /\ Detect.x c + w c <= W /\ 0 <= Detect.y c /\ Detect.y c + h c <= H.
Proof. intros HW HH. cbn. lia. Qed.

(** X18: [detectAxesAndTicksTwoRois] on an image with at least one pixel
    and ROIs with integer fields, without rounding: the x axis is the
    horizontal line through a row [axisY] of the image that lies in the
    clamped x-axis ROI, the y axis the vertical line through a column
    [axisX] of the image that lies in the clamped y-axis ROI; every x tick
    lies on the x axis line, inside the image, and every y tick lies on the
    y axis line, inside the image; ticks of one axis are more than 4 pixels
    apart. *)
Theorem X18_detection_inside_the_image (roi : ImageData) (axisRoiX axisRoiY : Rect Z) :
  1 <= width roi -> 1 <= height roi ->
  let rX := clampRect axisRoiX (width roi) (height roi) in
  let rY := clampRect axisRoiY (width roi) (height roi) in
  let d := detectAxesAndTicksTwoRois (N := Q) roi axisRoiX axisRoiY in
  exists axisX axisY,
    xAxisLine d = {| p := {| x := 0; y := inject_Z axisY |}; v := {| x := 1; y := 0 |} |}%Q /\
    yAxisLine d = {| p := {| x := inject_Z axisX; y := 0 |}; v := {| x := 0; y := 1 |} |}%Q /\
    Detect.y rX <= axisY < Detect.y rX + h rX /\ 0 <= axisY < height roi /\
    Detect.x rY <= axisX < Detect.x rY + w rY /\ 0 <= axisX < width roi /\
    Forall (fun t => y t = inject_Z axisY /\ (0 <= x t <= inject_Z (width roi - 1))%Q)
           (tickPointsX d) /\
    apart 4 (map x (tickPointsX d)) /\
    Forall (fun t => x t = inject_Z axisX /\ (0 <= y t <= inject_Z (height roi - 1))%Q)
           (tickPointsY d) /\
    apart 4 (map y (tickPointsY d)).
Proof.
  intros HW HH rX rY d. subst d. unfold detectAxesAndTicksTwoRois. cbv zeta.
  fold rX rY.
  set (ink := isInk (buildInkFn roi
                       (rectAsNumbers (if w rY * h rY <=? w rX * h rX then rX else rY)))).
  set (axisY := findXAxisY roi rX ink). set (axisX := findYAxisX roi rY ink).
  cbn [xAxisLine yAxisLine tickPointsX tickPointsY].
  pose proof (findXAxisY_inside roi rX ink) as HY.
  pose proof (findYAxisX_inside roi rY ink) as HX.
  cbv zeta in HY, HX. subst rX rY. rewrite clampRect_idempotent in HY, HX.
  set (rX := clampRect axisRoiX (width roi) (height roi)) in *.
  set (rY := clampRect axisRoiY (width roi) (height roi)) in *.
  fold axisY in HY. fold axisX in HX.
  destruct (clampRect_inside axisRoiX (width roi) (height roi) HW HH) as (X1 & X2 & X3 & X4).
  destruct (clampRect_inside axisRoiY (width roi) (height roi) HW HH) as (Y1 & Y2 & Y3 & Y4).
  fold rX in X1, X2, X3, X4. fold rY in Y1, Y2, Y3, Y4.
  destruct (detectXTicks_ticks roi rX axisY ink) as (_ & _ & AX & UX).
  destruct (detectYTicks_ticks roi rY axisX ink) as (_ & _ & AY & UY).
  cbv zeta in AX, UX, AY, UY. subst rX rY. rewrite clampRect_idempotent in UX, UY.
  set (rX := clampRect axisRoiX (width roi) (height roi)) in *.
  set (rY := clampRect axisRoiY (width roi) (height roi)) in *.
  exists axisX, axisY.
  split; [reflexivity|]. split; [reflexivity|].
  split; [exact HY|]. split; [lia|]. split; [exact HX|]. split; [lia|].
  split; [|split; [exact AX|split; [|exact AY]]].
  - revert UX. apply Forall_impl. intros t (Ey & c1 & c2 & (H1 & _) & (H2 & _) & Hc).
    split; [exact Ey|].
    assert (inject_Z 0 <= inject_Z c1)%Q by (rewrite <- Zle_Qle; lia).
    assert (inject_Z c2 <= inject_Z (width roi - 1))%Q by (rewrite <- Zle_Qle; lia).
    change (inject_Z 0) with 0%Q in *. lra.
  - revert UY. apply Forall_impl. intros t (Ex & c1 & c2 & (H1 & _) & (H2 & _) & Hc).
    split; [exact Ex|].
    assert (inject_Z 0 <= inject_Z c1)%Q by (rewrite <- Zle_Qle; lia).
    assert (inject_Z c2 <= inject_Z (height roi - 1))%Q by (rewrite <- Zle_Qle; lia).
    change (inject_Z 0) with 0%Q in *. lra.
Qed.

Lemma X18_detection_inside_the_image_witness :
  let rX := clampRect (N := Z) {| Detect.x := 0; Detect.y := 0; w := 6; h := 1 |}
              (width sixPixels) (height sixPixels) in
  let rY := clampRect (N := Z) {| Detect.x := 0; Detect.y := 0; w := 2; h := 1 |}
              (width sixPixels) (height sixPixels) in
  let d := detectAxesAndTicksTwoRois (N := Q) sixPixels
             {| Detect.x := 0; Detect.y := 0; w := 6; h := 1 |}
             {| Detect.x := 0; Detect.y := 0; w := 2; h := 1 |} in
  exists axisX axisY,
    xAxisLine d = {| p := {| x := 0; y := inject_Z axisY |}; v := {| x := 1; y := 0 |} |}%Q /\
    yAxisLine d = {| p := {| x := inject_Z axisX; y := 0 |}; v := {| x := 0; y := 1 |} |}%Q /\
    Detect.y rX <= axisY < Detect.y rX + h rX /\ 0 <= axisY < height sixPixels /\
    Detect.x rY <= axisX < Detect.x rY + w rY /\ 0 <= axisX < width sixPixels /\
    Forall (fun t => y t = inject_Z axisY /\ (0 <= x t <= inject_Z (width sixPixels - 1))%Q)
           (tickPointsX d) /\
    apart 4 (map x (tickPointsX d)) /\
    Forall (fun t => x t = inject_Z axisX /\ (0 <= y t <= inject_Z (height sixPixels - 1))%Q)
           (tickPointsY d) /\
    apart 4 (map y (tickPointsY d)).
Proof.
  apply (X18_detection_inside_the_image sixPixels); cbn; lia.
Defined.

(** *** A ROI without ink *)

Lemma filter_none {A : Type} (test : A -> bool) (l : list A) :
  (forall a, In a l -> test a = false) -> filter test l = [].
Proof.
  induction l as [|a l IH]; intros Hno; [reflexivity|].
  cbn [filter]. rewrite (Hno a) by now left. apply IH. intros b Hb. apply Hno. now right.
Qed.

Lemma inkCount_none (test : Z -> bool) (lo hi : Z) :
  (forall i, lo <= i < hi -> test i = false) -> inkCount test lo hi = 0.
Proof.
  intros Hno. unfold inkCount. rewrite filter_none; [reflexivity|].
  intros i Hi. apply Hno. now apply range_In in Hi.
Qed.

Lemma scanBest_no_count (count : Z -> Z) (lo hi : Z) :
  lo < hi -> (forall q, lo <= q < hi -> count q = 0) -> (forall q, 0 <= count q) ->
  fst (scanBest count (range lo hi) (lo, -1)) = lo.
Proof.
  intros Hne Hzero Hpos.
  destruct (scanBest_range count lo hi Hne Hpos) as (Hin & _ & Hfirst).
  cbv zeta in Hin, Hfirst.
  destruct (Z.eq_dec (fst (scanBest count (range lo hi) (lo, -1))) lo) as [E|Hd]; [exact E|].
  specialize (Hfirst lo ltac:(lia)).
  rewrite (Hzero lo), (Hzero (fst (scanBest count (range lo hi) (lo, -1)))) in Hfirst; lia.
Qed.

(** The integer form: on a ROI with integer fields that holds no ink at
    all, [findXAxisY] reports the top row and [findYAxisX] the left
    column. *)
Lemma blank_region_on_integers (img : ImageData) (roi : Rect Z) (ink : Z -> Z -> bool) :
  let r := clampRect roi (width img) (height img) in
  (forall px py,
     Detect.x r <= px < Detect.x r + w r -> Detect.y r <= py < Detect.y r + h r ->
     ink px py = false) ->
  findXAxisY img roi ink = Detect.y r /\ findYAxisX img roi ink = Detect.x r.
Proof.
  intros r Hno.
  destruct (clampRect_position_and_size roi (width img) (height img)) as (_ & _ & Hw & Hh).
  fold r in Hw, Hh. unfold findXAxisY, findYAxisX. fold r. split.
  - rewrite (scanBest_ext _ (fun py => inkCount (fun px => ink px py)
                                                (Detect.x r) (Detect.x r + w r)))
      by (intro; apply countInk_inkCount).
    apply scanBest_no_count; [lia | | intro; apply inkCount_nonneg].
    intros py Hpy. apply inkCount_none. intros px Hpx. now apply Hno.
  - rewrite (scanBest_ext _ (fun px => inkCount (fun py => ink px py)
                                                (Detect.y r) (Detect.y r + h r)))
      by (intro; apply countInk_inkCount).
    apply scanBest_no_count; [lia | | intro; apply inkCount_nonneg].
    intros px Hpx. apply inkCount_none. intros py Hpy. now apply Hno.
Qed.

Lemma counter_head {N : Type} `{Number N} (k : nat) (lo hi : N) (l : list N) :
  Locate.counter k lo hi = Some l -> hd lo l = lo.
Proof.
  destruct k as [|k]; [discriminate|]. rewrite counter_step.
  destruct (nltb lo hi); [|now intros [= <-]].
  destruct (Locate.counter k (nadd lo (ofZ 1)) hi); [|discriminate].
  now intros [= <-].
Qed.

Lemma locate_blank {N : Type} `{Number N} (k : nat) (lo hi lo' hi' : N)
    (test : N -> N -> bool) (outer inner : list N) :
  Locate.counter k lo hi = Some outer -> Locate.counter k lo' hi' = Some inner ->
  (forall p q, In p inner -> In q outer -> test p q = false) ->
  Locate.locate k lo hi lo' hi' (fun ps q => Locate.countInk (fun p => test p q) ps) = Some lo.
Proof.
  intros E E' Hno. unfold Locate.locate. rewrite E, E'.
  destruct outer as [|a outer']; [reflexivity|]. f_equal.
  apply scanBest_blank; [|exact (counter_head _ _ _ _ E)].
  intros q Hq. unfold Locate.countInk. rewrite countInk_filter.
  apply inkCount_blank. intros p Hp. now apply Hno.
Qed.

(** X27: on every ROI, fractional or not, whose clamped rect is addressable,
    the loops over the rows y, y + 1, ... below y + h and over the columns
    x, x + 1, ... below x + w end, and if the ink predicate fails at every
    position they visit, the locators report the first line: [findXAxisY]
    the top row of the clamped ROI and [findYAxisX] its left column. *)
Theorem X27_axis_of_a_blank_region (img : ImageData) (roi : Rect float)
    (isInk : float -> float -> bool) :
  let r := clampRect roi (ofZ (width img)) (ofZ (height img)) in
  Locate.addressable r ->
  exists (fuel : nat) (rows cols : list float),
    Locate.scannedFrom (Detect.y r) (Detect.y r + h r) rows /\
    Locate.scannedFrom (Detect.x r) (Detect.x r + w r) cols /\
    ((forall px py, In px cols -> In py rows -> isInk px py = false) ->
     forall k, (fuel <= k)%nat ->
       Locate.findXAxisY k img roi isInk = Some (Detect.y r) /\
       Locate.findYAxisX k img roi isInk = Some (Detect.x r)).
Proof.
  intros r Ha.
  destruct (clamped_corner roi (ofZ (width img)) (ofZ (height img)) Ha) as (X0 & Y0 & W1 & H1).
  fold r in X0, Y0, W1, H1. destruct Ha as (Xs & Ys & Xe & Ye).
  destruct (lines_scanned (Detect.y r) (h r) Y0 H1 Ys Ye) as (f1 & rows & Sr & Cr).
  destruct (lines_scanned (Detect.x r) (w r) X0 W1 Xs Xe) as (f2 & cols & Sc & Cc).
  exists (Nat.max f1 f2), rows, cols. split; [exact Sr|]. split; [exact Sc|].
  intros Hno k Hk.
  assert (Ey := Cr k ltac:(lia)). assert (Ex := Cc k ltac:(lia)).
  unfold Locate.findXAxisY, Locate.findYAxisX. fold r. split.
  - apply (locate_blank k _ _ _ _ isInk rows cols Ey Ex Hno).
  - apply (locate_blank k _ _ _ _ (fun py px => isInk px py) cols rows Ex Ey).
    intros p q Hp Hq. now apply Hno.
Qed.

Lemma X27_axis_of_a_blank_region_witness :
  let roi := {| Detect.x := 0.5%float; Detect.y := 0%float; w := 2%float; h := 2%float |} in
  let isInk := Locate.isInkAt Locate.darkRow 100 in
  let r := clampRect roi (ofZ (width Locate.darkRow)) (ofZ (height Locate.darkRow)) in
  exists (fuel : nat) (rows cols : list float),
    Locate.scannedFrom (Detect.y r) (Detect.y r + h r) rows /\
    Locate.scannedFrom (Detect.x r) (Detect.x r + w r) cols /\
    ((forall px py, In px cols -> In py rows -> isInk px py = false) ->
     forall k, (fuel <= k)%nat ->
       Locate.findXAxisY k Locate.darkRow roi isInk = Some (Detect.y r) /\
       Locate.findYAxisX k Locate.darkRow roi isInk = Some (Detect.x r)).
Proof.
  apply (X27_axis_of_a_blank_region Locate.darkRow
           {| Detect.x := 0.5%float; Detect.y := 0%float; w := 2%float; h := 2%float |}
           (Locate.isInkAt Locate.darkRow 100)).
  vm_compute. repeat split; reflexivity.
Defined.

(** The top left corner of [darkRow] under a fractional ROI: the positions
    visited, none of which is ink, and the lines reported. *)
Example blank_corner_located :
  let roi := {| Detect.x := 0.5%float; Detect.y := 0%float; w := 2%float; h := 2%float |} in
  let r := clampRect roi (ofZ (width Locate.darkRow)) (ofZ (height Locate.darkRow)) in
  Locate.counter 5 (Detect.y r) (Detect.y r + h r)%float = Some [0%float; 1%float] /\
  Locate.counter 5 (Detect.x r) (Detect.x r + w r)%float = Some [0.5%float; 1.5%float] /\
  forallb (fun py => forallb (fun px => negb (Locate.isInkAt Locate.darkRow 100 px py))
                             [0.5%float; 1.5%float]) [0%float; 1%float] = true /\
  Locate.findXAxisY 5 Locate.darkRow roi (Locate.isInkAt Locate.darkRow 100) = Some 0%float /\
  Locate.findYAxisX 5 Locate.darkRow roi (Locate.isInkAt Locate.darkRow 100) = Some 0.5%float.
Proof. vm_compute. repeat split; reflexivity. Qed.

End TickFacts.

Module BlacklistFacts.
Import Ticks Blacklist CalibrationFacts.

(** *** Points that are always blacklisted *)

Lemma dist2_same_point (t : Point float) : finitePoint t -> dist2 t t = 0%float.
Proof.
  intros [Hx Hy]. unfold dist2. cbv zeta.
  rewrite (sub_diag_finite _ Hx), (sub_diag_finite _ Hy). vm_compute. reflexivity.
Qed.

Lemma buildBlacklist_tick (args : Args) (t : Point float) :
  In t (tickPointsX args ++ tickPointsY args) -> finitePoint t ->
  (0 <? tickRadius args * tickRadius args)%float = true ->
  buildBlacklist args t = true.
Proof.
  intros Hin Hfin Hr. unfold buildBlacklist. cbv zeta.
  destruct (distancePointToLine t (xAxisLine args) <? axisBand args)%float; [reflexivity|].
  destruct (distancePointToLine t (yAxisLine args) <? axisBand args)%float; [reflexivity|].
  apply existsb_exists. exists t. split; [exact Hin|].
  now rewrite (dist2_same_point t Hfin).
Qed.

(** X19: a point listed as a tick, of the x axis or of the y axis, is
    itself blacklisted, provided its coordinates are finite and the square
    of the tick radius is positive. *)
Theorem X19_ticks_are_blacklisted (args : Args) (t : Point float) :
  In t (tickPointsX args ++ tickPointsY args) -> finitePoint t ->
  (0 <? tickRadius args * tickRadius args)%float = true ->
  buildBlacklist args t = true.
Proof. exact (buildBlacklist_tick args t). Qed.

Lemma X19_ticks_are_blacklisted_witness :
  buildBlacklist
    {| xAxisLine := {| p := {| x := 0; y := 90 |}; v := {| x := 1; y := 0 |} |};
       yAxisLine := {| p := {| x := 10; y := 0 |}; v := {| x := 0; y := 1 |} |};
       tickPointsX := [ {| x := 30.5; y := 90 |}; {| x := 70; y := 90 |} ];
       tickPointsY := [ {| x := 10; y := 40.25 |} ];
       axisBand := 4;
       tickRadius := 6 |}%float
    {| x := 10; y := 40.25 |}%float
  = true.
Proof.
  apply X19_ticks_are_blacklisted.
  - cbn. right. right. left. reflexivity.
  - split; reflexivity.
  - reflexivity.
Defined.

(** The distance of a point of the x axis row to the horizontal line
    through (0, that row), and its mirror image for the y axis. *)
Lemma distance_on_horizontal (q : Point float) :
  finitePoint q ->
  distancePointToLine q {| p := {| x := 0%float; y := y q |};
                           v := {| x := 1%float; y := 0%float |} |} = 0%float.
Proof.
  intros [Hx Hy]. unfold distancePointToLine. cbv zeta. cbn [p v x y].
  replace (normalize {| x := 1%float; y := 0%float |})
    with {| x := 1%float; y := 0%float |} by (vm_compute; reflexivity).
  cbn [x y]. rewrite (sub_diag_finite _ Hy).
  replace (0 * 1)%float with 0%float by (vm_compute; reflexivity).
  apply Prim2SF_inj.
  rewrite FloatAxioms.abs_spec, FloatAxioms.sub_spec, FloatAxioms.mul_spec,
    FloatAxioms.sub_spec.
  change (Prim2SF 0) with (S754_zero false).
  destruct (is_finite_cases _ Hx) as [[s E]|[s [m [e E]]]]; rewrite E; destruct s; reflexivity.
Qed.

Lemma distance_on_vertical (q : Point float) :
  finitePoint q ->
  distancePointToLine q {| p := {| x := x q; y := 0%float |};
                           v := {| x := 0%float; y := 1%float |} |} = 0%float.
Proof.
  intros [Hx Hy]. unfold distancePointToLine. cbv zeta. cbn [p v x y].
  replace (normalize {| x := 0%float; y := 1%float |})
    with {| x := 0%float; y := 1%float |} by (vm_compute; reflexivity).
  cbn [x y]. rewrite (sub_diag_finite _ Hx).
  replace (0 * 1)%float with 0%float by (vm_compute; reflexivity).
  apply Prim2SF_inj.
  rewrite FloatAxioms.abs_spec, FloatAxioms.sub_spec, FloatAxioms.mul_spec,
    FloatAxioms.sub_spec.
  change (Prim2SF 0) with (S754_zero false).
  destruct (is_finite_cases _ Hy) as [[s E]|[s [m [e E]]]]; rewrite E; destruct s; reflexivity.
Qed.

Lemma buildBlacklist_axis (args : Args) (q : Point float) :
  finitePoint q -> (0 <? axisBand args)%float = true ->
  xAxisLine args = {| p := {| x := 0%float; y := y q |};
                      v := {| x := 1%float; y := 0%float |} |} \/
  yAxisLine args = {| p := {| x := x q; y := 0%float |};
                      v := {| x := 0%float; y := 1%float |} |} ->
  buildBlacklist args q = true.
Proof.
  intros Hfin Hband Hline. unfold buildBlacklist. cbv zeta.
  destruct Hline as [E|E]; rewrite E.
  - now rewrite (distance_on_horizontal q Hfin), Hband.
  - destruct (distancePointToLine q (xAxisLine args) <? axisBand args)%float; [reflexivity|].
    now rewrite (distance_on_vertical q Hfin), Hband.
Qed.

Lemma detection_form (roi : Detect.ImageData) (axisRoiX axisRoiY : Detect.Rect Z) :
  exists axisY axisX ticksX ticksY,
    detectAxesAndTicksTwoRois (N := float) roi axisRoiX axisRoiY
    = detectionOf axisY axisX ticksX ticksY.
Proof. unfold detectAxesAndTicksTwoRois. cbv zeta. repeat eexists. Qed.

(** X20: a detection is made of the x axis line {p: (0, axisY), v: (1, 0)},
    the y axis line {p: (axisX, 0), v: (0, 1)} and the ticks; whatever the
    axis positions and the ticks (fractional ones included), the blacklist
    the application builds from it (band 4, radius 6) contains every point
    of the x axis row, every point of the y axis column and every tick
    (coordinates being finite). *)
Theorem X20_detected_axes_are_blacklisted (axisY axisX : float)
    (ticksX ticksY : list (Point float)) (q : Point float) :
  let d := detectionOf axisY axisX ticksX ticksY in
  finitePoint q ->
  y q = axisY \/ x q = axisX \/ In q (ticksX ++ ticksY) ->
  ofDetection d q = true.
Proof.
  intros d Hfin Hq. unfold ofDetection.
  destruct Hq as [E|[E|Hin]].
  - apply buildBlacklist_axis; [exact Hfin | reflexivity|]. left.
    cbn [xAxisLine]. rewrite E. reflexivity.
  - apply buildBlacklist_axis; [exact Hfin | reflexivity|]. right.
    cbn [yAxisLine]. rewrite E. reflexivity.
  - apply buildBlacklist_tick; [exact Hin | exact Hfin | reflexivity].
Qed.

(** A detection with a fractional axis row and two ticks: the second tick
    is blacklisted as a tick, and so is a point elsewhere on the axis row. *)
Lemma X20_detected_axes_are_blacklisted_witness :
  let ticks := [{| x := 3%float; y := 14.5%float |}; {| x := 9.5%float; y := 14.5%float |}] in
  ofDetection (detectionOf 14.5 2 ticks []) {| x := 9.5%float; y := 14.5%float |} = true /\
  ofDetection (detectionOf 14.5 2 ticks []) {| x := 20%float; y := 14.5%float |} = true.
Proof.
  intros ticks. split.
  - apply (X20_detected_axes_are_blacklisted 14.5 2 ticks []).
    + split; reflexivity.
    + right. right. cbn. right. left. reflexivity.
  - apply (X20_detected_axes_are_blacklisted 14.5 2 ticks []).
    + split; reflexivity.
    + left. reflexivity.
Defined.

End BlacklistFacts.

Module SelectionFacts.
Import Detect Selection DetectFacts.

(** *** Dragging a region *)

Ltac by_cases_on_comparisons :=
  repeat match goal with
         | |- context [Qle_bool ?a ?b] =>
             let E := fresh "E" in
             destruct (Qle_bool a b) eqn:E;
             [apply Qle_bool_iff in E | apply Qle_bool_false in E]
         | H : context [Qle_bool ?a ?b] |- _ =>
             let E := fresh "E" in
             destruct (Qle_bool a b) eqn:E;
             [apply Qle_bool_iff in E | apply Qle_bool_false in E]
         end.

(** One coordinate of a drag between two positions [a] and [b] of an
    image of extent [W]: the clamped origin and size. *)
Lemma clamped_span (a b W : Q) :
  (1 <= W)%Q -> (0 <= a <= W)%Q -> (0 <= b <= W)%Q ->
  let lo := nmin a b in
  let size := nsub (nmax a b) lo in
  let origin := nmax (ofZ 0) (nmin (nsub W (ofZ 1)) lo) in
  let clamped := nmax (ofZ 1) (nmin (nsub W origin) size) in
  (0 <= origin)%Q /\ (origin + clamped <= W)%Q /\ (1 <= clamped)%Q /\
  (10 <= size -> origin == lo /\ clamped == size)%Q /\
  (size < 10 -> clamped < 10)%Q.
Proof.
  intros HW Ha Hb. cbn. by_cases_on_comparisons.
  all: unfold inject_Z in *; repeat split; intros; repeat split; lra.
Qed.

Lemma clamped_drag (start cur : Ticks.Point Q) (W H : Z) :
  1 <= W -> 1 <= H -> onImage start W H -> onImage cur W H ->
  let raw := rectFromPoints start cur in
  let c := clampRect raw (inject_Z W) (inject_Z H) in
  ((0 <= x c)%Q /\ (x c + w c <= inject_Z W)%Q /\ (1 <= w c)%Q /\
   (10 <= w raw -> x c == x raw /\ w c == w raw)%Q /\
   (w raw < 10 -> w c < 10)%Q) /\
  ((0 <= y c)%Q /\ (y c + h c <= inject_Z H)%Q /\ (1 <= h c)%Q /\
   (10 <= h raw -> y c == y raw /\ h c == h raw)%Q /\
   (h raw < 10 -> h c < 10)%Q).
Proof.
  intros HW HH [Sx Sy] [Cx Cy].
  assert (HWq : (1 <= inject_Z W)%Q) by (change 1%Q with (inject_Z 1); now rewrite <- Zle_Qle).
  assert (HHq : (1 <= inject_Z H)%Q) by (change 1%Q with (inject_Z 1); now rewrite <- Zle_Qle).
  split.
  - exact (clamped_span (Ticks.x start) (Ticks.x cur) (inject_Z W) HWq Sx Cx).
  - exact (clamped_span (Ticks.y start) (Ticks.y cur) (inject_Z H) HHq Sy Cy).
Qed.

Lemma finish_cases (start cur : Ticks.Point Q) (W H : Z) :
  1 <= W -> 1 <= H -> onImage start W H -> onImage cur W H ->
  let raw := rectFromPoints start cur in
  match finish start cur (inject_Z W) (inject_Z H) with
  | Some r =>
      (10 <= w raw /\ 10 <= h raw)%Q /\ sameRect r raw /\
      (0 <= x r /\ 0 <= y r /\ x r + w r <= inject_Z W /\ y r + h r <= inject_Z H)%Q
  | None => (w raw < 10 \/ h raw < 10)%Q
  end.
Proof.
  intros HW HH Hs Hc.
  destruct (clamped_drag start cur W H HW HH Hs Hc)
    as ((X0 & X1 & X2 & X3 & X4) & (Y0 & Y1 & Y2 & Y3 & Y4)).
  cbv zeta in *. unfold finish, sameRect. cbv zeta.
  set (raw := rectFromPoints start cur) in *.
  set (c := clampRect raw (inject_Z W) (inject_Z H)) in *.
  change (nleb (ofZ 10) (w c)) with (Qle_bool 10 (w c)).
  change (nleb (ofZ 10) (h c)) with (Qle_bool 10 (h c)).
  destruct (Qle_bool 10 (w c)) eqn:Ew;
    [apply Qle_bool_iff in Ew | apply Qle_bool_false in Ew];
    (destruct (Qle_bool 10 (h c)) eqn:Eh;
     [apply Qle_bool_iff in Eh | apply Qle_bool_false in Eh]); cbn [andb].
  - assert (Hsw : (10 <= w raw)%Q).
    { destruct (Qlt_le_dec (w raw) 10) as [Hlt|Hle]; [specialize (X4 Hlt); lra | exact Hle]. }
    assert (Hsh : (10 <= h raw)%Q).
    { destruct (Qlt_le_dec (h raw) 10) as [Hlt|Hle]; [specialize (Y4 Hlt); lra | exact Hle]. }
    destruct (X3 Hsw) as [X5 X6]. destruct (Y3 Hsh) as [Y5 Y6].
    repeat split; assumption.
  - right. destruct (Qlt_le_dec (h raw) 10) as [Hlt|Hle]; [exact Hlt|].
    destruct (Y3 Hle) as [_ Y6]. lra.
  - left. destruct (Qlt_le_dec (w raw) 10) as [Hlt|Hle]; [exact Hlt|].
    destruct (X3 Hle) as [_ X6]. lra.
  - left. destruct (Qlt_le_dec (w raw) 10) as [Hlt|Hle]; [exact Hlt|].
    destruct (X3 Hle) as [_ X6]. lra.
Qed.

(** X21: a drag between two points of the image is committed exactly
    when it spans at least 10 pixels in both directions; the rect committed
    is then the dragged rect itself, and it lies inside the image. *)
Theorem X21_drag_committed (start cur : Ticks.Point Q) (W H : Z) :
  1 <= W -> 1 <= H -> onImage start W H -> onImage cur W H ->
  let raw := rectFromPoints start cur in
  match finish start cur (inject_Z W) (inject_Z H) with
  | Some r =>
      (10 <= w raw /\ 10 <= h raw)%Q /\ sameRect r raw /\
      (0 <= x r /\ 0 <= y r /\ x r + w r <= inject_Z W /\ y r + h r <= inject_Z H)%Q
  | None => (w raw < 10 \/ h raw < 10)%Q
  end.
Proof. exact (finish_cases start cur W H). Qed.

Lemma X21_drag_committed_witness :
  let raw := rectFromPoints {| Ticks.x := 120 # 1; Ticks.y := 15 # 2 |}
                            {| Ticks.x := 41 # 4; Ticks.y := 80 # 1 |} in
  match finish {| Ticks.x := 120 # 1; Ticks.y := 15 # 2 |}
               {| Ticks.x := 41 # 4; Ticks.y := 80 # 1 |} (inject_Z 200) (inject_Z 100) with
  | Some r =>
      (10 <= w raw /\ 10 <= h raw)%Q /\ sameRect r raw /\
      (0 <= x r /\ 0 <= y r /\ x r + w r <= inject_Z 200 /\ y r + h r <= inject_Z 100)%Q
  | None => (w raw < 10 \/ h raw < 10)%Q
  end.
Proof.
  apply (X21_drag_committed _ _ 200 100); try lia.
  - split; split; discriminate.
  - split; split; discriminate.
Defined.

(** *** Cropping the committed region *)

Lemma floor_sum_le (a b : Q) (n : Z) :
  (a + b <= inject_Z n)%Q -> Qfloor a + Qfloor b <= n.
Proof.
  intros Hle. pose proof (Qfloor_le a). pose proof (Qfloor_le b).
  rewrite Zle_Qle, inject_Z_plus. lra.
Qed.

Lemma floor_at_least (a : Q) (n : Z) : (inject_Z n <= a)%Q -> n <= Qfloor a.
Proof. intros Hle. apply Qfloor_resp_le in Hle. now rewrite Qfloor_Z in Hle. Qed.

(** X22: the region committed by a drag over the original image is
    cropped inside the bitmap: the box [cropImageData] cuts out starts at a
    pixel of the bitmap, does not reach beyond its right and lower edges and
    is at least 10 pixels wide and high. *)
Theorem X22_crop_inside_the_bitmap (start cur : Ticks.Point Q) (W H : Z) (r : Rect Q) :
  1 <= W -> 1 <= H -> onImage start W H -> onImage cur W H ->
  finish start cur (inject_Z W) (inject_Z H) = Some r ->
  let box := cropBox r in
  0 <= x box /\ x box + w box <= W /\ 10 <= w box /\
  0 <= y box /\ y box + h box <= H /\ 10 <= h box.
Proof.
  intros HW HH Hs Hc E.
  pose proof (finish_cases start cur W H HW HH Hs Hc) as F. cbv zeta in F.
  rewrite E in F. destruct F as ((Hw & Hh) & (Ex & Ey & Ew & Eh) & (Bx & By & Bw & Bh)).
  rewrite <- Ew in Hw. rewrite <- Eh in Hh.
  unfold cropBox. cbn [x y w h].
  pose proof (floor_sum_le _ _ _ Bw). pose proof (floor_sum_le _ _ _ Bh).
  pose proof (floor_at_least (x r) 0 Bx). pose proof (floor_at_least (y r) 0 By).
  pose proof (floor_at_least (w r) 10 Hw). pose proof (floor_at_least (h r) 10 Hh).
  lia.
Qed.

Lemma X22_crop_inside_the_bitmap_witness :
  let box :=
    cropBox {| x := 41 # 4; y := 15 # 2; w := (120 # 1) - (41 # 4); h := (80 # 1) - (15 # 2) |}%Q in
  0 <= x box /\ x box + w box <= 200 /\ 10 <= w box /\
  0 <= y box /\ y box + h box <= 100 /\ 10 <= h box.
Proof.
  apply (X22_crop_inside_the_bitmap
           {| Ticks.x := 120 # 1; Ticks.y := 15 # 2 |}
           {| Ticks.x := 41 # 4; Ticks.y := 80 # 1 |} 200 100); try lia.
  - split; split; discriminate.
  - split; split; discriminate.
  - reflexivity.
Defined.

End SelectionFacts.

Module PickingFacts.
Import Ticks Picking Binary64Facts.

(** *** The nearest tick *)

(** What the loop maintains: [bestD] is [Infinity] while nothing is picked
    and the squared distance of the picked point afterwards, and no point
    seen so far is nearer, in the comparison of the code. *)
Lemma nearer_fold (q0 : Point float) (pts seen : list (Point float))
    (st : option (Point float) * float) :
  (match fst st with
   | Some b => In b seen /\ snd st = dist2 q0 b
   | None => snd st = infinity
   end) ->
  PrimFloat.is_nan (snd st) = false ->
  (forall q, In q seen -> (dist2 q0 q <? snd st)%float = false) ->
  let st' := fold_left (nearer q0) pts st in
  (match fst st' with
   | Some b => In b (seen ++ pts) /\ snd st' = dist2 q0 b
   | None => snd st' = infinity
   end) /\
  PrimFloat.is_nan (snd st') = false /\
  (forall q, In q (seen ++ pts) -> (dist2 q0 q <? snd st')%float = false).
Proof.
  revert seen st. induction pts as [|q pts IH]; intros seen st Hb Hn Hall; cbn [fold_left].
  - rewrite app_nil_r. auto.
  - replace (seen ++ q :: pts) with ((seen ++ [q]) ++ pts) by (now rewrite <- app_assoc).
    apply IH; unfold nearer; destruct (dist2 q0 q <? snd st)%float eqn:L; cbn [fst snd].
    + split; [apply in_or_app; right; now left | reflexivity].
    + destruct (fst st); [|exact Hb]. destruct Hb as [Hin E].
      split; [apply in_or_app; now left | exact E].
    + eapply ltb_not_nan_l; eassumption.
    + exact Hn.
    + intros q' Hq'. apply in_app_or in Hq' as [Hq'|[<-|[]]].
      * destruct (dist2 q0 q' <? dist2 q0 q)%float eqn:L'; [|reflexivity].
        pose proof (ltb_trans _ _ _ L' L) as T. rewrite (Hall q' Hq') in T. discriminate.
      * apply ltb_irrefl.
    + intros q' Hq'. apply in_app_or in Hq' as [Hq'|[<-|[]]]; [now apply Hall | exact L].
Qed.

(** The squared distance 0.3^2 + 0.4^2 rounds to 0.25: the point is picked
    at the radius 0.5. *)
Example nearestWithin_at_the_radius :
  nearestWithin {| x := 0%float; y := 0%float |} [{| x := 0.3%float; y := 0.4%float |}] 0.5
  = Some {| x := 0.3%float; y := 0.4%float |}.
Proof. vm_compute. reflexivity. Qed.

(** X23: in the arithmetic of the code, [nearestWithin] picks a listed point
    whose squared distance (dx * dx + dy * dy, as rounded) is at most
    radius * radius and that no listed point is nearer to; when it picks
    nothing, every listed point has a squared distance that is above
    radius * radius, or is not below [Infinity] (in particular when none
    is listed). *)
Theorem X23_nearest_point_within_radius (q0 : Point float) (pts : list (Point float))
    (radius : float) :
  match nearestWithin q0 pts radius with
  | Some best =>
      In best pts /\ (dist2 q0 best <=? radius * radius)%float = true /\
      (forall q, In q pts -> (dist2 q0 q <? dist2 q0 best)%float = false)
  | None =>
      forall q, In q pts ->
        (dist2 q0 q <=? radius * radius)%float = false \/
        (dist2 q0 q <? infinity)%float = false
  end.
Proof.
  unfold nearestWithin. cbv zeta.
  destruct (nearer_fold q0 pts [] (None, infinity) eq_refl eq_refl) as (Hb & Hn & Hall);
    [intros q []|].
  cbv zeta in Hb, Hn, Hall. cbn [app] in Hb, Hall.
  destruct (fst (fold_left (nearer q0) pts (None, infinity))) as [best|].
  - destruct Hb as [Hin E]. rewrite E in *.
    destruct (dist2 q0 best <=? radius * radius)%float eqn:R.
    + auto.
    + intros q Hq. left.
      destruct (dist2 q0 q <=? radius * radius)%float eqn:R'; [|reflexivity].
      pose proof (not_ltb_leb _ _ (leb_not_nan_l _ _ R') Hn (Hall q Hq)) as Le.
      pose proof (leb_trans _ _ _ Le R') as T. congruence.
  - intros q Hq. right. rewrite <- Hb. now apply Hall.
Qed.

End PickingFacts.

Module ExportFacts.
Import Detect Curve Series DetectFacts CurveFacts RunFacts SeriesFacts.

(** *** From the trace to the series *)


Lemma insertByX_last (a : DataPoint Q) (l : list (DataPoint Q)) :
  Forall (fun b => (X b < X a)%Q) l -> insertByX a l = l ++ [a].
Proof.
  induction 1 as [|b l Hb Hall IH]; [reflexivity|].
  cbn [insertByX app]. change (nltb (ofZ 0) (nsub (X a) (X b))) with (Qltb 0 (X a - X b)).
  assert (E : Qltb 0 (X a - X b) = true) by (apply Qltb_lt; lra).
  now rewrite E, IH.
Qed.

(** A series in strictly descending order is reversed by the sort. *)
Lemma sortByX_descending (l : list (DataPoint Q)) :
  StronglySorted (fun p q => (X q < X p)%Q) l -> sortByX l = rev l.
Proof.
  induction 1 as [|a l Hs IH Hall]; [reflexivity|].
  cbn [sortByX fold_right rev]. fold (sortByX l). rewrite IH.
  apply insertByX_last. now apply Forall_rev.
Qed.

Lemma StronglySorted_map {A B : Type} (R : A -> A -> Prop) (S : B -> B -> Prop)
    (f : A -> B) (l : list A) :
  (forall a b, R a b -> S (f a) (f b)) ->
  StronglySorted R l -> StronglySorted S (map f l).
Proof.
  intros Hf. induction 1 as [|a l Hs IH Hall]; cbn [map]; constructor; [exact IH|].
  apply Forall_map. revert Hall. apply Forall_impl. intros b. apply Hf.
Qed.

(** X24: tracing and exporting, without rounding: when the calibration
    maps pixels further right to larger (or equal) X, the series of the
    trace lists the traced points from left to right; when it maps them to
    strictly smaller X and the x axis is declared reversed, it does so
    too. *)
Theorem X24_series_from_left_to_right (args : TraceArgs) (pts : list Point)
    (pixelToData : Point -> DataPoint Q) :
  traceCurveWithSeeds args = Some pts ->
  ((forall p q, (x p < x q)%Q -> (X (pixelToData p) <= X (pixelToData q))%Q) ->
   mapAndSort pts pixelToData false = map pixelToData pts) /\
  ((forall p q, (x p < x q)%Q -> (X (pixelToData q) < X (pixelToData p))%Q) ->
   mapAndSort pts pixelToData true = map pixelToData pts).
Proof.
  intros Et. pose proof (trace_increasing args pts Et) as Hs.
  unfold mapAndSort. cbv zeta. split; intros Hf.
  - apply sortByX_sorted_input.
    now apply (StronglySorted_map (fun p q => (x p < x q)%Q)).
  - rewrite sortByX_descending, rev_involutive; [reflexivity|].
    now apply (StronglySorted_map (fun p q => (x p < x q)%Q)).
Qed.

Lemma X24_series_from_left_to_right_witness :
  ((forall p q, (x p < x q)%Q ->
      (X {| X := 400 + 2 * x p; Y := 1 - y p |} <= X {| X := 400 + 2 * x q; Y := 1 - y q |})%Q) ->
   mapAndSort [ {| x := 0; y := 4 # 2 |}; {| x := 1; y := 4 # 2 |};
                {| x := 2; y := 5 # 2 |}; {| x := 3; y := 6 # 2 |} ]%Q
     (fun p => {| X := 400 + 2 * x p; Y := 1 - y p |}%Q) false
   = map (fun p => {| X := 400 + 2 * x p; Y := 1 - y p |}%Q)
       [ {| x := 0; y := 4 # 2 |}; {| x := 1; y := 4 # 2 |};
         {| x := 2; y := 5 # 2 |}; {| x := 3; y := 6 # 2 |} ]%Q) /\
  ((forall p q, (x p < x q)%Q ->
      (X {| X := 400 + 2 * x q; Y := 1 - y q |} < X {| X := 400 + 2 * x p; Y := 1 - y p |})%Q) ->
   mapAndSort [ {| x := 0; y := 4 # 2 |}; {| x := 1; y := 4 # 2 |};
                {| x := 2; y := 5 # 2 |}; {| x := 3; y := 6 # 2 |} ]%Q
     (fun p => {| X := 400 + 2 * x p; Y := 1 - y p |}%Q) true
   = map (fun p => {| X := 400 + 2 * x p; Y := 1 - y p |}%Q)
       [ {| x := 0; y := 4 # 2 |}; {| x := 1; y := 4 # 2 |};
         {| x := 2; y := 5 # 2 |}; {| x := 3; y := 6 # 2 |} ]%Q).
Proof.
  apply (X24_series_from_left_to_right (sampleTrace 1)).
  vm_compute. reflexivity.
Defined.

End ExportFacts.
